(** * Control-flow flattening (lib/Transforms/Obfuscate/Flattening.cpp)

    A shallow embedding of the flattening pass and of the part of the LLVM
    IR it edits.  A [function] is the ordered list of its basic blocks, a
    basic block the ordered list of its instructions with the terminator
    last (LLVM counts the terminator among the instructions of a block:
    [BasicBlock::size] includes it).  Blocks and instructions are compared
    by pointer in the C++ code; here they carry an identifier, and a newly
    allocated object gets an identifier above all those in the function.

    A failed assertion, a [cast<>] to the wrong class and the use of a null
    pointer are the outcome [Crash]; the loop of [fixStack] runs on fuel and
    [OutOfFuel] is the outcome of a run that was cut. *)

From Stdlib Require Import List ZArith Lia Bool Arith PeanoNat Permutation.
Import ListNotations.

Set Implicit Arguments.

(** ** Outcomes *)

Inductive result (A : Type) : Type :=
| Ok (a : A)
| Crash
| OutOfFuel.

Arguments Ok {A} a.
Arguments Crash {A}.
Arguments OutOfFuel {A}.

Definition bind {A B : Type} (r : result A) (k : A -> result B) : result B :=
  match r with
  | Ok a => k a
  | Crash => Crash
  | OutOfFuel => OutOfFuel
  end.

Notation "x <- c ;; k" := (bind c (fun x => k))
  (at level 61, c at next level, right associativity).
Notation "' p <- c ;; k" := (bind c (fun x => let p := x in k))
  (at level 61, p pattern, c at next level, right associativity).

Definition ofOption {A : Type} (o : option A) : result A :=
  match o with
  | Some a => Ok a
  | None => Crash
  end.

(** ** The IR *)

Definition block_id := nat.
Definition inst_id := nat.

Inductive type : Type :=
| VoidTy
| IntegerTy (bits : nat)
| PointerTy (elt : type)
| OtherTy (n : nat).

Definition Int32Ty : type := IntegerTy 32.

(** Operands.  [VBlock] is a basic block used as a value (the pass creates
    its switch with the entry block as a placeholder condition); [VOther]
    stands for arguments, globals and the constants that are not
    integers. *)
Inductive value : Type :=
| VInst (i : inst_id)
| VConstInt (bits : nat) (v : Z)
| VBlock (b : block_id)
| VOther (n : nat).

(** The instruction classes the pass tells apart.  [Op] is any other
    instruction that is not a terminator.  Of the terminators, [Ret] and
    [Unreachable] have no successor, [Br] one, [CondBr] two (the true
    destination is successor 0), [Switch] its default followed by one per
    case, [IndirectBr] one per destination, [Invoke] its normal and its
    unwind destination. *)
Inductive kind : Type :=
| Alloca (allocated : type)
| Load (ptr : value) (volatile : bool)
| Store (val ptr : value)
| Select (c t f : value)
| PHI (incoming : list (value * block_id))
| Op (operands : list value)
| Ret (operands : list value)
| Br (dest : block_id)
| CondBr (c : value) (ifTrue ifFalse : block_id)
| Switch (c : value) (default : block_id) (cases : list (Z * block_id))
| IndirectBr (addr : value) (dests : list block_id)
| Invoke (args : list value) (normal unwind : block_id)
| Unreachable.

Record instruction : Type := mkInst {
  iid : inst_id;
  ity : type;
  ikind : kind
}.

Record basic_block : Type := mkBB {
  bid : block_id;
  insts : list instruction
}.

Definition function : Type := list basic_block.

Definition value_eq_dec (a b : value) : {a = b} + {a <> b}.
Proof.
  decide equality; try apply Nat.eq_dec; apply Z.eq_dec.
Defined.

Definition value_eqb (a b : value) : bool :=
  if value_eq_dec a b then true else false.

(** ** Queries of the LLVM API *)

Definition isTerminator (k : kind) : bool :=
  match k with
  | Ret _ | Br _ | CondBr _ _ _ | Switch _ _ _ | IndirectBr _ _
  | Invoke _ _ _ | Unreachable => true
  | _ => false
  end.

Definition isa_PHINode (k : kind) : bool :=
  match k with PHI _ => true | _ => false end.

Definition isa_AllocaInst (k : kind) : bool :=
  match k with Alloca _ => true | _ => false end.

Definition isa_InvokeInst (k : kind) : bool :=
  match k with Invoke _ _ _ => true | _ => false end.

Definition isa_BranchInst (k : kind) : bool :=
  match k with Br _ | CondBr _ _ _ => true | _ => false end.

(** [BranchInst::isConditional] *)
Definition isConditional (k : kind) : bool :=
  match k with CondBr _ _ _ => true | _ => false end.

Definition successors (k : kind) : list block_id :=
  match k with
  | Br d => [d]
  | CondBr _ t f => [t; f]
  | Switch _ d cases => d :: map snd cases
  | IndirectBr _ ds => ds
  | Invoke _ n u => [n; u]
  | _ => []
  end.

Definition getNumSuccessors (k : kind) : nat := length (successors k).

Definition getSuccessor (k : kind) (n : nat) : option block_id :=
  nth_error (successors k) n.

(** The value operands of an instruction (its successors are not among
    them). *)
Definition operands (k : kind) : list value :=
  match k with
  | Alloca _ => []
  | Load p _ => [p]
  | Store v p => [v; p]
  | Select c t f => [c; t; f]
  | PHI inc => map fst inc
  | Op ops => ops
  | Ret ops => ops
  | Br _ => []
  | CondBr c _ _ => [c]
  | Switch c _ _ => [c]
  | IndirectBr a _ => [a]
  | Invoke args _ _ => args
  | Unreachable => []
  end.

(** [BasicBlock::getTerminator]: the last instruction when it is a
    terminator, null otherwise. *)
Definition getTerminator (bb : basic_block) : option instruction :=
  match last (map Some (insts bb)) None with
  | Some t => if isTerminator (ikind t) then Some t else None
  | None => None
  end.

Definition getBlock (f : function) (b : block_id) : option basic_block :=
  find (fun bb => bid bb =? b) f.

Definition all_insts (f : function) : list instruction :=
  flat_map insts f.

(** Identifier of the next allocated instruction, of the next allocated
    block: above every identifier that the function holds or mentions. *)
Definition value_ids (v : value) : list inst_id :=
  match v with
  | VInst i => [i]
  | _ => []
  end.

Definition mentioned (j : instruction) : list inst_id :=
  iid j :: flat_map value_ids (operands (ikind j)).

Definition fresh_iid (f : function) : inst_id :=
  S (list_max (flat_map mentioned (all_insts f))).

Definition fresh_bid (f : function) : block_id :=
  S (list_max (map bid f)).

(** ** Edits of the LLVM API *)

Definition updBlock (f : function) (b : block_id)
    (g : list instruction -> list instruction) : function :=
  map (fun bb => if bid bb =? b then mkBB (bid bb) (g (insts bb)) else bb) f.

(** Constructors taking a [BasicBlock *InsertAtEnd]. *)
Definition insertAtEnd (f : function) (b : block_id) (i : instruction)
    : function :=
  updBlock f b (fun l => l ++ [i]).

(** [Instruction::eraseFromParent] *)
Definition eraseFromParent (f : function) (i : inst_id) : function :=
  map (fun bb => mkBB (bid bb)
                   (filter (fun j => negb (iid j =? i)) (insts bb))) f.

Fixpoint insert_before (pos : inst_id) (new : instruction)
    (l : list instruction) : list instruction :=
  match l with
  | [] => []
  | j :: l' =>
      if iid j =? pos then new :: j :: l'
      else j :: insert_before pos new l'
  end.

(** Constructors taking an [Instruction *InsertBefore]. *)
Definition insertBefore (f : function) (pos : inst_id) (new : instruction)
    : function :=
  map (fun bb => mkBB (bid bb) (insert_before pos new (insts bb))) f.

Definition removeBlock (f : function) (b : block_id) : function :=
  filter (fun bb => negb (bid bb =? b)) f.

Fixpoint insertBlockBefore (f : function) (new : basic_block)
    (pos : block_id) : function :=
  match f with
  | [] => []
  | bb :: f' =>
      if bid bb =? pos then new :: bb :: f'
      else bb :: insertBlockBefore f' new pos
  end.

Fixpoint insertBlockAfter (f : function) (new : basic_block)
    (pos : block_id) : function :=
  match f with
  | [] => []
  | bb :: f' =>
      if bid bb =? pos then bb :: new :: f'
      else bb :: insertBlockAfter f' new pos
  end.

(** [BasicBlock::moveBefore], [BasicBlock::moveAfter]: unlink the block and
    link it again next to [pos]. *)
Definition moveBefore (f : function) (b pos : block_id) : function :=
  match getBlock f b with
  | Some bb => insertBlockBefore (removeBlock f b) bb pos
  | None => f
  end.

Definition moveAfter (f : function) (b pos : block_id) : function :=
  match getBlock f b with
  | Some bb => insertBlockAfter (removeBlock f b) bb pos
  | None => f
  end.

(** The PHI nodes of a block are those at its head ([BasicBlock::phis]). *)
Fixpoint map_phis (g : list (value * block_id) -> list (value * block_id))
    (l : list instruction) : list instruction :=
  match l with
  | [] => []
  | j :: l' =>
      match ikind j with
      | PHI inc => mkInst (iid j) (ity j) (PHI (g inc)) :: map_phis g l'
      | _ => j :: l'
      end
  end.

(** [BasicBlock::replaceSuccessorsPhiUsesWith (Old, New)], called on the
    block whose terminator is [t]: in the PHI nodes of each successor, the
    incoming block [old] becomes [new]. *)
Definition replaceSuccessorsPhiUsesWith (f : function) (t : kind)
    (old new : block_id) : function :=
  fold_left
    (fun f s =>
       updBlock f s
         (map_phis (map (fun vb : value * block_id =>
                           if snd vb =? old then (fst vb, new) else vb))))
    (successors t) f.

(** [BasicBlock::splitBasicBlock (I, name)] with [I] the instruction at
    index [k] of block [b]: the instructions from [I] on move to a new
    block linked right after [b], [b] gets a branch to the new block, and
    the PHI nodes of the successors are told that their edge now comes from
    the new block.  The two assertions of the method are a terminated block
    and an [I] that is not the end of the list. *)
Definition splitBasicBlock (f : function) (b : block_id) (k : nat)
    : result (function * block_id) :=
  bb <- ofOption (getBlock f b) ;;
  t <- ofOption (getTerminator bb) ;;
  if length (insts bb) <=? k then Crash
  else
    let new := fresh_bid f in
    let newBB := mkBB new (skipn k (insts bb)) in
    let f1 := insertBlockAfter f newBB b in
    let BI := mkInst (fresh_iid f) VoidTy (Br new) in
    let f2 := updBlock f1 b (fun l => firstn k l ++ [BI]) in
    Ok (replaceSuccessorsPhiUsesWith f2 (ikind t) b new, new).

Definition getInst (f : function) (i : inst_id) : option instruction :=
  find (fun j => iid j =? i) (all_insts f).

Definition updInst (f : function) (i : inst_id) (g : kind -> kind)
    : function :=
  map (fun bb =>
         mkBB (bid bb)
           (map (fun j => if iid j =? i
                          then mkInst (iid j) (ity j) (g (ikind j))
                          else j) (insts bb))) f.

(** [ConstantInt::get (i32, n)]: the value is truncated to the width. *)
Definition ConstantInt_get32 (n : nat) : Z := (Z.of_nat n) mod 2 ^ 32.

(** [SwitchInst::setCondition], [getNumCases], [addCase], [findCaseDest]. *)
Definition setCondition (c : value) (k : kind) : kind :=
  match k with
  | Switch _ d cases => Switch c d cases
  | _ => k
  end.

Definition getNumCases (k : kind) : option nat :=
  match k with
  | Switch _ _ cases => Some (length cases)
  | _ => None
  end.

Definition addCase (onVal : Z) (dest : block_id) (k : kind) : kind :=
  match k with
  | Switch c d cases => Switch c d (cases ++ [(onVal, dest)])
  | _ => k
  end.

(** [findCaseDest]: null for the default destination, for a block that no
    case leads to and for a block that several cases lead to. *)
Definition findCaseDest (k : kind) (BB : block_id) : option Z :=
  match k with
  | Switch _ d cases =>
      if BB =? d then None
      else match filter (fun c : Z * block_id => snd c =? BB) cases with
           | [c] => Some (fst c)
           | _ => None
           end
  | _ => None
  end.

(** [LoadInst::getPointerOperand] *)
Definition getPointerOperand (k : kind) : option value :=
  match k with
  | Load p _ => Some p
  | _ => None
  end.

(** [BranchInst::getCondition] after [cast<BranchInst>]; the cast fails on
    another class, and an unconditional branch has no condition. *)
Definition getCondition (k : kind) : option value :=
  match k with
  | CondBr c _ _ => Some c
  | _ => None
  end.

(** ** Flattening::flatten *)

(** The locals of [flatten] that outlive the construction of the
    dispatcher. *)
Record flat_state : Type := mkState {
  fn : function;
  origBB : list block_id;
  insert : block_id;
  loopEntry : block_id;
  load : inst_id;
  switchI : inst_id;
  switchVar : inst_id
}.

(** Lines 117-126: save all original blocks; [None] when the loop left
    with [return false] on an invoke. *)
Fixpoint save_all_original_BB (bbs : list basic_block)
    : result (option (list block_id)) :=
  match bbs with
  | [] => Ok (Some [])
  | bb :: rest =>
      t <- ofOption (getTerminator bb) ;;
      if isa_InvokeInst (ikind t) then Ok None
      else
        r <- save_all_original_BB rest ;;
        Ok (option_map (cons (bid bb)) r)
  end.

(** Lines 133-157: the first block leaves the list, and is split when it
    ends in a conditional branch or in a terminator of several
    successors. *)
Definition entry_preparation (f : function) (origBB : list block_id)
    : result (function * list block_id * block_id) :=
  let origBB := tl origBB in
  insertBB <- ofOption (hd_error f) ;;
  let insert := bid insertBB in
  t <- ofOption (getTerminator insertBB) ;;
  let br := if isa_BranchInst (ikind t) then Some t else None in
  if match br with
     | Some b => isConditional (ikind b)
     | None => false
     end
     || (1 <? getNumSuccessors (ikind t))
  then
    let size := length (insts insertBB) in
    let i := size - 1 in
    let i := if 1 <? size then i - 1 else i in
    '(f', tmpBB) <- splitBasicBlock f insert i ;;
    Ok (f', tmpBB :: origBB, insert)
  else Ok (f, origBB, insert).

(** Lines 159-189: the jump of the first block goes, the switch variable
    and its initialisation are appended to the first block, the loop entry
    is created with its load and its switch. *)
Definition dispatcher_construction (f : function) (origBB : list block_id)
    (insert : block_id) : result flat_state :=
  insertBB <- ofOption (getBlock f insert) ;;
  t <- ofOption (getTerminator insertBB) ;;
  let f := eraseFromParent f (iid t) in
  let switchVar := fresh_iid f in
  let f := insertAtEnd f insert
             (mkInst switchVar (PointerTy Int32Ty) (Alloca Int32Ty)) in
  let f := insertAtEnd f insert
             (mkInst (fresh_iid f) VoidTy
                (Store (VConstInt 32 0) (VInst switchVar))) in
  let loopEntry := fresh_bid f in
  let f := insertBlockBefore f (mkBB loopEntry []) insert in
  let load := fresh_iid f in
  let f := insertAtEnd f loopEntry
             (mkInst load Int32Ty (Load (VInst switchVar) false)) in
  let f := moveBefore f insert loopEntry in
  let f := insertAtEnd f insert (mkInst (fresh_iid f) VoidTy (Br loopEntry)) in
  begin <- ofOption (hd_error f) ;;
  let switchI := fresh_iid f in
  let f := insertAtEnd f loopEntry
             (mkInst switchI VoidTy (Switch (VBlock (bid begin)) loopEntry [])) in
  let f := updInst f switchI (setCondition (VInst load)) in
  Ok (mkState f origBB insert loopEntry load switchI switchVar).

(** Lines 196-209: every saved block is moved right after the loop entry
    and becomes the destination of the next case. *)
Fixpoint put_all_BB_in_switch (f : function) (loopEntry : block_id)
    (switchI : inst_id) (bs : list block_id) : result function :=
  match bs with
  | [] => Ok f
  | i :: bs' =>
      let f := moveAfter f i loopEntry in
      sw <- ofOption (getInst f switchI) ;;
      n <- ofOption (getNumCases (ikind sw)) ;;
      let numCase := ConstantInt_get32 n in
      let f := updInst f switchI (addCase numCase i) in
      put_all_BB_in_switch f loopEntry switchI bs'
  end.

(** Lines 214-278: the body of the loop that recalculates the switch
    variable, for the block [i]. *)
Definition rewrite_terminator (loopEntry : block_id) (load switchI : inst_id)
    (f : function) (i : block_id) : result function :=
  bb <- ofOption (getBlock f i) ;;
  t <- ofOption (getTerminator bb) ;;
  if getNumSuccessors (ikind t) =? 0 then Ok f
  else if getNumSuccessors (ikind t) =? 1 then
    succ <- ofOption (getSuccessor (ikind t) 0) ;;
    let f := eraseFromParent f (iid t) in
    sw <- ofOption (getInst f switchI) ;;
    numCase <- ofOption (findCaseDest (ikind sw) succ) ;;
    ld <- ofOption (getInst f load) ;;
    ptr <- ofOption (getPointerOperand (ikind ld)) ;;
    let f := insertAtEnd f i
               (mkInst (fresh_iid f) VoidTy (Store (VConstInt 32 numCase) ptr)) in
    let f := insertAtEnd f i (mkInst (fresh_iid f) VoidTy (Br loopEntry)) in
    Ok f
  else if getNumSuccessors (ikind t) =? 2 then
    s0 <- ofOption (getSuccessor (ikind t) 0) ;;
    s1 <- ofOption (getSuccessor (ikind t) 1) ;;
    sw <- ofOption (getInst f switchI) ;;
    numCaseTrue <- ofOption (findCaseDest (ikind sw) s0) ;;
    numCaseFalse <- ofOption (findCaseDest (ikind sw) s1) ;;
    cond <- ofOption (getCondition (ikind t)) ;;
    let sel := fresh_iid f in
    let f := insertBefore f (iid t)
               (mkInst sel Int32Ty
                  (Select cond (VConstInt 32 numCaseTrue)
                     (VConstInt 32 numCaseFalse))) in
    let f := eraseFromParent f (iid t) in
    ld <- ofOption (getInst f load) ;;
    ptr <- ofOption (getPointerOperand (ikind ld)) ;;
    let f := insertAtEnd f i
               (mkInst (fresh_iid f) VoidTy (Store (VInst sel) ptr)) in
    let f := insertAtEnd f i (mkInst (fresh_iid f) VoidTy (Br loopEntry)) in
    Ok f
  else Ok f.

(** Lines 212-279. *)
Fixpoint recalculate_switchVar (loopEntry : block_id) (load switchI : inst_id)
    (f : function) (bs : list block_id) : result function :=
  match bs with
  | [] => Ok f
  | i :: bs' =>
      f' <- rewrite_terminator loopEntry load switchI f i ;;
      recalculate_switchVar loopEntry load switchI f' bs'
  end.

(** [flatten] up to the call of [fixStack]: [None] stands for
    [return false]. *)
Definition flatten_core (f : function) : result (option flat_state) :=
  saved <- save_all_original_BB f ;;
  match saved with
  | None => Ok None
  | Some saved =>
      if length saved <=? 1 then Ok None
      else
        '(f1, blocks, first) <- entry_preparation f saved ;;
        st <- dispatcher_construction f1 blocks first ;;
        f2 <- put_all_BB_in_switch (fn st) (loopEntry st) (switchI st)
                (origBB st) ;;
        f3 <- recalculate_switchVar (loopEntry st) (load st) (switchI st) f2
                (origBB st) ;;
        Ok (Some (mkState f3 (origBB st) (insert st) (loopEntry st)
                    (load st) (switchI st) (switchVar st)))
  end.

(** ** fixStack *)

(** An [Instruction *] knows its parent: an instruction together with the
    identifier of the block it sits in. *)
Definition linst : Type := (block_id * instruction)%type.

Definition located (f : function) : list linst :=
  flat_map (fun bb => map (pair (bid bb)) (insts bb)) f.

(** A [Use] is one operand slot of a user: [getUser] is the instruction
    that owns the slot, [get] the value that sits in it. *)
Record Use : Type := mkUse {
  getUser : linst;
  getOperandNo : nat;
  get : linst
}.

Fixpoint positions (v : value) (l : list value) (n : nat) : list nat :=
  match l with
  | [] => []
  | w :: l' =>
      if value_eqb w v then n :: positions v l' (S n)
      else positions v l' (S n)
  end.

(** The use list of an instruction, in the order of the layout. *)
Definition uses (f : function) (Inst : linst) : list Use :=
  flat_map
    (fun u : linst =>
       map (fun n => mkUse u n Inst)
         (positions (VInst (iid (snd Inst))) (operands (ikind (snd u))) 0))
    (located f).

Definition use_empty (f : function) (Inst : linst) : bool :=
  match uses f Inst with
  | [] => true
  | _ => false
  end.

(** [valueEscapes], lines 56-66.  [*UI] is a [Use], and [cast<Instruction>]
    of a [Use] goes through [simplify_type<Use>], which yields the value
    that sits in the slot ([Use::get]), not the user: [I] is [Inst]
    itself at every turn of the loop. *)
Definition valueEscapes (f : function) (Inst : linst) : bool :=
  let BB := fst Inst in
  existsb
    (fun UI : Use =>
       let I := get UI in
       negb (fst I =? BB) || isa_PHINode (ikind (snd I)))
    (uses f Inst).

(** [PHINode::getIncomingBlock (U)] *)
Definition getIncomingBlock (k : kind) (n : nat) : option block_id :=
  match k with
  | PHI inc => nth_error (map snd inc) n
  | _ => None
  end.

(** [Instruction::isUsedOutsideOfBlock]: a use by a PHI node counts in the
    incoming block of its slot, any other use in the block of the user. *)
Definition isUsedOutsideOfBlock (f : function) (Inst : linst)
    (BB : block_id) : bool :=
  existsb
    (fun U : Use =>
       let I := getUser U in
       if isa_PHINode (ikind (snd I)) then
         match getIncomingBlock (ikind (snd I)) (getOperandNo U) with
         | Some B => negb (B =? BB)
         | None => false
         end
       else negb (fst I =? BB))
    (uses f Inst).

(** Lines 75-93: one scan, the PHI nodes and the instructions to demote, in
    the order they are met. *)
Definition scan (f : function) (bbEntry : block_id)
    : list inst_id * list inst_id :=
  let tmpPhi :=
    filter (fun j : linst => isa_PHINode (ikind (snd j))) (located f) in
  let tmpReg :=
    filter
      (fun j : linst =>
         negb (isa_PHINode (ikind (snd j)))
         && (negb (isa_AllocaInst (ikind (snd j)) && (fst j =? bbEntry))
             && (valueEscapes f j || isUsedOutsideOfBlock f j (fst j))))
      (located f) in
  (map (fun j => iid (snd j)) tmpPhi, map (fun j => iid (snd j)) tmpReg).

Definition getLInst (f : function) (i : inst_id) : option linst :=
  find (fun j : linst => iid (snd j) =? i) (located f).

(** [User::replaceUsesOfWith] *)
Definition replace_value (from to : value) (v : value) : value :=
  if value_eqb v from then to else v.

Definition replaceUsesOfWith (from to : value) (k : kind) : kind :=
  match k with
  | Alloca t => Alloca t
  | Load p vol => Load (replace_value from to p) vol
  | Store v p => Store (replace_value from to v) (replace_value from to p)
  | Select c t e =>
      Select (replace_value from to c) (replace_value from to t)
        (replace_value from to e)
  | PHI inc =>
      PHI (map (fun vb : value * block_id =>
                  (replace_value from to (fst vb), snd vb)) inc)
  | Op ops => Op (map (replace_value from to) ops)
  | Ret ops => Ret (map (replace_value from to) ops)
  | Br d => Br d
  | CondBr c t e => CondBr (replace_value from to c) t e
  | Switch c d cases => Switch (replace_value from to c) d cases
  | IndirectBr a ds => IndirectBr (replace_value from to a) ds
  | Invoke args n u => Invoke (map (replace_value from to) args) n u
  | Unreachable => Unreachable
  end.

(** [Value::replaceAllUsesWith] *)
Definition replaceAllUsesWith (f : function) (from to : value) : function :=
  map (fun bb =>
         mkBB (bid bb)
           (map (fun j => mkInst (iid j) (ity j)
                            (replaceUsesOfWith from to (ikind j)))
              (insts bb))) f.

(** The first instruction at or after the head of [l] that is not a PHI
    node gets [new] in front of it. *)
Fixpoint insert_at_first_non_phi (new : instruction) (l : list instruction)
    : option (list instruction) :=
  match l with
  | [] => None
  | j :: l' =>
      if isa_PHINode (ikind j)
      then option_map (cons j) (insert_at_first_non_phi new l')
      else Some (new :: j :: l')
  end.

Fixpoint insert_after (I : inst_id) (new : instruction)
    (l : list instruction) : option (list instruction) :=
  match l with
  | [] => None
  | j :: l' =>
      if iid j =? I
      then option_map (cons j) (insert_at_first_non_phi new l')
      else option_map (cons j) (insert_after I new l')
  end.

Fixpoint insert_from (P : inst_id) (new : instruction)
    (l : list instruction) : option (list instruction) :=
  match l with
  | [] => None
  | j :: l' =>
      if iid j =? P
      then insert_at_first_non_phi new (j :: l')
      else option_map (cons j) (insert_from P new l')
  end.

Fixpoint inBlock (g : list instruction -> option (list instruction))
    (i : inst_id) (f : function) : result function :=
  match f with
  | [] => Crash
  | bb :: f' =>
      if existsb (fun j => iid j =? i) (insts bb)
      then l <- ofOption (g (insts bb)) ;; Ok (mkBB (bid bb) l :: f')
      else f'' <- inBlock g i f' ;; Ok (bb :: f'')
  end.

(** The terminator of the block [b], the place where the demotions insert
    in a predecessor. *)
Definition terminatorOf (f : function) (b : block_id) : result instruction :=
  bb <- ofOption (getBlock f b) ;;
  ofOption (getTerminator bb).

(** The loads that take the place of the value [I] in the PHI node whose
    incoming values are [inc]: one load per incoming block, in front of
    the terminator of that block; [Loads] are the loads made so far. *)
Fixpoint reload_incoming (f : function) (Slot : inst_id) (t : type)
    (vol : bool) (I : inst_id) (inc : list (value * block_id))
    (Loads : list (block_id * value))
    : result (function * list (value * block_id)) :=
  match inc with
  | [] => Ok (f, [])
  | (v, B) :: inc' =>
      if value_eqb v (VInst I) then
        match find (fun l : block_id * value => fst l =? B) Loads with
        | Some l =>
            '(f', r) <- reload_incoming f Slot t vol I inc' Loads ;;
            Ok (f', (snd l, B) :: r)
        | None =>
            term <- terminatorOf f B ;;
            let V := fresh_iid f in
            let f1 := insertBefore f (iid term)
                        (mkInst V t (Load (VInst Slot) vol)) in
            '(f', r) <- reload_incoming f1 Slot t vol I inc'
                          ((B, VInst V) :: Loads) ;;
            Ok (f', (VInst V, B) :: r)
        end
      else
        '(f', r) <- reload_incoming f Slot t vol I inc' Loads ;;
        Ok (f', (v, B) :: r)
  end.

(** [PHINode::setIncomingValue], for all the slots at once. *)
Definition setIncomingValues (inc : list (value * block_id)) (k : kind)
    : kind :=
  match k with
  | PHI _ => PHI inc
  | _ => k
  end.

(** The user [U] of [I] reads a load from [Slot]: a load right in front
    of it, or the loads of [reload_incoming] when it is a PHI node. *)
Definition reload_user (f : function) (Slot : inst_id) (t : type)
    (vol : bool) (I : inst_id) (U : inst_id) : result function :=
  u <- ofOption (getInst f U) ;;
  match ikind u with
  | PHI inc =>
      '(f', inc') <- reload_incoming f Slot t vol I inc [] ;;
      Ok (updInst f' U (setIncomingValues inc'))
  | _ =>
      let V := fresh_iid f in
      let f1 := insertBefore f U (mkInst V t (Load (VInst Slot) vol)) in
      Ok (updInst f1 U (replaceUsesOfWith (VInst I) (VInst V)))
  end.

Fixpoint reload_users (f : function) (Slot : inst_id) (t : type)
    (vol : bool) (I : inst_id) (Us : list inst_id) : result function :=
  match Us with
  | [] => Ok f
  | U :: Us' =>
      f' <- reload_user f Slot t vol I U ;;
      reload_users f' Slot t vol I Us'
  end.

Definition users (f : function) (Inst : linst) : list inst_id :=
  map (fun u : linst => iid (snd u))
    (filter
       (fun u : linst =>
          existsb (fun w => value_eqb w (VInst (iid (snd Inst))))
            (operands (ikind (snd u))))
       (located f)).

(** Modelled from the spec: LLVM's [DemoteRegToStack]
    (llvm/Transforms/Utils/Local.h) is missing, no source of it is part of
    the repository.  Section 4.6, step 3: an escaping instruction result
    gets a dedicated storage cell, a store right after the definition and
    a load at each use site.  The cell is allocated in the entry block, in
    front of its first instruction, since [fixStack] passes no allocation
    point: its second argument lands in the [VolatileLoads] flag.  A load
    for a user that is a PHI node sits at the end of the incoming block,
    one per incoming block; a load for any other user sits right in front
    of it.  The users are visited in the order of the layout.  A value
    without use is erased.  The result of a terminator is outside the
    model. *)
Definition DemoteRegToStack (f : function) (I : inst_id)
    (VolatileLoads : bool) : result function :=
  Inst <- ofOption (getLInst f I) ;;
  if use_empty f Inst then Ok (eraseFromParent f I)
  else
    entry <- ofOption (hd_error f) ;;
    front <- ofOption (hd_error (insts entry)) ;;
    let t := ity (snd Inst) in
    let Slot := fresh_iid f in
    let f1 := insertBefore f (iid front)
                (mkInst Slot (PointerTy t) (Alloca t)) in
    if isTerminator (ikind (snd Inst)) then Crash
    else
      f2 <- reload_users f1 Slot t VolatileLoads I (users f Inst) ;;
      inBlock
        (insert_after I
           (mkInst (fresh_iid f2) VoidTy (Store (VInst I) (VInst Slot))))
        I f2.

(** The stores of the incoming values [inc] of a demoted PHI node, each in
    front of the terminator of the block it comes in from. *)
Fixpoint store_incoming (f : function) (Slot : inst_id)
    (inc : list (value * block_id)) : result function :=
  match inc with
  | [] => Ok f
  | (v, B) :: inc' =>
      term <- terminatorOf f B ;;
      let f1 := insertBefore f (iid term)
                  (mkInst (fresh_iid f) VoidTy (Store v (VInst Slot))) in
      store_incoming f1 Slot inc'
  end.

Definition incomingOf (k : kind) : list (value * block_id) :=
  match k with
  | PHI inc => inc
  | _ => []
  end.

(** Modelled from the spec: LLVM's [DemotePHIToStack]
    (llvm/Transforms/Utils/Local.h) is missing, no source of it is part of
    the repository.  Section 4.6, step 2, and the diamond of section 8: a
    merge-value gets a dedicated storage cell, allocated in front of the
    allocation point; each incoming value is stored into the cell at the
    end of the block it comes in from (the cell is written by the
    predecessors before their jump to the dispatcher); a load from the
    cell takes the place of the merge-value, behind the PHI nodes that
    follow it, and every use of the merge-value reads the load.  A
    merge-value without use is erased. *)
Definition DemotePHIToStack (f : function) (P : inst_id)
    (AllocaPoint : option instruction) : result function :=
  Phi <- ofOption (getLInst f P) ;;
  if use_empty f Phi then Ok (eraseFromParent f P)
  else
    let t := ity (snd Phi) in
    let Slot := fresh_iid f in
    point <- match AllocaPoint with
             | Some a => Ok a
             | None =>
                 entry <- ofOption (hd_error f) ;;
                 ofOption (hd_error (insts entry))
             end ;;
    let f1 := insertBefore f (iid point)
                (mkInst Slot (PointerTy t) (Alloca t)) in
    f2 <- store_incoming f1 Slot (incomingOf (ikind (snd Phi))) ;;
    let V := fresh_iid f2 in
    f3 <- inBlock (insert_from P (mkInst V t (Load (VInst Slot) false))) P f2 ;;
    Ok (eraseFromParent (replaceAllUsesWith f3 (VInst P) (VInst V)) P).

(** [f->begin()->getTerminator()], the second argument of both calls. *)
Definition entryTerminator (f : function) : result (option instruction) :=
  entry <- ofOption (hd_error f) ;;
  Ok (getTerminator entry).

Definition isSome {A : Type} (o : option A) : bool :=
  match o with
  | Some _ => true
  | None => false
  end.

(** Lines 94-96.  The second parameter of [DemoteRegToStack] is
    [bool VolatileLoads]: the pointer to the terminator converts to
    [true] when it is not null. *)
Fixpoint demote_regs (f : function) (tmpReg : list inst_id)
    : result function :=
  match tmpReg with
  | [] => Ok f
  | X :: rest =>
      point <- entryTerminator f ;;
      f' <- DemoteRegToStack f X (isSome point) ;;
      demote_regs f' rest
  end.

(** Lines 98-100. *)
Fixpoint demote_phis (f : function) (tmpPhi : list inst_id)
    : result function :=
  match tmpPhi with
  | [] => Ok f
  | P :: rest =>
      point <- entryTerminator f ;;
      f' <- DemotePHIToStack f P point ;;
      demote_phis f' rest
  end.

(** Lines 74-102: the do-while loop, one turn per unit of fuel. *)
Fixpoint fixStack_loop (fuel : nat) (bbEntry : block_id) (f : function)
    : result function :=
  match fuel with
  | O => OutOfFuel
  | S fuel' =>
      let '(tmpPhi, tmpReg) := scan f bbEntry in
      f1 <- demote_regs f tmpReg ;;
      f2 <- demote_phis f1 tmpPhi ;;
      if negb (length tmpReg =? 0) || negb (length tmpPhi =? 0)
      then fixStack_loop fuel' bbEntry f2
      else Ok f2
  end.

Definition fixStack (fuel : nat) (f : function) : result function :=
  bbEntry <- ofOption (hd_error f) ;;
  fixStack_loop fuel (bid bbEntry) f.

(** [Flattening::flatten]: the flag it returns and the function it
    leaves. *)
Definition flatten (fuel : nat) (f : function) : result (bool * function) :=
  st <- flatten_core f ;;
  match st with
  | None => Ok (false, f)
  | Some st =>
      f' <- fixStack fuel (fn st) ;;
      Ok (true, f')
  end.

Unset Implicit Arguments.

(** * Specification *)

(** ** Well-formed functions *)

(** Lists of identifiers without repetition, and membership, as tests. *)
Fixpoint nodupb (l : list nat) : bool :=
  match l with
  | [] => true
  | x :: l' => negb (existsb (Nat.eqb x) l') && nodupb l'
  end.

Definition memb (x : nat) (l : list nat) : bool := existsb (Nat.eqb x) l.

(** Every block ends in a terminator. *)
Definition terminatedb (f : function) : bool :=
  forallb (fun bb => isSome (getTerminator bb)) f.

(** The incoming blocks of the PHI nodes are blocks of the function. *)
Definition phi_blocksb (f : function) : bool :=
  forallb
    (fun j => forallb (fun vb : value * block_id => memb (snd vb) (map bid f))
                (incomingOf (ikind j)))
    (all_insts f).

(** No operand is the result of a terminator (with [invoke] excluded, a
    terminator has no result). *)
Definition term_unusedb (f : function) : bool :=
  forallb
    (fun t =>
       negb (isTerminator (ikind t))
       || forallb
            (fun u => negb (existsb (fun w => value_eqb w (VInst (iid t)))
                              (operands (ikind u))))
            (all_insts f))
    (all_insts f).

(** What [fixStack] relies on: blocks and instructions are distinct objects,
    every block is terminated, and there is an entry block. *)
Definition wf_function (f : function) : bool :=
  negb (length f =? 0)
  && nodupb (map bid f)
  && nodupb (map iid (all_insts f))
  && terminatedb f
  && phi_blocksb f
  && term_unusedb f.

(** The successors of every instruction are blocks of the function other
    than the entry block, which has no predecessor. *)
Definition successors_okb (f : function) : bool :=
  forallb
    (fun j => forallb (fun s => memb s (map bid (tl f))) (successors (ikind j)))
    (all_insts f).

(** What [flatten] relies on. *)
Definition wf_input (f : function) : bool :=
  wf_function f && successors_okb f.

(** The input contract of the pass: every terminator is a return, a jump or
    a conditional branch. *)
Definition lowered_kind (k : kind) : bool :=
  match k with
  | Ret _ | Br _ | CondBr _ _ _ => true
  | _ => negb (isTerminator k)
  end.

Definition loweredb (f : function) : bool :=
  forallb (fun j => lowered_kind (ikind j)) (all_insts f).

(** ** Auxiliary notions *)

(** The function whose blocks keep their identifier and get the
    instructions [G] makes of theirs; the edits of the API are of this
    form. *)
Definition mapF (G : block_id -> list instruction -> list instruction)
    (f : function) : function :=
  map (fun bb => mkBB (bid bb) (G (bid bb) (insts bb))) f.

(** The block [b] gets the instructions [l]. *)
Definition setBlock (f : function) (b : block_id) (l : list instruction)
    : function :=
  updBlock f b (fun _ => l).

(** A block ends in an [invoke]. *)
Definition has_invoke (f : function) : Prop :=
  exists bb t, In bb f /\ getTerminator bb = Some t /\
               isa_InvokeInst (ikind t) = true.

(** The same conditions as propositions. *)
Definition uniq_bids (f : function) : Prop := NoDup (map bid f).

Definition uniq_ids (f : function) : Prop :=
  NoDup (map (fun j : linst => iid (snd j)) (located f)).

Definition terminated (f : function) : Prop :=
  forall bb, In bb f -> exists t, getTerminator bb = Some t.

Definition phi_ok (f : function) : Prop :=
  forall c j v B,
    In (c, j) (located f) -> In (v, B) (incomingOf (ikind j)) ->
    In B (map bid f).

Definition unused (f : function) : Prop :=
  forall c t d u,
    In (c, t) (located f) -> In (d, u) (located f) ->
    isTerminator (ikind t) = true ->
    ~ In (VInst (iid t)) (operands (ikind u)).

Record WF (f : function) : Prop := mkWF {
  wf_ne : f <> [];
  wf_bids : uniq_bids f;
  wf_ids : uniq_ids f;
  wf_term : terminated f;
  wf_phi : phi_ok f;
  wf_unused : unused f
}.

(** [successors_okb] as a proposition. *)
Definition successors_ok (f : function) : Prop :=
  forall c j s,
    In (c, j) (located f) -> In s (successors (ikind j)) ->
    In s (map bid (tl f)).

(** The cases that [put_all_BB_in_switch] adds for the blocks [bs] when the
    switch already has [n] cases. *)
Fixpoint case_table (n : nat) (bs : list block_id) : list (Z * block_id) :=
  match bs with
  | [] => []
  | b :: bs' => (ConstantInt_get32 n, b) :: case_table (S n) bs'
  end.

(** What terminator rewriting makes of the instructions of a block; [sw] is
    the switch of the dispatch block, [sv] the state variable. *)
Inductive rewritten (LE : block_id) (sv : inst_id) (sw : kind)
    : list instruction -> list instruction -> Prop :=
| rw_return body t :
    getNumSuccessors (ikind t) = 0 ->
    rewritten LE sv sw (body ++ [t]) (body ++ [t])
| rw_wide body t :
    3 <= getNumSuccessors (ikind t) ->
    rewritten LE sv sw (body ++ [t]) (body ++ [t])
| rw_jump body t s k n1 n2 :
    successors (ikind t) = [s] ->
    findCaseDest sw s = Some k ->
    rewritten LE sv sw (body ++ [t])
      (body ++ [mkInst n1 VoidTy (Store (VConstInt 32 k) (VInst sv));
                mkInst n2 VoidTy (Br LE)])
| rw_branch body t c sT sF kT kF n0 n1 n2 :
    ikind t = CondBr c sT sF ->
    findCaseDest sw sT = Some kT ->
    findCaseDest sw sF = Some kF ->
    rewritten LE sv sw (body ++ [t])
      (body ++ [mkInst n0 Int32Ty
                  (Select c (VConstInt 32 kT) (VConstInt 32 kF));
                mkInst n1 VoidTy (Store (VInst n0) (VInst sv));
                mkInst n2 VoidTy (Br LE)]).

(** Every terminator of two successors is a conditional branch (so that
    [cast<BranchInst>] succeeds); no [invoke] passes. *)
Definition rewritableb (f : function) : bool :=
  forallb
    (fun j => negb (getNumSuccessors (ikind j) =? 2) || isConditional (ikind j))
    (all_insts f).

(** An instruction up to the incoming blocks of a PHI node, which may have
    become [new]. *)
Definition sim (new : block_id) (j j' : instruction) : Prop :=
  j' = j \/
  exists inc inc',
    ikind j = PHI inc /\ j' = mkInst (iid j) (ity j) (PHI inc') /\
    map fst inc' = map fst inc /\
    forall B, In B (map snd inc') -> B = new \/ In B (map snd inc).

(** Two functions, block by block and instruction by instruction. *)
Definition simF (new : block_id) (f f' : function) : Prop :=
  Forall2
    (fun bb bb' => bid bb' = bid bb /\ Forall2 (sim new) (insts bb) (insts bb'))
    f f'.

(** [rewritableb] as a proposition. *)
Definition rewritable (f : function) : Prop :=
  forall c j,
    In (c, j) (located f) -> getNumSuccessors (ikind j) = 2 ->
    exists cnd a b, ikind j = CondBr cnd a b.

(** A terminator without its value operands: what the demotions leave
    untouched. *)
Definition skeleton (k : kind) : kind :=
  match k with
  | Ret _ => Ret []
  | CondBr _ a b => CondBr (VOther 0) a b
  | Switch _ d cs => Switch (VOther 0) d cs
  | IndirectBr _ ds => IndirectBr (VOther 0) ds
  | Invoke _ n u => Invoke [] n u
  | _ => k
  end.

(** ** Where a value is used *)

(** The blocks in which the instruction [u] uses the value [x]: a PHI node
    uses it in the incoming block of the slot, any other instruction in its
    own block. *)
Definition sites (u : linst) (x : inst_id) : list block_id :=
  match ikind (snd u) with
  | PHI inc =>
      map snd
        (filter (fun vb : value * block_id => value_eqb (fst vb) (VInst x)) inc)
  | k =>
      if existsb (fun w => value_eqb w (VInst x)) (operands k)
      then [fst u] else []
  end.

(** [x], defined in block [b], is used outside [b]. *)
Definition used_outside (f : function) (x : inst_id) (b : block_id) : Prop :=
  exists u s, In u (located f) /\ In s (sites u x) /\ s <> b.

(** A storage cell of the entry block [e]. *)
Definition entry_alloca (e : block_id) (j : linst) : Prop :=
  isa_AllocaInst (ikind (snd j)) = true /\ fst j = e.

(** Every instruction that is not a PHI node and is used outside its block
    is a storage cell of the entry block or one of [X]. *)
Definition confined (e : block_id) (f : function) (X : list inst_id) : Prop :=
  forall j, In j (located f) ->
    isa_PHINode (ikind (snd j)) = false ->
    used_outside f (iid (snd j)) (fst j) ->
    entry_alloca e j \/ In (iid (snd j)) X.

(** No PHI node is left. *)
Definition no_phi (f : function) : Prop :=
  forall j, In j (located f) -> isa_PHINode (ikind (snd j)) = false.

(** The number of values that a scan collects. *)
Definition collected (f : function) (bbEntry : block_id) : nat :=
  length (fst (scan f bbEntry)) + length (snd (scan f bbEntry)).

(** One turn of the loop of [fixStack]. *)
Definition fixStack_body (bbEntry : block_id) (f : function)
    : result function :=
  f1 <- demote_regs f (snd (scan f bbEntry)) ;;
  demote_phis f1 (fst (scan f bbEntry)).

(** ** Order within a block, dominance *)

(** [u] reads a value that one of the instructions [l] defines. *)
Definition reads_from (u : instruction) (l : list instruction) : bool :=
  existsb
    (fun v => match v with
              | VInst x => memb x (map iid l)
              | _ => false
              end)
    (operands (ikind u)).

(** Within a block, an instruction that is not a PHI node reads no value
    that the block defines at its place or behind it. *)
Fixpoint orderedb_list (l : list instruction) : bool :=
  match l with
  | [] => true
  | u :: l' =>
      (isa_PHINode (ikind u) || negb (reads_from u (u :: l')))
      && orderedb_list l'
  end.

Definition orderedb (f : function) : bool :=
  forallb (fun bb => orderedb_list (insts bb)) f.

(** The first block has no PHI node: it has no predecessor. *)
Definition entry_no_phib (f : function) : bool :=
  match f with
  | [] => true
  | bb :: _ => forallb (fun u => negb (isa_PHINode (ikind u))) (insts bb)
  end.

(** The same as propositions. *)
Fixpoint ordered_list (l : list instruction) : Prop :=
  match l with
  | [] => True
  | u :: l' =>
      (isa_PHINode (ikind u) = false ->
       forall x, In (VInst x) (operands (ikind u)) ->
                 ~ In x (map iid (u :: l'))) /\
      ordered_list l'
  end.

Definition ordered (f : function) : Prop :=
  forall bb, In bb f -> ordered_list (insts bb).

Definition entry_no_phi (e : block_id) (f : function) : Prop :=
  forall u, In (e, u) (located f) -> isa_PHINode (ikind u) = false.

(** An edge of the control-flow graph. *)
Definition edge (f : function) (a b : block_id) : Prop :=
  exists bb t,
    getBlock f a = Some bb /\ getTerminator bb = Some t /\
    In b (successors (ikind t)).

(** A control path from the first block to the block [b]; the blocks it
    goes through, the last one first. *)
Inductive path (f : function) : block_id -> list block_id -> Prop :=
| path_entry e : hd_error (map bid f) = Some e -> path f e [e]
| path_step a b p : path f a p -> edge f a b -> path f b (b :: p).

(** Every control path that reaches the block [d] goes through the block
    [c]. *)
Definition dominates_block (f : function) (c d : block_id) : Prop :=
  forall p, path f d p -> In c p.

(** The instruction [j] is at index [i] of the block [c]. *)
Definition at_pos (f : function) (c : block_id) (i : nat) (j : instruction)
    : Prop :=
  exists bb, getBlock f c = Some bb /\ nth_error (insts bb) i = Some j.

(** The definition at index [i] of block [c] dominates the use at index
    [k] of block [d]: every control path that reaches the use went
    through the definition before. *)
Definition dominates (f : function) (c : block_id) (i : nat)
    (d : block_id) (k : nat) : Prop :=
  (c = d /\ i < k) \/ (c <> d /\ dominates_block f c d).

(** Every definition dominates each of its uses. *)
Definition dominance (f : function) : Prop :=
  forall c i D d k U,
    at_pos f c i D -> at_pos f d k U ->
    In (VInst (iid D)) (operands (ikind U)) ->
    dominates f c i d k.

(** ** What a demotion leaves as it is *)

(** An instruction that is no PHI node, is none of the values [Is] and
    reads none of them. *)
Definition untouched (Is : list inst_id) (u : instruction) : Prop :=
  isa_PHINode (ikind u) = false /\ ~ In (iid u) Is /\
  forall x, In x Is -> ~ In (VInst x) (operands (ikind u)).

(** The instructions of [f] that the demotion of [Is] does not touch are
    in [f'], in their block. *)
Definition stays (Is : list inst_id) (f f' : function) : Prop :=
  forall c u, In (c, u) (located f) -> untouched Is u ->
              In (c, u) (located f').

(** The number of values that are used outside their block, the storage
    cells of the first block apart: the quantity of the termination
    argument of the loop. *)
Definition escaping (f : function) (bbEntry : block_id) : nat :=
  length
    (filter
       (fun j : linst =>
          negb (isa_AllocaInst (ikind (snd j)) && (fst j =? bbEntry))
          && isUsedOutsideOfBlock f j (fst j))
       (located f)).

(** ** The values that are used outside their block *)

(** The value [y] is defined by an instruction that is no storage cell of
    the block [e], and is used outside the block of that instruction. *)
Definition esc (e : block_id) (f : function) (y : inst_id) : Prop :=
  exists j, In j (located f) /\ iid (snd j) = y /\
            ~ entry_alloca e j /\ used_outside f y (fst j).

(** No value of [f'] is used outside its block that was not in [f]. *)
Definition shrinks (e : block_id) (f f' : function) : Prop :=
  forall y, esc e f' y -> esc e f y.

(** Every value of [f] that is used outside its block is in [X]. *)
Definition bounded (e : block_id) (f : function) (X : list inst_id) : Prop :=
  forall y, esc e f y -> In y X.

(** ** Views of the edits *)

(** What [updInst] does to one instruction. *)
Definition upd_inst (x : inst_id) (g : kind -> kind) (j : instruction)
    : instruction :=
  if iid j =? x then mkInst (iid j) (ity j) (g (ikind j)) else j.

(** What [replaceAllUsesWith] does to one instruction. *)
Definition rauw_inst (from to : value) (j : instruction) : instruction :=
  mkInst (iid j) (ity j) (replaceUsesOfWith from to (ikind j)).

(** [f'] is [f] with the instruction [new] put in block [c], not at its
    end. *)
Definition inserted (c : block_id) (new : instruction) (f f' : function)
    : Prop :=
  exists pre bb post l1 l2,
    f = pre ++ bb :: post /\ bid bb = c /\ insts bb = l1 ++ l2 /\ l2 <> [] /\
    f' = pre ++ mkBB c (l1 ++ new :: l2) :: post.

(** The identifier of a located instruction. *)
Definition idf (j : linst) : inst_id := iid (snd j).

(** The five instructions that the construction of the dispatcher
    creates, by their identifiers. *)
Definition AllocaSV (sv : inst_id) : instruction :=
  mkInst sv (PointerTy Int32Ty) (Alloca Int32Ty).

Definition StoreZero (s0 sv : inst_id) : instruction :=
  mkInst s0 VoidTy (Store (VConstInt 32 0) (VInst sv)).

Definition JumpTo (bj : inst_id) (LE : block_id) : instruction :=
  mkInst bj VoidTy (Br LE).

Definition LoadSV (ld sv : inst_id) : instruction :=
  mkInst ld Int32Ty (Load (VInst sv) false).

Definition SwitchOn (sw ld : inst_id) (LE : block_id)
    (cases : list (Z * block_id)) : instruction :=
  mkInst sw VoidTy (Switch (VInst ld) LE cases).

(** The properties that do not look at the end of the blocks. *)
Record WF0 (f : function) : Prop := mkWF0 {
  wf0_bids : uniq_bids f;
  wf0_ids : uniq_ids f;
  wf0_phi : phi_ok f;
  wf0_unused : unused f
}.

(** The switch with the cases [cs]. *)
Definition setCases (cs : list (Z * block_id)) (k : kind) : kind :=
  match k with
  | Switch c d _ => Switch c d cs
  | _ => k
  end.

(** ** The invariants of a demotion *)

(** Some instruction has [x] among its operands. *)
Definition mentions (f : function) (x : inst_id) : Prop :=
  exists u, In u (located f) /\ In (VInst x) (operands (ikind (snd u))).

(** [e] is the first block. *)
Definition entry_is (e : block_id) (f : function) : Prop :=
  hd_error (map bid f) = Some e.

(** [Slot] is a storage cell of the entry block. *)
Definition slot_ok (e : block_id) (Slot : inst_id) (f : function) : Prop :=
  exists a, In (e, a) (located f) /\ iid a = Slot /\
            isa_AllocaInst (ikind a) = true.

(** [x] is a PHI node; [x] is an instruction that is neither a PHI node
    nor a terminator. *)
Definition phi_id (f : function) (x : inst_id) : Prop :=
  exists j, In j (located f) /\ iid (snd j) = x /\
            isa_PHINode (ikind (snd j)) = true.

Definition reg_id (f : function) (x : inst_id) : Prop :=
  exists j, In j (located f) /\ iid (snd j) = x /\
            isa_PHINode (ikind (snd j)) = false /\
            isTerminator (ikind (snd j)) = false.

(** The function holds an instruction [x]. *)
Definition has_id (f : function) (x : inst_id) : Prop :=
  exists j, In j (located f) /\ iid (snd j) = x.

(** What the insertion of loads, stores and entry-block cells and the
    replacement of operands keep of [f]. *)
Record persists (e : block_id) (f f' : function) : Prop := mkPersists {
  p_bids : map bid f' = map bid f;
  p_phi : forall x, phi_id f' x <-> phi_id f x;
  p_reg : forall x, reg_id f x -> reg_id f' x;
  p_ids : forall x, has_id f x -> has_id f' x;
  p_term : forall c j', In (c, j') (located f') ->
    isTerminator (ikind j') = true ->
    exists j, In (c, j) (located f) /\ skeleton (ikind j') = skeleton (ikind j);
  p_alloca : forall j, In j (located f') ->
    isa_AllocaInst (ikind (snd j)) = true -> In j (located f) \/ fst j = e
}.

(** The state of a demotion in progress. *)
Record rinv (e : block_id) (Slot : inst_id) (X : list inst_id) (f : function)
    : Prop := mkRinv {
  r_wf : WF f;
  r_entry : entry_is e f;
  r_slot : slot_ok e Slot f;
  r_conf : confined e f X
}.

(** A load from [Slot] that was made at [n0] or later. *)
Definition new_load (Slot : inst_id) (n0 : nat) (j : linst) : Prop :=
  isa_PHINode (ikind (snd j)) = false /\
  isTerminator (ikind (snd j)) = false /\
  operands (ikind (snd j)) = [VInst Slot] /\
  n0 <= iid (snd j).

(** Who mentions [I] in [f'] did so in [f] and is not one of [Us]. *)
Definition uses_left (I : inst_id) (Us : list inst_id) (f f' : function)
    : Prop :=
  forall u', In u' (located f') ->
    In (VInst I) (operands (ikind (snd u'))) ->
    exists u, In u (located f) /\ iid (snd u) = iid (snd u') /\
              In (VInst I) (operands (ikind (snd u))) /\
              ~ In (iid (snd u)) Us.

(** What the demotion of [I] keeps. *)
Record demoted (e : block_id) (I : inst_id) (f f' : function) : Prop :=
  mkDemoted {
  d_bids : map bid f' = map bid f;
  d_phi : forall x, phi_id f' x <-> phi_id f x /\ x <> I;
  d_reg : forall x, reg_id f x -> x <> I -> reg_id f' x;
  d_term : forall c j', In (c, j') (located f') ->
    isTerminator (ikind j') = true ->
    exists j, In (c, j) (located f) /\ skeleton (ikind j') = skeleton (ikind j);
  d_alloca : forall j, In j (located f') ->
    isa_AllocaInst (ikind (snd j)) = true -> In j (located f) \/ fst j = e
}.

(** ** What the loop keeps, the shape of the result *)

(** What the demotion of the values [Is] keeps. *)
Record demoted_all (e : block_id) (Is : list inst_id) (f f' : function)
    : Prop := mkDemotedAll {
  da_bids : map bid f' = map bid f;
  da_phi : forall x, phi_id f' x <-> phi_id f x /\ ~ In x Is;
  da_reg : forall x, reg_id f x -> ~ In x Is -> reg_id f' x;
  da_term : forall c j', In (c, j') (located f') ->
    isTerminator (ikind j') = true ->
    exists j, In (c, j) (located f) /\ skeleton (ikind j') = skeleton (ikind j);
  da_alloca : forall j, In j (located f') ->
    isa_AllocaInst (ikind (snd j)) = true -> In j (located f) \/ fst j = e
}.

(** What [fixStack] keeps: the blocks, the terminators up to their value
    operands, and the storage cells outside the entry block. *)
Record kept (e : block_id) (f f' : function) : Prop := mkKept {
  kp_bids : map bid f' = map bid f;
  kp_term : forall c j', In (c, j') (located f') ->
    isTerminator (ikind j') = true ->
    exists j, In (c, j) (located f) /\ skeleton (ikind j') = skeleton (ikind j);
  kp_alloca : forall j, In j (located f') ->
    isa_AllocaInst (ikind (snd j)) = true -> In j (located f) \/ fst j = e
}.

(** No instruction in front of the last one is a terminator. *)
Definition tidyb (f : function) : bool :=
  forallb
    (fun bb =>
       forallb (fun j => negb (isTerminator (ikind j))) (removelast (insts bb)))
    f.

(** [tidyb] and [loweredb] as propositions. *)
Definition tidy (f : function) : Prop :=
  forall bb body t, In bb f -> insts bb = body ++ [t] ->
    forall j, In j body -> isTerminator (ikind j) = false.

Definition lowered (f : function) : Prop :=
  forall c j, In (c, j) (located f) -> lowered_kind (ikind j) = true.

(** A terminator in the block [c] of the flattened function: the switch of
    the dispatch block, a return, or a jump to the dispatch block. *)
Definition flat_terminator (LE : block_id) (c : block_id) (k : kind) : Prop :=
  (c = LE /\ exists v cases, k = Switch v LE cases) \/
  (c <> LE /\ ((exists ops, k = Ret ops) \/ k = Br LE)).

(** ** What a demotion keeps in place *)

(** [Slot] is the first instruction of the first block. *)
Definition slot_first (Slot : inst_id) (f : function) : Prop :=
  exists bb tl s l0, f = bb :: tl /\ insts bb = s :: l0 /\ iid s = Slot.

(** The instructions that are no PHI node and do not read [I] are in
    [f'], in their block. *)
Definition keeps (I : inst_id) (f f' : function) : Prop :=
  forall c u, In (c, u) (located f) -> isa_PHINode (ikind u) = false ->
    ~ In (VInst I) (operands (ikind u)) -> In (c, u) (located f').

(** A value other than [I] that is read in [f] is read in [f']. *)
Definition ment_kept (I : inst_id) (f f' : function) : Prop :=
  forall y, y <> I -> mentions f y -> mentions f' y.

(** A storage cell with the store that fills it: what the demotion of
    the value [j], defined by [x] in block [c], leaves in [f']. *)
Definition cell_of (e : block_id) (f f' : function) (c : block_id)
    (x : instruction) : Prop :=
  In (c, x) (located f') /\
  exists Slot s,
    ~ has_id f Slot /\ ~ has_id f s /\
    In (e, mkInst Slot (PointerTy (ity x)) (Alloca (ity x))) (located f') /\
    In (c, mkInst s VoidTy (Store (VInst (iid x)) (VInst Slot))) (located f').

(** ** Sample functions *)

(** Three blocks in a row; the value of the first block is returned by the
    last. *)
Definition ex_straight : function :=
  [ mkBB 0 [mkInst 10 Int32Ty (Op []); mkInst 11 VoidTy (Br 1)];
    mkBB 1 [mkInst 12 VoidTy (Br 2)];
    mkBB 2 [mkInst 13 VoidTy (Ret [VInst 10])] ].

(** Three blocks in a row, no value crosses a block. *)
Definition ex_plain : function :=
  [ mkBB 0 [mkInst 10 VoidTy (Br 1)];
    mkBB 1 [mkInst 11 VoidTy (Br 2)];
    mkBB 2 [mkInst 12 VoidTy (Ret [])] ].

(** A diamond: the entry block branches, the last block merges. *)
Definition ex_diamond : function :=
  [ mkBB 0 [mkInst 10 Int32Ty (Op []);
            mkInst 11 VoidTy (CondBr (VInst 10) 1 2)];
    mkBB 1 [mkInst 12 Int32Ty (Op []); mkInst 13 VoidTy (Br 3)];
    mkBB 2 [mkInst 14 Int32Ty (Op []); mkInst 15 VoidTy (Br 3)];
    mkBB 3 [mkInst 16 Int32Ty (PHI [(VInst 12, 1); (VInst 14, 2)]);
            mkInst 17 VoidTy (Ret [VInst 16])] ].

(** A block that ends in a switch of three destinations. *)
Definition ex_wide : function :=
  [ mkBB 0 [mkInst 10 VoidTy (Br 1)];
    mkBB 1 [mkInst 11 Int32Ty (Op []);
            mkInst 12 VoidTy (Switch (VInst 11) 2 [(0%Z, 3); (1%Z, 4)])];
    mkBB 2 [mkInst 13 VoidTy (Ret [])];
    mkBB 3 [mkInst 14 VoidTy (Ret [])];
    mkBB 4 [mkInst 15 VoidTy (Ret [])] ].

(** A storage cell outside the entry block, read in another block. *)
Definition ex_cell : function :=
  [ mkBB 0 [mkInst 10 VoidTy (Br 1)];
    mkBB 1 [mkInst 11 (PointerTy Int32Ty) (Alloca Int32Ty);
            mkInst 12 VoidTy (Br 2)];
    mkBB 2 [mkInst 13 Int32Ty (Load (VInst 11) false);
            mkInst 14 VoidTy (Ret [VInst 13])] ].

(** [ex_diamond] as [flatten] hands it to [fixStack]: the first block
    was split, block 4 took its branch; the state variable is 18, the
    dispatch block is 5. *)
Definition ex_diamond_core : function :=
  [ mkBB 0 [mkInst 18 (PointerTy Int32Ty) (Alloca Int32Ty);
            mkInst 19 VoidTy (Store (VConstInt 32 0) (VInst 18));
            mkInst 21 VoidTy (Br 5)];
    mkBB 5 [mkInst 20 Int32Ty (Load (VInst 18) false);
            mkInst 22 VoidTy
              (Switch (VInst 20) 5 [(0%Z, 4); (1%Z, 1); (2%Z, 2); (3%Z, 3)])];
    mkBB 3 [mkInst 16 Int32Ty (PHI [(VInst 12, 1); (VInst 14, 2)]);
            mkInst 17 VoidTy (Ret [VInst 16])];
    mkBB 2 [mkInst 14 Int32Ty (Op []);
            mkInst 28 VoidTy (Store (VConstInt 32 3) (VInst 18));
            mkInst 29 VoidTy (Br 5)];
    mkBB 1 [mkInst 12 Int32Ty (Op []);
            mkInst 26 VoidTy (Store (VConstInt 32 3) (VInst 18));
            mkInst 27 VoidTy (Br 5)];
    mkBB 4 [mkInst 10 Int32Ty (Op []);
            mkInst 23 Int32Ty
              (Select (VInst 10) (VConstInt 32 1) (VConstInt 32 2));
            mkInst 24 VoidTy (Store (VInst 23) (VInst 18));
            mkInst 25 VoidTy (Br 5)] ].

(** [ex_diamond_core] when the loop of [fixStack] is over: the PHI node 16
    became the storage cell 30 of the first block, written in the blocks
    1 and 2 and read in block 3. *)
Definition ex_diamond_fixed : function :=
  [ mkBB 0 [mkInst 18 (PointerTy Int32Ty) (Alloca Int32Ty);
            mkInst 19 VoidTy (Store (VConstInt 32 0) (VInst 18));
            mkInst 30 (PointerTy Int32Ty) (Alloca Int32Ty);
            mkInst 21 VoidTy (Br 5)];
    mkBB 5 [mkInst 20 Int32Ty (Load (VInst 18) false);
            mkInst 22 VoidTy
              (Switch (VInst 20) 5 [(0%Z, 4); (1%Z, 1); (2%Z, 2); (3%Z, 3)])];
    mkBB 3 [mkInst 33 Int32Ty (Load (VInst 30) false);
            mkInst 17 VoidTy (Ret [VInst 33])];
    mkBB 2 [mkInst 14 Int32Ty (Op []);
            mkInst 28 VoidTy (Store (VConstInt 32 3) (VInst 18));
            mkInst 32 VoidTy (Store (VInst 14) (VInst 30));
            mkInst 29 VoidTy (Br 5)];
    mkBB 1 [mkInst 12 Int32Ty (Op []);
            mkInst 26 VoidTy (Store (VConstInt 32 3) (VInst 18));
            mkInst 31 VoidTy (Store (VInst 12) (VInst 30));
            mkInst 27 VoidTy (Br 5)];
    mkBB 4 [mkInst 10 Int32Ty (Op []);
            mkInst 23 Int32Ty
              (Select (VInst 10) (VConstInt 32 1) (VConstInt 32 2));
            mkInst 24 VoidTy (Store (VInst 23) (VInst 18));
            mkInst 25 VoidTy (Br 5)] ].

(** [ex_straight] as [flatten] hands it to [fixStack]: the value 10 of
    the first block is returned by block 2; the state variable is 14,
    the dispatch block is 3. *)
Definition ex_straight_core : function :=
  [ mkBB 0 [mkInst 10 Int32Ty (Op []);
            mkInst 14 (PointerTy Int32Ty) (Alloca Int32Ty);
            mkInst 15 VoidTy (Store (VConstInt 32 0) (VInst 14));
            mkInst 17 VoidTy (Br 3)];
    mkBB 3 [mkInst 16 Int32Ty (Load (VInst 14) false);
            mkInst 18 VoidTy (Switch (VInst 16) 3 [(0%Z, 1); (1%Z, 2)])];
    mkBB 2 [mkInst 13 VoidTy (Ret [VInst 10])];
    mkBB 1 [mkInst 19 VoidTy (Store (VConstInt 32 1) (VInst 14));
            mkInst 20 VoidTy (Br 3)] ].

(** [ex_cell] as [flatten] hands it to [fixStack]: the storage cell 11
    of block 1 is read in block 2; the state variable is 15, the
    dispatch block is 3. *)
Definition ex_cell_core : function :=
  [ mkBB 0 [mkInst 15 (PointerTy Int32Ty) (Alloca Int32Ty);
            mkInst 16 VoidTy (Store (VConstInt 32 0) (VInst 15));
            mkInst 18 VoidTy (Br 3)];
    mkBB 3 [mkInst 17 Int32Ty (Load (VInst 15) false);
            mkInst 19 VoidTy (Switch (VInst 17) 3 [(0%Z, 1); (1%Z, 2)])];
    mkBB 2 [mkInst 13 Int32Ty (Load (VInst 11) false);
            mkInst 14 VoidTy (Ret [VInst 13])];
    mkBB 1 [mkInst 11 (PointerTy Int32Ty) (Alloca Int32Ty);
            mkInst 20 VoidTy (Store (VConstInt 32 1) (VInst 15));
            mkInst 21 VoidTy (Br 3)] ].

(** The switch of the dispatch block in the state [st]. *)
Definition dispatch_switch (st : flat_state) : kind :=
  Switch (VInst (load st)) (loopEntry st) (case_table 0 (origBB st)).

(** What terminator rewriting makes of the instructions [l] of a block:
    the three cases of lines 212-279, by the terminator [t] of [l]. *)
Definition rewrites_terminator (st : flat_state)
    (l l' : list instruction) : Prop :=
  exists body t,
    l = body ++ [t] /\
    (getNumSuccessors (ikind t) = 0 -> l' = body ++ [t]) /\
    (forall s, successors (ikind t) = [s] ->
       exists k n1 n2,
         findCaseDest (dispatch_switch st) s = Some k /\
         l' = body ++
              [mkInst n1 VoidTy (Store (VConstInt 32 k) (VInst (switchVar st)));
               mkInst n2 VoidTy (Br (loopEntry st))]) /\
    (forall c sT sF, ikind t = CondBr c sT sF ->
       exists kT kF n0 n1 n2,
         findCaseDest (dispatch_switch st) sT = Some kT /\
         findCaseDest (dispatch_switch st) sF = Some kF /\
         l' = body ++
              [mkInst n0 Int32Ty (Select c (VConstInt 32 kT) (VConstInt 32 kF));
               mkInst n1 VoidTy (Store (VInst n0) (VInst (switchVar st)));
               mkInst n2 VoidTy (Br (loopEntry st))]).

(** The shape of a flattened function with first block [e] and dispatch
    block [LE]: every other block ends in a return or in a jump to [LE],
    and no block but [LE] holds a conditional branch. *)
Definition flat_shape (e LE : block_id) (f : function) : Prop :=
  (forall bb, In bb f -> bid bb <> e -> bid bb <> LE ->
     exists t,
       getTerminator bb = Some t /\
       ((exists ops, ikind t = Ret ops) \/ ikind t = Br LE)) /\
  (forall bb j, In bb f -> bid bb <> LE -> In j (insts bb) ->
     isConditional (ikind j) = false).

(** The entry block jumps over block 1 to block 2, which jumps back. *)
Definition ex_skip : function :=
  [ mkBB 0 [mkInst 10 VoidTy (Br 2)];
    mkBB 1 [mkInst 11 VoidTy (Ret [])];
    mkBB 2 [mkInst 12 VoidTy (Br 1)] ].

(** An indirect branch of two destinations. *)
Definition ex_indirect : function :=
  [ mkBB 0 [mkInst 10 VoidTy (Br 1)];
    mkBB 1 [mkInst 11 Int32Ty (Op []);
            mkInst 12 VoidTy (IndirectBr (VInst 11) [2; 3])];
    mkBB 2 [mkInst 13 VoidTy (Ret [])];
    mkBB 3 [mkInst 14 VoidTy (Ret [])] ].

(** * Properties *)

(** ** Blocks and their instructions *)

Lemma bb_eta (bb : basic_block) : mkBB (bid bb) (insts bb) = bb.
Proof. destruct bb; reflexivity. Qed.

Lemma map_bid_mapF G f : map bid (mapF G f) = map bid f.
Proof.
  unfold mapF; rewrite map_map; apply map_ext; reflexivity.
Qed.

Lemma updBlock_mapF f b g :
  updBlock f b g = mapF (fun c l => if c =? b then g l else l) f.
Proof.
  unfold updBlock, mapF; apply map_ext; intros bb.
  destruct (bid bb =? b); [reflexivity | symmetry; apply bb_eta].
Qed.

Lemma getBlock_Some f b bb :
  getBlock f b = Some bb -> In bb f /\ bid bb = b.
Proof.
  unfold getBlock; intros H; apply find_some in H.
  destruct H as [H1 H2]; apply Nat.eqb_eq in H2; auto.
Qed.

Lemma getBlock_None f b :
  getBlock f b = None <-> ~ In b (map bid f).
Proof.
  unfold getBlock; induction f as [|bb f IH]; simpl.
  - tauto.
  - destruct (Nat.eqb_spec (bid bb) b) as [E|E].
    + split; [discriminate | intros H; exfalso; apply H; auto].
    + rewrite IH; split; [intros H [H'|H']; auto | intros H H'; auto].
Qed.

Lemma getBlock_In f bb :
  NoDup (map bid f) -> In bb f -> getBlock f (bid bb) = Some bb.
Proof.
  unfold getBlock; induction f as [|x f IH]; simpl; intros ND HI; [easy|].
  inversion ND as [|? ? Hx ND']; subst.
  destruct HI as [->|HI]; [rewrite Nat.eqb_refl; reflexivity|].
  destruct (Nat.eqb_spec (bid x) (bid bb)) as [E|E]; [|auto].
  exfalso; apply Hx; rewrite E; apply in_map; exact HI.
Qed.

Lemma getBlock_mapF G f b :
  getBlock (mapF G f) b =
  option_map (fun bb => mkBB (bid bb) (G (bid bb) (insts bb))) (getBlock f b).
Proof.
  unfold getBlock, mapF; induction f as [|x f IH]; simpl; [reflexivity|].
  destruct (bid x =? b); [reflexivity | exact IH].
Qed.

Lemma In_located f c j :
  In (c, j) (located f) <-> exists bb, In bb f /\ bid bb = c /\ In j (insts bb).
Proof.
  unfold located; rewrite in_flat_map; split.
  - intros [bb [H1 H2]]; apply in_map_iff in H2.
    destruct H2 as [x [E H2]]; inversion E; subst; eauto.
  - intros [bb [H1 [H2 H3]]]; exists bb; split; [exact H1|].
    apply in_map_iff; exists j; subst; auto.
Qed.

Lemma In_located_mapF G f c j :
  In (c, j) (located (mapF G f)) <->
  exists bb, In bb f /\ bid bb = c /\ In j (G c (insts bb)).
Proof.
  rewrite In_located; unfold mapF; split.
  - intros [bb [H1 [H2 H3]]]; apply in_map_iff in H1.
    destruct H1 as [x [E H1]]; subst bb; simpl in *; subst c; eauto.
  - intros [bb [H1 [H2 H3]]].
    exists (mkBB (bid bb) (G (bid bb) (insts bb))); simpl; subst c.
    split; [apply in_map_iff; eauto | auto].
Qed.

Lemma all_insts_located f : all_insts f = map snd (located f).
Proof.
  unfold all_insts, located; induction f as [|bb f IH]; simpl; [reflexivity|].
  rewrite map_app, map_map, IH; simpl; rewrite map_id; reflexivity.
Qed.

Lemma In_all_insts f j :
  In j (all_insts f) <-> exists c, In (c, j) (located f).
Proof.
  rewrite all_insts_located, in_map_iff; split.
  - intros [[c x] [E H]]; simpl in E; subst; eauto.
  - intros [c H]; exists (c, j); auto.
Qed.

(** ** Fresh identifiers *)

Lemma list_max_ge l n : In n l -> n <= list_max l.
Proof.
  induction l as [|x l IH]; simpl; [easy|].
  intros [->|H]; [lia | specialize (IH H); lia].
Qed.

Lemma fresh_iid_gt f j : In j (all_insts f) -> iid j < fresh_iid f.
Proof.
  intros H; unfold fresh_iid; apply Nat.lt_succ_r, list_max_ge.
  apply in_flat_map; exists j; split; [exact H | left; reflexivity].
Qed.

Lemma fresh_iid_gt_operand f j x :
  In j (all_insts f) -> In (VInst x) (operands (ikind j)) -> x < fresh_iid f.
Proof.
  intros H Hx; unfold fresh_iid; apply Nat.lt_succ_r, list_max_ge.
  apply in_flat_map; exists j; split; [exact H|].
  right; apply in_flat_map; exists (VInst x); split; [exact Hx | left; reflexivity].
Qed.

Lemma fresh_bid_gt f bb : In bb f -> bid bb < fresh_bid f.
Proof.
  intros H; unfold fresh_bid; apply Nat.lt_succ_r, list_max_ge.
  apply in_map; exact H.
Qed.

Lemma fresh_bid_notin f : ~ In (fresh_bid f) (map bid f).
Proof.
  intros H; apply in_map_iff in H; destruct H as [bb [E H]].
  apply fresh_bid_gt in H; lia.
Qed.

(** ** The terminator *)

Lemma last_map_Some (l : list instruction) t :
  last (map Some l) None = Some t <-> exists l', l = l' ++ [t].
Proof.
  split.
  - induction l as [|x l IH]; simpl; [discriminate|].
    destruct l as [|y l]; simpl in *.
    + intros E; inversion E; subst; exists []; reflexivity.
    + intros E; destruct (IH E) as [l' E']; exists (x :: l'); rewrite E'; reflexivity.
  - intros [l' ->]; rewrite map_app; simpl; rewrite last_last; reflexivity.
Qed.

Lemma getTerminator_Some bb t :
  getTerminator bb = Some t <->
  exists l, insts bb = l ++ [t] /\ isTerminator (ikind t) = true.
Proof.
  unfold getTerminator; split.
  - destruct (last (map Some (insts bb)) None) as [x|] eqn:E; [|discriminate].
    destruct (isTerminator (ikind x)) eqn:T; [|discriminate].
    intros H; inversion H; subst; apply last_map_Some in E.
    destruct E as [l E]; eauto.
  - intros [l [E T]]; rewrite E, map_app; simpl; rewrite last_last, T; reflexivity.
Qed.

Lemma getTerminator_app b l t :
  isTerminator (ikind t) = true -> getTerminator (mkBB b (l ++ [t])) = Some t.
Proof.
  intros T; apply getTerminator_Some; exists l; auto.
Qed.

(** ** The precondition check *)

Lemma terminatedb_In f bb :
  terminatedb f = true -> In bb f -> exists t, getTerminator bb = Some t.
Proof.
  unfold terminatedb; rewrite forallb_forall; intros H HI.
  specialize (H bb HI); destruct (getTerminator bb) as [t|]; [eauto | discriminate].
Qed.

Lemma save_all_Some bbs l :
  save_all_original_BB bbs = Ok (Some l) ->
  l = map bid bbs /\
  forall bb t, In bb bbs -> getTerminator bb = Some t ->
               isa_InvokeInst (ikind t) = false.
Proof.
  revert l; induction bbs as [|bb bbs IH]; simpl; intros l H.
  - inversion H; split; [reflexivity | intros ? ? []].
  - destruct (getTerminator bb) as [t|] eqn:T; simpl in H; [|discriminate].
    destruct (isa_InvokeInst (ikind t)) eqn:I; [discriminate|].
    destruct (save_all_original_BB bbs) as [[l'|]| |] eqn:S; simpl in H;
      try discriminate.
    inversion H; subst l; destruct (IH l' eq_refl) as [-> IH2].
    split; [reflexivity|].
    intros bb' t' [<-|HI] T'; [congruence | eauto].
Qed.

Lemma save_all_None bbs :
  save_all_original_BB bbs = Ok None ->
  exists bb t, In bb bbs /\ getTerminator bb = Some t /\
               isa_InvokeInst (ikind t) = true.
Proof.
  induction bbs as [|bb bbs IH]; simpl; intros H; [discriminate|].
  destruct (getTerminator bb) as [t|] eqn:T; simpl in H; [|discriminate].
  destruct (isa_InvokeInst (ikind t)) eqn:I.
  - exists bb, t; auto.
  - destruct (save_all_original_BB bbs) as [[l'|]| |] eqn:S; simpl in H;
      try discriminate.
    destruct (IH eq_refl) as [bb' [t' [H1 H2]]]; exists bb', t'; auto.
Qed.

Lemma save_all_total bbs :
  terminatedb bbs = true ->
  save_all_original_BB bbs = Ok None \/
  save_all_original_BB bbs = Ok (Some (map bid bbs)).
Proof.
  induction bbs as [|bb bbs IH]; simpl; intros H; [right; reflexivity|].
  apply andb_prop in H; destruct H as [H1 H2].
  destruct (getTerminator bb) as [t|]; [simpl | discriminate].
  destruct (isa_InvokeInst (ikind t)); [left; reflexivity|].
  destruct (IH H2) as [-> | ->]; simpl; auto.
Qed.

Lemma flatten_false fuel f f' :
  flatten fuel f = Ok (false, f') -> flatten_core f = Ok None /\ f' = f.
Proof.
  unfold flatten; destruct (flatten_core f) as [[st|]| |]; simpl;
    try discriminate.
  - destruct (fixStack fuel (fn st)); simpl; discriminate.
  - intros H; inversion H; auto.
Qed.

Lemma flatten_core_None f :
  flatten_core f = Ok None <->
  save_all_original_BB f = Ok None \/
  (exists l, save_all_original_BB f = Ok (Some l) /\ length l <= 1).
Proof.
  unfold flatten_core; split.
  - destruct (save_all_original_BB f) as [[l|]| |]; simpl; try discriminate;
      [|auto].
    destruct (Nat.leb_spec (length l) 1) as [L|L]; [right; eauto|].
    destruct (entry_preparation f l) as [[[f1 o1] i1]| |]; simpl;
      try discriminate.
    destruct (dispatcher_construction f1 o1 i1) as [st| |]; simpl;
      try discriminate.
    destruct (put_all_BB_in_switch _ _ _ _); simpl; try discriminate.
    destruct (recalculate_switchVar _ _ _ _ _); simpl; discriminate.
  - intros [-> | [l [-> L]]]; simpl; [reflexivity|].
    apply Nat.leb_le in L; rewrite L; reflexivity.
Qed.

Lemma flatten_declines fuel f :
  terminatedb f = true ->
  ((exists f', flatten fuel f = Ok (false, f')) <->
   has_invoke f \/ length f <= 1).
Proof.
  intros T; split.
  - intros [f' H]; apply flatten_false in H; destruct H as [H _].
    apply flatten_core_None in H; destruct H as [H | [l [H L]]].
    + left; apply save_all_None; exact H.
    + right; apply save_all_Some in H; destruct H as [-> _].
      rewrite length_map in L; exact L.
  - intros H; exists f; unfold flatten.
    assert (C : flatten_core f = Ok None); [|rewrite C; reflexivity].
    apply flatten_core_None.
    destruct (save_all_total f T) as [S|S]; [left; exact S|].
    destruct H as [[bb [t [H1 [H2 H3]]]] | L].
    + apply save_all_Some in S; destruct S as [_ S].
      rewrite (S bb t H1 H2) in H3; discriminate.
    + right; eexists; split; [exact S | rewrite length_map; exact L].
Qed.

(** ** Entry preparation *)

Lemma updBlock_notin f b g : ~ In b (map bid f) -> updBlock f b g = f.
Proof.
  induction f as [|bb f IH]; simpl; intros H; [reflexivity|].
  destruct (Nat.eqb_spec (bid bb) b) as [E|E]; [exfalso; auto|].
  rewrite IH; auto.
Qed.

Lemma updBlock_cons_eq bb f g :
  ~ In (bid bb) (map bid f) ->
  updBlock (bb :: f) (bid bb) g = mkBB (bid bb) (g (insts bb)) :: f.
Proof.
  intros H; simpl; rewrite Nat.eqb_refl, (updBlock_notin f (bid bb) g H).
  reflexivity.
Qed.

Lemma updBlock_cons_neq bb f b g :
  bid bb <> b -> updBlock (bb :: f) b g = bb :: updBlock f b g.
Proof.
  intros H; simpl; apply Nat.eqb_neq in H; rewrite H; reflexivity.
Qed.

Lemma replaceSuccessors_cons bb f k old new :
  ~ In (bid bb) (successors k) ->
  replaceSuccessorsPhiUsesWith (bb :: f) k old new =
  bb :: replaceSuccessorsPhiUsesWith f k old new.
Proof.
  unfold replaceSuccessorsPhiUsesWith; generalize (successors k) as ss.
  intros ss; revert f; induction ss as [|s ss IH]; simpl; intros f H;
    [reflexivity|].
  destruct (Nat.eqb_spec (bid bb) s) as [E|E]; [exfalso; auto|].
  apply IH; auto.
Qed.

Lemma split_point (l : list instruction) t :
  let size := length (l ++ [t]) in
  let i := size - 1 in
  let i := if 1 <? size then i - 1 else i in
  exists kept moved,
    l ++ [t] = kept ++ moved /\ firstn i (l ++ [t]) = kept /\
    skipn i (l ++ [t]) = moved /\ i < size /\
    (length (l ++ [t]) = 1 /\ moved = [t] /\ kept = [] \/
     1 < length (l ++ [t]) /\ exists x, moved = [x; t]).
Proof.
  destruct (rev l) as [|x r] eqn:R.
  - assert (l = []) by (rewrite <- (rev_involutive l), R; reflexivity).
    subst l; simpl; exists [], [t]; repeat split; auto.
  - assert (E : l = rev r ++ [x])
      by (rewrite <- (rev_involutive l), R; reflexivity).
    subst l; cbv zeta.
    assert (L : length ((rev r ++ [x]) ++ [t]) = length (rev r) + 2)
      by (rewrite !length_app; simpl; lia).
    rewrite L.
    replace (1 <? length (rev r) + 2) with true
      by (symmetry; apply Nat.ltb_lt; lia).
    replace (length (rev r) + 2 - 1 - 1) with (length (rev r) + 0) by lia.
    exists (rev r), [x; t]; rewrite <- app_assoc; simpl.
    rewrite firstn_app_2, skipn_app, skipn_all2 by lia.
    replace (length (rev r) + 0 - length (rev r)) with 0 by lia; simpl.
    rewrite app_nil_r.
    repeat split; try lia; auto.
    right; split; [lia | eauto].
Qed.

Lemma entry_preparation_no_split e rest t :
  getTerminator e = Some t ->
  isConditional (ikind t) || (1 <? getNumSuccessors (ikind t)) = false ->
  entry_preparation (e :: rest) (map bid (e :: rest)) =
  Ok (e :: rest, map bid rest, bid e).
Proof.
  intros T C; unfold entry_preparation; simpl; rewrite T; simpl.
  assert (C' : match (if isa_BranchInst (ikind t) then Some t else None) with
               | Some b => isConditional (ikind b)
               | None => false
               end || (1 <? getNumSuccessors (ikind t)) = false).
  { apply orb_false_iff in C; destruct C as [C1 C2]; rewrite C2.
    destruct (isa_BranchInst (ikind t)); [rewrite C1|]; reflexivity. }
  rewrite C'; reflexivity.
Qed.

Lemma entry_preparation_split e rest t :
  getTerminator e = Some t ->
  ~ In (bid e) (map bid rest) ->
  (forall s, In s (successors (ikind t)) -> In s (map bid rest)) ->
  isConditional (ikind t) || (1 <? getNumSuccessors (ikind t)) = true ->
  exists kept moved,
    insts e = kept ++ moved /\
    (length (insts e) = 1 /\ moved = [t] /\ kept = [] \/
     1 < length (insts e) /\ exists x, moved = [x; t]) /\
    entry_preparation (e :: rest) (map bid (e :: rest)) =
    Ok (mkBB (bid e)
          (kept ++ [mkInst (fresh_iid (e :: rest)) VoidTy
                      (Br (fresh_bid (e :: rest)))])
        :: mkBB (fresh_bid (e :: rest)) moved
        :: replaceSuccessorsPhiUsesWith rest (ikind t) (bid e)
             (fresh_bid (e :: rest)),
        fresh_bid (e :: rest) :: map bid rest, bid e).
Proof.
  intros T NI SS C.
  pose proof T as T'; apply getTerminator_Some in T'.
  destruct T' as [l [E Tt]].
  destruct (split_point l t) as [kept [moved [E1 [E2 [E3 [Lt Sh]]]]]].
  rewrite <- E in *.
  exists kept, moved; split; [exact E1|]; split; [exact Sh|].
  unfold entry_preparation; simpl hd_error; simpl ofOption; simpl bind.
  rewrite T; simpl bind.
  assert (C' : match (if isa_BranchInst (ikind t) then Some t else None) with
               | Some b => isConditional (ikind b)
               | None => false
               end || (1 <? getNumSuccessors (ikind t)) = true).
  { apply orb_true_iff in C; destruct C as [C|C].
    - destruct (ikind t) eqn:K; try discriminate; simpl; rewrite K;
        reflexivity.
    - rewrite C; apply orb_true_r. }
  rewrite C'; clear C'.
  set (k := if 1 <? length (insts e)
            then length (insts e) - 1 - 1 else length (insts e) - 1) in *.
  unfold splitBasicBlock.
  assert (G : getBlock (e :: rest) (bid e) = Some e)
    by (unfold getBlock; simpl; rewrite Nat.eqb_refl; reflexivity).
  rewrite G; simpl bind; rewrite T; simpl bind.
  replace (length (insts e) <=? k) with false
    by (symmetry; apply Nat.leb_gt; exact Lt).
  set (new := fresh_bid (e :: rest)).
  assert (Nn : new <> bid e).
  { intros H; apply (fresh_bid_notin (e :: rest)); fold new; rewrite H.
    left; reflexivity. }
  assert (Nr : ~ In new (map bid rest)).
  { intros H; apply (fresh_bid_notin (e :: rest)); right; exact H. }
  simpl insertBlockAfter; rewrite Nat.eqb_refl.
  rewrite updBlock_cons_eq.
  2:{ simpl; intros [H|H]; [apply Nn; exact H | apply NI; exact H]. }
  rewrite E2, E3.
  rewrite replaceSuccessors_cons.
  2:{ simpl; intros H; apply NI, SS; exact H. }
  rewrite replaceSuccessors_cons.
  2:{ simpl; intros H; apply Nr, SS; exact H. }
  reflexivity.
Qed.

(** ** Reflection of the boolean conditions *)

Lemma memb_In x l : memb x l = true <-> In x l.
Proof.
  unfold memb; rewrite existsb_exists; split.
  - intros [y [H E]]; apply Nat.eqb_eq in E; subst; exact H.
  - intros H; exists x; split; [exact H | apply Nat.eqb_refl].
Qed.

Lemma nodupb_NoDup l : nodupb l = true <-> NoDup l.
Proof.
  induction l as [|x l IH]; simpl.
  - split; [constructor | reflexivity].
  - rewrite andb_true_iff, negb_true_iff, IH; split.
    + intros [H1 H2]; constructor; [|exact H2].
      intros H; apply memb_In in H; unfold memb in H; congruence.
    + intros H; inversion H as [|? ? H1 H2]; subst; split; [|exact H2].
      destruct (existsb (Nat.eqb x) l) eqn:E; [|reflexivity].
      exfalso; apply H1, memb_In; exact E.
Qed.

Lemma value_eqb_eq a b : value_eqb a b = true <-> a = b.
Proof.
  unfold value_eqb; destruct (value_eq_dec a b); split; congruence.
Qed.

Lemma value_eqb_refl a : value_eqb a a = true.
Proof. apply value_eqb_eq; reflexivity. Qed.

Lemma value_eqb_neq a b : value_eqb a b = false <-> a <> b.
Proof.
  unfold value_eqb; destruct (value_eq_dec a b); split; congruence.
Qed.

Lemma existsb_value_In v l :
  existsb (fun w => value_eqb w v) l = true <-> In v l.
Proof.
  rewrite existsb_exists; split.
  - intros [w [H E]]; apply value_eqb_eq in E; subst; exact H.
  - intros H; exists v; split; [exact H | apply value_eqb_refl].
Qed.

Lemma ids_located f :
  map iid (all_insts f) = map (fun j : linst => iid (snd j)) (located f).
Proof. rewrite all_insts_located, map_map; reflexivity. Qed.

Lemma terminatedb_terminated f : terminatedb f = true -> terminated f.
Proof. intros H bb HI; eapply terminatedb_In; eauto. Qed.

Lemma phi_blocksb_ok f : phi_blocksb f = true -> phi_ok f.
Proof.
  unfold phi_blocksb; rewrite forallb_forall; intros H c j v B HI HB.
  assert (Hj : In j (all_insts f)) by (apply In_all_insts; eauto).
  specialize (H j Hj); rewrite forallb_forall in H.
  specialize (H (v, B) HB); apply memb_In in H; exact H.
Qed.

Lemma term_unusedb_unused f : term_unusedb f = true -> unused f.
Proof.
  unfold term_unusedb; rewrite forallb_forall; intros H c t d u Ht Hu T Hin.
  assert (Ht' : In t (all_insts f)) by (apply In_all_insts; eauto).
  assert (Hu' : In u (all_insts f)) by (apply In_all_insts; eauto).
  specialize (H t Ht'); rewrite T in H; simpl in H.
  rewrite forallb_forall in H; specialize (H u Hu').
  apply negb_true_iff in H.
  apply existsb_value_In in Hin; congruence.
Qed.

Lemma wf_function_WF f : wf_function f = true -> WF f.
Proof.
  unfold wf_function; rewrite !andb_true_iff.
  intros [[[[[H1 H2] H3] H4] H5] H6]; constructor.
  - intros ->; discriminate.
  - apply nodupb_NoDup; exact H2.
  - unfold uniq_ids; rewrite <- ids_located; apply nodupb_NoDup; exact H3.
  - apply terminatedb_terminated; exact H4.
  - apply phi_blocksb_ok; exact H5.
  - apply term_unusedb_unused; exact H6.
Qed.

Lemma successors_okb_ok f : successors_okb f = true -> successors_ok f.
Proof.
  unfold successors_okb; rewrite forallb_forall; intros H c j s HI HS.
  assert (Hj : In j (all_insts f)) by (apply In_all_insts; eauto).
  specialize (H j Hj); rewrite forallb_forall in H.
  apply memb_In, H; exact HS.
Qed.

(** ** The instructions of a function after an edit *)

Lemma located_mapF G f :
  located (mapF G f) =
  flat_map (fun bb => map (pair (bid bb)) (G (bid bb) (insts bb))) f.
Proof.
  unfold located, mapF; induction f as [|bb f IH]; simpl; [reflexivity|].
  rewrite IH; reflexivity.
Qed.

Lemma located_cons bb f :
  located (bb :: f) = map (pair (bid bb)) (insts bb) ++ located f.
Proof. reflexivity. Qed.

Lemma located_app f g : located (f ++ g) = located f ++ located g.
Proof. unfold located; apply flat_map_app. Qed.

Lemma located_map_inst (h : instruction -> instruction) f :
  located (mapF (fun _ => map h) f) =
  map (fun j : linst => (fst j, h (snd j))) (located f).
Proof.
  rewrite located_mapF; unfold located.
  induction f as [|bb f IH]; simpl; [reflexivity|].
  rewrite map_app, IH, !map_map; reflexivity.
Qed.

Lemma located_filter_inst (p : instruction -> bool) f :
  located (mapF (fun _ => filter p) f) =
  filter (fun j : linst => p (snd j)) (located f).
Proof.
  rewrite located_mapF; unfold located.
  induction f as [|bb f IH]; simpl; [reflexivity|].
  rewrite filter_app, IH; f_equal.
  induction (insts bb) as [|j l IHl]; simpl; [reflexivity|].
  destruct (p j); simpl; rewrite IHl; reflexivity.
Qed.

Lemma located_eraseFromParent f x :
  located (eraseFromParent f x) =
  filter (fun j : linst => negb (iid (snd j) =? x)) (located f).
Proof. apply (located_filter_inst (fun j => negb (iid j =? x))). Qed.

Lemma located_updInst f x g :
  located (updInst f x g) =
  map (fun j : linst => (fst j, upd_inst x g (snd j))) (located f).
Proof. apply (located_map_inst (upd_inst x g)). Qed.

Lemma located_replaceAllUsesWith f from to :
  located (replaceAllUsesWith f from to) =
  map (fun j : linst => (fst j, rauw_inst from to (snd j))) (located f).
Proof. apply (located_map_inst (rauw_inst from to)). Qed.

(** Insertion in front of an instruction. *)
Lemma insert_before_notin pos new l :
  ~ In pos (map iid l) -> insert_before pos new l = l.
Proof.
  induction l as [|j l IH]; simpl; intros H; [reflexivity|].
  destruct (Nat.eqb_spec (iid j) pos) as [E|E]; [exfalso; auto|].
  rewrite IH; auto.
Qed.

Lemma insert_before_split pos new l :
  In pos (map iid l) ->
  exists l1 p l2,
    l = l1 ++ p :: l2 /\ iid p = pos /\ ~ In pos (map iid l1) /\
    insert_before pos new l = l1 ++ new :: p :: l2.
Proof.
  induction l as [|j l IH]; simpl; intros H; [easy|].
  destruct (Nat.eqb_spec (iid j) pos) as [E|E].
  - exists [], j, l; simpl; auto.
  - destruct H as [H|H]; [contradiction|].
    destruct (IH H) as [l1 [p [l2 [E1 [E2 [E3 E4]]]]]].
    exists (j :: l1), p, l2; simpl; rewrite E4, <- E1.
    repeat split; auto; intros [H'|H']; auto.
Qed.

Lemma insertBefore_notin f pos new :
  ~ In pos (map iid (all_insts f)) -> insertBefore f pos new = f.
Proof.
  unfold insertBefore, all_insts; induction f as [|bb f IH]; simpl;
    intros H; [reflexivity|].
  rewrite map_app, in_app_iff in H.
  rewrite insert_before_notin, IH, bb_eta; auto.
Qed.

Lemma inserted_bids c new f f' :
  inserted c new f f' -> map bid f' = map bid f.
Proof.
  intros [pre [bb [post [l1 [l2 [-> [<- [_ [_ ->]]]]]]]]].
  rewrite !map_app; reflexivity.
Qed.

Lemma inserted_located c new f f' :
  inserted c new f f' -> Permutation (located f') ((c, new) :: located f).
Proof.
  intros [pre [bb [post [l1 [l2 [-> [<- [E [_ ->]]]]]]]]].
  rewrite !located_app, !located_cons; simpl; rewrite E, !map_app; simpl.
  rewrite <- !app_assoc; simpl.
  rewrite <- Permutation_middle.
  rewrite (app_assoc (located pre)).
  rewrite <- Permutation_middle; rewrite <- app_assoc; reflexivity.
Qed.

Lemma inserted_terminated c new f f' :
  inserted c new f f' -> terminated f -> terminated f'.
Proof.
  intros [pre [bb [post [l1 [l2 [-> [<- [E [N ->]]]]]]]]] T x Hx.
  apply in_app_iff in Hx; destruct Hx as [Hx|[<-|Hx]].
  - apply T, in_app_iff; auto.
  - destruct (T bb) as [t Ht]; [apply in_app_iff; right; left; reflexivity|].
    exists t; apply getTerminator_Some in Ht; destruct Ht as [l [El Tt]].
    apply getTerminator_Some; simpl.
    rewrite E in El.
    destruct (exists_last N) as [l2' [t' E2]]; subst l2.
    rewrite app_assoc in El; apply app_inj_tail in El; destruct El as [El ->].
    exists (l1 ++ new :: l2'); split; [|exact Tt].
    rewrite <- app_assoc; reflexivity.
  - apply T, in_app_iff; right; right; exact Hx.
Qed.

Lemma NoDup_app_disjoint {A : Type} (l1 l2 : list A) (a : A) :
  NoDup (l1 ++ l2) -> In a l1 -> In a l2 -> False.
Proof.
  induction l1 as [|x l1 IH]; simpl; intros ND H1 H2; [easy|].
  inversion ND as [|? ? Hx ND']; subst.
  destruct H1 as [->|H1]; [apply Hx, in_app_iff; auto | auto].
Qed.

Lemma In_ids_located f x :
  In x (map iid (all_insts f)) <-> exists c j, In (c, j) (located f) /\ iid j = x.
Proof.
  rewrite in_map_iff; split.
  - intros [j [E H]]; apply In_all_insts in H; destruct H as [c H]; eauto.
  - intros [c [j [H E]]]; exists j; split; [exact E|].
    apply In_all_insts; eauto.
Qed.

Lemma uniq_ids_app_l f g : uniq_ids (f ++ g) -> uniq_ids f.
Proof.
  unfold uniq_ids; rewrite located_app, map_app; apply NoDup_app_remove_r.
Qed.

Lemma uniq_ids_app_r f g : uniq_ids (f ++ g) -> uniq_ids g.
Proof.
  unfold uniq_ids; rewrite located_app, map_app; apply NoDup_app_remove_l.
Qed.

Lemma uniq_ids_same f c j c' j' :
  uniq_ids f -> In (c, j) (located f) -> In (c', j') (located f) ->
  iid j = iid j' -> (c, j) = (c', j').
Proof.
  unfold uniq_ids; generalize (located f) as l; induction l as [|x l IH];
    simpl; intros ND H1 H2 E; [easy|].
  inversion ND as [|? ? Hx ND']; subst.
  destruct H1 as [->|H1], H2 as [->|H2]; auto.
  - exfalso; apply Hx; simpl; rewrite E.
    apply (in_map (fun j : linst => iid (snd j)) l (c', j')); exact H2.
  - exfalso; apply Hx; simpl; rewrite <- E.
    apply (in_map (fun j : linst => iid (snd j)) l (c, j)); exact H1.
Qed.

Lemma insertBefore_inserted f pos new c p :
  uniq_ids f -> In (c, p) (located f) -> iid p = pos ->
  inserted c new f (insertBefore f pos new).
Proof.
  intros U HI E; apply In_located in HI.
  destruct HI as [bb [Hbb [Hc Hp]]].
  apply in_split in Hbb; destruct Hbb as [pre [post ->]].
  assert (Hpos : In pos (map iid (insts bb)))
    by (rewrite <- E; apply in_map; exact Hp).
  destruct (insert_before_split pos new (insts bb) Hpos)
    as [l1 [q [l2 [E1 [E2 [E3 E4]]]]]].
  exists pre, bb, post, l1, (q :: l2).
  repeat split; auto; [discriminate|].
  unfold insertBefore; rewrite map_app; simpl; rewrite E4, Hc.
  assert (Npre : ~ In pos (map iid (all_insts pre))).
  { intros H; apply In_ids_located in H; destruct H as [c' [j' [H1 H2]]].
    assert (X : (c', j') = (c, p)).
    { apply (uniq_ids_same (pre ++ bb :: post)); auto.
      - rewrite located_app; apply in_app_iff; left; exact H1.
      - rewrite located_app; apply in_app_iff; right.
        rewrite located_cons; apply in_app_iff; left.
        rewrite <- Hc; apply in_map; exact Hp.
      - congruence. }
    inversion X; subst c' j'.
    unfold uniq_ids in U; rewrite located_app, located_cons, map_app, map_app in U.
    apply NoDup_app_disjoint with (a := iid p) in U; [exact U| |].
    + apply (in_map (fun j : linst => iid (snd j)) _ (c, p)); exact H1.
    + apply in_app_iff; left.
      apply (in_map (fun j : linst => iid (snd j)) _ (bid bb, p)).
      apply in_map; exact Hp. }
  assert (Npost : ~ In pos (map iid (all_insts post))).
  { intros H; apply In_ids_located in H; destruct H as [c' [j' [H1 H2]]].
    apply uniq_ids_app_r in U.
    unfold uniq_ids in U; rewrite located_cons, map_app in U.
    apply NoDup_app_disjoint with (a := pos) in U; [exact U| |].
    + rewrite <- E.
      apply (in_map (fun j : linst => iid (snd j)) _ (bid bb, p)).
      apply in_map; exact Hp.
    + rewrite <- H2.
      apply (in_map (fun j : linst => iid (snd j)) _ (c', j')); exact H1. }
  pose proof (insertBefore_notin pre pos new Npre) as Xpre.
  pose proof (insertBefore_notin post pos new Npost) as Xpost.
  unfold insertBefore in Xpre, Xpost; rewrite Xpre, Xpost; reflexivity.
Qed.

(** ** Preservation of the conditions by the edits *)

Lemma uniq_ids_adds f f' news :
  uniq_ids f ->
  Permutation (located f') (news ++ located f) ->
  NoDup (map idf news) ->
  (forall n, In n news -> ~ In (idf n) (map idf (located f))) ->
  uniq_ids f'.
Proof.
  unfold uniq_ids; intros U P N D.
  apply (Permutation_map idf) in P; fold idf in *.
  apply Permutation_sym in P; apply (Permutation_NoDup P).
  rewrite map_app; apply NoDup_app; auto.
  intros a Ha; apply in_map_iff in Ha; destruct Ha as [n [<- Hn]]; auto.
Qed.

Lemma phi_ok_adds f f' news :
  phi_ok f ->
  Permutation (located f') (news ++ located f) ->
  incl (map bid f) (map bid f') ->
  (forall c n v B, In (c, n) news -> In (v, B) (incomingOf (ikind n)) ->
                   In B (map bid f')) ->
  phi_ok f'.
Proof.
  intros Pf P I N c j v B Hj Hv.
  apply (Permutation_in _ P) in Hj; apply in_app_iff in Hj.
  destruct Hj as [Hj|Hj]; [eauto|].
  apply I; eapply Pf; eauto.
Qed.

Lemma unused_adds f f' news :
  unused f ->
  Permutation (located f') (news ++ located f) ->
  (forall c n x, In (c, n) news -> In (VInst x) (operands (ikind n)) ->
     forall d t, In (d, t) (news ++ located f) -> iid t = x ->
                 isTerminator (ikind t) = false) ->
  (forall c n, In (c, n) news -> isTerminator (ikind n) = true ->
     forall d u, In (d, u) (located f) ->
                 ~ In (VInst (iid n)) (operands (ikind u))) ->
  unused f'.
Proof.
  intros Uf P O T c t d u Ht Hu Tt Hin.
  apply (Permutation_in _ P) in Ht, Hu.
  apply in_app_iff in Hu; destruct Hu as [Hu|Hu].
  - rewrite (O d u (iid t) Hu Hin c t Ht eq_refl) in Tt; discriminate.
  - apply in_app_iff in Ht; destruct Ht as [Ht|Ht].
    + apply (T c t Ht Tt d u Hu Hin).
    + apply (Uf c t d u Ht Hu Tt Hin).
Qed.

(** A function whose instructions are mapped, kind by kind. *)
Lemma uniq_ids_map (h : instruction -> instruction) f :
  (forall j, iid (h j) = iid j) ->
  uniq_ids f -> uniq_ids (mapF (fun _ => map h) f).
Proof.
  unfold uniq_ids; intros H U; rewrite located_map_inst, map_map.
  erewrite map_ext; [exact U|]; intros [c j]; simpl; apply H.
Qed.

Lemma getTerminator_map (h : instruction -> instruction) b l t :
  (forall j, isTerminator (ikind (h j)) = isTerminator (ikind j)) ->
  getTerminator (mkBB b l) = Some t ->
  getTerminator (mkBB b (map h l)) = Some (h t).
Proof.
  intros H T; apply getTerminator_Some in T; destruct T as [l' [E Tt]].
  simpl in E; subst l; apply getTerminator_Some; exists (map h l'); simpl.
  rewrite map_app; split; [reflexivity | rewrite H; exact Tt].
Qed.

Lemma terminated_map (h : instruction -> instruction) f :
  (forall j, isTerminator (ikind (h j)) = isTerminator (ikind j)) ->
  terminated f -> terminated (mapF (fun _ => map h) f).
Proof.
  intros H T bb Hbb; unfold mapF in Hbb; apply in_map_iff in Hbb.
  destruct Hbb as [x [<- Hx]]; destruct (T x Hx) as [t Ht].
  exists (h t); apply getTerminator_map; [exact H|].
  rewrite bb_eta; exact Ht.
Qed.

Lemma phi_ok_map (h : instruction -> instruction) f :
  (forall c j B, In (c, j) (located f) ->
     In B (map snd (incomingOf (ikind (h j)))) ->
     In B (map snd (incomingOf (ikind j)))) ->
  phi_ok f -> phi_ok (mapF (fun _ => map h) f).
Proof.
  intros H P c j v B Hj Hv; rewrite map_bid_mapF.
  rewrite located_map_inst in Hj; apply in_map_iff in Hj.
  destruct Hj as [[c' j'] [E Hj]]; simpl in E; inversion E; subst c j.
  assert (HB : In B (map snd (incomingOf (ikind j')))).
  { apply (H c' j' B Hj); apply in_map_iff; exists (v, B); auto. }
  apply in_map_iff in HB; destruct HB as [[v' B'] [E' HB]]; simpl in E'.
  subst B'; eapply P; eauto.
Qed.

Lemma unused_map (h : instruction -> instruction) f :
  (forall j, iid (h j) = iid j) ->
  (forall j, isTerminator (ikind (h j)) = isTerminator (ikind j)) ->
  (forall c j x, In (c, j) (located f) ->
     In (VInst x) (operands (ikind (h j))) ->
     In (VInst x) (operands (ikind j)) \/
     forall d t, In (d, t) (located f) -> iid t = x ->
                 isTerminator (ikind t) = false) ->
  unused f -> unused (mapF (fun _ => map h) f).
Proof.
  intros Hi Ht Ho U c t d u H1 H2 T Hin.
  rewrite located_map_inst in H1, H2.
  apply in_map_iff in H1, H2.
  destruct H1 as [[c1 t1] [E1 H1]], H2 as [[c2 u2] [E2 H2]].
  simpl in E1, E2; inversion E1; inversion E2; subst c t d u.
  rewrite Ht in T; rewrite Hi in Hin.
  destruct (Ho c2 u2 (iid t1) H2 Hin) as [H|H].
  - apply (U c1 t1 c2 u2 H1 H2 T H).
  - rewrite (H c1 t1 H1 eq_refl) in T; discriminate.
Qed.

(** Erasing an instruction that is not a terminator. *)
Lemma NoDup_map_filter {A B : Type} (g : A -> B) (p : A -> bool) l :
  NoDup (map g l) -> NoDup (map g (filter p l)).
Proof.
  induction l as [|x l IH]; simpl; intros H; [constructor|].
  inversion H as [|? ? Hx H']; subst.
  destruct (p x); simpl; [constructor|]; auto.
  intros Hin; apply Hx; apply in_map_iff in Hin.
  destruct Hin as [y [E Hy]]; apply filter_In in Hy.
  apply in_map_iff; exists y; tauto.
Qed.

Lemma uniq_ids_erase f x : uniq_ids f -> uniq_ids (eraseFromParent f x).
Proof.
  unfold uniq_ids; rewrite located_eraseFromParent; apply NoDup_map_filter.
Qed.

Lemma map_bid_erase f x : map bid (eraseFromParent f x) = map bid f.
Proof. apply (map_bid_mapF (fun _ => filter (fun j => negb (iid j =? x)))). Qed.

Lemma phi_ok_erase f x : phi_ok f -> phi_ok (eraseFromParent f x).
Proof.
  intros P c j v B Hj Hv; rewrite map_bid_erase.
  rewrite located_eraseFromParent in Hj; apply filter_In in Hj.
  destruct Hj as [Hj _]; eapply P; eauto.
Qed.

Lemma unused_erase f x : unused f -> unused (eraseFromParent f x).
Proof.
  intros U c t d u H1 H2; rewrite located_eraseFromParent in H1, H2.
  apply filter_In in H1, H2; destruct H1 as [H1 _], H2 as [H2 _].
  apply (U c t d u H1 H2).
Qed.

Lemma terminated_erase f x :
  (forall c j, In (c, j) (located f) -> iid j = x ->
               isTerminator (ikind j) = false) ->
  terminated f -> terminated (eraseFromParent f x).
Proof.
  intros N T bb Hbb; unfold eraseFromParent in Hbb; apply in_map_iff in Hbb.
  destruct Hbb as [b0 [<- Hb]]; destruct (T b0 Hb) as [t Ht].
  exists t; pose proof Ht as Ht'.
  apply getTerminator_Some in Ht; destruct Ht as [l [E Tt]].
  apply getTerminator_Some; simpl; rewrite E, filter_app; simpl.
  destruct (Nat.eqb_spec (iid t) x) as [Ex|Ex].
  - rewrite (N (bid b0) t) in Tt; [discriminate| |exact Ex].
    apply In_located; exists b0; rewrite E; repeat split; auto.
    apply in_app_iff; right; left; reflexivity.
  - simpl; eauto.
Qed.

(** Identifiers out of reach. *)
Lemma fresh_iid_located f c j : In (c, j) (located f) -> iid j < fresh_iid f.
Proof. intros H; apply fresh_iid_gt, In_all_insts; eauto. Qed.

Lemma fresh_iid_operand f c j x :
  In (c, j) (located f) -> In (VInst x) (operands (ikind j)) ->
  x < fresh_iid f.
Proof.
  intros H; apply fresh_iid_gt_operand, In_all_insts; eauto.
Qed.

Lemma fresh_iid_mono f f' :
  incl (located f) (located f') -> fresh_iid f <= fresh_iid f'.
Proof.
  intros I; unfold fresh_iid; apply le_n_S.
  apply list_max_le, Forall_forall; intros x Hx.
  apply in_flat_map in Hx; destruct Hx as [j [Hj Hx]].
  apply list_max_ge, in_flat_map; exists j; split; [|exact Hx].
  apply In_all_insts in Hj; destruct Hj as [c Hj].
  apply In_all_insts; exists c; apply I; exact Hj.
Qed.

(** ** Construction of the dispatcher *)

Lemma filter_id_notin x (l : list instruction) :
  ~ In x (map iid l) -> filter (fun j => negb (iid j =? x)) l = l.
Proof.
  induction l as [|j l IH]; simpl; intros H; [reflexivity|].
  destruct (Nat.eqb_spec (iid j) x) as [E|E]; [exfalso; auto|].
  simpl; rewrite IH; auto.
Qed.

Lemma eraseFromParent_notin f x :
  ~ In x (map iid (all_insts f)) -> eraseFromParent f x = f.
Proof.
  unfold eraseFromParent, all_insts; induction f as [|bb f IH]; simpl;
    intros H; [reflexivity|].
  rewrite map_app, in_app_iff in H.
  rewrite filter_id_notin, IH, bb_eta; auto.
Qed.

Lemma map_upd_notin x g (l : list instruction) :
  ~ In x (map iid l) ->
  map (fun j => if iid j =? x then mkInst (iid j) (ity j) (g (ikind j)) else j)
    l = l.
Proof.
  induction l as [|j l IH]; simpl; intros H; [reflexivity|].
  destruct (Nat.eqb_spec (iid j) x) as [E|E]; [exfalso; auto|].
  rewrite IH; auto.
Qed.

Lemma updInst_notin f x g :
  ~ In x (map iid (all_insts f)) -> updInst f x g = f.
Proof.
  unfold updInst, all_insts; induction f as [|bb f IH]; simpl;
    intros H; [reflexivity|].
  rewrite map_app, in_app_iff in H.
  rewrite map_upd_notin, IH, bb_eta; auto.
Qed.

Lemma updInst_cons bb f x g :
  updInst (bb :: f) x g =
  mkBB (bid bb) (map (upd_inst x g) (insts bb)) :: updInst f x g.
Proof. reflexivity. Qed.

Lemma removeBlock_notin f b : ~ In b (map bid f) -> removeBlock f b = f.
Proof.
  unfold removeBlock; induction f as [|bb f IH]; simpl; intros H;
    [reflexivity|].
  destruct (Nat.eqb_spec (bid bb) b) as [E|E]; [exfalso; auto|].
  simpl; rewrite IH; auto.
Qed.

Lemma ids_cons bb f :
  map iid (all_insts (bb :: f)) = map iid (insts bb) ++ map iid (all_insts f).
Proof. unfold all_insts; simpl; apply map_app. Qed.

Lemma uniq_ids_NoDup f : uniq_ids f <-> NoDup (map iid (all_insts f)).
Proof. unfold uniq_ids; rewrite ids_located; tauto. Qed.

Lemma fresh_notin_ids f x : fresh_iid f <= x -> ~ In x (map iid (all_insts f)).
Proof.
  intros L H; apply in_map_iff in H; destruct H as [j [E H]].
  apply fresh_iid_gt in H; lia.
Qed.

Lemma insertAtEnd_head b l tl x :
  ~ In b (map bid tl) ->
  insertAtEnd (mkBB b l :: tl) b x = mkBB b (l ++ [x]) :: tl.
Proof.
  intros H; unfold insertAtEnd.
  apply (updBlock_cons_eq (mkBB b l) tl (fun l => l ++ [x]) H).
Qed.

Lemma insertAtEnd_second bb b l tl x :
  bid bb <> b -> ~ In b (map bid tl) ->
  insertAtEnd (bb :: mkBB b l :: tl) b x = bb :: mkBB b (l ++ [x]) :: tl.
Proof.
  intros H1 H2; unfold insertAtEnd; rewrite updBlock_cons_neq by exact H1.
  f_equal; apply (updBlock_cons_eq (mkBB b l) tl (fun l => l ++ [x]) H2).
Qed.

Lemma moveBefore_second bb1 bb tl :
  bid bb1 <> bid bb -> ~ In (bid bb) (map bid tl) ->
  moveBefore (bb1 :: bb :: tl) (bid bb) (bid bb1) = bb :: bb1 :: tl.
Proof.
  intros H1 H2; unfold moveBefore, getBlock; simpl.
  apply Nat.eqb_neq in H1; rewrite H1, Nat.eqb_refl; simpl.
  rewrite removeBlock_notin by exact H2.
  rewrite Nat.eqb_refl; reflexivity.
Qed.

Ltac in_located :=
  rewrite ?located_cons; cbn [insts bid]; rewrite ?map_app; cbn [map];
  rewrite ?in_app_iff; cbn [In]; tauto.

Lemma dispatcher_construction_shape be pro t tl o :
  uniq_ids (mkBB be (pro ++ [t]) :: tl) ->
  ~ In be (map bid tl) ->
  isTerminator (ikind t) = true ->
  exists sv s0 ld bj sw LE,
    dispatcher_construction (mkBB be (pro ++ [t]) :: tl) o be =
    Ok (mkState
          (mkBB be (pro ++ [AllocaSV sv; StoreZero s0 sv; JumpTo bj LE])
           :: mkBB LE [LoadSV ld sv; SwitchOn sw ld LE []] :: tl)
          o be LE ld sw sv)
    /\ fresh_iid (mkBB be pro :: tl) <= sv
    /\ sv < s0 /\ s0 < ld /\ ld < bj /\ bj < sw
    /\ LE = fresh_bid (mkBB be pro :: tl).
Proof.
  intros U NI T.
  unfold dispatcher_construction.
  assert (G : getBlock (mkBB be (pro ++ [t]) :: tl) be =
              Some (mkBB be (pro ++ [t])))
    by (unfold getBlock; simpl; rewrite Nat.eqb_refl; reflexivity).
  rewrite G; cbn [bind ofOption]; rewrite (getTerminator_app be pro t T);
    cbn [bind ofOption].
  (* erase the terminator *)
  apply uniq_ids_NoDup in U; rewrite ids_cons in U; simpl in U.
  rewrite map_app in U; simpl in U.
  assert (E1 : eraseFromParent (mkBB be (pro ++ [t]) :: tl) (iid t) =
               mkBB be pro :: tl).
  { change (eraseFromParent (mkBB be (pro ++ [t]) :: tl) (iid t))
      with (mkBB be (filter (fun j => negb (iid j =? iid t)) (pro ++ [t]))
            :: eraseFromParent tl (iid t)).
    rewrite filter_app; simpl; rewrite Nat.eqb_refl; simpl.
    rewrite app_nil_r, filter_id_notin, eraseFromParent_notin; auto.
    - intros H; rewrite <- app_assoc in U; apply NoDup_remove_2 in U.
      apply U, in_app_iff; right; exact H.
    - intros H; rewrite <- app_assoc in U; apply NoDup_remove_2 in U.
      apply U, in_app_iff; left; exact H. }
  rewrite E1; clear E1.
  set (fA := mkBB be pro :: tl).
  set (sv := fresh_iid fA).
  change (mkInst sv (PointerTy Int32Ty) (Alloca Int32Ty)) with (AllocaSV sv).
  set (fB := mkBB be (pro ++ [AllocaSV sv]) :: tl).
  assert (EB : insertAtEnd fA be (AllocaSV sv) = fB)
    by (apply insertAtEnd_head; exact NI).
  rewrite EB; clear EB.
  set (s0 := fresh_iid fB).
  change (mkInst s0 VoidTy (Store (VConstInt 32 0) (VInst sv)))
    with (StoreZero s0 sv).
  set (Eb := mkBB be ((pro ++ [AllocaSV sv]) ++ [StoreZero s0 sv])).
  set (fC := Eb :: tl).
  assert (EC : insertAtEnd fB be (StoreZero s0 sv) = fC)
    by (apply insertAtEnd_head; exact NI).
  rewrite EC; clear EC.
  set (LE := fresh_bid fC).
  assert (LEbe : LE <> be).
  { intros H; apply (fresh_bid_notin fC); fold LE; rewrite H; left; reflexivity. }
  assert (LEtl : ~ In LE (map bid tl)).
  { intros H; apply (fresh_bid_notin fC); right; exact H. }
  assert (ED : insertBlockBefore fC (mkBB LE []) be = mkBB LE [] :: fC).
  { unfold fC, Eb; simpl; rewrite Nat.eqb_refl; reflexivity. }
  rewrite ED; clear ED.
  set (fD := mkBB LE [] :: fC).
  set (ld := fresh_iid fD).
  change (mkInst ld Int32Ty (Load (VInst sv) false)) with (LoadSV ld sv).
  assert (EE : insertAtEnd fD LE (LoadSV ld sv) = mkBB LE [LoadSV ld sv] :: fC).
  { apply (insertAtEnd_head LE [] fC).
    unfold fC; simpl; intros [H|H]; [apply LEbe; auto | apply LEtl; exact H]. }
  rewrite EE; clear EE.
  set (fF := Eb :: mkBB LE [LoadSV ld sv] :: tl).
  assert (EF : moveBefore (mkBB LE [LoadSV ld sv] :: fC) be LE = fF).
  { apply (moveBefore_second (mkBB LE [LoadSV ld sv]) Eb tl); simpl; auto. }
  rewrite EF; clear EF.
  set (bj := fresh_iid fF).
  change (mkInst bj VoidTy (Br LE)) with (JumpTo bj LE).
  set (Eb' := mkBB be (((pro ++ [AllocaSV sv]) ++ [StoreZero s0 sv]) ++
                       [JumpTo bj LE])).
  set (fG := Eb' :: mkBB LE [LoadSV ld sv] :: tl).
  assert (EG : insertAtEnd fF be (JumpTo bj LE) = fG).
  { apply insertAtEnd_head.
    simpl; intros [H|H]; [apply LEbe; auto | apply NI; exact H]. }
  rewrite EG; clear EG.
  cbn [hd_error bind ofOption fG].
  fold fG.
  set (sw := fresh_iid fG).
  assert (EH : insertAtEnd fG LE
                 (mkInst sw VoidTy (Switch (VBlock (bid Eb')) LE [])) =
               Eb' :: mkBB LE ([LoadSV ld sv] ++
                 [mkInst sw VoidTy (Switch (VBlock (bid Eb')) LE [])]) :: tl).
  { apply insertAtEnd_second; [simpl; auto | exact LEtl]. }
  rewrite EH; clear EH.
  (* the identifiers, in the order of their allocation *)
  assert (Lsv : sv < s0).
  { apply (fresh_iid_located fB be (AllocaSV sv)); unfold fB; in_located. }
  assert (Ls0 : s0 < ld).
  { apply (fresh_iid_located fD be (StoreZero s0 sv)).
    unfold fD, fC, Eb; in_located. }
  assert (Lld : ld < bj).
  { apply (fresh_iid_located fF LE (LoadSV ld sv)); unfold fF; in_located. }
  assert (Lbj : bj < sw).
  { apply (fresh_iid_located fG be (JumpTo bj LE)); unfold fG, Eb'; in_located. }
  assert (MG : fresh_iid fA <= sw) by (fold sv; lia).
  (* the condition of the switch *)
  assert (Esw : updInst
                  (Eb' :: mkBB LE ([LoadSV ld sv] ++
                     [mkInst sw VoidTy (Switch (VBlock (bid Eb')) LE [])]) :: tl)
                  sw (setCondition (VInst ld)) =
                Eb' :: mkBB LE [LoadSV ld sv; SwitchOn sw ld LE []] :: tl).
  { rewrite !updInst_cons; simpl bid; simpl insts.
    rewrite updInst_notin.
    2:{ intros H; apply (fresh_notin_ids fA sw MG).
        unfold fA; rewrite ids_cons; apply in_app_iff; right; exact H. }
    assert (Xe : map (upd_inst sw (setCondition (VInst ld)))
                   (((pro ++ [AllocaSV sv]) ++ [StoreZero s0 sv]) ++
                    [JumpTo bj LE]) =
                 ((pro ++ [AllocaSV sv]) ++ [StoreZero s0 sv]) ++
                 [JumpTo bj LE]).
    { apply map_upd_notin; rewrite !map_app; simpl.
      rewrite !in_app_iff; simpl.
      intros [[[H|[H|[]]]|[H|[]]]|[H|[]]]; try lia.
      apply (fresh_notin_ids fA sw MG).
      unfold fA; rewrite ids_cons; apply in_app_iff; left; exact H. }
    rewrite Xe; cbn [map app]; unfold upd_inst, LoadSV.
    cbn [iid ity ikind setCondition].
    replace (ld =? sw) with false by (symmetry; apply Nat.eqb_neq; lia).
    rewrite Nat.eqb_refl; reflexivity. }
  rewrite Esw.
  exists sv, s0, ld, bj, sw, LE; split.
  - unfold Eb'; rewrite <- !app_assoc; reflexivity.
  - repeat split; try lia; auto.
Qed.

(** ** The blocks put in the switch *)

Lemma getBlock_app_mid pre x post :
  ~ In (bid x) (map bid pre) -> getBlock (pre ++ x :: post) (bid x) = Some x.
Proof.
  unfold getBlock; induction pre as [|y pre IH]; simpl; intros H.
  - rewrite Nat.eqb_refl; reflexivity.
  - destruct (Nat.eqb_spec (bid y) (bid x)) as [E|E]; [exfalso; auto|].
    apply IH; auto.
Qed.

Lemma removeBlock_app_mid pre x post :
  ~ In (bid x) (map bid pre) -> ~ In (bid x) (map bid post) ->
  removeBlock (pre ++ x :: post) (bid x) = pre ++ post.
Proof.
  intros H1 H2; unfold removeBlock; rewrite filter_app; simpl.
  rewrite Nat.eqb_refl; simpl.
  fold (removeBlock pre (bid x)); fold (removeBlock post (bid x)).
  rewrite !removeBlock_notin; auto.
Qed.

Lemma find_app_notin {A : Type} (p : A -> bool) l1 l2 :
  (forall x, In x l1 -> p x = false) -> find p (l1 ++ l2) = find p l2.
Proof.
  induction l1 as [|x l1 IH]; simpl; intros H; [reflexivity|].
  rewrite (H x) by auto; apply IH; auto.
Qed.

Lemma getInst_skip_block bb f x :
  ~ In x (map iid (insts bb)) -> getInst (bb :: f) x = getInst f x.
Proof.
  intros H; unfold getInst, all_insts; simpl; apply find_app_notin.
  intros j Hj; apply Nat.eqb_neq; intros E; apply H; rewrite <- E.
  apply in_map; exact Hj.
Qed.

Lemma map_upd_inst_notin x g (l : list instruction) :
  ~ In x (map iid l) -> map (upd_inst x g) l = l.
Proof. apply map_upd_notin. Qed.

Lemma put_all_shape E LE ld sv sw todo :
  forall done cases,
    bid E <> LE ->
    NoDup (map bid (rev done ++ todo)) ->
    ~ In (bid E) (map bid (rev done ++ todo)) ->
    ~ In LE (map bid (rev done ++ todo)) ->
    ~ In sw (map iid (insts E)) ->
    ~ In sw (map iid (all_insts (rev done ++ todo))) ->
    ld <> sw ->
    put_all_BB_in_switch
      (E :: mkBB LE [LoadSV ld sv; SwitchOn sw ld LE cases]
         :: rev done ++ todo)
      LE sw (map bid todo) =
    Ok (E :: mkBB LE [LoadSV ld sv;
                      SwitchOn sw ld LE
                        (cases ++ case_table (length cases) (map bid todo))]
          :: rev todo ++ rev done).
Proof.
  induction todo as [|x todo IH]; intros done cases HE ND NE NL SE SR LS.
  - simpl; rewrite !app_nil_r; reflexivity.
  - cbn [map put_all_BB_in_switch].
    set (LEb := mkBB LE [LoadSV ld sv; SwitchOn sw ld LE cases]).
    rewrite map_app in ND, NE, NL; cbn [map] in ND, NE, NL.
    assert (Nx : ~ In (bid x) (map bid (rev done) ++ map bid todo))
      by (apply NoDup_remove_2 in ND; exact ND).
    assert (Nx1 : ~ In (bid x) (map bid (rev done)))
      by (intros H; apply Nx, in_app_iff; auto).
    assert (Nx2 : ~ In (bid x) (map bid todo))
      by (intros H; apply Nx, in_app_iff; auto).
    assert (xE : bid x <> bid E)
      by (intros H; apply NE; rewrite <- H, in_app_iff; right; left; reflexivity).
    assert (xL : bid x <> LE)
      by (intros H; apply NL; rewrite <- H, in_app_iff; right; left; reflexivity).
    assert (M : moveAfter (E :: LEb :: rev done ++ x :: todo) (bid x) LE =
                E :: LEb :: rev (done ++ [x]) ++ todo).
    { unfold moveAfter.
      change (E :: LEb :: rev done ++ x :: todo)
        with ((E :: LEb :: rev done) ++ x :: todo).
      rewrite getBlock_app_mid, removeBlock_app_mid; auto.
      - rewrite rev_app_distr; simpl.
        destruct (Nat.eqb_spec (bid E) LE) as [HE'|_]; [contradiction|].
        rewrite Nat.eqb_refl; reflexivity.
      - simpl; intros [H|[H|H]]; auto.
      - simpl; intros [H|[H|H]]; auto. }
    rewrite M; clear M.
    assert (GI : getInst (E :: LEb :: rev (done ++ [x]) ++ todo) sw =
                 Some (SwitchOn sw ld LE cases)).
    { rewrite getInst_skip_block by exact SE.
      unfold getInst, all_insts, LEb; simpl.
      apply Nat.eqb_neq in LS; rewrite LS, Nat.eqb_refl; reflexivity. }
    rewrite GI; cbn [bind ofOption SwitchOn ikind getNumCases].
    assert (SR' : ~ In sw (map iid (all_insts (rev (done ++ [x]) ++ todo)))).
    { intros H; apply SR; unfold all_insts in *.
      rewrite rev_app_distr in H; simpl in H.
      rewrite flat_map_app, !map_app, !in_app_iff in *; simpl.
      rewrite map_app, in_app_iff; tauto. }
    assert (UI : updInst (E :: LEb :: rev (done ++ [x]) ++ todo) sw
                   (addCase (ConstantInt_get32 (length cases)) (bid x)) =
                 E :: mkBB LE [LoadSV ld sv;
                               SwitchOn sw ld LE
                                 (cases ++ [(ConstantInt_get32 (length cases),
                                             bid x)])]
                   :: rev (done ++ [x]) ++ todo).
    { rewrite !updInst_cons, updInst_notin by exact SR'.
      rewrite (map_upd_inst_notin sw _ (insts E) SE), bb_eta.
      unfold LEb; cbn [bid insts map]; unfold upd_inst, LoadSV, SwitchOn.
      cbn [iid ity ikind addCase].
      apply Nat.eqb_neq in LS; rewrite LS, Nat.eqb_refl; reflexivity. }
    rewrite UI; clear UI.
    assert (PM : Permutation (map bid (rev (done ++ [x]) ++ todo))
                   (map bid (rev done) ++ bid x :: map bid todo)).
    { rewrite rev_app_distr; simpl; rewrite map_app.
      apply Permutation_middle. }
    rewrite (IH (done ++ [x])); auto.
    + rewrite <- app_assoc, length_app; simpl.
      replace (length cases + 1) with (S (length cases)) by lia.
      rewrite rev_app_distr; simpl; rewrite <- app_assoc; reflexivity.
    + apply (Permutation_NoDup (Permutation_sym PM)); exact ND.
    + intros H; apply NE; apply (Permutation_in _ PM); exact H.
    + intros H; apply NL; apply (Permutation_in _ PM); exact H.
Qed.

(** ** One more instruction *)

Lemma add_props f f' c new :
  Permutation (located f') ((c, new) :: located f) ->
  map bid f' = map bid f ->
  uniq_ids f -> phi_ok f -> unused f ->
  fresh_iid f <= iid new ->
  incomingOf (ikind new) = [] ->
  (forall x, In (VInst x) (operands (ikind new)) ->
     x < fresh_iid f /\
     forall d t, In (d, t) (located f) -> iid t = x ->
                 isTerminator (ikind t) = false) ->
  uniq_ids f' /\ phi_ok f' /\ unused f'.
Proof.
  intros P B U Ph Un F I O; split; [|split].
  - apply (uniq_ids_adds f f' [(c, new)]); auto.
    + repeat constructor; simpl; auto.
    + intros n [<-|[]]; unfold idf at 1; simpl.
      rewrite <- ids_located; apply fresh_notin_ids; exact F.
  - apply (phi_ok_adds f f' [(c, new)]); auto.
    + rewrite B; apply incl_refl.
    + intros c' n v B' [E|[]]; inversion E; subst; rewrite I; intros [].
  - apply (unused_adds f f' [(c, new)]); auto.
    + intros c' n x [E|[]] Hx d t Ht Et; inversion E; subst c' n.
      destruct (O x Hx) as [Lx Ox].
      destruct Ht as [Ht|Ht]; [|eauto].
      inversion Ht; subst d t; lia.
    + intros c' n [E|[]] Tn d u Hu Hin; inversion E; subst c' n.
      pose proof (fresh_iid_operand f d u (iid new) Hu Hin); lia.
Qed.

Lemma inserted_props c new f f' :
  inserted c new f f' ->
  uniq_bids f -> uniq_ids f -> phi_ok f -> unused f ->
  fresh_iid f <= iid new ->
  incomingOf (ikind new) = [] ->
  (forall x, In (VInst x) (operands (ikind new)) ->
     x < fresh_iid f /\
     forall d t, In (d, t) (located f) -> iid t = x ->
                 isTerminator (ikind t) = false) ->
  uniq_bids f' /\ uniq_ids f' /\ phi_ok f' /\ unused f'.
Proof.
  intros I B U Ph Un F In0 O; split.
  - unfold uniq_bids; rewrite (inserted_bids c new f f' I); exact B.
  - apply (add_props f f' c new); auto.
    + apply inserted_located; exact I.
    + apply (inserted_bids c new f f' I).
Qed.

(** ** A block replaced *)

Lemma map_bid_updBlock f b g : map bid (updBlock f b g) = map bid f.
Proof. rewrite updBlock_mapF; apply map_bid_mapF. Qed.

Lemma In_split_block f b :
  uniq_bids f -> In b (map bid f) ->
  exists pre bb post,
    f = pre ++ bb :: post /\ bid bb = b /\
    ~ In b (map bid pre) /\ ~ In b (map bid post).
Proof.
  intros U H; apply in_map_iff in H; destruct H as [bb [E H]].
  apply in_split in H; destruct H as [pre [post ->]].
  exists pre, bb, post; unfold uniq_bids in U.
  rewrite map_app in U; simpl in U; rewrite E in U.
  pose proof (NoDup_remove_2 _ _ _ U) as N.
  repeat split; auto; intros H; apply N, in_app_iff; auto.
Qed.

Lemma updBlock_app f1 f2 b g :
  updBlock (f1 ++ f2) b g = updBlock f1 b g ++ updBlock f2 b g.
Proof. unfold updBlock; apply map_app. Qed.

Lemma updBlock_mid pre bb post g :
  ~ In (bid bb) (map bid pre) -> ~ In (bid bb) (map bid post) ->
  updBlock (pre ++ bb :: post) (bid bb) g =
  pre ++ mkBB (bid bb) (g (insts bb)) :: post.
Proof.
  intros H1 H2; rewrite updBlock_app, (updBlock_notin pre _ g H1).
  rewrite updBlock_cons_eq by exact H2; reflexivity.
Qed.

Lemma setBlock_twice f b l l' : setBlock (setBlock f b l) b l' = setBlock f b l'.
Proof.
  unfold setBlock, updBlock; rewrite map_map; apply map_ext; intros bb.
  destruct (Nat.eqb_spec (bid bb) b) as [E|E]; simpl.
  - rewrite E, Nat.eqb_refl; reflexivity.
  - apply Nat.eqb_neq in E; rewrite E; reflexivity.
Qed.

Lemma updBlock_setBlock f b l g :
  updBlock (setBlock f b l) b g = setBlock f b (g l).
Proof.
  unfold setBlock, updBlock; rewrite map_map; apply map_ext; intros bb.
  destruct (Nat.eqb_spec (bid bb) b) as [E|E]; simpl.
  - rewrite E, Nat.eqb_refl; reflexivity.
  - apply Nat.eqb_neq in E; rewrite E; reflexivity.
Qed.

Lemma getBlock_setBlock_eq f b l :
  In b (map bid f) -> getBlock (setBlock f b l) b = Some (mkBB b l).
Proof.
  intros H; unfold setBlock; rewrite updBlock_mapF, getBlock_mapF.
  destruct (getBlock f b) as [bb|] eqn:G.
  - apply getBlock_Some in G; destruct G as [_ G]; simpl.
    rewrite G, Nat.eqb_refl; reflexivity.
  - apply getBlock_None in G; contradiction.
Qed.

Lemma getBlock_setBlock_neq f b l c :
  c <> b -> getBlock (setBlock f b l) c = getBlock f c.
Proof.
  intros H; unfold setBlock; rewrite updBlock_mapF, getBlock_mapF.
  destruct (getBlock f c) as [bb|] eqn:G; [|reflexivity].
  apply getBlock_Some in G; destruct G as [_ G]; simpl.
  rewrite G; apply Nat.eqb_neq in H; rewrite H, <- G, bb_eta; reflexivity.
Qed.

Lemma setBlock_same f b bb :
  getBlock f b = Some bb -> uniq_bids f -> setBlock f b (insts bb) = f.
Proof.
  intros G U; unfold setBlock, updBlock.
  rewrite <- (map_id f) at 2; apply map_ext_in; intros x Hx.
  destruct (Nat.eqb_spec (bid x) b) as [E|E]; [|reflexivity].
  pose proof (getBlock_In f x U Hx) as G'; rewrite E, G in G'.
  inversion G'; subst; apply bb_eta.
Qed.

Lemma mapF_setBlock G f b bb :
  uniq_bids f -> getBlock f b = Some bb ->
  (forall x, In x f -> bid x <> b -> G (bid x) (insts x) = insts x) ->
  mapF G f = setBlock f b (G b (insts bb)).
Proof.
  intros U Gb H; unfold mapF, setBlock, updBlock; apply map_ext_in.
  intros x Hx; destruct (Nat.eqb_spec (bid x) b) as [E|E].
  - pose proof (getBlock_In f x U Hx) as G'; rewrite E, Gb in G'.
    inversion G'; subst; reflexivity.
  - rewrite (H x Hx E); apply bb_eta.
Qed.

Lemma located_setBlock f b l c j :
  In b (map bid f) ->
  (In (c, j) (located (setBlock f b l)) <->
   (c <> b /\ In (c, j) (located f)) \/ (c = b /\ In j l)).
Proof.
  intros Hb; unfold setBlock; rewrite updBlock_mapF, In_located_mapF; split.
  - intros [bb [H1 [H2 H3]]].
    destruct (Nat.eqb_spec c b) as [E|E]; [right; auto|].
    left; split; [exact E|]; apply In_located; eauto.
  - intros [[H1 H2]|[H1 H2]].
    + apply In_located in H2; destruct H2 as [bb [H2 [H3 H4]]].
      exists bb; repeat split; auto.
      apply Nat.eqb_neq in H1; rewrite H1; exact H4.
    + apply in_map_iff in Hb; destruct Hb as [bb [E Hb]].
      exists bb; subst c; repeat split; auto; rewrite Nat.eqb_refl; exact H2.
Qed.

Lemma located_split_block pre bb post :
  located (pre ++ bb :: post) =
  located pre ++ map (pair (bid bb)) (insts bb) ++ located post.
Proof. rewrite located_app, located_cons; reflexivity. Qed.

Lemma insertAtEnd_located f b new :
  uniq_bids f -> In b (map bid f) ->
  Permutation (located (insertAtEnd f b new)) ((b, new) :: located f).
Proof.
  intros U H; destruct (In_split_block f b U H)
    as [pre [bb [post [-> [E [N1 N2]]]]]]; subst b.
  unfold insertAtEnd; rewrite updBlock_mid by auto.
  rewrite !located_split_block; simpl; rewrite map_app; simpl.
  rewrite <- !app_assoc; simpl.
  rewrite (app_assoc (located pre)); symmetry.
  rewrite (app_assoc (located pre)); apply Permutation_middle.
Qed.

Lemma getInst_uniq f c j :
  uniq_ids f -> In (c, j) (located f) -> getInst f (iid j) = Some j.
Proof.
  intros U H; unfold getInst.
  destruct (find (fun j0 => iid j0 =? iid j) (all_insts f)) as [j'|] eqn:F.
  - apply find_some in F; destruct F as [F1 F2]; apply Nat.eqb_eq in F2.
    apply In_all_insts in F1; destruct F1 as [c' F1].
    pose proof (uniq_ids_same f c' j' c j U F1 H F2) as E.
    inversion E; reflexivity.
  - exfalso; assert (Hj : In j (all_insts f)) by (apply In_all_insts; eauto).
    pose proof (find_none _ _ F j Hj) as X; simpl in X.
    rewrite Nat.eqb_refl in X; discriminate.
Qed.

Lemma getLInst_uniq f c j :
  uniq_ids f -> In (c, j) (located f) -> getLInst f (iid j) = Some (c, j).
Proof.
  intros U H; unfold getLInst.
  destruct (find (fun j0 : linst => iid (snd j0) =? iid j) (located f))
    as [[c' j']|] eqn:F.
  - apply find_some in F; destruct F as [F1 F2]; apply Nat.eqb_eq in F2.
    simpl in F2.
    rewrite (uniq_ids_same f c' j' c j U F1 H F2); reflexivity.
  - exfalso; pose proof (find_none _ _ F (c, j) H) as X; simpl in X.
    rewrite Nat.eqb_refl in X; discriminate.
Qed.

Lemma terminated_setBlock f b l t :
  terminated f -> getTerminator (mkBB b l) = Some t ->
  terminated (setBlock f b l).
Proof.
  intros T Gt bb Hbb; unfold setBlock, updBlock in Hbb.
  apply in_map_iff in Hbb; destruct Hbb as [x [E Hx]].
  destruct (Nat.eqb_spec (bid x) b) as [Eb|Eb]; subst bb.
  - rewrite Eb; eauto.
  - apply T; exact Hx.
Qed.

(** ** Edits of one block *)

Lemma block_ids_NoDup f bb :
  uniq_ids f -> In bb f -> NoDup (map iid (insts bb)).
Proof.
  intros U H; apply in_split in H; destruct H as [pre [post ->]].
  apply uniq_ids_app_r in U; unfold uniq_ids in U.
  rewrite located_cons, map_app, map_map in U; simpl in U.
  apply NoDup_app_remove_r in U; exact U.
Qed.

Lemma other_block_ids f i t x j :
  uniq_ids f -> In (i, t) (located f) -> In x f -> bid x <> i ->
  In j (insts x) -> iid j <> iid t.
Proof.
  intros U Ht Hx N Hj E.
  assert (Hl : In (bid x, j) (located f)) by (apply In_located; eauto).
  pose proof (uniq_ids_same f _ _ _ _ U Hl Ht E) as X; inversion X; auto.
Qed.

Lemma getBlock_located f i l j :
  getBlock f i = Some (mkBB i l) -> In j l -> In (i, j) (located f).
Proof.
  intros G H; apply getBlock_Some in G; destruct G as [G _].
  apply In_located; exists (mkBB i l); auto.
Qed.

Lemma getBlock_bid f i bb : getBlock f i = Some bb -> In i (map bid f).
Proof.
  intros G; apply getBlock_Some in G; destruct G as [G <-].
  apply in_map; exact G.
Qed.

Lemma erase_setBlock f i l1 t l2 :
  uniq_bids f -> uniq_ids f ->
  getBlock f i = Some (mkBB i (l1 ++ t :: l2)) ->
  eraseFromParent f (iid t) = setBlock f i (l1 ++ l2).
Proof.
  intros B U G.
  change (eraseFromParent f (iid t))
    with (mapF (fun _ => filter (fun j => negb (iid j =? iid t))) f).
  rewrite (mapF_setBlock _ f i _ B G); simpl.
  - f_equal.
    assert (N : NoDup (map iid (l1 ++ t :: l2))).
    { apply getBlock_Some in G; destruct G as [G _].
      apply (block_ids_NoDup f _ U G). }
    rewrite map_app in N; simpl in N.
    pose proof (NoDup_remove_2 _ _ _ N) as N2.
    rewrite filter_app; simpl; rewrite Nat.eqb_refl; simpl.
    rewrite !filter_id_notin; auto; intros H; apply N2, in_app_iff; auto.
  - intros x Hx Nx; apply filter_id_notin; intros H.
    apply in_map_iff in H; destruct H as [j [E Hj]].
    apply (other_block_ids f i t x j U); auto.
    apply (getBlock_located f i _ t G), in_app_iff; right; left; reflexivity.
Qed.

Lemma insert_before_app pos new l1 p l2 :
  iid p = pos -> ~ In pos (map iid l1) ->
  insert_before pos new (l1 ++ p :: l2) = l1 ++ new :: p :: l2.
Proof.
  intros E; induction l1 as [|j l1 IH]; simpl; intros H.
  - rewrite E, Nat.eqb_refl; reflexivity.
  - destruct (Nat.eqb_spec (iid j) pos) as [E'|E']; [exfalso; auto|].
    rewrite IH; auto.
Qed.

Lemma insertBefore_setBlock f i l1 t l2 new :
  uniq_bids f -> uniq_ids f ->
  getBlock f i = Some (mkBB i (l1 ++ t :: l2)) ->
  insertBefore f (iid t) new = setBlock f i (l1 ++ new :: t :: l2).
Proof.
  intros B U G.
  change (insertBefore f (iid t) new)
    with (mapF (fun _ => insert_before (iid t) new) f).
  rewrite (mapF_setBlock _ f i _ B G); simpl.
  - f_equal; apply insert_before_app; [reflexivity|].
    assert (N : NoDup (map iid (l1 ++ t :: l2))).
    { apply getBlock_Some in G; destruct G as [G _].
      apply (block_ids_NoDup f _ U G). }
    rewrite map_app in N; simpl in N.
    pose proof (NoDup_remove_2 _ _ _ N) as N2.
    intros H; apply N2, in_app_iff; auto.
  - intros x Hx Nx; apply insert_before_notin; intros H.
    apply in_map_iff in H; destruct H as [j [E Hj]].
    apply (other_block_ids f i t x j U); auto.
    apply (getBlock_located f i _ t G), in_app_iff; right; left; reflexivity.
Qed.

Lemma insertAtEnd_setBlock f i l new :
  uniq_bids f -> getBlock f i = Some (mkBB i l) ->
  insertAtEnd f i new = setBlock f i (l ++ [new]).
Proof.
  intros B G; unfold insertAtEnd.
  rewrite <- (setBlock_same f i (mkBB i l) G B) at 1.
  rewrite updBlock_setBlock; reflexivity.
Qed.

Lemma uniq_bids_setBlock f i l : uniq_bids f -> uniq_bids (setBlock f i l).
Proof.
  unfold uniq_bids, setBlock; rewrite map_bid_updBlock; auto.
Qed.

Lemma setBlock_ne f i l : f <> [] -> setBlock f i l <> [].
Proof. destruct f; simpl; [auto | discriminate]. Qed.

Lemma WF_WF0 f : WF f -> WF0 f.
Proof. intros [? ? ? ? ? ?]; constructor; auto. Qed.

Lemma WF0_erase f x : WF0 f -> WF0 (eraseFromParent f x).
Proof.
  intros [B U P N]; constructor.
  - unfold uniq_bids; rewrite map_bid_erase; exact B.
  - apply uniq_ids_erase; exact U.
  - apply phi_ok_erase; exact P.
  - apply unused_erase; exact N.
Qed.

Lemma WF0_insertAtEnd f i new :
  WF0 f -> In i (map bid f) ->
  fresh_iid f <= iid new ->
  incomingOf (ikind new) = [] ->
  (forall x, In (VInst x) (operands (ikind new)) ->
     x < fresh_iid f /\
     forall d t, In (d, t) (located f) -> iid t = x ->
                 isTerminator (ikind t) = false) ->
  WF0 (insertAtEnd f i new).
Proof.
  intros [B U P N] Hi F I O.
  assert (Bd : map bid (insertAtEnd f i new) = map bid f)
    by apply map_bid_updBlock.
  destruct (add_props f (insertAtEnd f i new) i new) as [U' [P' N']]; auto.
  - apply insertAtEnd_located; auto.
  - constructor; auto; unfold uniq_bids; rewrite Bd; exact B.
Qed.

Lemma WF0_insertBefore f c p new :
  WF0 f -> In (c, p) (located f) ->
  fresh_iid f <= iid new ->
  incomingOf (ikind new) = [] ->
  (forall x, In (VInst x) (operands (ikind new)) ->
     x < fresh_iid f /\
     forall d t, In (d, t) (located f) -> iid t = x ->
                 isTerminator (ikind t) = false) ->
  WF0 (insertBefore f (iid p) new).
Proof.
  intros [B U P N] Hp F I O.
  destruct (inserted_props c new f (insertBefore f (iid p) new))
    as [B' [U' [P' N']]]; auto.
  - apply (insertBefore_inserted f (iid p) new c p); auto.
  - constructor; auto.
Qed.

Lemma operand_not_terminator f d u x :
  unused f -> In (d, u) (located f) -> In (VInst x) (operands (ikind u)) ->
  forall c t, In (c, t) (located f) -> iid t = x ->
              isTerminator (ikind t) = false.
Proof.
  intros N Hu Hx c t Ht E.
  destruct (isTerminator (ikind t)) eqn:T; [|reflexivity].
  exfalso; apply (N c t d u Ht Hu T); rewrite E; exact Hx.
Qed.

(** ** Terminator rewriting, one block *)

Lemma append_store_jump g i l v LE sv L dL vol :
  WF0 g -> getBlock g i = Some (mkBB i l) ->
  In (dL, L) (located g) -> ikind L = Load (VInst sv) vol ->
  (forall x, v = VInst x ->
     x < fresh_iid g /\
     forall d t, In (d, t) (located g) -> iid t = x ->
                 isTerminator (ikind t) = false) ->
  exists n1 n2,
    n1 = fresh_iid g /\
    n2 = fresh_iid (insertAtEnd g i (mkInst n1 VoidTy (Store v (VInst sv)))) /\
    insertAtEnd (insertAtEnd g i (mkInst n1 VoidTy (Store v (VInst sv)))) i
      (mkInst n2 VoidTy (Br LE)) =
    setBlock g i (l ++ [mkInst n1 VoidTy (Store v (VInst sv));
                        mkInst n2 VoidTy (Br LE)]) /\
    WF0 (setBlock g i (l ++ [mkInst n1 VoidTy (Store v (VInst sv));
                             mkInst n2 VoidTy (Br LE)])).
Proof.
  intros W G HL KL Hv.
  set (n1 := fresh_iid g).
  set (St := mkInst n1 VoidTy (Store v (VInst sv))).
  set (g1 := insertAtEnd g i St).
  set (n2 := fresh_iid g1).
  exists n1, n2; split; [reflexivity|]; split; [reflexivity|].
  change (mkInst n1 VoidTy (Store v (VInst sv))) with St; fold g1.
  pose proof (getBlock_bid g i _ G) as Hi.
  assert (W1 : WF0 g1).
  { apply WF0_insertAtEnd;
      [exact W | exact Hi | unfold St; simpl; lia | reflexivity |].
    intros x [Hx|[Hx|[]]].
    - apply Hv; exact Hx.
    - inversion Hx; subst x; split.
      + apply (fresh_iid_operand g dL L sv HL); rewrite KL; left; reflexivity.
      + apply (operand_not_terminator g dL L sv (wf0_unused g W) HL).
        rewrite KL; left; reflexivity. }
  assert (E1 : g1 = setBlock g i (l ++ [St]))
    by (apply insertAtEnd_setBlock; [apply (wf0_bids g W) | exact G]).
  assert (G1 : getBlock g1 i = Some (mkBB i (l ++ [St])))
    by (rewrite E1; apply getBlock_setBlock_eq; exact Hi).
  assert (E2 : insertAtEnd g1 i (mkInst n2 VoidTy (Br LE)) =
               setBlock g i (l ++ [St; mkInst n2 VoidTy (Br LE)])).
  { rewrite (insertAtEnd_setBlock g1 i (l ++ [St])); auto.
    - rewrite E1, setBlock_twice, <- app_assoc; reflexivity.
    - apply (wf0_bids g1 W1). }
  split; [exact E2|]; rewrite <- E2.
  apply WF0_insertAtEnd;
    [exact W1 | | simpl; lia | reflexivity | simpl; intros x []].
  unfold g1, insertAtEnd; rewrite map_bid_updBlock; exact Hi.
Qed.

Lemma rewrite_terminator_step f i body t LE ld sw sv SW L vol :
  WF f ->
  getBlock f i = Some (mkBB i (body ++ [t])) ->
  isTerminator (ikind t) = true ->
  i <> LE ->
  In (LE, SW) (located f) -> iid SW = sw ->
  In (LE, L) (located f) -> iid L = ld -> ikind L = Load (VInst sv) vol ->
  (forall s, In s (successors (ikind t)) ->
             exists k, findCaseDest (ikind SW) s = Some k) ->
  (getNumSuccessors (ikind t) = 2 -> exists c sT sF, ikind t = CondBr c sT sF) ->
  exists l',
    rewrite_terminator LE ld sw f i = Ok (setBlock f i l') /\
    rewritten LE sv (ikind SW) (body ++ [t]) l' /\
    WF (setBlock f i l').
Proof.
  intros W G T Ni HSW Esw HL Eld KL Res Cnd.
  pose proof (WF_WF0 f W) as W0.
  pose proof (getBlock_bid f i _ G) as Hi.
  assert (Same : setBlock f i (body ++ [t]) = f)
    by (apply (setBlock_same f i (mkBB i (body ++ [t])) G (wf_bids f W))).
  assert (Ht : In (i, t) (located f)).
  { apply (getBlock_located f i _ t G), in_app_iff; right; left; reflexivity. }
  assert (Fin : forall l' t',
             WF0 (setBlock f i (l' ++ [t'])) ->
             isTerminator (ikind t') = true ->
             WF (setBlock f i (l' ++ [t']))).
  { intros l' t' [B U P N] T'; constructor; auto.
    - apply setBlock_ne, (wf_ne f W).
    - apply (terminated_setBlock f i _ t'); [apply (wf_term f W)|].
      apply getTerminator_app; exact T'. }
  unfold rewrite_terminator; rewrite G; cbn [bind ofOption].
  rewrite (getTerminator_app i body t T); cbn [bind ofOption].
  unfold getNumSuccessors in *; unfold getSuccessor.
  destruct (successors (ikind t)) as [|s0 [|s1 [|s2 ss]]] eqn:S;
    cbn [length Nat.eqb nth_error bind ofOption].
  - (* no successor *)
    exists (body ++ [t]); rewrite Same; split; [reflexivity|].
    split; [|exact W].
    apply rw_return; unfold getNumSuccessors; rewrite S; reflexivity.
  - (* one successor *)
    rewrite (erase_setBlock f i body t [] (wf_bids f W) (wf_ids f W) G).
    rewrite app_nil_r.
    set (f1 := setBlock f i body).
    assert (W1 : WF0 f1).
    { unfold f1; rewrite <- (app_nil_r body).
      rewrite <- (erase_setBlock f i body t [] (wf_bids f W) (wf_ids f W) G).
      apply WF0_erase; exact W0. }
    assert (G1 : getBlock f1 i = Some (mkBB i body))
      by (apply getBlock_setBlock_eq; exact Hi).
    assert (HSW1 : In (LE, SW) (located f1))
      by (apply located_setBlock; auto).
    assert (HL1 : In (LE, L) (located f1))
      by (apply located_setBlock; auto).
    rewrite <- Esw, (getInst_uniq f1 LE SW (wf0_ids f1 W1) HSW1).
    cbn [bind ofOption].
    destruct (Res s0 (or_introl eq_refl)) as [k Hk]; rewrite Hk.
    cbn [bind ofOption].
    rewrite <- Eld, (getInst_uniq f1 LE L (wf0_ids f1 W1) HL1).
    cbn [bind ofOption]; rewrite KL; cbn [bind ofOption getPointerOperand].
    destruct (append_store_jump f1 i body (VConstInt 32 k) LE sv L LE vol
                W1 G1 HL1 KL) as [n1 [n2 [E1 [E2 [E3 W3]]]]].
    { intros x Hx; discriminate. }
    rewrite <- E1, <- E2, E3.
    unfold f1 in *; rewrite setBlock_twice in *.
    eexists; split; [reflexivity|]; split.
    + apply (rw_jump LE sv (ikind SW) body t s0 k n1 n2 S Hk).
    + replace (body ++ [mkInst n1 VoidTy (Store (VConstInt 32 k) (VInst sv));
                        mkInst n2 VoidTy (Br LE)])
        with ((body ++ [mkInst n1 VoidTy (Store (VConstInt 32 k) (VInst sv))])
              ++ [mkInst n2 VoidTy (Br LE)]) in *
        by (rewrite <- app_assoc; reflexivity).
      apply Fin; [exact W3 | reflexivity].
  - (* two successors *)
    destruct (Cnd eq_refl) as [c [sT [sF K]]].
    rewrite K in S; simpl in S; inversion S; subst s0 s1; clear S.
    rewrite <- Esw, (getInst_uniq f LE SW (wf_ids f W) HSW).
    cbn [bind ofOption].
    destruct (Res sT (or_introl eq_refl)) as [kT HkT]; rewrite HkT.
    destruct (Res sF (or_intror (or_introl eq_refl))) as [kF HkF]; rewrite HkF.
    cbn [bind ofOption]; rewrite K; cbn [bind ofOption getCondition].
    set (n0 := fresh_iid f).
    set (Sel := mkInst n0 Int32Ty
                  (Select c (VConstInt 32 kT) (VConstInt 32 kF))).
    assert (WI : WF0 (insertBefore f (iid t) Sel)).
    { apply (WF0_insertBefore f i t Sel);
        [exact W0 | exact Ht | unfold Sel; simpl; lia | reflexivity |].
      intros x [Hx|[Hx|[Hx|[]]]]; try discriminate.
      subst c; split.
      - apply (fresh_iid_operand f i t x Ht); rewrite K; left; reflexivity.
      - apply (operand_not_terminator f i t x (wf_unused f W) Ht).
        rewrite K; left; reflexivity. }
    rewrite (insertBefore_setBlock f i body t [] Sel
               (wf_bids f W) (wf_ids f W) G) in *.
    set (f1 := setBlock f i (body ++ [Sel; t])) in *.
    assert (G1 : getBlock f1 i = Some (mkBB i ((body ++ [Sel]) ++ t :: [])))
      by (rewrite <- app_assoc; apply getBlock_setBlock_eq; exact Hi).
    pose proof (WF0_erase f1 (iid t) WI) as W2.
    rewrite (erase_setBlock f1 i (body ++ [Sel]) t []
               (wf0_bids f1 WI) (wf0_ids f1 WI) G1) in *.
    rewrite app_nil_r in *; unfold f1 in W2 |- *.
    rewrite setBlock_twice in *.
    set (f2 := setBlock f i (body ++ [Sel])) in *.
    assert (G2 : getBlock f2 i = Some (mkBB i (body ++ [Sel])))
      by (apply getBlock_setBlock_eq; exact Hi).
    assert (HL2 : In (LE, L) (located f2))
      by (apply located_setBlock; auto).
    rewrite <- Eld, (getInst_uniq f2 LE L (wf0_ids f2 W2) HL2).
    cbn [bind ofOption]; rewrite KL; cbn [bind ofOption getPointerOperand].
    assert (HS2 : In (i, Sel) (located f2)).
    { apply (getBlock_located f2 i _ Sel G2), in_app_iff; right; left.
      reflexivity. }
    destruct (append_store_jump f2 i (body ++ [Sel]) (VInst n0) LE sv L LE vol
                W2 G2 HL2 KL) as [n1 [n2 [E1 [E2 [E3 W3]]]]].
    { intros x Hx; inversion Hx; subst x; split.
      - apply (fresh_iid_located f2 i Sel HS2).
      - intros d t' Ht' Et'.
        assert (X : (d, t') = (i, Sel))
          by (apply (uniq_ids_same f2); auto; apply (wf0_ids f2 W2)).
        inversion X; reflexivity. }
    rewrite <- E1, <- E2, E3.
    unfold f2 in *; rewrite setBlock_twice in *.
    eexists; split; [reflexivity|]; split.
    + rewrite <- app_assoc; simpl.
      apply (rw_branch LE sv (ikind SW) body t c sT sF kT kF n0 n1 n2 K HkT HkF).
    + replace ((body ++ [Sel]) ++
               [mkInst n1 VoidTy (Store (VInst n0) (VInst sv));
                mkInst n2 VoidTy (Br LE)])
        with (((body ++ [Sel]) ++
               [mkInst n1 VoidTy (Store (VInst n0) (VInst sv))])
              ++ [mkInst n2 VoidTy (Br LE)]) in *
        by (rewrite <- app_assoc; reflexivity).
      apply Fin; [exact W3 | reflexivity].
  - (* more successors *)
    exists (body ++ [t]); rewrite Same; split; [reflexivity|].
    split; [|exact W].
    apply rw_wide; unfold getNumSuccessors; rewrite S; simpl; lia.
Qed.

(** ** Functions that differ in the incoming blocks of their PHI nodes *)

Lemma sim_refl new j : sim new j j.
Proof. left; reflexivity. Qed.

Lemma Forall2_refl {A : Type} (R : A -> A -> Prop) l :
  (forall x, R x x) -> Forall2 R l l.
Proof. intros H; induction l; constructor; auto. Qed.

Lemma simF_refl new f : simF new f f.
Proof.
  apply Forall2_refl; intros bb; split; [reflexivity|].
  apply Forall2_refl, sim_refl.
Qed.

Lemma sim_trans new j1 j2 j3 : sim new j1 j2 -> sim new j2 j3 -> sim new j1 j3.
Proof.
  intros [->|[inc [inc' [K [E [F I]]]]]] H; [exact H|].
  destruct H as [->|[inc2 [inc3 [K2 [E2 [F2 I2]]]]]].
  - right; exists inc, inc'; auto.
  - subst j2; simpl in *; inversion K2; subst inc2.
    right; exists inc, inc3; repeat split; auto; [congruence|].
    intros B HB; destruct (I2 B HB) as [H|H]; auto.
Qed.

Lemma Forall2_trans {A : Type} (R : A -> A -> Prop) l1 :
  (forall x y z, R x y -> R y z -> R x z) ->
  forall l2 l3, Forall2 R l1 l2 -> Forall2 R l2 l3 -> Forall2 R l1 l3.
Proof.
  intros T; induction l1 as [|x l1 IH]; intros l2 l3 H1 H2;
    inversion H1; subst; inversion H2; subst; constructor; eauto.
Qed.

Lemma simF_trans new f1 f2 f3 :
  simF new f1 f2 -> simF new f2 f3 -> simF new f1 f3.
Proof.
  apply Forall2_trans; intros x y z [E1 H1] [E2 H2]; split; [congruence|].
  apply (Forall2_trans (sim new) (insts x) (sim_trans new) _ _ H1 H2).
Qed.

Lemma sim_facts new j j' :
  sim new j j' ->
  iid j' = iid j /\ ity j' = ity j /\
  isTerminator (ikind j') = isTerminator (ikind j) /\
  operands (ikind j') = operands (ikind j) /\
  successors (ikind j') = successors (ikind j) /\
  isConditional (ikind j') = isConditional (ikind j) /\
  (isTerminator (ikind j) = true -> j' = j) /\
  (forall B, In B (map snd (incomingOf (ikind j'))) ->
             B = new \/ In B (map snd (incomingOf (ikind j)))).
Proof.
  intros [->|[inc [inc' [K [E [F I]]]]]].
  - repeat split; auto.
  - subst j'; simpl; rewrite K; simpl; repeat split; auto.
    intros H; discriminate.
Qed.

Lemma simF_bids new f f' : simF new f f' -> map bid f' = map bid f.
Proof.
  unfold simF; induction 1 as [|bb bb' f f' [E _] _ IH]; simpl; [reflexivity|].
  rewrite E, IH; reflexivity.
Qed.

Lemma Forall2_In_r {A B : Type} (R : A -> B -> Prop) l l' y :
  Forall2 R l l' -> In y l' -> exists x, In x l /\ R x y.
Proof.
  induction 1 as [|a b l l' Hab _ IH]; simpl; [easy|].
  intros [<-|H]; [eauto|].
  destruct (IH H) as [x [Hx Rx]]; eauto.
Qed.

Lemma Forall2_In_l {A B : Type} (R : A -> B -> Prop) l l' x :
  Forall2 R l l' -> In x l -> exists y, In y l' /\ R x y.
Proof.
  induction 1 as [|a b l l' Hab _ IH]; simpl; [easy|].
  intros [<-|H]; [eauto|].
  destruct (IH H) as [y [Hy Ry]]; eauto.
Qed.

Lemma simF_located new f f' c j' :
  simF new f f' -> In (c, j') (located f') ->
  exists j, In (c, j) (located f) /\ sim new j j'.
Proof.
  unfold simF; induction 1 as [|bb bb' f f' [E S] _ IH]; [simpl; easy|].
  rewrite !located_cons, !in_app_iff; intros [H|H].
  - apply in_map_iff in H; destruct H as [x [Ex Hx]]; inversion Ex; subst.
    destruct (Forall2_In_r _ _ _ _ S Hx) as [j [Hj Sj]].
    exists j; split; [|exact Sj]; apply in_app_iff; left; rewrite E.
    apply in_map; exact Hj.
  - destruct (IH H) as [j [Hj Sj]]; exists j; split; [|exact Sj].
    apply in_app_iff; right; exact Hj.
Qed.

Lemma simF_ids new f f' :
  simF new f f' -> map iid (all_insts f') = map iid (all_insts f).
Proof.
  unfold simF; induction 1 as [|bb bb' f f' [E S] _ IH]; [reflexivity|].
  rewrite !ids_cons, IH; f_equal.
  clear - S; induction S as [|j j' l l' Sj _ IHl]; simpl; [reflexivity|].
  destruct (sim_facts new j j' Sj) as [Ei _]; rewrite Ei, IHl; reflexivity.
Qed.

Lemma simF_terminated new f f' : simF new f f' -> terminated f -> terminated f'.
Proof.
  intros S T bb' Hbb'.
  destruct (Forall2_In_r _ _ _ _ S Hbb') as [bb [Hbb [E Si]]].
  destruct (T bb Hbb) as [t Ht]; exists t.
  apply getTerminator_Some in Ht; destruct Ht as [l [El Tt]].
  apply getTerminator_Some.
  rewrite El in Si; apply Forall2_app_inv_l in Si.
  destruct Si as [l1' [l2' [S1 [S2 E2]]]].
  inversion S2 as [|? t' ? ? St S3]; subst; inversion S3; subst.
  destruct (sim_facts new t t' St) as [_ [_ [_ [_ [_ [_ [Eq _]]]]]]].
  rewrite (Eq Tt) in *; exists l1'; auto.
Qed.

Lemma simF_WF new f f' :
  simF new f f' -> In new (map bid f) -> WF f -> WF f'.
Proof.
  intros S Hn [Wne WB WU WT WP WN].
  pose proof (simF_bids new f f' S) as Eb.
  constructor.
  - intros ->; inversion S; subst; auto.
  - unfold uniq_bids; rewrite Eb; exact WB.
  - apply uniq_ids_NoDup; rewrite (simF_ids new f f' S).
    apply uniq_ids_NoDup; exact WU.
  - apply (simF_terminated new f f' S WT).
  - intros c j' v B Hj Hv; rewrite Eb.
    destruct (simF_located new f f' c j' S Hj) as [j [Hj0 Sj]].
    destruct (sim_facts new j j' Sj) as [_ [_ [_ [_ [_ [_ [_ I]]]]]]].
    destruct (I B) as [->|H]; [apply in_map_iff; exists (v, B); auto|exact Hn|].
    apply in_map_iff in H; destruct H as [[v0 B0] [E0 H0]]; simpl in E0.
    subst B0; eapply WP; eauto.
  - intros c t' d u' Ht Hu Tt Hin.
    destruct (simF_located new f f' c t' S Ht) as [t [Ht0 St]].
    destruct (simF_located new f f' d u' S Hu) as [u [Hu0 Su]].
    destruct (sim_facts new t t' St) as [Ei [_ [Et _]]].
    destruct (sim_facts new u u' Su) as [_ [_ [_ [Eo _]]]].
    rewrite Et in Tt; rewrite Ei, Eo in Hin.
    apply (WN c t d u Ht0 Hu0 Tt Hin).
Qed.

(** The renaming of [splitBasicBlock] is of this kind. *)
Lemma map_phis_sim old new l :
  Forall2 (sim new) l
    (map_phis (map (fun vb : value * block_id =>
                      if snd vb =? old then (fst vb, new) else vb)) l).
Proof.
  induction l as [|j l IH]; simpl; [constructor|].
  destruct (ikind j) eqn:K; try (apply Forall2_refl, sim_refl).
  constructor; [|exact IH].
  right; exists incoming, (map (fun vb : value * block_id =>
                       if snd vb =? old then (fst vb, new) else vb) incoming).
  repeat split; auto.
  - rewrite map_map; apply map_ext; intros [v B]; simpl.
    destruct (B =? old); reflexivity.
  - intros B HB; rewrite map_map in HB; apply in_map_iff in HB.
    destruct HB as [[v B0] [E H]]; simpl in E.
    destruct (B0 =? old); simpl in E; subst; auto.
    right; apply in_map_iff; exists (v, B); auto.
Qed.

Lemma updBlock_simF old new f s :
  simF new f
    (updBlock f s
       (map_phis (map (fun vb : value * block_id =>
                         if snd vb =? old then (fst vb, new) else vb)))).
Proof.
  induction f as [|bb f IH]; simpl; constructor; auto.
  destruct (bid bb =? s); simpl; split; auto.
  - apply map_phis_sim.
  - apply Forall2_refl, sim_refl.
Qed.

Lemma replaceSuccessors_simF f k old new :
  simF new f (replaceSuccessorsPhiUsesWith f k old new).
Proof.
  unfold replaceSuccessorsPhiUsesWith; generalize (successors k) as ss.
  intros ss; revert f; induction ss as [|s ss IH]; intros f; simpl.
  - apply simF_refl.
  - eapply simF_trans; [apply (updBlock_simF old new f s) | apply IH].
Qed.

(** ** Entry preparation keeps the function well formed *)

Lemma rewritableb_rewritable f : rewritableb f = true -> rewritable f.
Proof.
  unfold rewritableb; rewrite forallb_forall; intros H c j Hj N.
  assert (Hj' : In j (all_insts f)) by (apply In_all_insts; eauto).
  specialize (H j Hj'); rewrite N in H; simpl in H.
  destruct (ikind j); try discriminate; eauto.
Qed.

Lemma WF0_of_insts f f' new :
  Permutation (all_insts f') (new :: all_insts f) ->
  incl (map bid f) (map bid f') ->
  uniq_bids f' ->
  WF0 f ->
  fresh_iid f <= iid new ->
  incomingOf (ikind new) = [] ->
  operands (ikind new) = [] ->
  WF0 f'.
Proof.
  intros P I B [_ U Ph N] F In0 O.
  assert (M : forall c j, In (c, j) (located f') ->
                j = new \/ exists c', In (c', j) (located f)).
  { intros c j H.
    assert (Hj : In j (all_insts f')) by (apply In_all_insts; eauto).
    apply (Permutation_in _ P) in Hj; destruct Hj as [<-|Hj]; [auto|].
    right; apply In_all_insts; exact Hj. }
  constructor; auto.
  - apply uniq_ids_NoDup; apply (Permutation_map iid) in P.
    apply Permutation_sym in P; apply (Permutation_NoDup P); simpl.
    constructor; [apply fresh_notin_ids; exact F|].
    apply uniq_ids_NoDup; exact U.
  - intros c j v B' Hj Hv; destruct (M c j Hj) as [->|[c' Hj']].
    + rewrite In0 in Hv; destruct Hv.
    + apply I; eapply Ph; eauto.
  - intros c t d u Ht Hu Tt Hin.
    destruct (M d u Hu) as [->|[d' Hu']]; [rewrite O in Hin; destruct Hin|].
    destruct (M c t Ht) as [->|[c' Ht']].
    + pose proof (fresh_iid_operand f d' u (iid new) Hu' Hin); lia.
    + apply (N c' t d' u Ht' Hu' Tt Hin).
Qed.

(** The terminators of two successors keep, through the preparation of
    the first block, whatever holds of them. *)
Lemma entry_preparation_wf_on (Q : instruction -> Prop) e rest :
  rest <> [] ->
  WF (e :: rest) -> successors_ok (e :: rest) ->
  (forall c j, In (c, j) (located (e :: rest)) ->
               getNumSuccessors (ikind j) = 2 -> Q j) ->
  exists pro t1 tl1,
    entry_preparation (e :: rest) (map bid (e :: rest)) =
    Ok (mkBB (bid e) (pro ++ [t1]) :: tl1, map bid tl1, bid e) /\
    isTerminator (ikind t1) = true /\
    WF (mkBB (bid e) (pro ++ [t1]) :: tl1) /\
    successors_ok (mkBB (bid e) (pro ++ [t1]) :: tl1) /\
    (forall c j, In (c, j) (located (mkBB (bid e) (pro ++ [t1]) :: tl1)) ->
                 getNumSuccessors (ikind j) = 2 -> Q j) /\
    tl1 <> [] /\
    (map bid tl1 = map bid rest \/
     map bid tl1 = fresh_bid (e :: rest) :: map bid rest).
Proof.
  intros Nr W SO RW.
  destruct (wf_term _ W e (or_introl eq_refl)) as [t T].
  pose proof T as T'; apply getTerminator_Some in T'.
  destruct T' as [l [El Tt]].
  assert (NI : ~ In (bid e) (map bid rest)).
  { pose proof (wf_bids _ W) as B; unfold uniq_bids in B; simpl in B.
    inversion B; auto. }
  destruct (isConditional (ikind t) || (1 <? getNumSuccessors (ikind t)))
    eqn:C.
  2:{ exists l, t, rest.
      rewrite (entry_preparation_no_split e rest t T C).
      assert (Ee : mkBB (bid e) (l ++ [t]) = e)
        by (rewrite <- El; apply bb_eta).
      rewrite Ee; split; [reflexivity|]; split; [exact Tt|].
      split; [exact W|]; split; [exact SO|]; split; [exact RW|].
      split; [exact Nr | left; reflexivity]. }
  assert (SS : forall s, In s (successors (ikind t)) -> In s (map bid rest)).
  { intros s Hs; apply (SO (bid e) t s); [|exact Hs].
    rewrite located_cons; apply in_app_iff; left; apply in_map.
    rewrite El; apply in_app_iff; right; left; reflexivity. }
  destruct (entry_preparation_split e rest t T NI SS C)
    as [kept [moved [Ek [Sh Ep]]]].
  set (new := fresh_bid (e :: rest)) in *.
  set (BI := mkInst (fresh_iid (e :: rest)) VoidTy (Br new)) in *.
  set (R := replaceSuccessorsPhiUsesWith rest (ikind t) (bid e) new) in *.
  exists kept, BI, (mkBB new moved :: R).
  assert (Nn : new <> bid e).
  { intros H; apply (fresh_bid_notin (e :: rest)); fold new; rewrite H.
    left; reflexivity. }
  assert (Nr2 : ~ In new (map bid rest)).
  { intros H; apply (fresh_bid_notin (e :: rest)); right; exact H. }
  assert (ER : map bid R = map bid rest)
    by (apply (simF_bids new), replaceSuccessors_simF).
  assert (Mt : exists m, moved = m ++ [t]).
  { destruct Sh as [[_ [-> _]]|[_ [x ->]]]; [exists [] | exists [x]]; auto. }
  destruct Mt as [m Em].
  set (fS := mkBB (bid e) (kept ++ [BI]) :: mkBB new moved :: rest).
  assert (WS : WF fS).
  { assert (W0 : WF0 fS).
    { apply (WF0_of_insts (e :: rest) fS BI).
      - unfold fS, all_insts; simpl; rewrite Ek, <- !app_assoc; simpl.
        symmetry; apply Permutation_middle.
      - unfold fS; simpl; intros b [Hb|Hb]; simpl; auto.
      - unfold uniq_bids, fS; simpl; constructor.
        + simpl; intros [H|H]; [apply Nn; auto | apply NI; exact H].
        + constructor; [exact Nr2|].
          pose proof (wf_bids _ W) as B; inversion B; auto.
      - apply WF_WF0; exact W.
      - unfold BI; simpl; lia.
      - reflexivity.
      - reflexivity. }
    destruct W0 as [B U P N]; constructor; auto; [discriminate|].
    intros bb [<-|[<-|Hb]].
    + exists BI; apply getTerminator_app; reflexivity.
    + exists t; rewrite Em; apply getTerminator_app; exact Tt.
    + apply (wf_term _ W); right; exact Hb. }
  assert (SF : simF new fS (mkBB (bid e) (kept ++ [BI]) :: mkBB new moved :: R)).
  { unfold fS; constructor; [split; [reflexivity | apply Forall2_refl, sim_refl]|].
    constructor; [split; [reflexivity | apply Forall2_refl, sim_refl]|].
    apply replaceSuccessors_simF. }
  assert (InS : forall c j, In (c, j) (located fS) ->
                  j = BI \/ exists c', In (c', j) (located (e :: rest))).
  { intros c j H; unfold fS in H; rewrite !located_cons in H; simpl in H.
    rewrite map_app, !in_app_iff in H; simpl in H.
    destruct H as [[H|[H|[]]]|[H|H]].
    - right; exists (bid e); rewrite located_cons; apply in_app_iff; left.
      apply in_map_iff in H; destruct H as [x [Ex Hx]]; inversion Ex; subst.
      apply in_map; rewrite Ek; apply in_app_iff; auto.
    - inversion H; auto.
    - right; exists (bid e); rewrite located_cons; apply in_app_iff; left.
      apply in_map_iff in H; destruct H as [x [Ex Hx]]; inversion Ex; subst.
      apply in_map; rewrite Ek; apply in_app_iff; auto.
    - right; exists c; rewrite located_cons; apply in_app_iff; auto. }
  split; [cbn [map bid]; rewrite ER; exact Ep|]; split; [reflexivity|]; split.
  { apply (simF_WF new fS _ SF); [right; left; reflexivity | exact WS]. }
  split.
  { intros c j' s Hj Hs.
    destruct (simF_located new fS _ c j' SF Hj) as [j [Hj0 Sj]].
    destruct (sim_facts new j j' Sj) as [_ [_ [_ [_ [Es _]]]]].
    rewrite Es in Hs; simpl; rewrite ER.
    destruct (InS c j Hj0) as [->|[c' Hc']].
    - simpl in Hs; destruct Hs as [<-|[]]; left; reflexivity.
    - right; apply (SO c' j s Hc' Hs). }
  split.
  { intros c j' N2 Hn.
    destruct (simF_located new fS _ c j' SF N2) as [j [Hj0 Sj]].
    destruct (sim_facts new j j' Sj) as [_ [_ [Et [_ [Es [_ [Eq _]]]]]]].
    unfold getNumSuccessors in Hn; rewrite Es in Hn.
    destruct (InS c j Hj0) as [->|[c' Hc']]; [discriminate|].
    assert (Tj : isTerminator (ikind j) = true).
    { destruct (ikind j); try reflexivity; discriminate. }
    rewrite (Eq Tj); apply (RW c' j Hc' Hn). }
  split; [discriminate|].
  right; simpl; rewrite ER; reflexivity.
Qed.

Lemma entry_preparation_wf e rest :
  rest <> [] ->
  WF (e :: rest) -> successors_ok (e :: rest) -> rewritable (e :: rest) ->
  exists pro t1 tl1,
    entry_preparation (e :: rest) (map bid (e :: rest)) =
    Ok (mkBB (bid e) (pro ++ [t1]) :: tl1, map bid tl1, bid e) /\
    isTerminator (ikind t1) = true /\
    WF (mkBB (bid e) (pro ++ [t1]) :: tl1) /\
    successors_ok (mkBB (bid e) (pro ++ [t1]) :: tl1) /\
    rewritable (mkBB (bid e) (pro ++ [t1]) :: tl1) /\
    tl1 <> [] /\
    (map bid tl1 = map bid rest \/
     map bid tl1 = fresh_bid (e :: rest) :: map bid rest).
Proof.
  intros Nr W SO RW.
  apply (entry_preparation_wf_on
           (fun j => exists cnd a b, ikind j = CondBr cnd a b) e rest Nr W SO RW).
Qed.

(** ** The function with its dispatcher is well formed *)

Lemma WF_dispatcher be pro t tl sv s0 ld bj sw LE :
  WF (mkBB be (pro ++ [t]) :: tl) ->
  isTerminator (ikind t) = true ->
  fresh_iid (mkBB be pro :: tl) <= sv ->
  sv < s0 -> s0 < ld -> ld < bj -> bj < sw ->
  LE = fresh_bid (mkBB be pro :: tl) ->
  WF (mkBB be (pro ++ [AllocaSV sv; StoreZero s0 sv; JumpTo bj LE])
      :: mkBB LE [LoadSV ld sv; SwitchOn sw ld LE []] :: tl).
Proof.
  intros W T Fsv L1 L2 L3 L4 ELE.
  set (f1 := mkBB be (pro ++ [t]) :: tl) in *.
  set (fA := mkBB be pro :: tl) in *.
  set (fI := mkBB be (pro ++ [AllocaSV sv; StoreZero s0 sv; JumpTo bj LE])
             :: mkBB LE [LoadSV ld sv; SwitchOn sw ld LE []] :: tl).
  assert (NI : ~ In be (map bid tl)).
  { pose proof (wf_bids _ W) as B; inversion B; auto. }
  assert (EA : eraseFromParent f1 (iid t) = fA).
  { unfold f1; rewrite (erase_setBlock _ be pro t []).
    - rewrite app_nil_r; unfold setBlock.
      apply (updBlock_cons_eq (mkBB be (pro ++ [t])) tl (fun _ => pro) NI).
    - apply (wf_bids _ W).
    - apply (wf_ids _ W).
    - unfold getBlock; simpl; rewrite Nat.eqb_refl; reflexivity. }
  assert (WA : WF0 fA) by (rewrite <- EA; apply WF0_erase, WF_WF0, W).
  destruct WA as [BA UA PA NA].
  set (news := [(be, AllocaSV sv); (be, StoreZero s0 sv); (be, JumpTo bj LE);
                (LE, LoadSV ld sv); (LE, SwitchOn sw ld LE [])]).
  assert (P : Permutation (located fI) (news ++ located fA)).
  { unfold fI, fA, news; rewrite !located_cons; cbn [bid insts].
    rewrite map_app; cbn [map app]; rewrite <- app_assoc.
    apply (Permutation_app_swap_app (map (pair be) pro)
             [(be, AllocaSV sv); (be, StoreZero s0 sv); (be, JumpTo bj LE);
              (LE, LoadSV ld sv); (LE, SwitchOn sw ld LE [])]
             (located tl)). }
  assert (Old : forall c j, In (c, j) (located fA) -> iid j < sv).
  { intros c j H; pose proof (fresh_iid_located fA c j H); lia. }
  assert (LEn : ~ In LE (map bid fA)) by (rewrite ELE; apply fresh_bid_notin).
  constructor.
  - discriminate.
  - unfold uniq_bids, fI; simpl; constructor; [|constructor].
    + simpl; intros [H|H]; [apply LEn; left; auto | contradiction].
    + intros H; apply LEn; right; exact H.
    + inversion BA; auto.
  - apply (uniq_ids_adds fA fI news UA P).
    + unfold news, idf; simpl.
      repeat constructor; simpl; intros H; intuition lia.
    + intros n Hn Hin; apply in_map_iff in Hin.
      destruct Hin as [[c j] [E Hj]]; apply Old in Hj; unfold idf in E.
      simpl in E; unfold news in Hn; simpl in Hn.
      destruct Hn as [<-|[<-|[<-|[<-|[<-|[]]]]]]; simpl in E; lia.
  - intros bb [<-|[<-|Hb]].
    + exists (JumpTo bj LE).
      change (pro ++ [AllocaSV sv; StoreZero s0 sv; JumpTo bj LE])
        with (pro ++ [AllocaSV sv; StoreZero s0 sv] ++ [JumpTo bj LE]).
      rewrite app_assoc; apply getTerminator_app; reflexivity.
    + exists (SwitchOn sw ld LE []).
      apply (getTerminator_app LE [LoadSV ld sv]); reflexivity.
    + apply (wf_term _ W); right; exact Hb.
  - apply (phi_ok_adds fA fI news PA P).
    + unfold fA, fI; simpl; intros b [Hb|Hb]; simpl; auto.
    + unfold news; simpl.
      intros c n v B [E|[E|[E|[E|[E|[]]]]]]; inversion E; subst; simpl;
        intros [].
  - apply (unused_adds fA fI news NA P).
    + intros c n x Hn Hx d t0 Ht Et.
      apply in_app_iff in Ht; destruct Ht as [Ht|Ht].
      * unfold news in Ht; simpl in Ht.
        destruct Ht as [E|[E|[E|[E|[E|[]]]]]]; inversion E; subst; simpl;
          try reflexivity;
          unfold news in Hn; simpl in Hn;
          destruct Hn as [E'|[E'|[E'|[E'|[E'|[]]]]]]; inversion E'; subst;
          simpl in Hx; intuition (try discriminate);
          match goal with H : VInst _ = VInst _ |- _ => inversion H; lia end.
      * apply Old in Ht.
        unfold news in Hn; simpl in Hn.
        destruct Hn as [E'|[E'|[E'|[E'|[E'|[]]]]]]; inversion E'; subst;
          simpl in Hx; intuition (try discriminate);
          match goal with H : VInst _ = VInst _ |- _ => inversion H; lia end.
    + intros c n Hn Tn d u Hu Hin.
      pose proof (fresh_iid_operand fA d u (iid n) Hu Hin) as X.
      unfold news in Hn; simpl in Hn.
      destruct Hn as [E'|[E'|[E'|[E'|[E'|[]]]]]]; inversion E'; subst;
        simpl in *; try discriminate; lia.
Qed.

(** ** The cases of the switch *)

Lemma WF_updInst f x g :
  (forall k, isTerminator (g k) = isTerminator k) ->
  (forall k, operands (g k) = operands k) ->
  (forall k, incomingOf (g k) = incomingOf k) ->
  WF f -> WF (updInst f x g).
Proof.
  intros Ht Ho Hi [Wne WB WU WT WP WN].
  change (updInst f x g) with (mapF (fun _ => map (upd_inst x g)) f).
  assert (Hid : forall j, iid (upd_inst x g j) = iid j)
    by (intros j; unfold upd_inst; destruct (iid j =? x); reflexivity).
  assert (Htm : forall j, isTerminator (ikind (upd_inst x g j)) =
                          isTerminator (ikind j))
    by (intros j; unfold upd_inst; destruct (iid j =? x); simpl; auto).
  assert (Hop : forall j, operands (ikind (upd_inst x g j)) =
                          operands (ikind j))
    by (intros j; unfold upd_inst; destruct (iid j =? x); simpl; auto).
  assert (Hin : forall j, incomingOf (ikind (upd_inst x g j)) =
                          incomingOf (ikind j))
    by (intros j; unfold upd_inst; destruct (iid j =? x); simpl; auto).
  constructor.
  - destruct f; [contradiction | discriminate].
  - unfold uniq_bids; rewrite map_bid_mapF; exact WB.
  - apply uniq_ids_map; auto.
  - apply terminated_map; auto.
  - apply phi_ok_map; auto; intros c j B _; rewrite Hin; auto.
  - apply unused_map; auto; intros c j y _; rewrite Hop; auto.
Qed.

Lemma located_perm f f' : Permutation f f' -> Permutation (located f) (located f').
Proof. intros P; unfold located; apply Permutation_flat_map; exact P. Qed.

Lemma WF_perm f f' : Permutation f f' -> WF f -> WF f'.
Proof.
  intros P [Wne WB WU WT WP WN].
  pose proof (located_perm f f' P) as PL.
  pose proof (Permutation_sym PL) as PL'.
  constructor.
  - intros ->; apply Permutation_sym, Permutation_nil in P; contradiction.
  - unfold uniq_bids in *; apply (Permutation_NoDup (Permutation_map bid P) WB).
  - unfold uniq_ids in *; apply (Permutation_NoDup (Permutation_map _ PL) WU).
  - intros bb Hbb; apply WT, (Permutation_in _ (Permutation_sym P)); exact Hbb.
  - intros c j v B Hj Hv; apply (Permutation_in _ (Permutation_map bid P)).
    apply (WP c j v B); auto; apply (Permutation_in _ PL'); exact Hj.
  - intros c t d u Ht Hu; apply (WN c t d u);
      apply (Permutation_in _ PL'); assumption.
Qed.

Lemma WF_switch_cases E LE ld sv sw cs cs' tl tl' :
  Permutation tl tl' ->
  WF (E :: mkBB LE [LoadSV ld sv; SwitchOn sw ld LE cs] :: tl) ->
  WF (E :: mkBB LE [LoadSV ld sv; SwitchOn sw ld LE cs'] :: tl').
Proof.
  intros P W.
  apply (WF_perm (E :: mkBB LE [LoadSV ld sv; SwitchOn sw ld LE cs'] :: tl)).
  { do 2 apply perm_skip; exact P. }
  assert (Ex : updInst (E :: mkBB LE [LoadSV ld sv; SwitchOn sw ld LE cs] :: tl)
                 sw (setCases cs') =
               E :: mkBB LE [LoadSV ld sv; SwitchOn sw ld LE cs'] :: tl).
  { pose proof (wf_ids _ W) as U; apply uniq_ids_NoDup in U.
    rewrite !ids_cons in U; cbn [insts map iid LoadSV SwitchOn app] in U.
    assert (N1 : ~ In sw (map iid (insts E))).
    { intros H; apply (NoDup_app_disjoint _ _ sw U H); right; left; reflexivity. }
    apply NoDup_app_remove_l in U.
    inversion U as [|? ? Hld U2]; subst; inversion U2 as [|? ? Hsw U3]; subst.
    rewrite !updInst_cons, (updInst_notin tl sw _ Hsw).
    rewrite (map_upd_inst_notin sw _ (insts E) N1), bb_eta.
    cbn [bid insts map]; unfold upd_inst, LoadSV, SwitchOn.
    cbn [iid ity ikind setCases].
    assert (Nl : ld <> sw) by (intros ->; apply Hld; left; reflexivity).
    apply Nat.eqb_neq in Nl; rewrite Nl, Nat.eqb_refl; reflexivity. }
  rewrite <- Ex; apply WF_updInst; auto; intros []; reflexivity.
Qed.

Lemma filter_case_table_notin s n bs :
  ~ In s bs ->
  filter (fun c : Z * block_id => snd c =? s) (case_table n bs) = [].
Proof.
  revert n; induction bs as [|b bs IH]; intros n H; simpl; [reflexivity|].
  destruct (Nat.eqb_spec b s) as [E|E]; [exfalso; apply H; left; exact E|].
  apply IH; intros H'; apply H; right; exact H'.
Qed.

Lemma findCaseDest_case_table c LE bs s :
  NoDup bs -> In s bs -> s <> LE ->
  exists n,
    nth_error bs n = Some s /\
    findCaseDest (Switch c LE (case_table 0 bs)) s =
    Some (ConstantInt_get32 n).
Proof.
  intros ND HI Ns; unfold findCaseDest.
  apply Nat.eqb_neq in Ns; rewrite Ns; clear Ns.
  assert (G : forall m, exists n,
             nth_error bs n = Some s /\
             filter (fun c : Z * block_id => snd c =? s) (case_table m bs) =
             [(ConstantInt_get32 (m + n), s)]).
  { induction bs as [|b bs IH]; [destruct HI|]; intros m; simpl.
    inversion ND as [|? ? Hb ND']; subst.
    destruct (Nat.eqb_spec b s) as [E|E].
    - subst b; exists 0; split; [reflexivity|].
      rewrite filter_case_table_notin by exact Hb.
      rewrite Nat.add_0_r; reflexivity.
    - destruct HI as [HI|HI]; [contradiction|].
      destruct (IH ND' HI (S m)) as [n [Hn Hf]].
      exists (S n); split; [exact Hn|].
      rewrite Hf; replace (S m + n) with (m + S n) by lia; reflexivity. }
  destruct (G 0) as [n [Hn Hf]]; exists n; split; [exact Hn|].
  rewrite Hf; reflexivity.
Qed.

Lemma case_table_length n bs : length (case_table n bs) = length bs.
Proof.
  revert n; induction bs as [|b bs IH]; intros n; simpl; [reflexivity|].
  rewrite IH; reflexivity.
Qed.

Lemma case_table_nth n bs k b :
  nth_error bs k = Some b ->
  nth_error (case_table n bs) k = Some (ConstantInt_get32 (n + k), b).
Proof.
  revert n k; induction bs as [|x bs IH]; intros n [|k]; simpl;
    try discriminate.
  - intros H; inversion H; rewrite Nat.add_0_r; reflexivity.
  - intros H; rewrite (IH (S n) k H).
    replace (S n + k) with (n + S k) by lia; reflexivity.
Qed.

(** ** Terminator rewriting, all blocks *)

Lemma block_shape f b bb :
  terminated f -> getBlock f b = Some bb ->
  exists body t,
    bb = mkBB b (body ++ [t]) /\ isTerminator (ikind t) = true /\
    getTerminator bb = Some t.
Proof.
  intros T G; pose proof G as G'; apply getBlock_Some in G'.
  destruct G' as [Hb Eb]; destruct (T bb Hb) as [t Ht].
  pose proof Ht as Ht'; apply getTerminator_Some in Ht'.
  destruct Ht' as [body [E Tt]]; exists body, t; repeat split; auto.
  rewrite <- E, <- Eb; symmetry; apply bb_eta.
Qed.

Lemma recalculate_spec LE ld sw sv SW L vol :
  forall bs f,
    WF f -> NoDup bs ->
    (forall b, In b bs -> b <> LE /\ In b (map bid f)) ->
    In (LE, SW) (located f) -> iid SW = sw ->
    In (LE, L) (located f) -> iid L = ld -> ikind L = Load (VInst sv) vol ->
    (forall b bb t,
       In b bs -> getBlock f b = Some bb -> getTerminator bb = Some t ->
       (forall s, In s (successors (ikind t)) ->
                  exists k, findCaseDest (ikind SW) s = Some k) /\
       (getNumSuccessors (ikind t) = 2 ->
        exists c sT sF, ikind t = CondBr c sT sF)) ->
    exists f',
      recalculate_switchVar LE ld sw f bs = Ok f' /\
      WF f' /\ map bid f' = map bid f /\
      (forall b, ~ In b bs -> getBlock f' b = getBlock f b) /\
      (forall b bb, In b bs -> getBlock f b = Some bb ->
         exists bb',
           getBlock f' b = Some bb' /\ bid bb' = b /\
           rewritten LE sv (ikind SW) (insts bb) (insts bb')).
Proof.
  induction bs as [|i bs IH]; intros f W ND Hbs HSW Esw HL Eld KL Hres.
  - exists f; split; [reflexivity|]; split; [exact W|].
    split; [reflexivity|]; split; [reflexivity | intros b bb []].
  - apply NoDup_cons_iff in ND; destruct ND as [Ni ND'].
    destruct (Hbs i (or_introl eq_refl)) as [NiLE Hi].
    destruct (getBlock f i) as [bb|] eqn:G;
      [|apply getBlock_None in G; contradiction].
    destruct (block_shape f i bb (wf_term f W) G) as [body [t [-> [Tt Gt]]]].
    destruct (Hres i _ t (or_introl eq_refl) G Gt) as [Res Cnd].
    destruct (rewrite_terminator_step f i body t LE ld sw sv SW L vol
                W G Tt NiLE HSW Esw HL Eld KL Res Cnd) as [l' [Er [Rw W1]]].
    set (f1 := setBlock f i l') in *.
    assert (B1 : map bid f1 = map bid f) by apply map_bid_updBlock.
    destruct (IH f1) as [f' [Ef [Wf [Bf [Un Rwf]]]]]; auto.
    + intros b Hb; destruct (Hbs b (or_intror Hb)) as [H1 H2].
      rewrite B1; auto.
    + apply located_setBlock; auto.
    + apply located_setBlock; auto.
    + intros b bb t0 Hb Gb; apply (Hres b bb t0 (or_intror Hb)).
      rewrite <- Gb; symmetry; apply getBlock_setBlock_neq.
      intros ->; contradiction.
    + exists f'; cbn [recalculate_switchVar]; rewrite Er; cbn [bind].
      split; [exact Ef|]; split; [exact Wf|]; split; [congruence|]; split.
      * intros b Hb; rewrite Un by (intros H; apply Hb; right; exact H).
        apply getBlock_setBlock_neq; intros ->; apply Hb; left; reflexivity.
      * intros b bb [<-|Hb] Gb.
        -- rewrite G in Gb; inversion Gb; subst bb.
           exists (mkBB i l'); rewrite (Un i Ni); split; [|split; auto].
           apply getBlock_setBlock_eq; exact Hi.
        -- apply (Rwf b bb Hb); rewrite <- Gb.
           apply getBlock_setBlock_neq; intros ->; contradiction.
Qed.

(** ** The whole of flatten, up to fixStack *)

Lemma rewritable_no_invoke f bb t :
  rewritable f -> In bb f -> getTerminator bb = Some t ->
  isa_InvokeInst (ikind t) = false.
Proof.
  intros R Hb Ht; apply getTerminator_Some in Ht; destruct Ht as [l [E _]].
  destruct (ikind t) eqn:K; try reflexivity.
  destruct (R (bid bb) t) as [c [a [b Kc]]].
  - apply In_located; exists bb; repeat split; auto.
    rewrite E; apply in_app_iff; right; left; reflexivity.
  - rewrite K; reflexivity.
  - congruence.
Qed.

Lemma flatten_core_prefix (Q : instruction -> Prop) e rest :
  rest <> [] ->
  WF (e :: rest) -> successors_ok (e :: rest) ->
  (forall bb t, In bb (e :: rest) -> getTerminator bb = Some t ->
                isa_InvokeInst (ikind t) = false) ->
  (forall c j, In (c, j) (located (e :: rest)) ->
               getNumSuccessors (ikind j) = 2 -> Q j) ->
  exists pro t1 tl1 sv s0 ld bj sw LE,
    entry_preparation (e :: rest) (map bid (e :: rest)) =
      Ok (mkBB (bid e) (pro ++ [t1]) :: tl1, map bid tl1, bid e) /\
    isTerminator (ikind t1) = true /\
    WF (mkBB (bid e) (pro ++ [t1]) :: tl1) /\
    (map bid tl1 = map bid rest \/
     map bid tl1 = fresh_bid (e :: rest) :: map bid rest) /\
    flatten_core (e :: rest) =
      (f3 <- recalculate_switchVar LE ld sw
               (mkBB (bid e)
                  (pro ++ [AllocaSV sv; StoreZero s0 sv; JumpTo bj LE])
                :: mkBB LE [LoadSV ld sv;
                            SwitchOn sw ld LE (case_table 0 (map bid tl1))]
                :: rev tl1)
               (map bid tl1) ;;
       Ok (Some (mkState f3 (map bid tl1) (bid e) LE ld sw sv))) /\
    WF (mkBB (bid e) (pro ++ [AllocaSV sv; StoreZero s0 sv; JumpTo bj LE])
        :: mkBB LE [LoadSV ld sv;
                    SwitchOn sw ld LE (case_table 0 (map bid tl1))]
        :: rev tl1) /\
    (forall bb t, In bb tl1 -> getTerminator bb = Some t ->
       (forall s, In s (successors (ikind t)) ->
          exists k,
            findCaseDest
              (Switch (VInst ld) LE (case_table 0 (map bid tl1))) s = Some k) /\
       (getNumSuccessors (ikind t) = 2 -> Q t)) /\
    ~ In LE (bid e :: map bid tl1) /\
    sv < s0 /\ s0 < ld /\ ld < bj /\ bj < sw /\
    fresh_iid (mkBB (bid e) pro :: tl1) <= sv.
Proof.
  intros Nr W SO NV RW.
  destruct (entry_preparation_wf_on Q e rest Nr W SO RW)
    as [pro [t1 [tl1 [Ep [T1 [W1 [SO1 [RW1 [Nt Bt]]]]]]]]].
  set (be := bid e) in *.
  set (f1 := mkBB be (pro ++ [t1]) :: tl1) in *.
  assert (NI : ~ In be (map bid tl1)).
  { pose proof (wf_bids _ W1) as B; inversion B; auto. }
  destruct (dispatcher_construction_shape be pro t1 tl1 (map bid tl1)
              (wf_ids _ W1) NI T1)
    as [sv [s0 [ld [bj [sw [LE [Ed [F0 [F1 [F2 [F3 [F4 ELE]]]]]]]]]]]].
  pose proof (WF_dispatcher be pro t1 tl1 sv s0 ld bj sw LE
                W1 T1 F0 F1 F2 F3 F4 ELE) as WI.
  set (E := mkBB be (pro ++ [AllocaSV sv; StoreZero s0 sv; JumpTo bj LE])) in *.
  set (cases := case_table 0 (map bid tl1)).
  set (SW := SwitchOn sw ld LE cases).
  set (LEb := mkBB LE [LoadSV ld sv; SW]).
  set (f2 := E :: LEb :: rev tl1).
  (* facts about the identifiers *)
  pose proof (wf_bids _ WI) as BI; unfold uniq_bids in BI; simpl in BI.
  apply NoDup_cons_iff in BI; destruct BI as [Hbe BI2].
  apply NoDup_cons_iff in BI2; destruct BI2 as [HLE BI3].
  assert (HEL : be <> LE) by (intros H; apply Hbe; left; auto).
  pose proof (wf_ids _ WI) as UI; apply uniq_ids_NoDup in UI.
  rewrite !ids_cons in UI; cbn [insts map iid LoadSV SwitchOn app] in UI.
  assert (SE : ~ In sw (map iid (insts E))).
  { intros H; apply (NoDup_app_disjoint _ _ sw UI H); right; left; reflexivity. }
  assert (ST : ~ In sw (map iid (all_insts tl1))).
  { apply NoDup_app_remove_l in UI.
    apply NoDup_cons_iff in UI; destruct UI as [_ U2].
    apply NoDup_cons_iff in U2; destruct U2 as [U2 _]; exact U2. }
  assert (Ep2 : put_all_BB_in_switch
                  (E :: mkBB LE [LoadSV ld sv; SwitchOn sw ld LE []] :: tl1)
                  LE sw (map bid tl1) = Ok f2).
  { pose proof (put_all_shape E LE ld sv sw tl1 [] []) as X.
    simpl rev in X; simpl app in X; rewrite app_nil_r in X.
    apply X; auto; lia. }
  assert (W2 : WF f2).
  { apply (WF_switch_cases E LE ld sv sw [] cases tl1 (rev tl1));
      [apply Permutation_rev | exact WI]. }
  exists pro, t1, tl1, sv, s0, ld, bj, sw, LE.
  split; [exact Ep|]; split; [exact T1|]; split; [exact W1|].
  split; [exact Bt|]; split.
  { unfold flatten_core.
    destruct (save_all_total (e :: rest)) as [S|S].
    - unfold terminatedb; apply forallb_forall; intros bb Hb.
      destruct (wf_term _ W bb Hb) as [t ->]; reflexivity.
    - apply save_all_None in S; destruct S as [bb [t [Hb [Ht Hi]]]].
      rewrite (NV bb t Hb Ht) in Hi; discriminate.
    - rewrite S; cbn [bind].
      replace (length (map bid (e :: rest)) <=? 1) with false.
      2:{ symmetry; apply Nat.leb_gt; simpl; rewrite length_map.
          destruct rest; [contradiction | simpl; lia]. }
      rewrite Ep; cbn [bind]; unfold f1; rewrite Ed.
      cbn [bind fn loopEntry switchI origBB].
      rewrite Ep2; cbn [bind load insert switchVar]; reflexivity. }
  split; [exact W2|]; split.
  { intros bb t Hb0 Gt.
    pose proof Gt as Gt'; apply getTerminator_Some in Gt'.
    destruct Gt' as [l [El Tt]].
    assert (Hloc : In (bid bb, t) (located f1)).
    { apply In_located; exists bb; repeat split; [right; exact Hb0|].
      rewrite El; apply in_app_iff; right; left; reflexivity. }
    split.
    - intros s Hs.
      pose proof (SO1 (bid bb) t s Hloc Hs) as Hs1; simpl in Hs1.
      destruct (findCaseDest_case_table (VInst ld) LE (map bid tl1) s)
        as [n [_ Hn]]; auto; [intros ->; contradiction|].
      exists (ConstantInt_get32 n); exact Hn.
    - apply (RW1 (bid bb) t Hloc). }
  split; [|repeat split; assumption].
  simpl; intros [H|H]; [apply HEL; auto | contradiction].
Qed.

Lemma flatten_core_shape e rest :
  rest <> [] ->
  WF (e :: rest) -> successors_ok (e :: rest) -> rewritable (e :: rest) ->
  exists pro t1 tl1 sv s0 ld bj sw LE f3,
    entry_preparation (e :: rest) (map bid (e :: rest)) =
      Ok (mkBB (bid e) (pro ++ [t1]) :: tl1, map bid tl1, bid e) /\
    isTerminator (ikind t1) = true /\
    WF (mkBB (bid e) (pro ++ [t1]) :: tl1) /\
    (map bid tl1 = map bid rest \/
     map bid tl1 = fresh_bid (e :: rest) :: map bid rest) /\
    flatten_core (e :: rest) =
      Ok (Some (mkState f3 (map bid tl1) (bid e) LE ld sw sv)) /\
    WF f3 /\
    map bid f3 = bid e :: LE :: rev (map bid tl1) /\
    getBlock f3 (bid e) =
      Some (mkBB (bid e)
              (pro ++ [AllocaSV sv; StoreZero s0 sv; JumpTo bj LE])) /\
    getBlock f3 LE =
      Some (mkBB LE [LoadSV ld sv;
                     SwitchOn sw ld LE (case_table 0 (map bid tl1))]) /\
    (forall bb, In bb tl1 ->
       exists bb',
         getBlock f3 (bid bb) = Some bb' /\ bid bb' = bid bb /\
         rewritten LE sv (Switch (VInst ld) LE (case_table 0 (map bid tl1)))
           (insts bb) (insts bb')) /\
    ~ In LE (bid e :: map bid tl1) /\
    sv < s0 /\ s0 < ld /\ ld < bj /\ bj < sw /\
    fresh_iid (mkBB (bid e) pro :: tl1) <= sv.
Proof.
  intros Nr W SO RW.
  destruct (flatten_core_prefix
              (fun j => exists c sT sF, ikind j = CondBr c sT sF) e rest
              Nr W SO
              (fun bb t Hb Ht => rewritable_no_invoke _ bb t RW Hb Ht) RW)
    as (pro & t1 & tl1 & sv & s0 & ld & bj & sw & LE & Ep & T1 & W1 & Bt &
        Efc & W2 & Cnd & NLE & F1 & F2 & F3 & F4 & F0).
  set (be := bid e) in *.
  set (E := mkBB be (pro ++ [AllocaSV sv; StoreZero s0 sv; JumpTo bj LE])) in *.
  set (cases := case_table 0 (map bid tl1)) in *.
  set (SW := SwitchOn sw ld LE cases) in *.
  set (LEb := mkBB LE [LoadSV ld sv; SW]) in *.
  set (f2 := E :: LEb :: rev tl1) in *.
  assert (NI : ~ In be (map bid tl1)).
  { pose proof (wf_bids _ W1) as B; inversion B; auto. }
  assert (HEL : be <> LE) by (intros H; apply NLE; left; auto).
  assert (HLE : ~ In LE (map bid tl1)) by (intros H; apply NLE; right; auto).
  assert (B2 : map bid f2 = be :: LE :: rev (map bid tl1))
    by (unfold f2; simpl; rewrite map_rev; reflexivity).
  assert (HSW : In (LE, SW) (located f2)).
  { unfold f2, LEb; rewrite !located_cons; simpl.
    apply in_app_iff; right; right; left; reflexivity. }
  assert (HL : In (LE, LoadSV ld sv) (located f2)).
  { unfold f2, LEb; rewrite !located_cons; simpl.
    apply in_app_iff; right; left; reflexivity. }
  assert (Gtl : forall bb, In bb tl1 -> getBlock f2 (bid bb) = Some bb).
  { intros bb Hb; apply (getBlock_In f2 bb (wf_bids _ W2)).
    right; right; apply in_rev in Hb; exact Hb. }
  destruct (recalculate_spec LE ld sw sv SW (LoadSV ld sv) false
              (map bid tl1) f2) as [f3 [E3 [W3 [B3 [Un Rw]]]]]; auto.
  { pose proof (wf_bids _ W1) as B; inversion B; auto. }
  { intros b Hb; split; [intros ->; contradiction|].
    rewrite B2; right; right; apply in_rev; rewrite rev_involutive; exact Hb. }
  { intros b bb t Hb Gb Gt.
    apply in_map_iff in Hb; destruct Hb as [bb0 [Eb0 Hb0]].
    rewrite <- Eb0, (Gtl bb0 Hb0) in Gb; inversion Gb; subst bb0.
    apply (Cnd bb t Hb0 Gt). }
  exists pro, t1, tl1, sv, s0, ld, bj, sw, LE, f3.
  split; [exact Ep|]; split; [exact T1|]; split; [exact W1|].
  split; [exact Bt|]; split.
  { rewrite Efc; fold be E cases SW LEb f2; rewrite E3; reflexivity. }
  split; [exact W3|]; split; [congruence|]; split.
  { rewrite Un by (intros H; apply NI; exact H).
    unfold getBlock, f2; simpl; unfold be; rewrite Nat.eqb_refl; reflexivity. }
  split.
  { rewrite Un by exact HLE.
    unfold getBlock, f2; simpl; fold be.
    apply Nat.eqb_neq in HEL; rewrite HEL, Nat.eqb_refl; reflexivity. }
  split.
  { intros bb Hb; apply (Rw (bid bb) bb); [apply in_map; exact Hb|].
    apply Gtl; exact Hb. }
  split; [exact NLE | repeat split; assumption].
Qed.

(** ** Uses *)

Lemma positions_spec v l n k :
  In k (positions v l n) <-> exists i, k = n + i /\ nth_error l i = Some v.
Proof.
  revert n; induction l as [|w l IH]; intros n; simpl.
  - split; [easy | intros [[|i] [_ H]]; discriminate].
  - destruct (value_eqb w v) eqn:E.
    + apply value_eqb_eq in E; subst w; simpl; rewrite IH; split.
      * intros [<-|[i [-> H]]]; [exists 0; split; [lia | reflexivity]|].
        exists (S i); split; [lia | exact H].
      * intros [[|i] [-> H]]; [left; lia|].
        right; exists i; split; [lia | exact H].
    + apply value_eqb_neq in E; rewrite IH; split.
      * intros [i [-> H]]; exists (S i); split; [lia | exact H].
      * intros [[|i] [-> H]]; [simpl in H; congruence|].
        exists i; split; [lia | exact H].
Qed.

Lemma uses_spec f Inst U :
  In U (uses f Inst) <->
  In (getUser U) (located f) /\ get U = Inst /\
  nth_error (operands (ikind (snd (getUser U)))) (getOperandNo U) =
  Some (VInst (iid (snd Inst))).
Proof.
  unfold uses; rewrite in_flat_map; split.
  - intros [u [Hu H]]; apply in_map_iff in H; destruct H as [n [<- Hn]].
    apply positions_spec in Hn; destruct Hn as [i [-> Hi]]; simpl; auto.
  - intros [H1 [H2 H3]]; exists (getUser U); split; [exact H1|].
    apply in_map_iff; exists (getOperandNo U); split.
    + destruct U; simpl in *; subst; reflexivity.
    + apply positions_spec; exists (getOperandNo U); auto.
Qed.

Lemma use_empty_spec f Inst :
  use_empty f Inst = true <->
  forall u, In u (located f) ->
            ~ In (VInst (iid (snd Inst))) (operands (ikind (snd u))).
Proof.
  unfold use_empty; split.
  - destruct (uses f Inst) as [|U l] eqn:E; [|discriminate].
    intros _ u Hu Hin; apply In_nth_error in Hin; destruct Hin as [n Hn].
    assert (X : In (mkUse u n Inst) (uses f Inst))
      by (apply uses_spec; simpl; auto).
    rewrite E in X; destruct X.
  - intros H; destruct (uses f Inst) as [|U l] eqn:E; [reflexivity|].
    exfalso; assert (X : In U (uses f Inst)) by (rewrite E; left; reflexivity).
    apply uses_spec in X; destruct X as [H1 [_ H3]].
    apply (H _ H1); apply nth_error_In in H3; exact H3.
Qed.

Lemma valueEscapes_phi f Inst :
  valueEscapes f Inst = true -> isa_PHINode (ikind (snd Inst)) = true.
Proof.
  unfold valueEscapes; rewrite existsb_exists; intros [U [HU H]].
  apply uses_spec in HU; destruct HU as [_ [E _]]; rewrite E in H.
  rewrite Nat.eqb_refl in H; simpl in H; exact H.
Qed.

Lemma sites_non_phi_eq u x :
  isa_PHINode (ikind (snd u)) = false ->
  sites u x =
  if existsb (fun w => value_eqb w (VInst x)) (operands (ikind (snd u)))
  then [fst u] else [].
Proof.
  unfold sites; destruct (ikind (snd u)); try reflexivity; discriminate.
Qed.

Lemma sites_non_phi u x s :
  isa_PHINode (ikind (snd u)) = false ->
  (In s (sites u x) <->
   s = fst u /\ In (VInst x) (operands (ikind (snd u)))).
Proof.
  intros N; rewrite (sites_non_phi_eq u x N).
  destruct (existsb _ _) eqn:E.
  - apply existsb_value_In in E; simpl; split.
    + intros [<-|[]]; auto.
    + intros [-> _]; auto.
  - split; [intros [] | intros [_ H]].
    apply existsb_value_In in H; congruence.
Qed.

Lemma sites_mentions u x s :
  In s (sites u x) -> In (VInst x) (operands (ikind (snd u))).
Proof.
  destruct (isa_PHINode (ikind (snd u))) eqn:P.
  - unfold sites; destruct (ikind (snd u)) eqn:K; try discriminate.
    intros H; apply in_map_iff in H; destruct H as [[v B] [_ H]].
    apply filter_In in H; destruct H as [H E]; simpl in E.
    apply value_eqb_eq in E; subst v.
    apply in_map_iff; exists (VInst x, B); auto.
  - intros H; apply (sites_non_phi u x s P) in H; tauto.
Qed.

Lemma sites_phi u inc x s :
  ikind (snd u) = PHI inc ->
  (In s (sites u x) <-> In (VInst x, s) inc).
Proof.
  intros K; unfold sites; rewrite K; rewrite in_map_iff; split.
  - intros [[v B] [E H]]; apply filter_In in H; destruct H as [H E'].
    simpl in *; apply value_eqb_eq in E'; subst; exact H.
  - intros H; exists (VInst x, s); split; [reflexivity|].
    apply filter_In; split; [exact H | apply value_eqb_refl].
Qed.

Lemma nth_error_map_snd {A B : Type} (l : list (A * B)) n v b :
  nth_error (map fst l) n = Some v -> nth_error (map snd l) n = Some b ->
  In (v, b) l.
Proof.
  revert n; induction l as [|[a c] l IH]; intros [|n]; simpl; try discriminate.
  - intros H1 H2; inversion H1; inversion H2; auto.
  - intros H1 H2; right; eapply IH; eauto.
Qed.

Lemma In_nth_error_pair {A B : Type} (l : list (A * B)) v b :
  In (v, b) l ->
  exists n, nth_error (map fst l) n = Some v /\
            nth_error (map snd l) n = Some b.
Proof.
  induction l as [|[a c] l IH]; simpl; [easy|].
  intros [E|H]; [inversion E; exists 0; auto|].
  destruct (IH H) as [n [H1 H2]]; exists (S n); auto.
Qed.

Lemma isUsedOutsideOfBlock_spec f Inst BB :
  isUsedOutsideOfBlock f Inst BB = true <->
  used_outside f (iid (snd Inst)) BB.
Proof.
  unfold isUsedOutsideOfBlock, used_outside; rewrite existsb_exists; split.
  - intros [U [HU H]]; apply uses_spec in HU; destruct HU as [H1 [_ H3]].
    exists (getUser U).
    destruct (isa_PHINode (ikind (snd (getUser U)))) eqn:P.
    + destruct (ikind (snd (getUser U))) eqn:K; try discriminate.
      simpl in H, H3.
      destruct (nth_error (map snd incoming) (getOperandNo U)) as [B|] eqn:N;
        [|discriminate].
      exists B; split; [exact H1|]; split.
      * apply (sites_phi _ incoming); [exact K|].
        apply (nth_error_map_snd incoming (getOperandNo U)); auto.
      * apply negb_true_iff, Nat.eqb_neq in H; exact H.
    + exists (fst (getUser U)); split; [exact H1|]; split.
      * apply sites_non_phi; [exact P|]; split; [reflexivity|].
        apply nth_error_In in H3; exact H3.
      * apply negb_true_iff, Nat.eqb_neq in H; exact H.
  - intros [u [s [Hu [Hs Ns]]]].
    destruct (isa_PHINode (ikind (snd u))) eqn:P.
    + destruct (ikind (snd u)) eqn:K; try discriminate.
      apply (sites_phi u incoming) in Hs; [|exact K].
      destruct (In_nth_error_pair incoming _ _ Hs) as [n [N1 N2]].
      exists (mkUse u n Inst); split.
      * apply uses_spec; simpl; rewrite K; simpl; auto.
      * simpl; rewrite K; simpl; rewrite N2.
        apply negb_true_iff, Nat.eqb_neq; exact Ns.
    + apply sites_non_phi in Hs; [|exact P]; destruct Hs as [-> Hs].
      apply In_nth_error in Hs; destruct Hs as [n Hn].
      exists (mkUse u n Inst); split.
      * apply uses_spec; simpl; auto.
      * simpl; rewrite P; apply negb_true_iff, Nat.eqb_neq; exact Ns.
Qed.

(** ** The scan *)

Lemma scan_phi f e x :
  In x (fst (scan f e)) <->
  exists j, In j (located f) /\ iid (snd j) = x /\
            isa_PHINode (ikind (snd j)) = true.
Proof.
  unfold scan; simpl; rewrite in_map_iff; split.
  - intros [j [E H]]; apply filter_In in H; exists j; tauto.
  - intros [j [H1 [H2 H3]]]; exists j; split; [exact H2|].
    apply filter_In; auto.
Qed.

Lemma scan_reg f e x :
  In x (snd (scan f e)) <->
  exists j, In j (located f) /\ iid (snd j) = x /\
            isa_PHINode (ikind (snd j)) = false /\
            ~ entry_alloca e j /\
            used_outside f (iid (snd j)) (fst j).
Proof.
  unfold scan; simpl; rewrite in_map_iff; split.
  - intros [j [E H]]; apply filter_In in H; destruct H as [H C].
    apply andb_prop in C; destruct C as [C1 C2].
    apply andb_prop in C2; destruct C2 as [C2 C3].
    apply negb_true_iff in C1, C2.
    exists j; repeat split; auto.
    + intros [A B]; rewrite A, B, Nat.eqb_refl in C2; discriminate.
    + apply orb_prop in C3; destruct C3 as [C3|C3].
      * apply valueEscapes_phi in C3; congruence.
      * apply isUsedOutsideOfBlock_spec in C3; exact C3.
  - intros [j [H1 [H2 [H3 [H4 H5]]]]]; exists j; split; [exact H2|].
    apply filter_In; split; [exact H1|].
    rewrite H3; simpl.
    apply isUsedOutsideOfBlock_spec in H5; rewrite H5, orb_true_r, andb_true_r.
    apply negb_true_iff.
    destruct (isa_AllocaInst (ikind (snd j))) eqn:A; [|reflexivity].
    destruct (Nat.eqb_spec (fst j) e) as [E|E]; [|reflexivity].
    exfalso; apply H4; split; auto.
Qed.

Lemma NoDup_map_filter_ids f (p : linst -> bool) :
  uniq_ids f -> NoDup (map (fun j : linst => iid (snd j)) (filter p (located f))).
Proof. intros U; apply NoDup_map_filter; exact U. Qed.

Lemma scan_NoDup f e :
  uniq_ids f -> NoDup (fst (scan f e)) /\ NoDup (snd (scan f e)).
Proof.
  intros U; unfold scan; simpl; split; apply NoDup_map_filter_ids; exact U.
Qed.

Lemma scan_confined f e : confined e f (snd (scan f e)).
Proof.
  intros j Hj P Uo.
  destruct (isa_AllocaInst (ikind (snd j))) eqn:A.
  - destruct (Nat.eq_dec (fst j) e) as [E|E].
    + left; split; auto.
    + right; apply scan_reg; exists j; repeat split; auto.
      intros [_ X]; contradiction.
  - right; apply scan_reg; exists j; repeat split; auto.
    intros [X _]; congruence.
Qed.

Lemma scan_empty_confined f e :
  no_phi f -> confined e f [] -> scan f e = ([], []).
Proof.
  intros NP C.
  assert (H1 : fst (scan f e) = []).
  { destruct (fst (scan f e)) as [|x l] eqn:E; [reflexivity|].
    assert (X : In x (fst (scan f e))) by (rewrite E; left; reflexivity).
    apply scan_phi in X; destruct X as [j [Hj [_ P]]].
    rewrite (NP j Hj) in P; discriminate. }
  assert (H2 : snd (scan f e) = []).
  { destruct (snd (scan f e)) as [|x l] eqn:E; [reflexivity|].
    assert (X : In x (snd (scan f e))) by (rewrite E; left; reflexivity).
    apply scan_reg in X; destruct X as [j [Hj [_ [P [NA Uo]]]]].
    destruct (C j Hj P Uo) as [H|[]]; contradiction. }
  destruct (scan f e) as [a b]; simpl in *; subst; reflexivity.
Qed.

(** ** Confinement and the edits of a demotion *)

Lemma inserted_In c new f f' j :
  inserted c new f f' -> (In j (located f') <-> j = (c, new) \/ In j (located f)).
Proof.
  intros I; pose proof (inserted_located c new f f' I) as P; split.
  - intros H; apply (Permutation_in _ P) in H; destruct H; auto.
  - intros H; apply (Permutation_in _ (Permutation_sym P)).
    destruct H; [left | right]; auto.
Qed.

Lemma fresh_not_mentioned f x : fresh_iid f <= x -> ~ mentions f x.
Proof.
  intros L [[c u] [Hu Hx]]; simpl in Hx.
  pose proof (fresh_iid_operand f c u x Hu Hx); lia.
Qed.

Lemma confined_inserted e c new f f' X :
  inserted c new f f' ->
  isa_PHINode (ikind new) = false ->
  ~ mentions f (iid new) ->
  ~ In (VInst (iid new)) (operands (ikind new)) ->
  (forall x j, In (VInst x) (operands (ikind new)) ->
     In j (located f) -> iid (snd j) = x ->
     isa_PHINode (ikind (snd j)) = false ->
     fst j = c \/ entry_alloca e j \/ In x X) ->
  confined e f X -> confined e f' X.
Proof.
  intros I NP NM NS Op C j Hj Pj [u [s [Hu [Hs Ns]]]].
  apply (inserted_In c new f f' _ I) in Hj, Hu.
  destruct Hu as [->|Hu].
  - apply sites_non_phi in Hs; [|exact NP]; simpl in Hs; destruct Hs as [-> Hs].
    destruct Hj as [->|Hj]; [contradiction|].
    destruct (Op _ j Hs Hj eq_refl Pj) as [H|[H|H]]; auto; congruence.
  - destruct Hj as [->|Hj].
    + exfalso; apply NM; exists u; split; [exact Hu|].
      apply (sites_mentions u _ s Hs).
    + apply (C j Hj Pj); exists u, s; auto.
Qed.

Lemma confined_drop e f x X :
  confined e f (x :: X) ->
  (forall j, In j (located f) -> iid (snd j) = x ->
             ~ used_outside f x (fst j)) ->
  confined e f X.
Proof.
  intros C H j Hj Pj Uo; destruct (C j Hj Pj Uo) as [A|[E|A]]; auto.
  exfalso; apply (H j Hj (eq_sym E)); rewrite E; exact Uo.
Qed.

Lemma confined_weaken e f X Y :
  incl X Y -> confined e f X -> confined e f Y.
Proof.
  intros I C j Hj Pj Uo; destruct (C j Hj Pj Uo) as [A|A]; auto.
Qed.

Lemma confined_erase e f x X :
  confined e f X -> confined e (eraseFromParent f x) X.
Proof.
  intros C j Hj Pj [u [s [Hu [Hs Ns]]]].
  rewrite located_eraseFromParent in Hj, Hu.
  apply filter_In in Hj, Hu; destruct Hj as [Hj _], Hu as [Hu _].
  apply (C j Hj Pj); exists u, s; auto.
Qed.

(** Operands after a replacement. *)
Lemma In_map_replace from to v l :
  In v (map (replace_value from to) l) <->
  (In v l /\ v <> from) \/ (v = to /\ In from l).
Proof.
  rewrite in_map_iff; unfold replace_value; split.
  - intros [w [E H]]; destruct (value_eqb w from) eqn:Q.
    + apply value_eqb_eq in Q; subst; auto.
    + apply value_eqb_neq in Q; subst; auto.
  - intros [[H N]|[-> H]].
    + exists v; split; [|exact H].
      apply value_eqb_neq in N; rewrite N; reflexivity.
    + exists from; split; [|exact H].
      rewrite value_eqb_refl; reflexivity.
Qed.

Lemma operands_replace from to k :
  operands (replaceUsesOfWith from to k) = map (replace_value from to) (operands k).
Proof.
  destruct k; simpl; try reflexivity.
  rewrite !map_map; reflexivity.
Qed.

Lemma In_operands_replace from to k v :
  In v (operands (replaceUsesOfWith from to k)) <->
  (In v (operands k) /\ v <> from) \/ (v = to /\ In from (operands k)).
Proof. rewrite operands_replace; apply In_map_replace. Qed.

Lemma isTerminator_replace from to k :
  isTerminator (replaceUsesOfWith from to k) = isTerminator k.
Proof. destruct k; reflexivity. Qed.

Lemma isa_PHINode_replace from to k :
  isa_PHINode (replaceUsesOfWith from to k) = isa_PHINode k.
Proof. destruct k; reflexivity. Qed.

Lemma isa_AllocaInst_replace from to k :
  isa_AllocaInst (replaceUsesOfWith from to k) = isa_AllocaInst k.
Proof. destruct k; reflexivity. Qed.

Lemma incoming_blocks_replace from to k :
  map snd (incomingOf (replaceUsesOfWith from to k)) = map snd (incomingOf k).
Proof. destruct k; simpl; try reflexivity; rewrite map_map; reflexivity. Qed.

Lemma incoming_replace from to k v B :
  In (v, B) (incomingOf (replaceUsesOfWith from to k)) <->
  exists w, In (w, B) (incomingOf k) /\ v = replace_value from to w.
Proof.
  destruct k; simpl; try (split; [intros [] | intros [w [[] _]]]).
  rewrite in_map_iff; split.
  - intros [[w B'] [E H]]; simpl in E; inversion E; subst; eauto.
  - intros [w [H ->]]; exists (w, B); auto.
Qed.

(** The located instructions of a function whose instruction [U] is
    updated. *)
Lemma In_located_updInst f U g j' :
  In j' (located (updInst f U g)) <->
  exists j, In j (located f) /\ j' = (fst j, upd_inst U g (snd j)).
Proof.
  rewrite located_updInst, in_map_iff; split; intros [j [H1 H2]]; eauto.
Qed.

Lemma upd_inst_other U g j : iid j <> U -> upd_inst U g j = j.
Proof.
  intros N; unfold upd_inst; apply Nat.eqb_neq in N; rewrite N; reflexivity.
Qed.

Lemma upd_inst_same U g j :
  iid j = U -> upd_inst U g j = mkInst (iid j) (ity j) (g (ikind j)).
Proof. intros E; unfold upd_inst; rewrite E, Nat.eqb_refl; reflexivity. Qed.

Lemma upd_inst_iid U g j : iid (upd_inst U g j) = iid j.
Proof. unfold upd_inst; destruct (iid j =? U); reflexivity. Qed.

Lemma confined_retarget e f X c u0 v I :
  uniq_ids f ->
  In (c, u0) (located f) -> isa_PHINode (ikind u0) = false ->
  In (c, v) (located f) ->
  confined e f X ->
  confined e (updInst f (iid u0) (replaceUsesOfWith (VInst I) (VInst (iid v)))) X.
Proof.
  intros U Hu0 Pu0 Hv C j' Hj' Pj' [u' [s [Hu' [Hs Ns]]]].
  apply In_located_updInst in Hj', Hu'.
  destruct Hj' as [j [Hj ->]], Hu' as [u [Hu ->]]; simpl in *.
  rewrite upd_inst_iid in *.
  assert (Pj : isa_PHINode (ikind (snd j)) = false).
  { unfold upd_inst in Pj'; destruct (iid (snd j) =? iid u0); simpl in Pj';
      [rewrite isa_PHINode_replace in Pj'|]; exact Pj'. }
  assert (Aj : entry_alloca e j \/ In (iid (snd j)) X ->
               entry_alloca e (fst j, upd_inst (iid u0)
                 (replaceUsesOfWith (VInst I) (VInst (iid v))) (snd j)) \/
               In (iid (snd j)) X).
  { intros [[A B]|A]; [left|right; exact A]; split; [|exact B]; simpl.
    unfold upd_inst; destruct (iid (snd j) =? iid u0); simpl;
      [rewrite isa_AllocaInst_replace|]; exact A. }
  apply Aj; clear Aj.
  destruct (Nat.eq_dec (iid (snd u)) (iid u0)) as [E|E].
  - assert (X0 : u = (c, u0)).
    { destruct u as [d u1]; apply (uniq_ids_same f); auto. }
    subst u; simpl in *; rewrite upd_inst_same in Hs by reflexivity.
    apply sites_non_phi in Hs;
      [|simpl; rewrite isa_PHINode_replace; exact Pu0].
    simpl in Hs; destruct Hs as [-> Hs].
    apply In_operands_replace in Hs; destruct Hs as [[Hs _]|[Ev _]].
    + apply (C j Hj Pj); exists (c, u0), c; repeat split; auto.
      apply sites_non_phi; auto.
    + inversion Ev as [Ev'].
      assert (X1 : j = (c, v)).
      { destruct j as [b j0]; apply (uniq_ids_same f); auto. }
      subst j; simpl in Ns; contradiction.
  - rewrite upd_inst_other in Hs by exact E.
    apply (C j Hj Pj); exists u, s; destruct u; auto.
Qed.

(** ** Insertions keep the function well formed *)

Lemma WF_inserted c new f f' :
  WF f -> inserted c new f f' ->
  fresh_iid f <= iid new ->
  incomingOf (ikind new) = [] ->
  (forall x, In (VInst x) (operands (ikind new)) ->
     x < fresh_iid f /\
     forall d t, In (d, t) (located f) -> iid t = x ->
                 isTerminator (ikind t) = false) ->
  WF f'.
Proof.
  intros [Wne WB WU WT WP WN] I F In0 O.
  destruct (inserted_props c new f f' I WB WU WP WN F In0 O)
    as [B' [U' [P' N']]].
  constructor; auto.
  - destruct I as [pre [bb [post [l1 [l2 [_ [_ [_ [_ ->]]]]]]]]].
    destruct pre; discriminate.
  - apply (inserted_terminated c new f f' I WT).
Qed.

Lemma entry_is_bids e f f' : map bid f' = map bid f -> entry_is e f -> entry_is e f'.
Proof. unfold entry_is; intros ->; auto. Qed.

Lemma slot_operand e Slot f :
  WF f -> slot_ok e Slot f ->
  Slot < fresh_iid f /\
  forall d t, In (d, t) (located f) -> iid t = Slot ->
              isTerminator (ikind t) = false.
Proof.
  intros W [a [Ha [Ea Aa]]]; split.
  - rewrite <- Ea; apply (fresh_iid_located f e a Ha).
  - intros d t Ht Et.
    assert (X : (d, t) = (e, a))
      by (apply (uniq_ids_same f); auto; [apply (wf_ids f W) | congruence]).
    inversion X; subst; destruct (ikind a); try discriminate; reflexivity.
Qed.

Lemma slot_entry_alloca e Slot f j :
  WF f -> slot_ok e Slot f -> In j (located f) -> iid (snd j) = Slot ->
  entry_alloca e j.
Proof.
  intros W [a [Ha [Ea Aa]]] Hj Ej; destruct j as [d j0]; simpl in *.
  assert (X0 : (d, j0) = (e, a))
    by (apply (uniq_ids_same f); [apply (wf_ids f W)| | |]; auto; congruence).
  inversion X0; subst; split; auto.
Qed.

Lemma slot_ok_inserted e Slot c new f f' :
  inserted c new f f' -> slot_ok e Slot f -> slot_ok e Slot f'.
Proof.
  intros I [a [Ha [Ea Aa]]]; exists a; repeat split; auto.
  apply (inserted_In c new f f' _ I); right; exact Ha.
Qed.

(** A load from the slot, put in front of [pos]. *)
Lemma load_insert e Slot t vol f c pos :
  WF f -> entry_is e f -> slot_ok e Slot f ->
  In (c, pos) (located f) ->
  let ld := mkInst (fresh_iid f) t (Load (VInst Slot) vol) in
  let f' := insertBefore f (iid pos) ld in
  inserted c ld f f' /\ WF f' /\ entry_is e f' /\ slot_ok e Slot f' /\
  (forall X, confined e f X -> confined e f' X).
Proof.
  intros W En Sl Hp ld f'.
  assert (I : inserted c ld f f')
    by (apply (insertBefore_inserted f (iid pos) ld c pos); auto;
        apply (wf_ids f W)).
  destruct (slot_operand e Slot f W Sl) as [Ls Ts].
  split; [exact I|]; split; [|split; [|split]].
  - apply (WF_inserted c ld f f' W I); [simpl; lia | reflexivity|].
    simpl; intros x [Hx|[]]; inversion Hx; subst; auto.
  - apply (entry_is_bids e f f' (inserted_bids c ld f f' I) En).
  - apply (slot_ok_inserted e Slot c ld f f' I Sl).
  - intros X C; apply (confined_inserted e c ld f f' X I); auto.
    + apply fresh_not_mentioned; simpl; lia.
    + simpl; intros [Hx|[]]; inversion Hx; lia.
    + simpl; intros x j [Hx|[]] Hj Ej Pj; inversion Hx; subst x.
      destruct Sl as [a [Ha [Ea Aa]]].
      assert (X0 : j = (e, a)).
      { destruct j as [b j0]; apply (uniq_ids_same f); auto;
          [apply (wf_ids f W) | simpl in *; congruence]. }
      subst j; right; left; split; auto.
Qed.

(** ** Which identifiers are PHI nodes *)

Lemma phi_id_inserted c new f f' x :
  inserted c new f f' -> isa_PHINode (ikind new) = false ->
  (phi_id f' x <-> phi_id f x).
Proof.
  intros I N; split; intros [j [Hj [Ej Pj]]]; exists j; repeat split; auto.
  - apply (inserted_In c new f f' _ I) in Hj; destruct Hj as [->|Hj]; auto.
    simpl in Pj; congruence.
  - apply (inserted_In c new f f' _ I); auto.
Qed.

Lemma reg_id_inserted c new f f' x :
  inserted c new f f' -> reg_id f x -> reg_id f' x.
Proof.
  intros I [j [Hj H]]; exists j; split; [|exact H].
  apply (inserted_In c new f f' _ I); auto.
Qed.

Lemma phi_id_updInst f U g x :
  (forall k, isa_PHINode (g k) = isa_PHINode k) ->
  (phi_id (updInst f U g) x <-> phi_id f x).
Proof.
  intros G; split.
  - intros [j' [Hj [Ej Pj]]]; apply In_located_updInst in Hj.
    destruct Hj as [j [Hj ->]]; simpl in *; exists j.
    rewrite upd_inst_iid in Ej; repeat split; auto.
    unfold upd_inst in Pj; destruct (iid (snd j) =? U); simpl in Pj;
      [rewrite G in Pj|]; exact Pj.
  - intros [j [Hj [Ej Pj]]].
    exists (fst j, upd_inst U g (snd j)); simpl; rewrite upd_inst_iid.
    repeat split; auto; [apply In_located_updInst; eauto|].
    unfold upd_inst; destruct (iid (snd j) =? U); simpl; [rewrite G|]; exact Pj.
Qed.

Lemma reg_id_updInst f U g x :
  (forall k, isa_PHINode (g k) = isa_PHINode k) ->
  (forall k, isTerminator (g k) = isTerminator k) ->
  reg_id f x -> reg_id (updInst f U g) x.
Proof.
  intros G1 G2 [j [Hj [Ej [Pj Tj]]]].
  exists (fst j, upd_inst U g (snd j)); simpl; rewrite upd_inst_iid.
  repeat split; auto; [apply In_located_updInst; eauto| |];
    unfold upd_inst; destruct (iid (snd j) =? U); simpl;
    rewrite ?G1, ?G2; auto.
Qed.

Lemma phi_id_erase f x0 x :
  phi_id (eraseFromParent f x0) x <-> phi_id f x /\ x <> x0.
Proof.
  split.
  - intros [j [Hj [Ej Pj]]]; rewrite located_eraseFromParent in Hj.
    apply filter_In in Hj; destruct Hj as [Hj N].
    apply negb_true_iff, Nat.eqb_neq in N; split; [exists j; auto | congruence].
  - intros [[j [Hj [Ej Pj]]] N]; exists j; repeat split; auto.
    rewrite located_eraseFromParent; apply filter_In; split; [exact Hj|].
    apply negb_true_iff, Nat.eqb_neq; congruence.
Qed.

Lemma reg_id_erase f x0 x :
  reg_id f x -> x <> x0 -> reg_id (eraseFromParent f x0) x.
Proof.
  intros [j [Hj [Ej H]]] N; exists j; repeat split; try tauto.
  rewrite located_eraseFromParent; apply filter_In; split; [exact Hj|].
  apply negb_true_iff, Nat.eqb_neq; congruence.
Qed.

(** ** Updates keep the function well formed *)

Lemma WF_updInst_operands f U g :
  (forall k, isTerminator (g k) = isTerminator k) ->
  (forall c j B, In (c, j) (located f) -> iid j = U ->
     In B (map snd (incomingOf (g (ikind j)))) ->
     In B (map snd (incomingOf (ikind j)))) ->
  (forall c j x, In (c, j) (located f) -> iid j = U ->
     In (VInst x) (operands (g (ikind j))) ->
     In (VInst x) (operands (ikind j)) \/
     forall d t, In (d, t) (located f) -> iid t = x ->
                 isTerminator (ikind t) = false) ->
  WF f -> WF (updInst f U g).
Proof.
  intros Ht Hi Ho [Wne WB WU WT WP WN].
  change (updInst f U g) with (mapF (fun _ => map (upd_inst U g)) f).
  constructor.
  - destruct f; [contradiction | discriminate].
  - unfold uniq_bids; rewrite map_bid_mapF; exact WB.
  - apply uniq_ids_map; auto; apply upd_inst_iid.
  - apply terminated_map; auto.
    intros j; unfold upd_inst; destruct (iid j =? U); simpl; auto.
  - apply phi_ok_map; auto; intros c j B Hj.
    unfold upd_inst; destruct (Nat.eqb_spec (iid j) U) as [E|E]; simpl; auto.
    apply (Hi c j B Hj E).
  - apply unused_map; auto.
    + apply upd_inst_iid.
    + intros j; unfold upd_inst; destruct (iid j =? U); simpl; auto.
    + intros c j x Hj; unfold upd_inst.
      destruct (Nat.eqb_spec (iid j) U) as [E|E]; simpl; [|auto].
      intros Hx; apply (Ho c j x Hj E Hx).
Qed.

Lemma entry_is_updInst e f U g : entry_is e f -> entry_is e (updInst f U g).
Proof.
  apply entry_is_bids.
  apply (map_bid_mapF (fun _ => map (upd_inst U g))).
Qed.

Lemma slot_ok_updInst e Slot f U g :
  (forall k, isa_AllocaInst (g k) = isa_AllocaInst k) ->
  slot_ok e Slot f -> slot_ok e Slot (updInst f U g).
Proof.
  intros G [a [Ha [Ea Aa]]]; exists (upd_inst U g a).
  rewrite upd_inst_iid; repeat split; auto.
  - apply In_located_updInst; exists (e, a); auto.
  - unfold upd_inst; destruct (iid a =? U); simpl; [rewrite G|]; exact Aa.
Qed.

(** ** What a demotion leaves in place *)

Lemma persists_refl e f : persists e f f.
Proof.
  constructor; auto; try tauto.
  intros c j' H _; exists j'; auto.
Qed.

Lemma persists_trans e f1 f2 f3 :
  persists e f1 f2 -> persists e f2 f3 -> persists e f1 f3.
Proof.
  intros [B1 P1 R1 I1 T1 A1] [B2 P2 R2 I2 T2 A2]; constructor; auto.
  - congruence.
  - intros x; rewrite P2; apply P1.
  - intros c j3 H3 Tj.
    destruct (T2 c j3 H3 Tj) as [j2 [H2 E2]].
    assert (Tj2 : isTerminator (ikind j2) = true).
    { destruct (ikind j3), (ikind j2); try discriminate; reflexivity. }
    destruct (T1 c j2 H2 Tj2) as [j1 [H1 E1]].
    exists j1; split; [exact H1 | congruence].
  - intros j H Aj; destruct (A2 j H Aj) as [H2|H2]; [|right; exact H2].
    apply (A1 j H2 Aj).
Qed.

Lemma persists_inserted e c new f f' :
  inserted c new f f' -> isa_PHINode (ikind new) = false ->
  isTerminator (ikind new) = false ->
  (isa_AllocaInst (ikind new) = true -> c = e) ->
  persists e f f'.
Proof.
  intros I N NT NA; constructor.
  - apply (inserted_bids c new f f' I).
  - intros x; apply (phi_id_inserted c new f f' x I N).
  - intros x; apply (reg_id_inserted c new f f' x I).
  - intros x [j [Hj Ej]]; exists j; split; [|exact Ej].
    apply (inserted_In c new f f' _ I); auto.
  - intros d j' H Tj; apply (inserted_In c new f f' _ I) in H.
    destruct H as [H|H]; [inversion H; subst; congruence|].
    exists j'; auto.
  - intros j H Aj; apply (inserted_In c new f f' _ I) in H.
    destruct H as [->|H]; [right; apply NA; exact Aj | left; exact H].
Qed.

Lemma persists_updInst e f U g :
  (forall k, isa_PHINode (g k) = isa_PHINode k) ->
  (forall k, isTerminator (g k) = isTerminator k) ->
  (forall k, isTerminator k = true -> skeleton (g k) = skeleton k) ->
  (forall k, isa_AllocaInst (g k) = true -> g k = k) ->
  persists e f (updInst f U g).
Proof.
  intros G1 G2 G3 G4; constructor.
  - apply (map_bid_mapF (fun _ => map (upd_inst U g))).
  - intros x; apply phi_id_updInst; exact G1.
  - intros x; apply reg_id_updInst; auto.
  - intros x [j [Hj Ej]]; exists (fst j, upd_inst U g (snd j)); simpl.
    rewrite upd_inst_iid; split; [|exact Ej].
    apply In_located_updInst; eauto.
  - intros c j' H Tj; apply In_located_updInst in H.
    destruct H as [[d j] [H E]]; simpl in E; inversion E; subst.
    exists j; split; [exact H|].
    unfold upd_inst in *; destruct (iid j =? U); [|reflexivity].
    simpl in *; rewrite G2 in Tj; apply G3; exact Tj.
  - intros j' H Aj; apply In_located_updInst in H.
    destruct H as [[d j] [H ->]]; simpl in *.
    left; unfold upd_inst in *; destruct (iid j =? U); [|exact H].
    simpl in Aj; rewrite (G4 _ Aj); destruct j; exact H.
Qed.

Lemma confined_setIncoming e f X c u0 inc inc' :
  uniq_ids f ->
  In (c, u0) (located f) -> ikind u0 = PHI inc ->
  (forall v B, In (v, B) inc' ->
     In (v, B) inc \/
     exists ldi, v = VInst (iid ldi) /\ In (B, ldi) (located f)) ->
  confined e f X ->
  confined e (updInst f (iid u0) (setIncomingValues inc')) X.
Proof.
  intros U Hu0 Ku0 Hinc C j' Hj' Pj' [u' [s [Hu' [Hs Ns]]]].
  apply In_located_updInst in Hj', Hu'.
  destruct Hj' as [j [Hj ->]], Hu' as [u [Hu ->]]; simpl in *.
  rewrite upd_inst_iid in *.
  assert (Nj : iid (snd j) <> iid u0).
  { intros E.
    assert (X0 : j = (c, u0))
      by (destruct j as [b j0]; apply (uniq_ids_same f); auto).
    subst j; simpl in Pj'; rewrite upd_inst_same in Pj' by reflexivity.
    simpl in Pj'; rewrite Ku0 in Pj'; discriminate. }
  rewrite upd_inst_other in * by exact Nj.
  destruct j as [b j0]; simpl in *.
  destruct (Nat.eq_dec (iid (snd u)) (iid u0)) as [E|E].
  - assert (X0 : u = (c, u0))
      by (destruct u as [d u1]; apply (uniq_ids_same f); auto).
    subst u; simpl in *; rewrite upd_inst_same in Hs by reflexivity.
    apply (sites_phi _ inc') in Hs; [|simpl; rewrite Ku0; reflexivity].
    destruct (Hinc _ _ Hs) as [H|[ldi [Ev Hl]]].
    + apply (C (b, j0) Hj Pj'); exists (c, u0), s; repeat split; auto.
      apply (sites_phi _ inc); auto.
    + inversion Ev as [Ev'].
      assert (X1 : (b, j0) = (s, ldi)) by (apply (uniq_ids_same f); auto).
      inversion X1; subst; contradiction.
  - rewrite upd_inst_other in Hs by exact E.
    apply (C (b, j0) Hj Pj'); exists u, s; destruct u; auto.
Qed.

Lemma terminatorOf_ok f B :
  WF f -> In B (map bid f) ->
  exists term, terminatorOf f B = Ok term /\ In (B, term) (located f).
Proof.
  intros W HB; unfold terminatorOf.
  destruct (getBlock f B) as [bb|] eqn:G;
    [|apply getBlock_None in G; contradiction].
  destruct (block_shape f B bb (wf_term f W) G) as [body [t [-> [Tt Gt]]]].
  exists t; simpl; rewrite Gt; split; [reflexivity|].
  apply (getBlock_located f B _ t G), in_app_iff; right; left; reflexivity.
Qed.

Lemma reload_incoming_spec e Slot X t vol I n0 :
  forall inc f Loads,
    rinv e Slot X f -> n0 <= fresh_iid f ->
    (forall v B, In (v, B) inc -> In B (map bid f)) ->
    (forall l, In l Loads ->
       exists ldi, snd l = VInst (iid ldi) /\ In (fst l, ldi) (located f) /\
                   n0 <= iid ldi) ->
    exists f' inc',
      reload_incoming f Slot t vol I inc Loads = Ok (f', inc') /\
      rinv e Slot X f' /\ persists e f f' /\
      incl (located f) (located f') /\
      (forall j, In j (located f') -> In j (located f) \/ new_load Slot n0 j) /\
      map snd inc' = map snd inc /\
      (forall v B, In (v, B) inc' ->
         (In (v, B) inc /\ v <> VInst I) \/
         exists ldi, v = VInst (iid ldi) /\ In (B, ldi) (located f') /\
                     n0 <= iid ldi).
Proof.
  induction inc as [|[v B] inc IH]; intros f Loads R N0 HB HL.
  - exists f, []; simpl; split; [reflexivity|]; split; [exact R|].
    split; [apply persists_refl|]; split; [apply incl_refl|].
    split; [auto|]; split; [reflexivity | intros ? ? []].
  - cbn [reload_incoming].
    assert (HB' : forall v B, In (v, B) inc -> In B (map bid f))
      by (intros v0 B0 H; apply (HB v0 B0); right; exact H).
    destruct (value_eqb v (VInst I)) eqn:Ev.
    + apply value_eqb_eq in Ev; subst v.
      destruct (find (fun l : block_id * value => fst l =? B) Loads)
        as [l|] eqn:Fl.
      * destruct (IH f Loads R N0 HB' HL)
          as [f' [inc' [E [R' [P [Inc [New [Es Ei]]]]]]]].
        exists f', ((snd l, B) :: inc'); rewrite E; cbn [bind].
        split; [reflexivity|]; split; [exact R'|]; split; [exact P|].
        split; [exact Inc|]; split; [exact New|]; split.
        { simpl; rewrite Es; reflexivity. }
        intros v0 B0 [H|H]; [|destruct (Ei v0 B0 H) as [[H1 H2]|H1];
            [left; split; [right; exact H1 | exact H2] | right; exact H1]].
        inversion H; subst v0 B0; right.
        apply find_some in Fl; destruct Fl as [Fl1 Fl2].
        apply Nat.eqb_eq in Fl2.
        destruct (HL l Fl1) as [ldi [E1 [E2 E3]]].
        exists ldi; rewrite <- Fl2; repeat split; auto.
      * destruct (terminatorOf_ok f B (r_wf _ _ _ _ R)) as [term [Et Ht]];
          [apply (HB (VInst I) B); left; reflexivity|].
        rewrite Et; cbn [bind].
        destruct (load_insert e Slot t vol f B term
                    (r_wf _ _ _ _ R) (r_entry _ _ _ _ R) (r_slot _ _ _ _ R) Ht)
          as [Ins [W1 [En1 [Sl1 C1]]]].
        set (ld := mkInst (fresh_iid f) t (Load (VInst Slot) vol)) in *.
        set (f1 := insertBefore f (iid term) ld) in *.
        assert (R1 : rinv e Slot X f1)
          by (constructor; auto; apply C1, (r_conf _ _ _ _ R)).
        assert (P1 : persists e f f1)
          by (apply (persists_inserted e B ld f f1 Ins);
              [reflexivity | reflexivity | discriminate]).
        assert (Inc1 : incl (located f) (located f1)).
        { intros j Hj; apply (inserted_In B ld f f1 _ Ins); auto. }
        assert (N1 : n0 <= fresh_iid f1)
          by (pose proof (fresh_iid_mono f f1 Inc1); lia).
        destruct (IH f1 ((B, VInst (fresh_iid f)) :: Loads) R1 N1)
          as [f' [inc' [E [R' [P [Inc [New [Es Ei]]]]]]]].
        { intros v0 B0 H; rewrite (p_bids _ _ _ P1); apply (HB' v0 B0 H). }
        { intros l [<-|Hl].
          - exists ld; simpl; repeat split; auto.
            apply (inserted_In B ld f f1 _ Ins); auto.
          - destruct (HL l Hl) as [ldi [E1 [E2 E3]]].
            exists ldi; repeat split; auto. }
        exists f', ((VInst (fresh_iid f), B) :: inc'); rewrite E; cbn [bind].
        split; [reflexivity|]; split; [exact R'|].
        split; [apply (persists_trans e f f1 f' P1 P)|].
        split; [intros j Hj; apply Inc, Inc1, Hj|]; split.
        { intros j Hj; destruct (New j Hj) as [H|H]; [|auto].
          apply (inserted_In B ld f f1 _ Ins) in H.
          destruct H as [->|H]; [right | left; exact H].
          repeat split; simpl; auto. }
        split; [simpl; rewrite Es; reflexivity|].
        intros v0 B0 [H|H]; [|destruct (Ei v0 B0 H) as [[H1 H2]|H1];
            [left; split; [right; exact H1 | exact H2] | right; exact H1]].
        inversion H; subst v0 B0; right; exists ld; repeat split; auto.
        apply Inc, (inserted_In B ld f f1 _ Ins); auto.
    + apply value_eqb_neq in Ev.
      destruct (IH f Loads R N0 HB' HL)
        as [f' [inc' [E [R' [P [Inc [New [Es Ei]]]]]]]].
      exists f', ((v, B) :: inc'); rewrite E; cbn [bind].
      split; [reflexivity|]; split; [exact R'|]; split; [exact P|].
      split; [exact Inc|]; split; [exact New|]; split.
      { simpl; rewrite Es; reflexivity. }
      intros v0 B0 [H|H].
      * inversion H; subst v0 B0; left; split; [left; reflexivity | exact Ev].
      * destruct (Ei v0 B0 H) as [[H1 H2]|H1];
          [left; split; [right; exact H1 | exact H2] | right; exact H1].
Qed.

(** ** The users of a demoted value read the slot *)

Lemma reg_id_lt f x : reg_id f x -> x < fresh_iid f.
Proof.
  intros [[c j] [Hj [Ej _]]]; simpl in Ej; subst x.
  apply (fresh_iid_located f c j Hj).
Qed.

Lemma setIncomingValues_tags inc :
  (forall k, isa_PHINode (setIncomingValues inc k) = isa_PHINode k) /\
  (forall k, isTerminator (setIncomingValues inc k) = isTerminator k) /\
  (forall k, isa_AllocaInst (setIncomingValues inc k) = isa_AllocaInst k).
Proof. repeat split; intros []; reflexivity. Qed.

Lemma reload_user_spec e Slot X t vol I f c u0 :
  rinv e Slot X f -> Slot <> I -> reg_id f I ->
  In (c, u0) (located f) ->
  exists f',
    reload_user f Slot t vol I (iid u0) = Ok f' /\
    rinv e Slot X f' /\ persists e f f' /\
    uses_left I [iid u0] f f'.
Proof.
  intros R NS RI Hu0.
  pose proof (r_wf _ _ _ _ R) as W.
  pose proof (reg_id_lt f I RI) as LI.
  unfold reload_user.
  rewrite (getInst_uniq f c u0 (wf_ids f W) Hu0); cbn [bind ofOption].
  destruct (isa_PHINode (ikind u0)) eqn:Pu.
  - (* the user is a PHI node *)
    destruct (ikind u0) as [| | | |inc| | | | | | | |] eqn:Ku; try discriminate.
    destruct (reload_incoming_spec e Slot X t vol I (fresh_iid f) inc f []
                R (le_n _))
      as [f1 [inc' [E [R1 [P1 [Inc [New [Es Ei]]]]]]]].
    { intros v B H; apply (wf_phi f W c u0 v B Hu0); rewrite Ku; exact H. }
    { intros l []. }
    rewrite E; cbn [bind].
    pose proof (r_wf _ _ _ _ R1) as W1.
    pose proof (Inc _ Hu0) as Hu1.
    destruct (setIncomingValues_tags inc') as [G1 [G2 G3]].
    assert (Fresh : forall ldi B, In (B, ldi) (located f1) ->
              fresh_iid f <= iid ldi -> new_load Slot (fresh_iid f) (B, ldi)).
    { intros ldi B H L; destruct (New _ H) as [H'|H']; [|exact H'].
      pose proof (fresh_iid_located f B ldi H'); lia. }
    exists (updInst f1 (iid u0) (setIncomingValues inc')).
    split; [reflexivity|]; split; [|split].
    + constructor.
      * apply WF_updInst_operands; auto.
        -- intros d j B Hj Ej.
           assert (X0 : (d, j) = (c, u0)) by (apply (uniq_ids_same f1); auto;
             apply (wf_ids f1 W1)).
           inversion X0; subst; rewrite Ku; simpl; rewrite Es; auto.
        -- intros d j x Hj Ej.
           assert (X0 : (d, j) = (c, u0)) by (apply (uniq_ids_same f1); auto;
             apply (wf_ids f1 W1)).
           inversion X0; subst; rewrite Ku; simpl; intros Hx.
           apply in_map_iff in Hx; destruct Hx as [[v B] [Ev Hv]].
           simpl in Ev; subst v.
           destruct (Ei _ _ Hv) as [[H _]|[ldi [E1 [E2 E3]]]].
           ++ left; apply in_map_iff; exists (VInst x, B); auto.
           ++ right; inversion E1; subst x; intros d' t' Ht' Et'.
              assert (X1 : (d', t') = (B, ldi))
                by (apply (uniq_ids_same f1); auto; apply (wf_ids f1 W1)).
              inversion X1; subst.
              destruct (Fresh ldi B E2 E3) as [_ [T _]]; exact T.
      * apply entry_is_updInst, (r_entry _ _ _ _ R1).
      * apply slot_ok_updInst; [exact G3 | apply (r_slot _ _ _ _ R1)].
      * apply (confined_setIncoming e f1 X c u0 inc inc'); auto.
        -- apply (wf_ids f1 W1).
        -- intros v B H; destruct (Ei v B H) as [[H1 _]|[ldi [E1 [E2 _]]]];
             [left; exact H1 | right; exists ldi; auto].
        -- apply (r_conf _ _ _ _ R1).
    + apply (persists_trans e f f1 _ P1), persists_updInst; auto.
      * intros k Tk; destruct k; try discriminate; reflexivity.
      * intros k Ak; destruct k; try discriminate; reflexivity.
    + intros u' Hu' Mu'; apply In_located_updInst in Hu'.
      destruct Hu' as [u [Hu ->]]; simpl in *.
      destruct (Nat.eq_dec (iid (snd u)) (iid u0)) as [Eu|Eu].
      * exfalso.
        assert (X0 : u = (c, u0)) by (destruct u; apply (uniq_ids_same f1); auto;
          apply (wf_ids f1 W1)).
        subst u; simpl in Mu'; rewrite upd_inst_same in Mu' by reflexivity.
        simpl in Mu'; rewrite Ku in Mu'; simpl in Mu'.
        apply in_map_iff in Mu'; destruct Mu' as [[v B] [Ev Hv]].
        simpl in Ev; subst v.
        destruct (Ei _ _ Hv) as [[_ H]|[ldi [E1 [_ E3]]]]; [congruence|].
        inversion E1; lia.
      * rewrite upd_inst_other in * by exact Eu.
        destruct (New u Hu) as [H|[_ [_ [O _]]]].
        -- exists u; repeat split; auto; simpl; intros [H'|[]]; congruence.
        -- rewrite O in Mu'; destruct Mu' as [H'|[]]; congruence.
  - (* any other user *)
    assert (Km : match ikind u0 with
                 | PHI inc =>
                     ' (f', inc') <- reload_incoming f Slot t vol I inc [];;
                     Ok (updInst f' (iid u0) (setIncomingValues inc'))
                 | _ =>
                     Ok (updInst
                           (insertBefore f (iid u0)
                              (mkInst (fresh_iid f) t (Load (VInst Slot) vol)))
                           (iid u0)
                           (replaceUsesOfWith (VInst I) (VInst (fresh_iid f))))
                 end =
                 Ok (updInst
                       (insertBefore f (iid u0)
                          (mkInst (fresh_iid f) t (Load (VInst Slot) vol)))
                       (iid u0)
                       (replaceUsesOfWith (VInst I) (VInst (fresh_iid f)))))
      by (destruct (ikind u0); try reflexivity; discriminate).
    rewrite Km; clear Km.
    destruct (load_insert e Slot t vol f c u0 W
                (r_entry _ _ _ _ R) (r_slot _ _ _ _ R) Hu0)
      as [Ins [W1 [En1 [Sl1 C1]]]].
    set (ld := mkInst (fresh_iid f) t (Load (VInst Slot) vol)) in *.
    set (f1 := insertBefore f (iid u0) ld) in *.
    assert (Hu1 : In (c, u0) (located f1))
      by (apply (inserted_In c ld f f1 _ Ins); auto).
    assert (Hl1 : In (c, ld) (located f1))
      by (apply (inserted_In c ld f f1 _ Ins); auto).
    eexists; split; [reflexivity|]; split; [|split].
    + constructor.
      * apply WF_updInst_operands; auto.
        -- apply isTerminator_replace.
        -- intros d j B _ _; rewrite incoming_blocks_replace; auto.
        -- intros d j x Hj Ej Hx; apply In_operands_replace in Hx.
           destruct Hx as [[Hx _]|[Ex _]]; [left; exact Hx | right].
           inversion Ex; subst x; intros d' t' Ht' Et'.
           assert (X1 : (d', t') = (c, ld))
             by (apply (uniq_ids_same f1); auto; apply (wf_ids f1 W1)).
           inversion X1; reflexivity.
      * apply entry_is_updInst, En1.
      * apply slot_ok_updInst; [apply isa_AllocaInst_replace | exact Sl1].
      * apply (confined_retarget e f1 X c u0 ld I); auto.
        -- apply (wf_ids f1 W1).
        -- apply C1, (r_conf _ _ _ _ R).
    + apply (persists_trans e f f1).
      * apply (persists_inserted e c ld f f1 Ins);
          [reflexivity | reflexivity | discriminate].
      * apply persists_updInst;
          [apply isa_PHINode_replace | apply isTerminator_replace | |].
        -- intros k Tk; destruct k; try discriminate; reflexivity.
        -- intros k Ak; destruct k; try discriminate; reflexivity.
    + intros u' Hu' Mu'; apply In_located_updInst in Hu'.
      destruct Hu' as [u [Hu ->]]; simpl in *.
      destruct (Nat.eq_dec (iid (snd u)) (iid u0)) as [Eu|Eu].
      * exfalso; rewrite upd_inst_same in Mu' by exact Eu; simpl in Mu'.
        apply In_operands_replace in Mu'.
        destruct Mu' as [[_ H]|[H _]]; [congruence|].
        inversion H; lia.
      * rewrite upd_inst_other in * by exact Eu.
        apply (inserted_In c ld f f1 _ Ins) in Hu; destruct Hu as [->|Hu].
        -- simpl in Mu'; destruct Mu' as [H'|[]]; congruence.
        -- exists u; repeat split; auto; simpl; intros [H'|[]]; congruence.
Qed.

Lemma reload_users_spec e Slot X t vol I :
  forall Us f,
    rinv e Slot X f -> Slot <> I -> reg_id f I ->
    (forall U, In U Us -> has_id f U) ->
    exists f',
      reload_users f Slot t vol I Us = Ok f' /\
      rinv e Slot X f' /\ persists e f f' /\
      uses_left I Us f f'.
Proof.
  induction Us as [|U Us IH]; intros f R NS RI HU.
  - exists f; split; [reflexivity|]; split; [exact R|].
    split; [apply persists_refl|].
    intros u' Hu' Mu'; exists u'; auto.
  - destruct (HU U (or_introl eq_refl)) as [[c u0] [Hu0 Eu0]]; simpl in Eu0.
    subst U.
    destruct (reload_user_spec e Slot X t vol I f c u0 R NS RI Hu0)
      as [f1 [E1 [R1 [P1 U1]]]].
    destruct (IH f1 R1 NS (p_reg _ _ _ P1 I RI)) as [f' [E' [R' [P' U']]]].
    { intros U HUs; apply (p_ids _ _ _ P1), HU; right; exact HUs. }
    exists f'; cbn [reload_users]; rewrite E1; cbn [bind].
    split; [exact E'|]; split; [exact R'|].
    split; [apply (persists_trans e f f1 f' P1 P')|].
    intros u' Hu' Mu'.
    destruct (U' u' Hu' Mu') as [u1 [H1 [H2 [H3 H4]]]].
    destruct (U1 u1 H1 H3) as [u [K1 [K2 [K3 K4]]]].
    exists u; repeat split; auto; [congruence|].
    intros [H|H]; [apply K4; left; exact H|].
    apply H4; rewrite <- K2; exact H.
Qed.

(** ** Insertion behind an instruction *)

Lemma insert_at_first_non_phi_spec new l :
  (exists j, In j l /\ isa_PHINode (ikind j) = false) ->
  exists p q,
    l = p ++ q /\ q <> [] /\
    insert_at_first_non_phi new l = Some (p ++ new :: q).
Proof.
  induction l as [|x l IH]; intros [j [Hj Pj]]; [destruct Hj|].
  simpl; destruct (isa_PHINode (ikind x)) eqn:Px.
  - destruct Hj as [->|Hj]; [congruence|].
    destruct IH as [p [q [E [N Ei]]]]; [eauto|].
    exists (x :: p), q; rewrite Ei, E; simpl; auto.
  - exists [], (x :: l); simpl; repeat split; auto; discriminate.
Qed.

Lemma insert_after_spec I new l1 x l2 :
  iid x = I -> ~ In I (map iid l1) ->
  (exists j, In j l2 /\ isa_PHINode (ikind j) = false) ->
  exists p q,
    l2 = p ++ q /\ q <> [] /\
    insert_after I new (l1 ++ x :: l2) = Some (l1 ++ x :: p ++ new :: q).
Proof.
  intros Ex N H; destruct (insert_at_first_non_phi_spec new l2 H)
    as [p [q [E [Nq Ei]]]].
  exists p, q; split; [exact E|]; split; [exact Nq|].
  induction l1 as [|y l1 IH]; simpl.
  - rewrite Ex, Nat.eqb_refl, Ei; reflexivity.
  - destruct (Nat.eqb_spec (iid y) I) as [Ey|Ey];
      [exfalso; apply N; left; exact Ey|].
    rewrite IH; [reflexivity|]; intros H'; apply N; right; exact H'.
Qed.

Lemma insert_from_spec P new l1 x l2 :
  iid x = P -> ~ In P (map iid l1) ->
  (exists j, In j (x :: l2) /\ isa_PHINode (ikind j) = false) ->
  exists p q,
    x :: l2 = p ++ q /\ q <> [] /\
    insert_from P new (l1 ++ x :: l2) = Some (l1 ++ p ++ new :: q).
Proof.
  intros Ex N H; destruct (insert_at_first_non_phi_spec new (x :: l2) H)
    as [p [q [E [Nq Ei]]]].
  exists p, q; split; [exact E|]; split; [exact Nq|].
  induction l1 as [|y l1 IH].
  - cbn [app insert_from]; rewrite Ex, Nat.eqb_refl; exact Ei.
  - cbn [app insert_from].
    destruct (Nat.eqb_spec (iid y) P) as [Ey|Ey];
      [exfalso; apply N; left; exact Ey|].
    rewrite IH; [reflexivity|]; intros H'; apply N; right; exact H'.
Qed.

Lemma existsb_id_In i (l : list instruction) :
  existsb (fun j => iid j =? i) l = true <-> In i (map iid l).
Proof.
  rewrite existsb_exists, in_map_iff; split.
  - intros [j [H E]]; apply Nat.eqb_eq in E; eauto.
  - intros [j [E H]]; exists j; split; [exact H | apply Nat.eqb_eq; exact E].
Qed.

Lemma inBlock_spec g i pre bb post l' :
  ~ In i (map iid (all_insts pre)) -> In i (map iid (insts bb)) ->
  g (insts bb) = Some l' ->
  inBlock g i (pre ++ bb :: post) = Ok (pre ++ mkBB (bid bb) l' :: post).
Proof.
  intros N H G; induction pre as [|x pre IH]; cbn [app inBlock].
  - apply existsb_id_In in H; rewrite H, G; reflexivity.
  - rewrite ids_cons, in_app_iff in N.
    destruct (existsb (fun j => iid j =? i) (insts x)) eqn:E.
    + apply existsb_id_In in E; exfalso; apply N; left; exact E.
    + rewrite IH; [reflexivity|]; intros H'; apply N; right; exact H'.
Qed.

Lemma terminator_not_phi k : isTerminator k = true -> isa_PHINode k = false.
Proof. destruct k; try discriminate; reflexivity. Qed.

(** The pieces of the function around a located instruction. *)
Lemma locate f c x :
  WF f -> In (c, x) (located f) ->
  exists pre bb post l1 l2 t,
    f = pre ++ bb :: post /\ bid bb = c /\
    insts bb = l1 ++ x :: l2 /\
    ~ In (iid x) (map iid (all_insts pre)) /\
    ~ In (iid x) (map iid l1) /\
    isTerminator (ikind t) = true /\
    (l2 = [] /\ x = t \/ exists l2', l2 = l2' ++ [t]).
Proof.
  intros W H; apply In_located in H; destruct H as [bb [Hbb [Eb Hx]]].
  pose proof (block_ids_NoDup f bb (wf_ids f W) Hbb) as ND.
  destruct (wf_term f W bb Hbb) as [t Ht].
  apply getTerminator_Some in Ht; destruct Ht as [body [Eb2 Tt]].
  apply in_split in Hbb; destruct Hbb as [pre [post ->]].
  apply in_split in Hx; destruct Hx as [l1 [l2 El]].
  exists pre, bb, post, l1, l2, t.
  split; [reflexivity|]; split; [exact Eb|]; split; [exact El|].
  split; [|split; [|split; [exact Tt|]]].
  - intros H; apply In_ids_located in H; destruct H as [c' [j' [H1 H2]]].
    pose proof (wf_ids _ W) as U; unfold uniq_ids in U.
    rewrite located_app, located_cons, map_app, map_app in U.
    apply (NoDup_app_disjoint _ _ (iid x) U).
    + rewrite <- H2.
      apply (in_map (fun j : linst => iid (snd j)) _ (c', j')); exact H1.
    + apply in_app_iff; left; rewrite map_map; simpl.
      rewrite El, map_app; apply in_app_iff; right; left; reflexivity.
  - rewrite El, map_app in ND; simpl in ND.
    apply NoDup_remove_2 in ND; intros H; apply ND, in_app_iff; auto.
  - rewrite El in Eb2.
    destruct l2 as [|y l2] using rev_ind.
    + left; split; [reflexivity|].
      apply app_inj_tail in Eb2; destruct Eb2; auto.
    + right; exists l2.
      change (l1 ++ x :: l2 ++ [y]) with (l1 ++ (x :: l2) ++ [y]) in Eb2.
      rewrite app_assoc in Eb2; apply app_inj_tail in Eb2.
      destruct Eb2 as [_ ->]; reflexivity.
Qed.

Lemma inBlock_insert_after f c x new :
  WF f -> In (c, x) (located f) -> isTerminator (ikind x) = false ->
  exists f',
    inBlock (insert_after (iid x) new) (iid x) f = Ok f' /\
    inserted c new f f'.
Proof.
  intros W H T.
  destruct (locate f c x W H)
    as (pre & bb & post & l1 & l2 & t & Ef & Eb & El & N1 & N2 & Tt & L).
  destruct L as [[_ ->]|[l2' ->]]; [congruence|].
  destruct (insert_after_spec (iid x) new l1 x (l2' ++ [t]) eq_refl N2)
    as [p [q [E [Nq Ei]]]].
  { exists t; split; [apply in_app_iff; right; left; reflexivity|].
    apply terminator_not_phi; exact Tt. }
  exists (pre ++ mkBB (bid bb) (l1 ++ x :: p ++ new :: q) :: post); split.
  - rewrite Ef; apply inBlock_spec; [exact N1| |rewrite El; exact Ei].
    rewrite El, map_app; apply in_app_iff; right; left; reflexivity.
  - exists pre, bb, post, (l1 ++ x :: p), q.
    split; [exact Ef|]; split; [exact Eb|].
    split; [rewrite El, E, <- app_assoc; reflexivity|].
    split; [exact Nq|].
    rewrite Eb, <- app_assoc; reflexivity.
Qed.

Lemma inBlock_insert_from f c x new :
  WF f -> In (c, x) (located f) ->
  exists f',
    inBlock (insert_from (iid x) new) (iid x) f = Ok f' /\
    inserted c new f f'.
Proof.
  intros W H.
  destruct (locate f c x W H)
    as (pre & bb & post & l1 & l2 & t & Ef & Eb & El & N1 & N2 & Tt & L).
  destruct (insert_from_spec (iid x) new l1 x l2 eq_refl N2)
    as [p [q [E [Nq Ei]]]].
  { exists t; split; [|apply terminator_not_phi; exact Tt].
    destruct L as [[_ ->]|[l2' ->]]; [left; reflexivity|].
    right; apply in_app_iff; right; left; reflexivity. }
  exists (pre ++ mkBB (bid bb) (l1 ++ p ++ new :: q) :: post); split.
  - rewrite Ef; apply inBlock_spec; [exact N1| |rewrite El; exact Ei].
    rewrite El, map_app; apply in_app_iff; right; left; reflexivity.
  - exists pre, bb, post, (l1 ++ p), q.
    split; [exact Ef|]; split; [exact Eb|].
    split; [rewrite El, E, <- app_assoc; reflexivity|].
    split; [exact Nq|].
    rewrite Eb, <- app_assoc; reflexivity.
Qed.

(** ** Erasing an instruction *)

Lemma WF_erase f x :
  WF f ->
  (forall c j, In (c, j) (located f) -> iid j = x ->
               isTerminator (ikind j) = false) ->
  WF (eraseFromParent f x).
Proof.
  intros W H; destruct (WF0_erase f x (WF_WF0 f W)) as [B I P U].
  split; auto.
  - intros E; apply (wf_ne f W).
    apply (f_equal (map bid)) in E; rewrite map_bid_erase in E.
    destruct f; [reflexivity | discriminate].
  - apply terminated_erase; [exact H | apply (wf_term f W)].
Qed.

Lemma In_located_erase f x j :
  In j (located (eraseFromParent f x)) <-> In j (located f) /\ iid (snd j) <> x.
Proof.
  rewrite located_eraseFromParent, filter_In; split; intros [H1 H2];
    (split; [exact H1|]).
  - apply negb_true_iff, Nat.eqb_neq in H2; exact H2.
  - apply negb_true_iff, Nat.eqb_neq; exact H2.
Qed.

Lemma has_id_erase f x0 x :
  has_id f x -> x <> x0 -> has_id (eraseFromParent f x0) x.
Proof.
  intros [j [H E]] N; exists j; split; [|exact E].
  apply In_located_erase; split; [exact H | congruence].
Qed.

(** ** The demotion of an instruction result *)

Lemma phi_reg_excl f x : uniq_ids f -> phi_id f x -> reg_id f x -> False.
Proof.
  intros U [[c j] [H1 [E1 P1]]] [[c' j'] [H2 [E2 [P2 _]]]]; simpl in *.
  assert (X : (c, j) = (c', j')) by (apply (uniq_ids_same f); auto; congruence).
  inversion X; subst; congruence.
Qed.

Lemma demoted_persists e I f f' :
  uniq_ids f -> reg_id f I -> persists e f f' -> demoted e I f f'.
Proof.
  intros U R [B P G _ T A]; constructor; auto.
  intros x; rewrite P; split; [|tauto].
  intros H; split; [exact H|].
  intros ->; apply (phi_reg_excl f I U H R).
Qed.

Lemma demoted_erase e I f f1 :
  persists e f f1 -> demoted e I f (eraseFromParent f1 I).
Proof.
  intros [B P G _ T A]; constructor.
  - rewrite map_bid_erase; exact B.
  - intros x; rewrite phi_id_erase, P; tauto.
  - intros x H N; apply reg_id_erase; auto.
  - intros c j' H Tj; apply In_located_erase in H; destruct H as [H _].
    apply (T c j' H Tj).
  - intros j H Aj; apply In_located_erase in H; destruct H as [H _].
    apply (A j H Aj).
Qed.

Lemma users_spec f Inst U :
  In U (users f Inst) <->
  exists u, In u (located f) /\ iid (snd u) = U /\
            In (VInst (iid (snd Inst))) (operands (ikind (snd u))).
Proof.
  unfold users; rewrite in_map_iff; split.
  - intros [u [E H]]; apply filter_In in H; destruct H as [H M].
    apply existsb_value_In in M; eauto.
  - intros [u [H [E M]]]; exists u; split; [exact E|].
    apply filter_In; split; [exact H | apply existsb_value_In; exact M].
Qed.

Lemma entry_front e f :
  WF f -> entry_is e f ->
  exists bb tl front l0,
    f = bb :: tl /\ bid bb = e /\ insts bb = front :: l0 /\
    In (e, front) (located f).
Proof.
  intros W En; destruct f as [|bb tl]; [discriminate|].
  inversion En as [Eb].
  destruct (wf_term _ W bb (or_introl eq_refl)) as [t Ht].
  apply getTerminator_Some in Ht; destruct Ht as [body [Ei _]].
  destruct (insts bb) as [|front l0] eqn:EI;
    [destruct body; discriminate|].
  exists bb, tl, front, l0; repeat split; auto.
  rewrite located_cons, EI; left; reflexivity.
Qed.

(** From [VInst a = VInst b] to [a = b], without unfolding [a] and [b]. *)
Ltac vinst_inj H :=
  apply (f_equal (fun v => match v with VInst i => i | _ => 0 end)) in H;
  cbv beta iota in H.

Lemma DemoteRegToStack_spec e X vol I f :
  WF f -> entry_is e f -> reg_id f I -> confined e f (I :: X) ->
  exists f',
    DemoteRegToStack f I vol = Ok f' /\
    WF f' /\ entry_is e f' /\ confined e f' X /\ demoted e I f f'.
Proof.
  intros W En RI C.
  pose proof RI as RI0.
  destruct RI as [[c x] [Hx [Ex [Px Tx]]]]; simpl in Ex, Px, Tx; subst I.
  pose proof (wf_ids f W) as U.
  unfold DemoteRegToStack.
  rewrite (getLInst_uniq f c x U Hx); cbn [bind ofOption].
  destruct (use_empty f (c, x)) eqn:UE.
  - exists (eraseFromParent f (iid x)); split; [reflexivity|].
    split; [|split; [|split]].
    + apply WF_erase; [exact W|].
      intros d j Hj Ej.
      assert (X0 : (d, j) = (c, x)) by (apply (uniq_ids_same f); auto).
      inversion X0; subst; exact Tx.
    + apply (entry_is_bids e f); [apply map_bid_erase | exact En].
    + apply (confined_drop e _ (iid x) X);
        [apply confined_erase; exact C|].
      intros j Hj Ej; apply In_located_erase in Hj; tauto.
    + apply demoted_erase, persists_refl.
  - destruct (entry_front e f W En)
      as (bb & tl & front & l0 & Ef & Eb & EI & Hfront).
    replace (hd_error f) with (Some bb) by (rewrite Ef; reflexivity).
    cbn [hd_error bind ofOption]; rewrite EI.
    cbn [hd_error bind ofOption].
    cbn [snd]; rewrite Tx.
    set (t := ity x).
    set (Slot := fresh_iid f).
    set (SlotA := mkInst Slot (PointerTy t) (Alloca t)).
    set (f1 := insertBefore f (iid front) SlotA).
    assert (Ins0 : inserted e SlotA f f1)
      by (apply (insertBefore_inserted f (iid front) SlotA e front); auto).
    assert (W1 : WF f1).
    { apply (WF_inserted e SlotA f f1 W Ins0); [apply le_n | reflexivity|].
      intros x0 []. }
    assert (NS : Slot <> iid x).
    { pose proof (fresh_iid_located f c x Hx); unfold Slot; lia. }
    assert (R1 : rinv e Slot (iid x :: X) f1).
    { constructor; [exact W1| | |].
      - apply (entry_is_bids e f); [apply (inserted_bids _ _ _ _ Ins0) | exact En].
      - exists SlotA; split; [|split; reflexivity].
        apply (inserted_In e SlotA f f1 _ Ins0); left; reflexivity.
      - apply (confined_inserted e e SlotA f f1 _ Ins0); auto.
        + apply fresh_not_mentioned, le_n.
        + intros x0 j []. }
    assert (P01 : persists e f f1).
    { apply (persists_inserted e e SlotA f f1 Ins0); auto. }
    destruct (reload_users_spec e Slot (iid x :: X) t vol (iid x)
                (users f (c, x)) f1 R1 NS (p_reg _ _ _ P01 _ RI0))
      as [f2 [E2 [R2 [P2 UL]]]].
    { intros U0 HU; apply users_spec in HU; destruct HU as [u [Hu [Eu _]]].
      exists u; split; [|exact Eu].
      apply (inserted_In e SlotA f f1 _ Ins0); right; exact Hu. }
    rewrite E2; cbn [bind].
    pose proof (r_wf _ _ _ _ R2) as W2.
    destruct (p_reg _ _ _ P2 _ (p_reg _ _ _ P01 _ RI0))
      as [[c2 x2] [H2 [E2x [P2x T2x]]]]; simpl in E2x, P2x, T2x.
    set (St := mkInst (fresh_iid f2) VoidTy
                 (Store (VInst (iid x)) (VInst Slot))).
    destruct (inBlock_insert_after f2 c2 x2 St W2 H2 T2x)
      as [f3 [E3 Ins3]].
    rewrite E2x in E3.
    exists f3; split; [exact E3|].
    assert (Only : forall d j, In (d, j) (located f2) -> iid j = iid x ->
                               (d, j) = (c2, x2)).
    { intros d j Hj Ej; apply (uniq_ids_same f2); [apply (wf_ids f2 W2)| | |];
        auto; congruence. }
    assert (NoUse : forall u, In u (located f2) ->
                      ~ In (VInst (iid x)) (operands (ikind (snd u)))).
    { intros u' Hu' M; destruct (UL u' Hu' M) as [u [Hu [_ [Mu Nu]]]].
      apply (inserted_In e SlotA f f1 _ Ins0) in Hu.
      destruct Hu as [->|Hu]; [destruct Mu|].
      apply Nu, users_spec; exists u; auto. }
    assert (W3 : WF f3).
    { apply (WF_inserted c2 St f2 f3 W2 Ins3); [apply le_n | reflexivity|].
      intros x0 [Hx0|[Hx0|[]]]; inversion Hx0; subst x0.
      - split; [rewrite <- E2x; apply (fresh_iid_located f2 c2 x2 H2)|].
        intros d j Hj Ej; pose proof (Only d j Hj Ej) as X0.
        inversion X0; subst; exact T2x.
      - apply (slot_operand e Slot f2 W2 (r_slot _ _ _ _ R2)). }
    split; [exact W3|].
    split.
    { apply (entry_is_bids e f2);
        [apply (inserted_bids _ _ _ _ Ins3) | apply (r_entry _ _ _ _ R2)]. }
    split.
    { apply (confined_drop e f3 (iid x) X).
      - apply (confined_inserted e c2 St f2 f3 _ Ins3); auto.
        + apply fresh_not_mentioned, le_n.
        + unfold St; cbn [ikind iid operands In].
          intros [H|[H|[]]]; vinst_inj H.
          * pose proof (fresh_iid_located f2 c2 x2 H2); lia.
          * destruct (slot_operand e Slot f2 W2 (r_slot _ _ _ _ R2)) as [L _].
            unfold Slot in *; lia.
        + unfold St; cbn [ikind iid operands In].
          intros x0 j [Hx0|[Hx0|[]]] Hj Ej Pj; vinst_inj Hx0;
            rewrite <- Hx0 in Ej.
          * left; destruct j as [d j0]; simpl in *.
            pose proof (Only d j0 Hj Ej) as X0; inversion X0; reflexivity.
          * right; left.
            apply (slot_entry_alloca e Slot f2 j W2 (r_slot _ _ _ _ R2) Hj).
            congruence.
        + apply (r_conf _ _ _ _ R2).
      - intros j Hj Ej [u [s [Hu [Hs Ns]]]].
        apply (inserted_In c2 St f2 f3 _ Ins3) in Hu, Hj.
        destruct Hj as [->|Hj].
        { simpl in Ej; pose proof (fresh_iid_located f2 c2 x2 H2); lia. }
        destruct j as [d j0]; simpl in *.
        pose proof (Only d j0 Hj Ej) as X0; inversion X0; subst d j0.
        destruct Hu as [->|Hu].
        + apply (sites_non_phi (c2, St) (iid x) s eq_refl) in Hs.
          destruct Hs as [-> _]; apply Ns; reflexivity.
        + apply sites_mentions in Hs; apply (NoUse u Hu Hs). }
    apply demoted_persists; [exact U | exact RI0|].
    apply (persists_trans e f f1 f3 P01), (persists_trans e f1 f2 f3 P2).
    apply (persists_inserted e c2 St f2 f3 Ins3); auto; discriminate.
Qed.

(** ** Replacing every use of a value *)

Lemma In_located_rauw f from to j' :
  In j' (located (replaceAllUsesWith f from to)) <->
  exists j, In j (located f) /\ j' = (fst j, rauw_inst from to (snd j)).
Proof.
  rewrite located_replaceAllUsesWith, in_map_iff; split;
    intros [j [H1 H2]]; eauto.
Qed.

Lemma rauw_mapF f from to :
  replaceAllUsesWith f from to = mapF (fun _ => map (rauw_inst from to)) f.
Proof. reflexivity. Qed.

Lemma WF_rauw f from V :
  WF f ->
  (forall d t, In (d, t) (located f) -> iid t = V ->
               isTerminator (ikind t) = false) ->
  WF (replaceAllUsesWith f from (VInst V)).
Proof.
  intros [NE B I T P U] HV; rewrite rauw_mapF; constructor.
  - destruct f; [congruence | discriminate].
  - unfold uniq_bids; rewrite map_bid_mapF; exact B.
  - apply uniq_ids_map; [reflexivity | exact I].
  - apply terminated_map; [|exact T].
    intros j; apply isTerminator_replace.
  - apply phi_ok_map; [|exact P].
    intros c j B0 _ H; simpl in H; rewrite incoming_blocks_replace in H.
    exact H.
  - apply unused_map; [reflexivity | | | exact U].
    + intros j; apply isTerminator_replace.
    + intros c j x _ H; simpl in H; apply In_operands_replace in H.
      destruct H as [[H _]|[H _]]; [left; exact H|].
      right; inversion H; subst; exact HV.
Qed.

Lemma persists_rauw e f from to : persists e f (replaceAllUsesWith f from to).
Proof.
  constructor.
  - rewrite rauw_mapF; apply map_bid_mapF.
  - intros x; split.
    + intros [j' [H [E Pj]]]; apply In_located_rauw in H.
      destruct H as [j [H ->]]; simpl in *.
      rewrite isa_PHINode_replace in Pj; exists j; auto.
    + intros [j [H [E Pj]]].
      exists (fst j, rauw_inst from to (snd j)); simpl.
      rewrite isa_PHINode_replace; split; [|auto].
      apply In_located_rauw; eauto.
  - intros x [j [H [E [Pj Tj]]]].
    exists (fst j, rauw_inst from to (snd j)); simpl.
    rewrite isa_PHINode_replace, isTerminator_replace.
    split; [apply In_located_rauw; eauto | auto].
  - intros x [j [H E]].
    exists (fst j, rauw_inst from to (snd j)); simpl.
    split; [apply In_located_rauw; eauto | auto].
  - intros c j' H Tj; apply In_located_rauw in H.
    destruct H as [[d j] [H E]]; simpl in E; inversion E; subst.
    exists j; split; [exact H|].
    simpl in *; destruct (ikind j); try discriminate; reflexivity.
  - intros j' H Aj; apply In_located_rauw in H.
    destruct H as [[d j] [H ->]]; simpl in *; left.
    destruct j as [i t k]; unfold rauw_inst; simpl in *.
    destruct k; try discriminate; exact H.
Qed.

Lemma sites_rauw c u P V x s :
  x <> V ->
  In s (sites (c, rauw_inst (VInst P) (VInst V) u) x) ->
  In s (sites (c, u) x).
Proof.
  intros N H.
  destruct (isa_PHINode (ikind u)) eqn:Pu.
  - destruct (ikind u) as [| | | |inc| | | | | | | |] eqn:K; try discriminate.
    apply (sites_phi (c, u) inc x s K).
    apply (sites_phi _ (map (fun vb : value * block_id =>
              (replace_value (VInst P) (VInst V) (fst vb), snd vb)) inc)) in H;
      [|simpl; rewrite K; reflexivity].
    apply in_map_iff in H; destruct H as [[w B] [E H]]; simpl in E.
    assert (E1 : replace_value (VInst P) (VInst V) w = VInst x) by congruence.
    assert (E2 : B = s) by congruence.
    clear E; unfold replace_value in E1.
    destruct (value_eqb w (VInst P)); [congruence|].
    subst w B; exact H.
  - apply (sites_non_phi (c, u) x s Pu).
    apply sites_non_phi in H;
      [|simpl; rewrite isa_PHINode_replace; exact Pu].
    destruct H as [H1 H2]; split; [exact H1|].
    simpl in H2; apply In_operands_replace in H2.
    destruct H2 as [[H2 _]|[H2 _]]; [exact H2 | inversion H2; congruence].
Qed.

Lemma confined_rauw_erase e f P V X :
  confined e f X ->
  confined e (eraseFromParent (replaceAllUsesWith f (VInst P) (VInst V)) P)
    (V :: X).
Proof.
  intros C j' Hj' Pj' [u' [s [Hu' [Hs Ns]]]].
  apply In_located_erase in Hj', Hu'.
  destruct Hj' as [Hj' _], Hu' as [Hu' _].
  apply In_located_rauw in Hj', Hu'.
  destruct Hj' as [[b j] [Hj ->]], Hu' as [[d u] [Hu ->]]; simpl in *.
  rewrite isa_PHINode_replace in Pj'.
  destruct (Nat.eq_dec (iid j) V) as [E|E]; [right; left; auto|].
  apply sites_rauw in Hs; [|exact E].
  destruct (C (b, j) Hj Pj') as [[A1 A2]|H].
  - exists (d, u), s; auto.
  - left; split; simpl in *; [rewrite isa_AllocaInst_replace|]; auto.
  - right; right; exact H.
Qed.

(** ** The stores of a demoted PHI node *)

Lemma store_incoming_spec e Slot X c phi :
  forall inc f,
    rinv e Slot X f ->
    In (c, phi) (located f) -> incl inc (incomingOf (ikind phi)) ->
    exists f',
      store_incoming f Slot inc = Ok f' /\
      rinv e Slot X f' /\ persists e f f' /\ In (c, phi) (located f').
Proof.
  induction inc as [|[v B] inc IH]; intros f R Hphi Hinc.
  - exists f; split; [reflexivity|].
    split; [exact R|]; split; [apply persists_refl | exact Hphi].
  - pose proof (r_wf _ _ _ _ R) as W.
    assert (HvB : In (v, B) (incomingOf (ikind phi)))
      by (apply Hinc; left; reflexivity).
    assert (HB : In B (map bid f))
      by (apply (wf_phi f W c phi v B Hphi HvB)).
    destruct (terminatorOf_ok f B W HB) as [term [Et Ht]].
    cbn [store_incoming]; rewrite Et; cbn [bind].
    set (St := mkInst (fresh_iid f) VoidTy (Store v (VInst Slot))).
    set (f1 := insertBefore f (iid term) St).
    assert (Ins : inserted B St f f1)
      by (apply (insertBefore_inserted f (iid term) St B term);
          [apply (wf_ids f W) | exact Ht | reflexivity]).
    assert (K : ikind phi = PHI (incomingOf (ikind phi))).
    { destruct (ikind phi); try (destruct HvB); reflexivity. }
    assert (Mv : forall x, v = VInst x ->
               In (VInst x) (operands (ikind phi))).
    { intros x ->; rewrite K; simpl.
      apply in_map_iff; exists (VInst x, B); auto. }
    assert (W1 : WF f1).
    { apply (WF_inserted B St f f1 W Ins); [apply le_n | reflexivity|].
      unfold St; cbn [ikind operands In].
      intros x [Hx|[Hx|[]]].
      - split; [apply (fresh_iid_operand f c phi x Hphi (Mv x Hx))|].
        apply (operand_not_terminator f c phi x (wf_unused f W) Hphi
                 (Mv x Hx)).
      - inversion Hx; subst x.
        apply (slot_operand e Slot f W (r_slot _ _ _ _ R)). }
    assert (R1 : rinv e Slot X f1).
    { constructor; [exact W1| | |].
      - apply (entry_is_bids e f);
          [apply (inserted_bids _ _ _ _ Ins) | apply (r_entry _ _ _ _ R)].
      - apply (slot_ok_inserted e Slot B St f f1 Ins (r_slot _ _ _ _ R)).
      - apply (confined_inserted e B St f f1 X Ins);
          [reflexivity | apply fresh_not_mentioned, le_n | |
           | apply (r_conf _ _ _ _ R)].
        + unfold St; cbn [ikind iid operands In].
          intros [Hx|[Hx|[]]].
          * pose proof (fresh_iid_operand f c phi _ Hphi (Mv _ Hx)); lia.
          * vinst_inj Hx.
            destruct (slot_operand e Slot f W (r_slot _ _ _ _ R)) as [L _].
            lia.
        + unfold St; cbn [ikind iid operands In].
          intros x j [Hx|[Hx|[]]] Hj Ej Pj.
          * destruct (Nat.eq_dec (fst j) B) as [EB|NB]; [left; exact EB|].
            right; rewrite <- Ej; apply (r_conf _ _ _ _ R j Hj Pj).
            exists (c, phi), B; split; [exact Hphi|]; split; [|auto].
            apply (sites_phi (c, phi) _ _ B K).
            rewrite Ej, <- Hx; exact HvB.
          * right; left.
            vinst_inj Hx.
            apply (slot_entry_alloca e Slot f j W (r_slot _ _ _ _ R) Hj).
            congruence. }
    assert (P1 : persists e f f1)
      by (apply (persists_inserted e B St f f1 Ins);
            [reflexivity | reflexivity | discriminate]).
    assert (Hphi1 : In (c, phi) (located f1))
      by (apply (inserted_In B St f f1 _ Ins); right; exact Hphi).
    destruct (IH f1 R1 Hphi1) as [f' [E' [R' [P' H']]]].
    { intros y Hy; apply Hinc; right; exact Hy. }
    exists f'; split; [exact E'|]; split; [exact R'|].
    split; [apply (persists_trans e f f1 f' P1 P') | exact H'].
Qed.

(** ** The demotion of a PHI node *)

(** The load that takes the place of the PHI node is new: its
    identifier is above those of [f]. *)
Lemma DemotePHIToStack_full e X P f ap :
  WF f -> entry_is e f -> phi_id f P -> confined e f X ->
  (forall a, ap = Some a -> In (e, a) (located f)) ->
  exists f' R,
    DemotePHIToStack f P ap = Ok f' /\
    WF f' /\ entry_is e f' /\ confined e f' (R ++ X) /\ length R <= 1 /\
    demoted e P f f' /\
    (forall r y, In r R -> has_id f y -> y < r).
Proof.
  intros W En PI C Hap.
  destruct PI as [[c x] [Hx [Ex Px]]]; simpl in Ex, Px; subst P.
  pose proof (wf_ids f W) as U.
  assert (Tx : isTerminator (ikind x) = false)
    by (destruct (ikind x); try discriminate; reflexivity).
  unfold DemotePHIToStack.
  rewrite (getLInst_uniq f c x U Hx); cbn [bind ofOption].
  destruct (use_empty f (c, x)) eqn:UE.
  - exists (eraseFromParent f (iid x)), []; split; [reflexivity|].
    split; [|split; [|split; [|split]]].
    + apply WF_erase; [exact W|].
      intros d j Hj Ej.
      assert (X0 : (d, j) = (c, x)) by (apply (uniq_ids_same f); auto).
      inversion X0; subst; exact Tx.
    + apply (entry_is_bids e f); [apply map_bid_erase | exact En].
    + apply confined_erase; exact C.
    + simpl; lia.
    + split; [apply demoted_erase, persists_refl | intros r y []].
  - cbn [snd].
    set (t := ity x).
    set (Slot := fresh_iid f).
    set (SlotA := mkInst Slot (PointerTy t) (Alloca t)).
    assert (Hpt : exists point,
               match ap with
               | Some a => Ok a
               | None => entry <- ofOption (hd_error f) ;;
                         ofOption (hd_error (insts entry))
               end = Ok point /\ In (e, point) (located f)).
    { destruct ap as [a|]; [exists a; split; auto|].
      destruct (entry_front e f W En)
        as (bb & tl & front & l0 & Ef & Eb & EI & Hfront).
      exists front; rewrite Ef; cbn [hd_error bind ofOption]; rewrite EI.
      rewrite <- Ef; split; [reflexivity | exact Hfront]. }
    destruct Hpt as [point [Ept Hpoint]]; rewrite Ept; cbn [bind].
    set (f1 := insertBefore f (iid point) SlotA).
    assert (Ins0 : inserted e SlotA f f1)
      by (apply (insertBefore_inserted f (iid point) SlotA e point); auto).
    assert (W1 : WF f1).
    { apply (WF_inserted e SlotA f f1 W Ins0); [apply le_n | reflexivity|].
      intros x0 []. }
    assert (R1 : rinv e Slot X f1).
    { constructor; [exact W1| | |].
      - apply (entry_is_bids e f); [apply (inserted_bids _ _ _ _ Ins0) | exact En].
      - exists SlotA; split; [|split; reflexivity].
        apply (inserted_In e SlotA f f1 _ Ins0); left; reflexivity.
      - apply (confined_inserted e e SlotA f f1 _ Ins0); auto.
        + apply fresh_not_mentioned, le_n.
        + intros x0 j []. }
    assert (P01 : persists e f f1).
    { apply (persists_inserted e e SlotA f f1 Ins0); auto. }
    assert (Hx1 : In (c, x) (located f1))
      by (apply (inserted_In e SlotA f f1 _ Ins0); right; exact Hx).
    destruct (store_incoming_spec e Slot X c x (incomingOf (ikind x)) f1 R1
                Hx1 (incl_refl _)) as [f2 [E2 [R2 [P12 Hx2]]]].
    rewrite E2; cbn [bind].
    pose proof (r_wf _ _ _ _ R2) as W2.
    set (V := fresh_iid f2).
    set (Ld := mkInst V t (Load (VInst Slot) false)).
    destruct (inBlock_insert_from f2 c x Ld W2 Hx2) as [f3 [E3 Ins3]].
    rewrite E3; cbn [bind].
    exists (eraseFromParent (replaceAllUsesWith f3 (VInst (iid x)) (VInst V))
              (iid x)), [V].
    split; [reflexivity|].
    assert (W3 : WF f3).
    { apply (WF_inserted c Ld f2 f3 W2 Ins3); [apply le_n | reflexivity|].
      unfold Ld; cbn [ikind operands In].
      intros x0 [Hx0|[]]; inversion Hx0; subst x0.
      apply (slot_operand e Slot f2 W2 (r_slot _ _ _ _ R2)). }
    assert (C3 : confined e f3 X).
    { apply (confined_inserted e c Ld f2 f3 X Ins3);
        [reflexivity | apply fresh_not_mentioned, le_n | |
         | apply (r_conf _ _ _ _ R2)].
      - unfold Ld; cbn [ikind iid operands In].
        intros [Hx0|[]].
        vinst_inj Hx0.
        destruct (slot_operand e Slot f2 W2 (r_slot _ _ _ _ R2)) as [L _].
        unfold V in *; lia.
      - unfold Ld; cbn [ikind iid operands In].
        intros x0 j [Hx0|[]] Hj Ej Pj.
        right; left.
        vinst_inj Hx0.
        apply (slot_entry_alloca e Slot f2 j W2 (r_slot _ _ _ _ R2) Hj).
        congruence. }
    assert (P23 : persists e f2 f3)
      by (apply (persists_inserted e c Ld f2 f3 Ins3);
            [reflexivity | reflexivity | discriminate]).
    split; [|split; [|split; [|split]]].
    + apply WF_erase.
      * apply WF_rauw; [exact W3|].
        intros d j Hj Ej.
        apply (inserted_In c Ld f2 f3 _ Ins3) in Hj.
        destruct Hj as [Hj|Hj]; [inversion Hj; reflexivity|].
        pose proof (fresh_iid_located f2 d j Hj); unfold V in *; lia.
      * intros d j Hj Ej; apply In_located_rauw in Hj.
        destruct Hj as [[d0 j0] [Hj E]]; simpl in E; inversion E; subst.
        simpl in *; rewrite isTerminator_replace.
        assert (X0 : (d0, j0) = (c, x)).
        { apply (uniq_ids_same f3); [apply (wf_ids f3 W3) | exact Hj | |
                                     exact Ej].
          apply (inserted_In c Ld f2 f3 _ Ins3); right; exact Hx2. }
        inversion X0; subst; exact Tx.
    + apply (entry_is_bids e f3).
      * rewrite map_bid_erase, rauw_mapF; apply map_bid_mapF.
      * apply (entry_is_bids e f2);
          [apply (inserted_bids _ _ _ _ Ins3) | apply (r_entry _ _ _ _ R2)].
    + apply confined_rauw_erase; exact C3.
    + simpl; lia.
    + split.
      * apply demoted_erase.
        apply (persists_trans e f f1 _ P01), (persists_trans e f1 f2 _ P12),
          (persists_trans e f2 f3 _ P23), persists_rauw.
      * intros r y [<-|[]] Hy.
        destruct (p_ids _ _ _ P12 y (p_ids _ _ _ P01 y Hy)) as [[d j] [Hj Ej]].
        simpl in Ej; subst y; apply (fresh_iid_located f2 d j Hj).
Qed.

Lemma DemotePHIToStack_spec e X P f ap :
  WF f -> entry_is e f -> phi_id f P -> confined e f X ->
  (forall a, ap = Some a -> In (e, a) (located f)) ->
  exists f' R,
    DemotePHIToStack f P ap = Ok f' /\
    WF f' /\ entry_is e f' /\ confined e f' (R ++ X) /\ length R <= 1 /\
    demoted e P f f'.
Proof.
  intros W En PI C Hap.
  destruct (DemotePHIToStack_full e X P f ap W En PI C Hap)
    as (f' & R & E & W' & En' & C' & L & D & _).
  exists f', R; tauto.
Qed.

(** ** The two passes of one turn of the loop *)

Lemma skeleton_terminator k k' :
  skeleton k' = skeleton k -> isTerminator k' = true -> isTerminator k = true.
Proof. destruct k, k'; try discriminate; reflexivity. Qed.

Lemma demoted_all_nil e f : demoted_all e [] f f.
Proof.
  constructor; auto.
  - intros x; simpl; tauto.
  - intros c j' H _; exists j'; auto.
Qed.

Lemma demoted_all_app e Is Js f f1 f' :
  demoted_all e Is f f1 -> demoted_all e Js f1 f' ->
  demoted_all e (Is ++ Js) f f'.
Proof.
  intros [B1 P1 R1 T1 A1] [B2 P2 R2 T2 A2]; constructor.
  - congruence.
  - intros x; rewrite P2, P1, in_app_iff; tauto.
  - intros x H N; apply R2; [apply R1; [exact H|]|];
      intros H'; apply N, in_app_iff; auto.
  - intros c j3 H3 Tj.
    destruct (T2 c j3 H3 Tj) as [j2 [H2 E2]].
    destruct (T1 c j2 H2 (skeleton_terminator _ _ E2 Tj)) as [j1 [H1 E1]].
    exists j1; split; [exact H1 | congruence].
  - intros j H Aj; destruct (A2 j H Aj) as [H2|H2]; [|right; exact H2].
    apply (A1 j H2 Aj).
Qed.

Lemma demoted_one e I f f' : demoted e I f f' -> demoted_all e [I] f f'.
Proof.
  intros [B P R T A]; constructor; auto.
  - intros x; rewrite P; simpl; intuition congruence.
  - intros x H N; apply R; [exact H|].
    intros H'; apply N; left; congruence.
Qed.

Lemma demoted_all_cons e I Is f f1 f' :
  demoted e I f f1 -> demoted_all e Is f1 f' ->
  demoted_all e (I :: Is) f f'.
Proof.
  intros D1 D2; apply (demoted_all_app e [I] Is f f1 f');
    [apply demoted_one; exact D1 | exact D2].
Qed.

Lemma entryTerminator_ok e f :
  WF f -> entry_is e f ->
  exists t, entryTerminator f = Ok (Some t) /\ In (e, t) (located f).
Proof.
  intros W En; destruct f as [|bb tl]; [discriminate|].
  inversion En as [Eb].
  destruct (wf_term _ W bb (or_introl eq_refl)) as [t Ht].
  exists t; unfold entryTerminator; cbn [hd_error ofOption bind].
  rewrite Ht; split; [reflexivity|].
  apply getTerminator_Some in Ht; destruct Ht as [body [Ei _]].
  rewrite located_cons, Ei; apply in_app_iff; left.
  apply in_map, in_app_iff; right; left; reflexivity.
Qed.

Lemma demote_regs_spec e X :
  forall regs f,
    WF f -> entry_is e f -> NoDup regs ->
    (forall x, In x regs -> reg_id f x) ->
    confined e f (regs ++ X) ->
    exists f',
      demote_regs f regs = Ok f' /\
      WF f' /\ entry_is e f' /\ confined e f' X /\ demoted_all e regs f f'.
Proof.
  induction regs as [|I regs IH]; intros f W En ND HR C.
  - exists f; split; [reflexivity|].
    split; [exact W|]; split; [exact En|]; split; [exact C|].
    apply demoted_all_nil.
  - cbn [demote_regs].
    destruct (entryTerminator_ok e f W En) as [t [Et _]].
    rewrite Et; cbn [bind].
    destruct (DemoteRegToStack_spec e (regs ++ X) (isSome (Some t)) I f W En
                (HR I (or_introl eq_refl)) C)
      as [f1 [E1 [W1 [En1 [C1 D1]]]]].
    rewrite E1; cbn [bind].
    inversion ND as [|? ? NI ND']; subst.
    destruct (IH f1 W1 En1 ND') as [f' [E' [W' [En' [C' D']]]]];
      [|exact C1|].
    { intros x Hx; apply (d_reg _ _ _ _ D1); [apply HR; right; exact Hx|].
      intros ->; contradiction. }
    exists f'; split; [exact E'|].
    split; [exact W'|]; split; [exact En'|]; split; [exact C'|].
    apply (demoted_all_cons e I regs f f1 f' D1 D').
Qed.

(** The values that the demotion of the PHI nodes leaves used outside
    their block are loads it created: none of them is a value of [f]
    that is no PHI node. *)
Lemma demote_phis_full e :
  forall phis f X,
    WF f -> entry_is e f -> NoDup phis ->
    (forall x, In x phis -> phi_id f x) ->
    confined e f X ->
    exists f' R,
      demote_phis f phis = Ok f' /\
      WF f' /\ entry_is e f' /\ confined e f' (R ++ X) /\
      length R <= length phis /\ demoted_all e phis f f' /\
      (forall r y, In r R -> reg_id f y -> y < r).
Proof.
  induction phis as [|P phis IH]; intros f X W En ND HP C.
  - exists f, []; split; [reflexivity|].
    split; [exact W|]; split; [exact En|]; split; [exact C|].
    split; [apply le_n|]; split; [apply demoted_all_nil | intros r y []].
  - cbn [demote_phis].
    destruct (entryTerminator_ok e f W En) as [t [Et Ht]].
    rewrite Et; cbn [bind].
    destruct (DemotePHIToStack_full e X P f (Some t) W En
                (HP P (or_introl eq_refl)) C)
      as [f1 [R1 [E1 [W1 [En1 [C1 [L1 [D1 F1]]]]]]]].
    { intros a Ea; inversion Ea; subst; exact Ht. }
    rewrite E1; cbn [bind].
    inversion ND as [|? ? NI ND']; subst.
    destruct (IH f1 (R1 ++ X) W1 En1 ND')
      as [f' [R' [E' [W' [En' [C' [L' [D' F']]]]]]]]; [|exact C1|].
    { intros x Hx; apply (d_phi _ _ _ _ D1); split;
        [apply HP; right; exact Hx|].
      intros ->; contradiction. }
    exists f', (R' ++ R1); split; [exact E'|].
    split; [exact W'|]; split; [exact En'|].
    split; [rewrite <- app_assoc; exact C'|].
    split; [rewrite length_app; simpl; lia|].
    split; [apply (demoted_all_cons e P phis f f1 f' D1 D')|].
    intros r y Hr Ry; apply in_app_iff in Hr; destruct Hr as [Hr|Hr].
    + apply (F' r y Hr), (d_reg _ _ _ _ D1 y Ry).
      intros ->.
      apply (phi_reg_excl f P (wf_ids f W) (HP P (or_introl eq_refl)) Ry).
    + apply (F1 r y Hr).
      destruct Ry as [j [Hj [Ej _]]]; exists j; auto.
Qed.

Lemma demote_phis_spec e :
  forall phis f X,
    WF f -> entry_is e f -> NoDup phis ->
    (forall x, In x phis -> phi_id f x) ->
    confined e f X ->
    exists f' R,
      demote_phis f phis = Ok f' /\
      WF f' /\ entry_is e f' /\ confined e f' (R ++ X) /\
      length R <= length phis /\ demoted_all e phis f f'.
Proof.
  intros phis f X W En ND HP C.
  destruct (demote_phis_full e phis f X W En ND HP C)
    as (f' & R & E & W' & En' & C' & L & D & _).
  exists f', R; tauto.
Qed.

(** ** One turn of the loop *)

Lemma kept_refl e f : kept e f f.
Proof.
  constructor; auto.
  intros c j' H _; exists j'; auto.
Qed.

Lemma kept_trans e f1 f2 f3 : kept e f1 f2 -> kept e f2 f3 -> kept e f1 f3.
Proof.
  intros [B1 T1 A1] [B2 T2 A2]; constructor.
  - congruence.
  - intros c j3 H3 Tj.
    destruct (T2 c j3 H3 Tj) as [j2 [H2 E2]].
    destruct (T1 c j2 H2 (skeleton_terminator _ _ E2 Tj)) as [j1 [H1 E1]].
    exists j1; split; [exact H1 | congruence].
  - intros j H Aj; destruct (A2 j H Aj) as [H2|H2]; [|right; exact H2].
    apply (A1 j H2 Aj).
Qed.

Lemma kept_demoted e Is f f' : demoted_all e Is f f' -> kept e f f'.
Proof. intros [B P R T A]; constructor; auto. Qed.

Lemma scan_regs_reg_id f e x :
  WF f -> In x (snd (scan f e)) -> reg_id f x.
Proof.
  intros W H; apply scan_reg in H.
  destruct H as [j [Hj [Ej [Pj [_ [u [s [Hu [Hs _]]]]]]]]].
  exists j; split; [exact Hj|]; split; [exact Ej|]; split; [exact Pj|].
  apply sites_mentions in Hs.
  destruct (isTerminator (ikind (snd j))) eqn:T; [exfalso|reflexivity].
  destruct j as [c t], u as [d u0]; simpl in *.
  apply (wf_unused f W c t d u0 Hj Hu T Hs).
Qed.

Lemma no_phi_spec f : no_phi f <-> forall x, ~ phi_id f x.
Proof.
  split.
  - intros N x [j [Hj [_ Pj]]]; rewrite (N j Hj) in Pj; discriminate.
  - intros N j Hj; destruct (isa_PHINode (ikind (snd j))) eqn:P;
      [|reflexivity].
    exfalso; apply (N (iid (snd j))); exists j; auto.
Qed.

Lemma fixStack_body_spec e f :
  WF f -> entry_is e f ->
  exists f' R,
    fixStack_body e f = Ok f' /\
    WF f' /\ entry_is e f' /\ no_phi f' /\ confined e f' R /\
    length R <= length (fst (scan f e)) /\ kept e f f'.
Proof.
  intros W En; unfold fixStack_body.
  destruct (scan_NoDup f e (wf_ids f W)) as [NDp NDr].
  destruct (demote_regs_spec e [] (snd (scan f e)) f W En NDr)
    as [f1 [E1 [W1 [En1 [C1 D1]]]]].
  { intros x Hx; apply (scan_regs_reg_id f e x W Hx). }
  { rewrite app_nil_r; apply scan_confined. }
  rewrite E1; cbn [bind].
  destruct (demote_phis_spec e (fst (scan f e)) f1 [] W1 En1 NDp)
    as [f2 [R [E2 [W2 [En2 [C2 [L2 D2]]]]]]]; [|exact C1|].
  { intros x Hx; apply (da_phi _ _ _ _ D1); split.
    - apply scan_phi in Hx; exact Hx.
    - intros Hr; apply (phi_reg_excl f x (wf_ids f W)).
      + apply scan_phi in Hx; exact Hx.
      + apply (scan_regs_reg_id f e x W Hr). }
  exists f2, R; split; [exact E2|].
  split; [exact W2|]; split; [exact En2|].
  split; [|split; [rewrite app_nil_r in C2; exact C2|split; [exact L2|]]].
  - apply no_phi_spec; intros x Hx.
    apply (da_phi _ _ _ _ D2) in Hx; destruct Hx as [Hx Nx].
    apply (da_phi _ _ _ _ D1) in Hx; destruct Hx as [Hx _].
    apply Nx, scan_phi; exact Hx.
  - apply (kept_trans e f f1 f2);
      [apply (kept_demoted e _ f f1 D1) | apply (kept_demoted e _ f1 f2 D2)].
Qed.

(** ** The loop *)

Lemma fixStack_loop_step fuel e f f2 :
  fixStack_body e f = Ok f2 ->
  fixStack_loop (S fuel) e f =
  if negb (length (snd (scan f e)) =? 0)
     || negb (length (fst (scan f e)) =? 0)
  then fixStack_loop fuel e f2 else Ok f2.
Proof.
  unfold fixStack_body; cbn [fixStack_loop].
  destruct (scan f e) as [tmpPhi tmpReg]; cbn [fst snd].
  destruct (demote_regs f tmpReg) as [f1| |]; cbn [bind]; try discriminate.
  intros ->; reflexivity.
Qed.

Lemma scan_empty_body e f :
  scan f e = ([], []) -> fixStack_body e f = Ok f.
Proof. unfold fixStack_body; intros ->; reflexivity. Qed.

Lemma collected_zero f e : collected f e = 0 <-> scan f e = ([], []).
Proof.
  unfold collected; destruct (scan f e) as [[|p ps] [|r rs]]; simpl;
    split; intros H; try reflexivity; try discriminate; lia.
Qed.

Lemma scan_size f e R :
  uniq_ids f -> no_phi f -> confined e f R -> collected f e <= length R.
Proof.
  intros U NP C; unfold collected.
  assert (E : fst (scan f e) = []).
  { destruct (fst (scan f e)) as [|x l] eqn:E; [reflexivity|].
    assert (X : In x (fst (scan f e))) by (rewrite E; left; reflexivity).
    apply scan_phi in X; destruct X as [j [Hj [_ P]]].
    rewrite (NP j Hj) in P; discriminate. }
  rewrite E; simpl.
  apply NoDup_incl_length; [apply (scan_NoDup f e U)|].
  intros x Hx; apply scan_reg in Hx.
  destruct Hx as [j [Hj [Ej [Pj [NA UO]]]]].
  destruct (C j Hj Pj UO) as [A|H]; [contradiction | congruence].
Qed.

(** ** The loop of [fixStack] *)

Section Loop.

(** The entry block, [bbEntry] of [fixStack]. *)
Variable e : block_id.

Lemma fst_scan_no_phi f : no_phi f -> fst (scan f e) = [].
Proof.
  intros NP; destruct (fst (scan f e)) as [|x l] eqn:E; [reflexivity|].
  assert (X : In x (fst (scan f e))) by (rewrite E; left; reflexivity).
  apply scan_phi in X; destruct X as [j [Hj [_ P]]].
  rewrite (NP j Hj) in P; discriminate.
Qed.

Lemma scan_test f :
  negb (length (snd (scan f e)) =? 0) || negb (length (fst (scan f e)) =? 0)
  = false <-> scan f e = ([], []).
Proof.
  destruct (scan f e) as [[|p ps] [|r rs]]; simpl; split; intros H;
    try reflexivity; discriminate.
Qed.

Lemma fixStack_loop_body fuel f r :
  fixStack_loop (S fuel) e f = Ok r -> exists f2, fixStack_body e f = Ok f2.
Proof.
  unfold fixStack_body; cbn [fixStack_loop].
  destruct (scan f e) as [tp tr]; cbn [fst snd].
  destruct (demote_regs f tr) as [f1| |]; cbn [bind]; try discriminate.
  destruct (demote_phis f1 tp) as [f2| |]; cbn [bind]; try discriminate.
  intros _; exists f2; reflexivity.
Qed.

Lemma fixStack_loop_exit fuel :
  forall f f', fixStack_loop fuel e f = Ok f' -> scan f' e = ([], []).
Proof.
  induction fuel as [|fuel IH]; intros f f' H; [discriminate|].
  destruct (fixStack_body e f) as [f2| |] eqn:B.
  - rewrite (fixStack_loop_step fuel e f f2 B) in H.
    destruct (negb (length (snd (scan f e)) =? 0)
              || negb (length (fst (scan f e)) =? 0)) eqn:T.
    + apply (IH f2 f' H).
    + apply scan_test in T; rewrite (scan_empty_body e f T) in B.
      congruence.
  - destruct (fixStack_loop_body _ _ _ H) as [f2 B']; congruence.
  - destruct (fixStack_loop_body _ _ _ H) as [f2 B']; congruence.
Qed.

Lemma fixStack_loop_more :
  forall n m f r, fixStack_loop n e f = Ok r -> n <= m ->
                  fixStack_loop m e f = Ok r.
Proof.
  induction n as [|n IH]; intros m f r H L; [discriminate|].
  destruct m as [|m]; [lia|].
  destruct (fixStack_body e f) as [f2| |] eqn:B.
  - rewrite (fixStack_loop_step n e f f2 B) in H.
    rewrite (fixStack_loop_step m e f f2 B).
    destruct (negb (length (snd (scan f e)) =? 0)
              || negb (length (fst (scan f e)) =? 0)); [|exact H].
    apply (IH m f2 r H); lia.
  - destruct (fixStack_loop_body _ _ _ H) as [f2 B']; congruence.
  - destruct (fixStack_loop_body _ _ _ H) as [f2 B']; congruence.
Qed.

Lemma fixStack_loop_det n m f r r' :
  fixStack_loop n e f = Ok r -> fixStack_loop m e f = Ok r' -> r = r'.
Proof.
  intros H1 H2.
  pose proof (fixStack_loop_more n (n + m) f r H1 (Nat.le_add_r n m)) as X1.
  assert (L : m <= n + m) by lia.
  pose proof (fixStack_loop_more m (n + m) f r' H2 L) as X2.
  congruence.
Qed.

(** The second turn leaves nothing to collect. *)
Lemma second_turn f :
  WF f -> entry_is e f -> no_phi f ->
  exists f',
    fixStack_body e f = Ok f' /\
    WF f' /\ entry_is e f' /\ scan f' e = ([], []) /\ kept e f f'.
Proof.
  intros W En NP.
  destruct (fixStack_body_spec e f W En)
    as [f' [R [E [W' [En' [NP' [C' [L' K']]]]]]]].
  exists f'; split; [exact E|]; split; [exact W'|]; split; [exact En'|].
  split; [|exact K'].
  rewrite (fst_scan_no_phi f NP) in L'; simpl in L'.
  destruct R; [|simpl in L'; lia].
  apply scan_empty_confined; assumption.
Qed.

(** The loop is over after three turns at most. *)
Lemma fixStack_loop_spec f :
  WF f -> entry_is e f ->
  exists f',
    fixStack_loop 3 e f = Ok f' /\
    WF f' /\ entry_is e f' /\ scan f' e = ([], []) /\ kept e f f'.
Proof.
  intros W En.
  destruct (fixStack_body_spec e f W En)
    as [f1 [R1 [E1 [W1 [En1 [NP1 [C1 [L1 K1]]]]]]]].
  rewrite (fixStack_loop_step 2 e f f1 E1).
  destruct (negb (length (snd (scan f e)) =? 0)
            || negb (length (fst (scan f e)) =? 0)) eqn:T.
  - destruct (second_turn f1 W1 En1 NP1) as [f2 [E2 [W2 [En2 [S2 K2]]]]].
    rewrite (fixStack_loop_step 1 e f1 f2 E2).
    assert (K : kept e f f2) by (apply (kept_trans e f f1 f2 K1 K2)).
    destruct (negb (length (snd (scan f1 e)) =? 0)
              || negb (length (fst (scan f1 e)) =? 0)).
    + rewrite (fixStack_loop_step 0 e f2 f2 (scan_empty_body e f2 S2)).
      apply scan_test in S2; rewrite S2.
      exists f2; apply scan_test in S2; auto.
    + exists f2; auto.
  - apply scan_test in T.
    pose proof (scan_empty_body e f T) as E0.
    assert (f1 = f) by congruence; subst f1.
    exists f; auto.
Qed.

(** The count of collected values does not grow from one turn to the
    next. *)
Lemma collected_turn f f1 :
  WF f -> entry_is e f -> fixStack_body e f = Ok f1 ->
  collected f1 e <= collected f e.
Proof.
  intros W En E.
  destruct (fixStack_body_spec e f W En)
    as [f' [R [E' [W' [En' [NP' [C' [L' K']]]]]]]].
  assert (f' = f1) by congruence; subst f'.
  pose proof (scan_size f1 e R (wf_ids f1 W') NP' C').
  unfold collected in *; lia.
Qed.

End Loop.

(** [fixStack] on a function that meets the conditions of the IR. *)
Lemma fixStack_spec f :
  WF f ->
  exists e f',
    entry_is e f /\ fixStack 3 f = Ok f' /\
    WF f' /\ entry_is e f' /\ scan f' e = ([], []) /\ kept e f f'.
Proof.
  intros W.
  assert (X : exists bb, hd_error f = Some bb).
  { destruct f as [|bb tl]; [destruct (wf_ne _ W); reflexivity|].
    exists bb; reflexivity. }
  destruct X as [bb Ebb].
  assert (En : entry_is (bid bb) f).
  { unfold entry_is; destruct f; inversion Ebb; reflexivity. }
  destruct (fixStack_loop_spec (bid bb) f W En) as [f' [E H]].
  exists (bid bb), f'; split; [exact En|]; split; [|exact H].
  unfold fixStack; rewrite Ebb; exact E.
Qed.

(** ** Blocks with one terminator, the last instruction *)

Lemma tidyb_tidy f : tidyb f = true -> tidy f.
Proof.
  unfold tidyb; rewrite forallb_forall; intros H bb body t Hbb E j Hj.
  specialize (H bb Hbb); rewrite E, removelast_last in H.
  rewrite forallb_forall in H; apply negb_true_iff, (H j Hj).
Qed.

Lemma loweredb_lowered f : loweredb f = true -> lowered f.
Proof.
  unfold loweredb; rewrite forallb_forall; intros H c j Hj.
  apply H, In_all_insts; eauto.
Qed.

Lemma lowered_rewritable f : lowered f -> rewritable f.
Proof.
  intros L c j Hj N; specialize (L c j Hj).
  destruct (ikind j); try discriminate; eauto.
Qed.

Lemma tidy_simF new f f' : simF new f f' -> tidy f -> tidy f'.
Proof.
  unfold simF; intros S; induction S as [|bb bb' f f' [E S1] S IH];
    intros T; [intros bb body t []|].
  intros x body t [<-|Hx] Ex j Hj.
  - rewrite Ex in S1; apply Forall2_app_inv_r in S1.
    destruct S1 as [l1 [l2 [S1 [S2 E1]]]].
    inversion S2 as [|a b l l' Sab Sl]; subst.
    inversion Sl; subst.
    destruct (Forall2_In_r _ _ _ j S1 Hj) as [j0 [Hj0 Sj]].
    destruct (sim_facts new j0 j Sj) as [_ [_ [Et _]]]; rewrite Et.
    apply (T bb l1 a (or_introl eq_refl) E1 j0 Hj0).
  - apply (IH (fun bb0 body0 t0 H0 => T bb0 body0 t0 (or_intror H0))
              x body t Hx Ex j Hj).
Qed.

Lemma lowered_sim new j j' :
  sim new j j' -> lowered_kind (ikind j) = true ->
  lowered_kind (ikind j') = true.
Proof.
  intros [->|[inc [inc' [K [-> _]]]]]; [auto | reflexivity].
Qed.

Lemma entry_preparation_tidy e rest f1 saved ins :
  WF (e :: rest) -> successors_ok (e :: rest) ->
  tidy (e :: rest) -> lowered (e :: rest) ->
  entry_preparation (e :: rest) (map bid (e :: rest)) = Ok (f1, saved, ins) ->
  tidy f1 /\ lowered f1.
Proof.
  intros W SO TD LW Ep.
  destruct (wf_term _ W e (or_introl eq_refl)) as [t T].
  pose proof T as T'; apply getTerminator_Some in T'.
  destruct T' as [l [El Tt]].
  assert (NI : ~ In (bid e) (map bid rest)).
  { pose proof (wf_bids _ W) as B; unfold uniq_bids in B; simpl in B.
    inversion B; auto. }
  destruct (isConditional (ikind t) || (1 <? getNumSuccessors (ikind t)))
    eqn:C.
  2:{ rewrite (entry_preparation_no_split e rest t T C) in Ep.
      inversion Ep; subst; auto. }
  assert (SS : forall s, In s (successors (ikind t)) -> In s (map bid rest)).
  { intros s Hs; apply (SO (bid e) t s); [|exact Hs].
    rewrite located_cons; apply in_app_iff; left; apply in_map.
    rewrite El; apply in_app_iff; right; left; reflexivity. }
  destruct (entry_preparation_split e rest t T NI SS C)
    as [kept [moved [Ek [Sh Ep']]]].
  rewrite Ep' in Ep; inversion Ep; subst f1 saved ins; clear Ep.
  set (new := fresh_bid (e :: rest)) in *.
  set (BI := mkInst (fresh_iid (e :: rest)) VoidTy (Br new)) in *.
  set (R := replaceSuccessorsPhiUsesWith rest (ikind t) (bid e) new) in *.
  assert (Mt : exists m, moved = m ++ [t]).
  { destruct Sh as [[_ [-> _]]|[_ [x ->]]]; [exists [] | exists [x]]; auto. }
  destruct Mt as [m Em].
  assert (Ee : insts e = (kept ++ m) ++ [t])
    by (rewrite Ek, Em, app_assoc; reflexivity).
  assert (Tk : forall j, In j (kept ++ m) -> isTerminator (ikind j) = false)
    by (apply (TD e (kept ++ m) t (or_introl eq_refl) Ee)).
  assert (SR : simF new rest R) by apply replaceSuccessors_simF.
  split.
  - intros bb body t0 [<-|[<-|Hb]] E j Hj.
    + simpl in E; apply app_inj_tail in E; destruct E as [<- _].
      apply Tk, in_app_iff; left; exact Hj.
    + simpl in E; rewrite Em in E; apply app_inj_tail in E.
      destruct E as [<- _]; apply Tk, in_app_iff; right; exact Hj.
    + apply (tidy_simF new rest R SR) with (bb := bb) (body := body) (t := t0);
        auto.
      intros bb0 body0 t1 H0; apply (TD bb0 body0 t1); right; exact H0.
  - intros c j; rewrite !located_cons, !in_app_iff; simpl.
    intros [H|[H|H]].
    + apply in_map_iff in H; destruct H as [x [Ex Hx]]; inversion Ex; subst.
      apply in_app_iff in Hx; destruct Hx as [Hx|[<-|[]]]; [|reflexivity].
      apply (LW (bid e) j); rewrite located_cons; apply in_app_iff; left.
      apply in_map; rewrite Ek; apply in_app_iff; left; exact Hx.
    + apply in_map_iff in H; destruct H as [x [Ex Hx]]; inversion Ex; subst.
      apply (LW (bid e) j); rewrite located_cons; apply in_app_iff; left.
      apply in_map; rewrite Ek; apply in_app_iff; right; exact Hx.
    + destruct (simF_located new rest R c j SR H) as [j0 [Hj0 Sj]].
      apply (lowered_sim new j0 j Sj), (LW c j0).
      rewrite located_cons; apply in_app_iff; right; exact Hj0.
Qed.

(** ** The terminators that [flatten] leaves *)

Lemma flat_terminator_skeleton LE c k k' :
  skeleton k' = skeleton k -> flat_terminator LE c k ->
  flat_terminator LE c k'.
Proof.
  intros E [[Ec [v [cases ->]]]|[Nc [[ops ->]| ->]]].
  - left; split; [exact Ec|].
    destruct k'; try discriminate; simpl in E; inversion E; subst; eauto.
  - right; split; [exact Nc|]; left.
    destruct k'; try discriminate; eauto.
  - right; split; [exact Nc|]; right.
    destruct k'; try discriminate; simpl in E; inversion E; reflexivity.
Qed.

Lemma rewritten_terminators LE sv sw l l' :
  rewritten LE sv sw l l' ->
  (forall body t, l = body ++ [t] ->
     forall j, In j body -> isTerminator (ikind j) = false) ->
  (forall j, In j l -> lowered_kind (ikind j) = true) ->
  forall j, In j l' -> isTerminator (ikind j) = true ->
            (exists ops, ikind j = Ret ops) \/ ikind j = Br LE.
Proof.
  intros RW TD LW j Hj Tj.
  inversion RW as [body t N E1 E2|body t N E1 E2
                  |body t s k n1 n2 Es Fk E1 E2
                  |body t c sT sF kT kF n0 n1 n2 K FT FF E1 E2];
    subst l l'; apply in_app_iff in Hj; destruct Hj as [Hj|Hj];
    try (rewrite (TD body t eq_refl j Hj) in Tj; discriminate).
  - destruct Hj as [<-|[]].
    assert (L : lowered_kind (ikind t) = true)
      by (apply LW, in_app_iff; right; left; reflexivity).
    destruct (ikind t); try discriminate; eauto.
  - destruct Hj as [<-|[]].
    assert (L : lowered_kind (ikind t) = true)
      by (apply LW, in_app_iff; right; left; reflexivity).
    destruct (ikind t); try discriminate;
      unfold getNumSuccessors in N; cbn in N; lia.
  - destruct Hj as [<-|[<-|[]]]; [discriminate | right; reflexivity].
  - destruct Hj as [<-|[<-|[<-|[]]]]; try discriminate; right; reflexivity.
Qed.

(** The state of [flatten] in front of [fixStack], for an input whose
    blocks end in a return, a jump or a conditional branch. *)
Lemma flatten_core_terminators e rest st :
  rest <> [] ->
  WF (e :: rest) -> successors_ok (e :: rest) ->
  tidy (e :: rest) -> lowered (e :: rest) ->
  flatten_core (e :: rest) = Ok (Some st) ->
  WF (fn st) /\
  (exists tl, map bid (fn st) = bid e :: loopEntry st :: tl /\
              ~ In (loopEntry st) (bid e :: tl)) /\
  forall c j, In (c, j) (located (fn st)) ->
    isTerminator (ikind j) = true ->
    flat_terminator (loopEntry st) c (ikind j) /\
    (c = bid e -> ikind j = Br (loopEntry st)).
Proof.
  intros Nr W SO TD LW Ef.
  destruct (flatten_core_shape e rest Nr W SO (lowered_rewritable _ LW))
    as (pro & t1 & tl1 & sv & s0 & ld & bj & sw & LE & f3 & Ep & T1 & W1 &
        Bt & Ec & W3 & B3 & Ge & Gl & Gb & NLE & _).
  rewrite Ec in Ef; inversion Ef; subst st; clear Ef; cbn [fn loopEntry].
  destruct (entry_preparation_tidy e rest _ _ _ W SO TD LW Ep) as [TD1 LW1].
  split; [exact W3|]; split.
  { exists (rev (map bid tl1)); split; [exact B3|].
    intros [H|H]; apply NLE; [left; exact H|].
    right; apply in_rev; exact H. }
  intros c j Hj Tj.
  apply In_located in Hj; destruct Hj as [bb3 [Hb3 [Eb3 Hj]]].
  pose proof (getBlock_In f3 bb3 (wf_bids f3 W3) Hb3) as G3.
  rewrite Eb3 in G3.
  assert (Hc : In c (map bid f3)) by (rewrite <- Eb3; apply in_map; exact Hb3).
  rewrite B3 in Hc; destruct Hc as [Hc|[Hc|Hc]].
  - clear Eb3; subst c; rewrite Ge in G3; inversion G3; subst bb3; simpl in Hj.
    assert (Ne : bid e <> LE) by (intros H; apply NLE; left; exact H).
    apply in_app_iff in Hj; destruct Hj as [Hj|Hj].
    + rewrite (TD1 _ pro t1 (or_introl eq_refl) eq_refl j Hj) in Tj.
      discriminate.
    + destruct Hj as [<-|[<-|[<-|[]]]]; try discriminate.
      split; [right; split; [exact Ne | right; reflexivity]|].
      intros _; reflexivity.
  - clear Eb3; subst c; rewrite Gl in G3; inversion G3; subst bb3; simpl in Hj.
    destruct Hj as [<-|[<-|[]]]; [discriminate|].
    split; [left; split; [reflexivity | simpl; eauto]|].
    intros H; exfalso; apply NLE; left; symmetry; exact H.
  - apply in_rev in Hc; apply in_map_iff in Hc.
    destruct Hc as [bb [Ebb Hbb]].
    destruct (Gb bb Hbb) as [bb' [G' [_ RW]]].
    rewrite Ebb, G3 in G'; inversion G'; subst bb'.
    assert (Nc : c <> LE).
    { intros H; apply NLE; right; rewrite <- H, <- Ebb.
      apply in_map; exact Hbb. }
    assert (Ne : c <> bid e).
    { intros H; pose proof (wf_bids _ W1) as B; inversion B as [|? ? X _].
      apply X; simpl in H; rewrite <- H, <- Ebb; apply in_map; exact Hbb. }
    split; [|intros H; contradiction].
    right; split; [exact Nc|].
    apply (rewritten_terminators LE sv _ (insts bb) (insts bb3) RW); auto.
    + intros body t E; apply (TD1 bb body t); [right; exact Hbb | exact E].
    + intros j0 Hj0; apply (LW1 (bid bb) j0), In_located.
      exists bb; split; [right; exact Hbb | auto].
Qed.

(** ** The order of the instructions of a block *)

Lemma reads_from_spec u l :
  reads_from u l = true <->
  exists x, In (VInst x) (operands (ikind u)) /\ In x (map iid l).
Proof.
  unfold reads_from; rewrite existsb_exists; split.
  - intros [v [Hv H]]; destruct v; try discriminate.
    exists i; split; [exact Hv | apply memb_In; exact H].
  - intros [x [Hx H]]; exists (VInst x); split; [exact Hx|].
    apply memb_In; exact H.
Qed.

Lemma orderedb_list_spec l : orderedb_list l = true <-> ordered_list l.
Proof.
  induction l as [|u l IH]; simpl; [tauto|].
  rewrite andb_true_iff, orb_true_iff, negb_true_iff, IH.
  split; intros [H1 H2]; (split; [|exact H2]).
  - intros P x Hx Hi; destruct H1 as [H1|H1]; [congruence|].
    assert (X : reads_from u (u :: l) = true)
      by (apply reads_from_spec; exists x; auto).
    congruence.
  - destruct (isa_PHINode (ikind u)) eqn:P; [left; reflexivity | right].
    destruct (reads_from u (u :: l)) eqn:R; [|reflexivity].
    apply reads_from_spec in R; destruct R as [x [Hx Hi]].
    exfalso; apply (H1 eq_refl x Hx Hi).
Qed.

Lemma orderedb_ordered f : orderedb f = true -> ordered f.
Proof.
  unfold orderedb; rewrite forallb_forall; intros H bb Hb.
  apply orderedb_list_spec, H, Hb.
Qed.

Lemma ordered_list_suffix l1 l2 : ordered_list (l1 ++ l2) -> ordered_list l2.
Proof. induction l1 as [|u l1 IH]; simpl; [auto | intros [_ H]; auto]. Qed.

Lemma ordered_list_split l a u b :
  ordered_list l -> l = a ++ u :: b ->
  isa_PHINode (ikind u) = false ->
  forall x, In (VInst x) (operands (ikind u)) -> ~ In x (map iid (u :: b)).
Proof.
  intros O ->; apply ordered_list_suffix in O; destruct O as [O _]; exact O.
Qed.

Lemma ordered_list_insert new l1 l2 :
  ordered_list (l1 ++ l2) ->
  (forall u, In u l1 -> ~ In (VInst (iid new)) (operands (ikind u))) ->
  (isa_PHINode (ikind new) = false ->
   forall x, In (VInst x) (operands (ikind new)) ->
             ~ In x (map iid (new :: l2))) ->
  ordered_list (l1 ++ new :: l2).
Proof.
  induction l1 as [|u l1 IH]; simpl; intros O N H.
  - split; [exact H | exact O].
  - destruct O as [Ou O]; split; [|apply IH; auto].
    intros P x Hx Hi; apply (Ou P x Hx).
    destruct Hi as [Hi|Hi]; [left; exact Hi | right].
    rewrite map_app in *; apply in_app_iff in Hi; apply in_app_iff.
    destruct Hi as [Hi|[Hi|Hi]]; [left; exact Hi | | right; exact Hi].
    exfalso; apply (N u (or_introl eq_refl)); rewrite Hi; exact Hx.
Qed.

Lemma ordered_list_map (h : instruction -> instruction) l :
  (forall j, iid (h j) = iid j) ->
  (forall j, isa_PHINode (ikind (h j)) = isa_PHINode (ikind j)) ->
  (forall a u b, l = a ++ u :: b -> isa_PHINode (ikind u) = false ->
     forall x, In (VInst x) (operands (ikind (h u))) ->
               In (VInst x) (operands (ikind u)) \/
               ~ In x (map iid (u :: b))) ->
  ordered_list l -> ordered_list (map h l).
Proof.
  intros Hi Hp; induction l as [|u l IH]; simpl; intros H O; [exact I|].
  destruct O as [Ou O]; split.
  - rewrite Hp, Hi; intros P x Hx.
    assert (E : map iid (map h l) = map iid l)
      by (rewrite map_map; apply map_ext; exact Hi).
    rewrite E.
    destruct (H [] u l eq_refl P x Hx) as [K|K]; [apply (Ou P x K) | exact K].
  - apply IH; [|exact O].
    intros a v b E; apply (H (u :: a) v b); rewrite E; reflexivity.
Qed.

Lemma ordered_list_filter (p : instruction -> bool) l :
  ordered_list l -> ordered_list (filter p l).
Proof.
  induction l as [|u l IH]; simpl; intros O; [exact I|].
  destruct O as [Ou O]; destruct (p u) eqn:Pu; [|auto].
  split; [|auto].
  intros P x Hx [Hi|Hi]; apply (Ou P x Hx); [left; exact Hi | right].
  apply in_map_iff in Hi; destruct Hi as [j [Ej Hj]].
  apply filter_In in Hj; apply in_map_iff; exists j; tauto.
Qed.

(** The place of an identifier in a list without repetition. *)
Lemma split_unique l a u b a' u' b' :
  NoDup (map iid l) -> l = a ++ u :: b -> l = a' ++ u' :: b' ->
  iid u = iid u' -> a = a' /\ u = u' /\ b = b'.
Proof.
  intros N E; subst l; revert a' N.
  induction a as [|x a IH]; intros a' N E Ei.
  - destruct a' as [|x' a']; simpl in *.
    + inversion E; auto.
    + exfalso; inversion E; subst x'.
      inversion N as [|? ? Hn _]; apply Hn; subst b.
      rewrite map_app; apply in_app_iff; right; left; symmetry; exact Ei.
  - destruct a' as [|x' a']; simpl in *.
    + exfalso; inversion E; subst x.
      inversion N as [|? ? Hn _]; apply Hn.
      rewrite map_app; apply in_app_iff; right; left; exact Ei.
    + inversion E; subst x'.
      inversion N as [|? ? _ N']; destruct (IH a' N' H1 Ei) as [-> [-> ->]].
      auto.
Qed.

Lemma before_not_after l a u b x :
  NoDup (map iid l) -> l = a ++ u :: b -> In x (map iid a) ->
  ~ In x (map iid (u :: b)).
Proof.
  intros N -> Ha Hb; rewrite map_app in N.
  apply (NoDup_app_disjoint _ _ x N Ha Hb).
Qed.

(** ** The order of a block through the edits *)

Lemma ordered_insertBefore f pos new :
  ordered f -> ~ mentions f (iid new) ->
  (isa_PHINode (ikind new) = false ->
   forall bb l1 p l2, In bb f -> insts bb = l1 ++ p :: l2 -> iid p = pos ->
     forall x, In (VInst x) (operands (ikind new)) ->
               ~ In x (map iid (new :: p :: l2))) ->
  ordered (insertBefore f pos new).
Proof.
  intros O NM H bb' Hb'; unfold insertBefore in Hb'.
  apply in_map_iff in Hb'; destruct Hb' as [bb [<- Hb]]; simpl.
  destruct (in_dec Nat.eq_dec pos (map iid (insts bb))) as [Hp|Hp].
  - destruct (insert_before_split pos new (insts bb) Hp)
      as (l1 & p & l2 & E & Ep & N1 & Ei).
    rewrite Ei; apply ordered_list_insert.
    + rewrite <- E; apply O, Hb.
    + intros u Hu M; apply NM; exists (bid bb, u); split; [|exact M].
      apply In_located; exists bb; split; [exact Hb|]; split; [reflexivity|].
      rewrite E; apply in_app_iff; left; exact Hu.
    + intros P x Hx; apply (H P bb l1 p l2 Hb E Ep x Hx).
  - rewrite insert_before_notin by exact Hp; apply O, Hb.
Qed.

Lemma ordered_updInst f U g :
  ordered f ->
  (forall k, isa_PHINode (g k) = isa_PHINode k) ->
  (forall bb a u b, In bb f -> insts bb = a ++ u :: b -> iid u = U ->
     isa_PHINode (ikind u) = false ->
     forall x, In (VInst x) (operands (g (ikind u))) ->
               In (VInst x) (operands (ikind u)) \/
               ~ In x (map iid (u :: b))) ->
  ordered (updInst f U g).
Proof.
  intros O G H bb' Hb'; unfold updInst in Hb'.
  apply in_map_iff in Hb'; destruct Hb' as [bb [<- Hb]]; simpl.
  apply ordered_list_map; [| | |apply O, Hb].
  - intros j; destruct (iid j =? U); reflexivity.
  - intros j; destruct (iid j =? U); [simpl; apply G | reflexivity].
  - intros a u b E P x Hx.
    destruct (Nat.eqb_spec (iid u) U) as [Eu|Eu]; [|left; exact Hx].
    apply (H bb a u b Hb E Eu P x Hx).
Qed.

Lemma ordered_rauw f from to :
  ordered f ->
  (forall bb a u b, In bb f -> insts bb = a ++ u :: b ->
     isa_PHINode (ikind u) = false -> In from (operands (ikind u)) ->
     forall x, to = VInst x -> ~ In x (map iid (u :: b))) ->
  ordered (replaceAllUsesWith f from to).
Proof.
  intros O H bb' Hb'; unfold replaceAllUsesWith in Hb'.
  apply in_map_iff in Hb'; destruct Hb' as [bb [<- Hb]]; simpl.
  apply ordered_list_map; [| | |apply O, Hb].
  - reflexivity.
  - intros j; simpl; apply isa_PHINode_replace.
  - intros a u b E P x Hx; simpl in Hx; apply In_operands_replace in Hx.
    destruct Hx as [[Hx _]|[Ex Hf]]; [left; exact Hx | right].
    apply (H bb a u b Hb E P Hf x); symmetry; exact Ex.
Qed.

Lemma ordered_erase f x : ordered f -> ordered (eraseFromParent f x).
Proof.
  intros O bb' Hb'; unfold eraseFromParent in Hb'.
  apply in_map_iff in Hb'; destruct Hb' as [bb [<- Hb]]; simpl.
  apply ordered_list_filter, O, Hb.
Qed.

Lemma ordered_block pre bb post c l' :
  ordered (pre ++ bb :: post) -> ordered_list l' ->
  ordered (pre ++ mkBB c l' :: post).
Proof.
  intros O H b Hb; apply in_app_iff in Hb.
  destruct Hb as [Hb|[<-|Hb]]; [| exact H |];
    apply O, in_app_iff; [left | right; right]; exact Hb.
Qed.

(** ** No PHI node in the first block *)

Lemma entry_no_phi_inserted e c new f f' :
  inserted c new f f' -> isa_PHINode (ikind new) = false ->
  entry_no_phi e f -> entry_no_phi e f'.
Proof.
  intros I N H u Hu; apply (inserted_In c new f f' _ I) in Hu.
  destruct Hu as [Hu|Hu]; [inversion Hu; exact N | apply H, Hu].
Qed.

Lemma entry_no_phi_updInst e f U g :
  (forall k, isa_PHINode (g k) = isa_PHINode k) ->
  entry_no_phi e f -> entry_no_phi e (updInst f U g).
Proof.
  intros G H u Hu; apply In_located_updInst in Hu.
  destruct Hu as [[c j] [Hj E]]; simpl in E; inversion E; subst.
  unfold upd_inst; destruct (iid j =? U); simpl; [rewrite G|]; apply H, Hj.
Qed.

Lemma entry_no_phi_rauw e f from to :
  entry_no_phi e f -> entry_no_phi e (replaceAllUsesWith f from to).
Proof.
  intros H u Hu; apply In_located_rauw in Hu.
  destruct Hu as [[c j] [Hj E]]; simpl in E; inversion E; subst.
  simpl; rewrite isa_PHINode_replace; apply H, Hj.
Qed.

Lemma entry_no_phi_erase e f x :
  entry_no_phi e f -> entry_no_phi e (eraseFromParent f x).
Proof. intros H u Hu; apply In_located_erase in Hu; apply H, Hu. Qed.

Lemma entry_no_phib_spec f e :
  entry_no_phib f = true -> uniq_bids f -> entry_is e f -> entry_no_phi e f.
Proof.
  intros H U En u Hu; destruct f as [|bb tl]; [discriminate|].
  inversion En as [Eb]; simpl in H; rewrite forallb_forall in H.
  apply In_located in Hu; destruct Hu as [b [Hb [Eb' Hu]]].
  destruct Hb as [<-|Hb].
  - apply negb_true_iff, H, Hu.
  - exfalso; unfold uniq_bids in U; simpl in U; inversion U as [|? ? Hn _].
    apply Hn; rewrite Eb, <- Eb'; apply in_map; exact Hb.
Qed.

(** ** A storage cell at the head of the first block *)

Lemma slot_first_insertBefore Slot f pos new :
  slot_first Slot f -> pos <> Slot -> slot_first Slot (insertBefore f pos new).
Proof.
  intros (bb & tl & s & l0 & -> & Ei & Es) N.
  exists (mkBB (bid bb) (insert_before pos new (insts bb))),
    (insertBefore tl pos new), s, (insert_before pos new l0).
  split; [reflexivity|]; split; [|exact Es].
  simpl; rewrite Ei; simpl.
  destruct (Nat.eqb_spec (iid s) pos) as [E|E]; [congruence | reflexivity].
Qed.

Lemma slot_first_updInst Slot f U g :
  slot_first Slot f -> slot_first Slot (updInst f U g).
Proof.
  intros (bb & tl & s & l0 & -> & Ei & Es).
  unfold updInst; simpl; rewrite Ei; simpl.
  eexists; eexists; eexists; eexists; split; [reflexivity|].
  split; [reflexivity|].
  destruct (iid s =? U); exact Es.
Qed.

Lemma slot_first_block Slot pre bb post c a l l' :
  slot_first Slot (pre ++ bb :: post) ->
  insts bb = a :: l -> slot_first Slot (pre ++ mkBB c (a :: l') :: post).
Proof.
  intros (bb0 & tl & s & l0 & E & Ei & Es) Eb.
  destruct pre as [|b pre]; simpl in *.
  - inversion E; subst bb0 tl; rewrite Eb in Ei; inversion Ei; subst.
    exists (mkBB c (s :: l')), post, s, l'; auto.
  - inversion E; subst bb0 tl.
    exists b, (pre ++ mkBB c (a :: l') :: post), s, l0; auto.
Qed.

(** Behind a place that is not the head of its block, [Slot] is not
    defined. *)
Lemma slot_behind Slot f bb L1 L2 :
  uniq_ids f -> slot_first Slot f -> In bb f -> insts bb = L1 ++ L2 ->
  L1 <> [] -> ~ In Slot (map iid L2).
Proof.
  intros U (bb0 & tl & s & l0 & -> & Ei & Es) Hb E N H.
  apply uniq_ids_NoDup in U; rewrite ids_cons, Ei in U; simpl in U.
  inversion U as [|? ? Hn _]; apply Hn; rewrite Es.
  destruct Hb as [<-|Hb].
  - rewrite Ei in E; destruct L1 as [|a L1]; [congruence|].
    inversion E; subst; rewrite map_app; apply in_app_iff; left.
    apply in_app_iff; right; exact H.
  - apply in_app_iff; right.
    apply in_map_iff in H; destruct H as [j [Ej Hj]].
    apply in_map_iff; exists j; split; [exact Ej|].
    unfold all_insts; apply in_flat_map; exists bb; split; [exact Hb|].
    rewrite E; apply in_app_iff; right; exact Hj.
Qed.

(** An instruction of another block is not defined in this one. *)
Lemma other_block f c s bb :
  uniq_ids f -> In (c, s) (located f) -> In bb f -> bid bb <> c ->
  ~ In (iid s) (map iid (insts bb)).
Proof.
  intros U Hs Hb N H; apply in_map_iff in H; destruct H as [j [Ej Hj]].
  apply (other_block_ids f c s bb j U Hs Hb N Hj Ej).
Qed.

(** ** Inversion of the insertions *)

Lemma insert_at_first_non_phi_inv new l l' :
  insert_at_first_non_phi new l = Some l' ->
  exists p q,
    l = p ++ q /\ l' = p ++ new :: q /\
    Forall (fun j => isa_PHINode (ikind j) = true) p /\
    exists y q', q = y :: q' /\ isa_PHINode (ikind y) = false.
Proof.
  revert l'; induction l as [|x l IH]; simpl; intros l' H; [discriminate|].
  destruct (isa_PHINode (ikind x)) eqn:Px.
  - destruct (insert_at_first_non_phi new l) as [r|]; [|discriminate].
    inversion H; subst l'; destruct (IH r eq_refl) as [p [q [E [E' [F Q]]]]].
    exists (x :: p), q; simpl; rewrite E, E'.
    split; [reflexivity|]; split; [reflexivity|]; split; [|exact Q].
    constructor; assumption.
  - inversion H; exists [], (x :: l); repeat split; auto.
    exists x, l; auto.
Qed.

Lemma insert_after_inv I new l l' :
  insert_after I new l = Some l' ->
  exists l1 x p q,
    l = l1 ++ x :: p ++ q /\ iid x = I /\
    l' = l1 ++ x :: p ++ new :: q.
Proof.
  revert l'; induction l as [|y l IH]; simpl; intros l' H; [discriminate|].
  destruct (Nat.eqb_spec (iid y) I) as [E|E].
  - destruct (insert_at_first_non_phi new l) as [r|] eqn:R; [|discriminate].
    inversion H; subst l'.
    destruct (insert_at_first_non_phi_inv new l r R) as [p [q [E1 [E2 _]]]].
    exists [], y, p, q; simpl; rewrite E1, E2; auto.
  - destruct (insert_after I new l) as [r|]; [|discriminate].
    inversion H; subst l'.
    destruct (IH r eq_refl) as (l1 & x & p & q & E1 & E2 & E3).
    exists (y :: l1), x, p, q; simpl; rewrite E1, E3; auto.
Qed.

Lemma insert_from_inv P new l l' :
  insert_from P new l = Some l' ->
  exists l1 x l2 p q,
    l = l1 ++ x :: l2 /\ iid x = P /\ x :: l2 = p ++ q /\
    Forall (fun j => isa_PHINode (ikind j) = true) p /\
    l' = l1 ++ p ++ new :: q /\
    exists y q', q = y :: q' /\ isa_PHINode (ikind y) = false.
Proof.
  revert l'; induction l as [|y l IH]; intros l' H; [discriminate|].
  cbn [insert_from] in H.
  destruct (Nat.eqb_spec (iid y) P) as [E|E].
  - destruct (insert_at_first_non_phi_inv new (y :: l) l' H)
      as [p [q [E1 [E2 [F Q]]]]].
    exists [], y, l, p, q; simpl; tauto.
  - destruct (insert_from P new l) as [r|]; [|discriminate].
    inversion H; subst l'.
    destruct (IH r eq_refl)
      as (l1 & x & l2 & p & q & E1 & E2 & E3 & F & E4 & Q).
    exists (y :: l1), x, l2, p, q; simpl; rewrite E1, E4; tauto.
Qed.

Lemma inBlock_inv g i f f' :
  inBlock g i f = Ok f' ->
  exists pre bb post l',
    f = pre ++ bb :: post /\ In i (map iid (insts bb)) /\
    g (insts bb) = Some l' /\ f' = pre ++ mkBB (bid bb) l' :: post.
Proof.
  revert f'; induction f as [|b f IH]; simpl; intros f' H; [discriminate|].
  destruct (existsb (fun j => iid j =? i) (insts b)) eqn:E.
  - destruct (g (insts b)) as [l'|] eqn:G; [|discriminate].
    inversion H; subst f'; exists [], b, f, l'; simpl.
    repeat split; auto; apply existsb_id_In; exact E.
  - destruct (inBlock g i f) as [r| |]; try discriminate.
    inversion H; subst f'.
    destruct (IH r eq_refl) as (pre & bb & post & l' & E1 & E2 & E3 & E4).
    exists (b :: pre), bb, post, l'; simpl; rewrite E1, E4; auto.
Qed.

(** ** What the reloads of a demoted value keep *)

Lemma keeps_refl I f : keeps I f f.
Proof. intros c u H _ _; exact H. Qed.

Lemma keeps_trans I f1 f2 f3 : keeps I f1 f2 -> keeps I f2 f3 -> keeps I f1 f3.
Proof. intros A B c u H P N; apply B; auto. Qed.

Lemma ment_kept_refl I f : ment_kept I f f.
Proof. intros y _ H; exact H. Qed.

Lemma ment_kept_trans I f1 f2 f3 :
  ment_kept I f1 f2 -> ment_kept I f2 f3 -> ment_kept I f1 f3.
Proof. intros A B y N H; apply B; auto. Qed.

Lemma keeps_incl I f f' : incl (located f) (located f') -> keeps I f f'.
Proof. intros H c u Hu _ _; apply H, Hu. Qed.

Lemma ment_kept_incl I f f' : incl (located f) (located f') -> ment_kept I f f'.
Proof. intros H y _ [u [Hu M]]; exists u; split; [apply H, Hu | exact M]. Qed.

Lemma map_replace_id from to l :
  ~ In from l -> map (replace_value from to) l = l.
Proof.
  induction l as [|v l IH]; simpl; intros N; [reflexivity|].
  rewrite IH by (intros H; apply N; right; exact H).
  unfold replace_value; destruct (value_eqb v from) eqn:E; [|reflexivity].
  apply value_eqb_eq in E; exfalso; apply N; left; exact E.
Qed.

Lemma replace_value_id from to v : v <> from -> replace_value from to v = v.
Proof.
  intros N; unfold replace_value; destruct (value_eqb v from) eqn:E;
    [apply value_eqb_eq in E; contradiction | reflexivity].
Qed.

Lemma replaceUsesOfWith_id from to k :
  ~ In from (operands k) -> replaceUsesOfWith from to k = k.
Proof.
  destruct k; simpl; intros N; try reflexivity;
    try (rewrite !replace_value_id by (intros E; apply N; subst; simpl; auto);
         reflexivity);
    try (rewrite map_replace_id by exact N; reflexivity).
  f_equal; induction incoming as [|[v B] inc IH]; simpl in *; [reflexivity|].
  rewrite IH by (intros H; apply N; right; exact H).
  rewrite replace_value_id by (intros E; apply N; left; exact E); reflexivity.
Qed.

Lemma inst_eta (u : instruction) : mkInst (iid u) (ity u) (ikind u) = u.
Proof. destruct u; reflexivity. Qed.

Lemma keeps_replace I to f U :
  keeps I f (updInst f U (replaceUsesOfWith (VInst I) to)).
Proof.
  intros c u Hu _ N; apply In_located_updInst; exists (c, u).
  split; [exact Hu|]; simpl; unfold upd_inst.
  destruct (iid u =? U); [|reflexivity].
  rewrite replaceUsesOfWith_id by exact N; rewrite inst_eta; reflexivity.
Qed.

Lemma keeps_setIncoming I inc f U :
  keeps I f (updInst f U (setIncomingValues inc)).
Proof.
  intros c u Hu P _; apply In_located_updInst; exists (c, u).
  split; [exact Hu|]; simpl; unfold upd_inst.
  destruct (iid u =? U); [|reflexivity].
  destruct u as [i t k]; simpl in *; destruct k; try discriminate; reflexivity.
Qed.

Lemma ment_kept_replace I to f U :
  ment_kept I f (updInst f U (replaceUsesOfWith (VInst I) to)).
Proof.
  intros y Ny [[c u] [Hu M]]; simpl in M.
  exists (c, upd_inst U (replaceUsesOfWith (VInst I) to) u); split.
  - apply In_located_updInst; exists (c, u); auto.
  - simpl; unfold upd_inst; destruct (iid u =? U); [|exact M].
    simpl; apply In_operands_replace; left; split; [exact M|].
    intros E; inversion E; contradiction.
Qed.

(** ** The order of a block through the reloads *)

Lemma slot_not_after Slot f bb l1 p l2 :
  uniq_ids f -> slot_first Slot f -> In bb f -> insts bb = l1 ++ p :: l2 ->
  iid p <> Slot -> ~ In Slot (map iid (p :: l2)).
Proof.
  intros U S Hb E N [H|H]; [congruence|].
  apply (slot_behind Slot f bb (l1 ++ [p]) l2 U S Hb); auto.
  - rewrite <- app_assoc; exact E.
  - destruct l1; discriminate.
Qed.

Lemma ordered_load_insert e Slot t vol f c p :
  WF f -> slot_ok e Slot f -> slot_first Slot f ->
  In (c, p) (located f) -> iid p <> Slot -> ordered f ->
  ordered (insertBefore f (iid p)
             (mkInst (fresh_iid f) t (Load (VInst Slot) vol))).
Proof.
  intros W Sl Sf Hp N O; apply ordered_insertBefore; [exact O| |].
  - apply fresh_not_mentioned; simpl; lia.
  - cbn [ikind iid operands In map]; intros _ bb l1 q l2 Hb E Eq x [Hx|[]].
    inversion Hx; subst x; intros [H|H].
    + destruct (slot_operand e Slot f W Sl) as [L _]; lia.
    + apply (slot_not_after Slot f bb l1 q l2 (wf_ids f W) Sf Hb E);
        [congruence | exact H].
Qed.

(** [U] reads the load that was put in front of it. *)
Lemma ordered_load_before f U ld I :
  uniq_ids (insertBefore f U ld) -> iid ld <> U ->
  ordered (insertBefore f U ld) ->
  ordered (updInst (insertBefore f U ld) U
             (replaceUsesOfWith (VInst I) (VInst (iid ld)))).
Proof.
  intros U1 N O; apply ordered_updInst;
    [exact O | apply isa_PHINode_replace|].
  intros bb' a u b Hb' E Eu P x Hx; apply In_operands_replace in Hx.
  destruct Hx as [[Hx _]|[Ex _]]; [left; exact Hx | right].
  inversion Ex; subst x.
  pose proof (block_ids_NoDup _ bb' U1 Hb') as ND.
  unfold insertBefore in Hb'; apply in_map_iff in Hb'.
  destruct Hb' as [bb [Eb Hb]]; subst bb'; simpl in *.
  assert (HU : In U (map iid (insts bb))).
  { destruct (in_dec Nat.eq_dec U (map iid (insts bb))) as [H|H];
      [exact H | exfalso].
    rewrite insert_before_notin in E by exact H.
    apply H; rewrite E, map_app; apply in_app_iff; right; left; exact Eu. }
  destruct (insert_before_split U ld (insts bb) HU)
    as (l1 & q & l2 & E1 & Eq & N1 & Ei).
  rewrite Ei in E, ND.
  assert (E' : l1 ++ ld :: q :: l2 = (l1 ++ [ld]) ++ q :: l2)
    by (rewrite <- app_assoc; reflexivity).
  destruct (split_unique _ _ _ _ _ _ _ ND E' E) as [Ea _];
    [congruence|].
  apply (before_not_after _ a u b (iid ld) ND E).
  rewrite <- Ea, map_app; apply in_app_iff; right; left; reflexivity.
Qed.

Lemma terminatorOf_inv f B term :
  terminatorOf f B = Ok term ->
  exists bb l,
    getBlock f B = Some bb /\ insts bb = l ++ [term] /\
    isTerminator (ikind term) = true.
Proof.
  unfold terminatorOf; destruct (getBlock f B) as [bb|]; [|discriminate].
  cbn [ofOption bind]; destruct (getTerminator bb) as [t|] eqn:G;
    [|discriminate].
  intros H; inversion H; subst t.
  apply getTerminator_Some in G; destruct G as [l [E T]].
  exists bb, l; auto.
Qed.

Lemma terminator_not_slot e Slot f B term :
  WF f -> slot_ok e Slot f -> terminatorOf f B = Ok term ->
  In (B, term) (located f) -> iid term <> Slot.
Proof.
  intros W Sl Et Ht E.
  destruct (terminatorOf_inv f B term Et) as (_ & _ & _ & _ & T).
  destruct (slot_operand e Slot f W Sl) as [_ K].
  rewrite (K B term Ht E) in T; discriminate.
Qed.

Lemma reload_incoming_more e Slot X t vol I :
  forall inc f Loads f' inc',
    rinv e Slot X f ->
    (forall v B, In (v, B) inc -> In B (map bid f)) ->
    reload_incoming f Slot t vol I inc Loads = Ok (f', inc') ->
    (forall v B, In (v, B) inc -> v <> VInst I -> In (v, B) inc') /\
    (entry_no_phi e f -> entry_no_phi e f') /\
    (slot_first Slot f -> slot_first Slot f' /\ (ordered f -> ordered f')).
Proof.
  induction inc as [|[v B] inc IH]; intros f Loads f' inc' R HB H.
  - simpl in H; inversion H; subst.
    split; [intros ? ? []|]; split; auto.
  - cbn [reload_incoming] in H.
    assert (HB' : forall v B, In (v, B) inc -> In B (map bid f))
      by (intros v0 B0 H0; apply (HB v0 B0); right; exact H0).
    destruct (value_eqb v (VInst I)) eqn:Ev.
    + apply value_eqb_eq in Ev; subst v.
      destruct (find (fun l : block_id * value => fst l =? B) Loads)
        as [l|] eqn:Fl.
      * destruct (reload_incoming f Slot t vol I inc Loads)
          as [[f'' r]| |] eqn:E; cbn [bind] in H; try discriminate.
        inversion H; subst f'' inc'.
        destruct (IH f Loads f' r R HB' E) as (A & B1 & C).
        split; [|split; assumption].
        intros v0 B0 [H0|H0] N; [inversion H0; congruence|].
        right; apply A; assumption.
      * pose proof (r_wf _ _ _ _ R) as W.
        destruct (terminatorOf_ok f B W) as [term [Et Ht]];
          [apply (HB (VInst I) B); left; reflexivity|].
        rewrite Et in H; cbn [bind] in H.
        destruct (load_insert e Slot t vol f B term
                    W (r_entry _ _ _ _ R) (r_slot _ _ _ _ R) Ht)
          as [Ins [W1 [En1 [Sl1 C1]]]].
        set (ld := mkInst (fresh_iid f) t (Load (VInst Slot) vol)) in *.
        set (f1 := insertBefore f (iid term) ld) in *.
        assert (R1 : rinv e Slot X f1)
          by (constructor; auto; apply C1, (r_conf _ _ _ _ R)).
        destruct (reload_incoming f1 Slot t vol I inc
                    ((B, VInst (fresh_iid f)) :: Loads))
          as [[f'' r]| |] eqn:E; cbn [bind] in H; try discriminate.
        inversion H; subst f'' inc'.
        assert (HB1 : forall v B, In (v, B) inc -> In B (map bid f1)).
        { intros v0 B0 H0; rewrite (inserted_bids _ _ _ _ Ins).
          apply (HB' v0 B0 H0). }
        destruct (IH f1 _ f' r R1 HB1 E) as (A & B1 & C).
        pose proof (terminator_not_slot e Slot f B term W
                      (r_slot _ _ _ _ R) Et Ht) as NT.
        split; [|split].
        -- intros v0 B0 [H0|H0] N; [inversion H0; congruence|].
           right; apply A; assumption.
        -- intros Hn; apply B1.
           apply (entry_no_phi_inserted e B ld f f1 Ins eq_refl Hn).
        -- intros Sf.
           assert (Sf1 : slot_first Slot f1)
             by (apply slot_first_insertBefore; assumption).
           destruct (C Sf1) as [C1' C2]; split; [exact C1'|].
           intros O; apply C2.
           apply (ordered_load_insert e Slot t vol f B term W
                    (r_slot _ _ _ _ R) Sf Ht NT O).
    + apply value_eqb_neq in Ev.
      destruct (reload_incoming f Slot t vol I inc Loads)
        as [[f'' r]| |] eqn:E; cbn [bind] in H; try discriminate.
      inversion H; subst f'' inc'.
      destruct (IH f Loads f' r R HB' E) as (A & B1 & C).
      split; [|split; assumption].
      intros v0 B0 [H0|H0] N; [left; exact H0|].
      right; apply A; assumption.
Qed.

Lemma ment_kept_setIncoming I f c u0 inc inc' :
  uniq_ids f -> In (c, u0) (located f) -> ikind u0 = PHI inc ->
  (forall v B, In (v, B) inc -> v <> VInst I -> In (v, B) inc') ->
  ment_kept I f (updInst f (iid u0) (setIncomingValues inc')).
Proof.
  intros U Hu0 Ku A y Ny [[d w] [Hw M]]; simpl in M.
  exists (d, upd_inst (iid u0) (setIncomingValues inc') w); split.
  - apply In_located_updInst; exists (d, w); auto.
  - simpl; unfold upd_inst.
    destruct (Nat.eqb_spec (iid w) (iid u0)) as [E|E]; [|exact M].
    assert (X0 : (d, w) = (c, u0)) by (apply (uniq_ids_same f); auto).
    inversion X0; subst d w; simpl; rewrite Ku in *; simpl in *.
    apply in_map_iff in M; destruct M as [[v B] [Ev Hv]]; simpl in Ev.
    subst v; apply in_map_iff; exists (VInst y, B); split; [reflexivity|].
    apply A; [exact Hv|]; intros E'; inversion E'; contradiction.
Qed.

Lemma reload_user_more e Slot X t vol I f c u0 f' :
  rinv e Slot X f -> Slot <> I -> reg_id f I ->
  In (c, u0) (located f) -> iid u0 <> Slot ->
  reload_user f Slot t vol I (iid u0) = Ok f' ->
  keeps I f f' /\ ment_kept I f f' /\
  (entry_no_phi e f -> entry_no_phi e f') /\
  (slot_first Slot f -> slot_first Slot f' /\ (ordered f -> ordered f')).
Proof.
  intros R NS RI Hu0 NU H.
  pose proof (r_wf _ _ _ _ R) as W.
  unfold reload_user in H.
  rewrite (getInst_uniq f c u0 (wf_ids f W) Hu0) in H; cbn [bind ofOption] in H.
  destruct (isa_PHINode (ikind u0)) eqn:Pu.
  - destruct (ikind u0) as [| | | |inc| | | | | | | |] eqn:Ku; try discriminate.
    assert (HB : forall v B, In (v, B) inc -> In B (map bid f)).
    { intros v B Hv; apply (wf_phi f W c u0 v B Hu0); rewrite Ku; exact Hv. }
    destruct (reload_incoming_spec e Slot X t vol I (fresh_iid f) inc f []
                R (le_n _) HB)
      as [f1 [inc' [E [R1 [P1 [Inc _]]]]]].
    { intros l []. }
    rewrite E in H; cbn [bind] in H; inversion H; subst f'; clear H.
    destruct (reload_incoming_more e Slot X t vol I inc f [] f1 inc' R HB E)
      as (A & B1 & C).
    pose proof (r_wf _ _ _ _ R1) as W1.
    destruct (setIncomingValues_tags inc') as [G1 [G2 G3]].
    split; [|split; [|split]].
    + apply (keeps_trans I f f1); [apply keeps_incl, Inc|].
      apply keeps_setIncoming.
    + apply (ment_kept_trans I f f1); [apply ment_kept_incl, Inc|].
      apply (ment_kept_setIncoming I f1 c u0 inc inc' (wf_ids f1 W1)
               (Inc _ Hu0) Ku A).
    + intros Hn; apply entry_no_phi_updInst; [exact G1 | apply B1, Hn].
    + intros Sf; destruct (C Sf) as [Sf1 O1]; split;
        [apply slot_first_updInst; exact Sf1|].
      intros O; apply ordered_updInst; [apply O1, O | exact G1|].
      intros bb a u b _ _ _ P x Hx; left.
      destruct (ikind u); try discriminate; exact Hx.
  - assert (Km : match ikind u0 with
                 | PHI inc =>
                     ' (f', inc') <- reload_incoming f Slot t vol I inc [];;
                     Ok (updInst f' (iid u0) (setIncomingValues inc'))
                 | _ =>
                     Ok (updInst
                           (insertBefore f (iid u0)
                              (mkInst (fresh_iid f) t (Load (VInst Slot) vol)))
                           (iid u0)
                           (replaceUsesOfWith (VInst I) (VInst (fresh_iid f))))
                 end =
                 Ok (updInst
                       (insertBefore f (iid u0)
                          (mkInst (fresh_iid f) t (Load (VInst Slot) vol)))
                       (iid u0)
                       (replaceUsesOfWith (VInst I) (VInst (fresh_iid f)))))
      by (destruct (ikind u0); try reflexivity; discriminate).
    rewrite Km in H; clear Km; inversion H; subst f'; clear H.
    destruct (load_insert e Slot t vol f c u0 W
                (r_entry _ _ _ _ R) (r_slot _ _ _ _ R) Hu0)
      as [Ins [W1 [En1 [Sl1 C1]]]].
    set (ld := mkInst (fresh_iid f) t (Load (VInst Slot) vol)) in *.
    set (f1 := insertBefore f (iid u0) ld) in *.
    assert (Inc : incl (located f) (located f1)).
    { intros j Hj; apply (inserted_In c ld f f1 _ Ins); auto. }
    split; [|split; [|split]].
    + apply (keeps_trans I f f1); [apply keeps_incl, Inc|].
      apply keeps_replace.
    + apply (ment_kept_trans I f f1); [apply ment_kept_incl, Inc|].
      apply ment_kept_replace.
    + intros Hn; apply entry_no_phi_updInst; [apply isa_PHINode_replace|].
      apply (entry_no_phi_inserted e c ld f f1 Ins eq_refl Hn).
    + intros Sf; split.
      * apply slot_first_updInst, slot_first_insertBefore; assumption.
      * intros O.
        apply (ordered_load_before f (iid u0) ld I (wf_ids f1 W1)).
        -- pose proof (fresh_iid_located f c u0 Hu0); simpl; lia.
        -- apply (ordered_load_insert e Slot t vol f c u0 W
                    (r_slot _ _ _ _ R) Sf Hu0 NU O).
Qed.

Lemma reload_users_more e Slot X t vol I :
  forall Us f f',
    rinv e Slot X f -> Slot <> I -> reg_id f I ->
    (forall U, In U Us -> has_id f U /\ U <> Slot) ->
    reload_users f Slot t vol I Us = Ok f' ->
    keeps I f f' /\ ment_kept I f f' /\
    (entry_no_phi e f -> entry_no_phi e f') /\
    (slot_first Slot f -> slot_first Slot f' /\ (ordered f -> ordered f')).
Proof.
  induction Us as [|U Us IH]; intros f f' R NS RI HU H.
  - simpl in H; inversion H; subst f'.
    split; [apply keeps_refl|]; split; [apply ment_kept_refl|]; auto.
  - destruct (HU U (or_introl eq_refl)) as [[[c u0] [Hu0 Eu0]] NU].
    simpl in Eu0; subst U.
    destruct (reload_user_spec e Slot X t vol I f c u0 R NS RI Hu0)
      as [f1 [E1 [R1 [P1 _]]]].
    cbn [reload_users] in H; rewrite E1 in H; cbn [bind] in H.
    destruct (reload_user_more e Slot X t vol I f c u0 f1 R NS RI Hu0 NU E1)
      as (K1 & M1 & N1 & S1).
    destruct (IH f1 f' R1 NS (p_reg _ _ _ P1 I RI)) as (K2 & M2 & N2 & S2);
      [|exact H|].
    { intros U HUs; destruct (HU U (or_intror HUs)) as [A B]; split;
        [apply (p_ids _ _ _ P1), A | exact B]. }
    split; [apply (keeps_trans I f f1 f' K1 K2)|].
    split; [apply (ment_kept_trans I f f1 f' M1 M2)|].
    split; [auto|].
    intros Sf; destruct (S1 Sf) as [Sf1 O1]; destruct (S2 Sf1) as [Sf2 O2].
    split; auto.
Qed.

(** ** The demotion of a value that is no PHI node *)

Lemma stays_keeps I f f' : keeps I f f' -> stays [I] f f'.
Proof.
  intros K c u Hu [P [_ N]]; apply K; auto.
  apply N; left; reflexivity.
Qed.

Lemma stays_erase I f : stays [I] f (eraseFromParent f I).
Proof.
  intros c u Hu [_ [N _]]; apply In_located_erase; split; [exact Hu|].
  simpl; intros E; apply N; left; symmetry; exact E.
Qed.

Lemma has_id_inserted c new f f' y :
  inserted c new f f' -> has_id f y -> has_id f' y.
Proof.
  intros I [j [Hj Ej]]; exists j; split; [|exact Ej].
  apply (inserted_In c new f f' _ I); auto.
Qed.

(** The store of a demoted value, behind its definition. *)
Lemma ordered_store_insert e Slot I f f' s :
  WF f -> slot_ok e Slot f -> slot_first Slot f -> Slot <> I ->
  fresh_iid f <= s -> ordered f ->
  inBlock (insert_after I (mkInst s VoidTy (Store (VInst I) (VInst Slot))))
    I f = Ok f' ->
  ordered f'.
Proof.
  intros W Sl Sf NS Ls O H.
  destruct (inBlock_inv _ _ _ _ H) as (pre & bb & post & l' & Ef & _ & Eg & ->).
  destruct (insert_after_inv _ _ _ _ Eg) as (l1 & x & p & q & El & Ex & ->).
  assert (Hb : In bb f) by (rewrite Ef; apply in_app_iff; right; left; auto).
  pose proof (block_ids_NoDup f bb (wf_ids f W) Hb) as ND.
  assert (El' : insts bb = (l1 ++ x :: p) ++ q)
    by (rewrite El, <- app_assoc; reflexivity).
  rewrite Ef in O; apply (ordered_block pre bb post _ _ O).
  replace (l1 ++ x :: p ++ mkInst s VoidTy (Store (VInst I) (VInst Slot)) :: q)
    with ((l1 ++ x :: p) ++ mkInst s VoidTy (Store (VInst I) (VInst Slot)) :: q)
    by (rewrite <- app_assoc; reflexivity).
  apply ordered_list_insert.
  - rewrite <- El'; apply O, in_app_iff; right; left; reflexivity.
  - intros u Hu M; apply (fresh_not_mentioned f s Ls).
    exists (bid bb, u); split; [|exact M].
    apply In_located; exists bb; split; [exact Hb|]; split; [reflexivity|].
    rewrite El'; apply in_app_iff; left; exact Hu.
  - cbn [ikind iid operands In map]; intros _ y [Hy|[Hy|[]]];
      inversion Hy; subst y; intros [K|K].
    + assert (Hx : In (bid bb, x) (located f)).
      { apply In_located; exists bb; split; [exact Hb|].
        split; [reflexivity|].
        rewrite El; apply in_app_iff; right; left; reflexivity. }
      pose proof (fresh_iid_located f _ _ Hx); lia.
    + rewrite El', map_app in ND.
      apply (NoDup_app_disjoint _ _ I ND); [|exact K].
      rewrite map_app; apply in_app_iff; right; left; exact Ex.
    + destruct (slot_operand e Slot f W Sl) as [L _]; lia.
    + apply (slot_behind Slot f bb (l1 ++ x :: p) q (wf_ids f W) Sf Hb El');
        [destruct l1; discriminate | exact K].
Qed.

Lemma DemoteRegToStack_more e X vol I f f' :
  WF f -> entry_is e f -> reg_id f I -> confined e f (I :: X) ->
  DemoteRegToStack f I vol = Ok f' ->
  stays [I] f f' /\
  (entry_no_phi e f -> entry_no_phi e f') /\
  (ordered f -> ordered f') /\
  (mentions f I ->
   keeps I f f' /\ ment_kept I f f' /\
   (forall y, has_id f y -> has_id f' y) /\
   forall c x, In (c, x) (located f) -> iid x = I ->
     ~ In (VInst I) (operands (ikind x)) ->
     In (c, x) (located f') /\
     exists s,
       In (e, mkInst (fresh_iid f) (PointerTy (ity x)) (Alloca (ity x)))
          (located f') /\
       In (c, mkInst s VoidTy (Store (VInst I) (VInst (fresh_iid f))))
          (located f') /\
       fresh_iid f < s).
Proof.
  intros W En RI C H.
  pose proof RI as RI0.
  destruct RI as [[c x] [Hx [Ex [Px Tx]]]]; simpl in Ex, Px, Tx; subst I.
  pose proof (wf_ids f W) as U.
  unfold DemoteRegToStack in H.
  rewrite (getLInst_uniq f c x U Hx) in H; cbn [bind ofOption] in H.
  destruct (use_empty f (c, x)) eqn:UE.
  - inversion H; subst f'; clear H.
    split; [apply stays_erase|].
    split; [apply entry_no_phi_erase|]; split; [apply ordered_erase|].
    intros [u [Hu M]]; exfalso.
    apply (proj1 (use_empty_spec f (c, x)) UE u Hu M).
  - destruct (entry_front e f W En)
      as (bb & tl & front & l0 & Ef & Eb & EI & Hfront).
    replace (hd_error f) with (Some bb) in H by (rewrite Ef; reflexivity).
    cbn [hd_error bind ofOption] in H; rewrite EI in H.
    cbn [hd_error bind ofOption] in H.
    cbn [snd] in H; rewrite Tx in H.
    set (t := ity x) in *.
    set (Slot := fresh_iid f) in *.
    set (SlotA := mkInst Slot (PointerTy t) (Alloca t)) in *.
    set (f1 := insertBefore f (iid front) SlotA) in *.
    assert (Ins0 : inserted e SlotA f f1)
      by (apply (insertBefore_inserted f (iid front) SlotA e front); auto).
    assert (W1 : WF f1).
    { apply (WF_inserted e SlotA f f1 W Ins0); [apply le_n | reflexivity|].
      intros x0 []. }
    assert (NS : Slot <> iid x).
    { pose proof (fresh_iid_located f c x Hx); unfold Slot; lia. }
    assert (R1 : rinv e Slot (iid x :: X) f1).
    { constructor; [exact W1| | |].
      - apply (entry_is_bids e f); [apply (inserted_bids _ _ _ _ Ins0) | exact En].
      - exists SlotA; split; [|split; reflexivity].
        apply (inserted_In e SlotA f f1 _ Ins0); left; reflexivity.
      - apply (confined_inserted e e SlotA f f1 _ Ins0); auto.
        + apply fresh_not_mentioned, le_n.
        + intros x0 j []. }
    assert (P01 : persists e f f1).
    { apply (persists_inserted e e SlotA f f1 Ins0); auto. }
    assert (HUs : forall U0, In U0 (users f (c, x)) ->
                    has_id f1 U0 /\ U0 <> Slot).
    { intros U0 HU; apply users_spec in HU; destruct HU as [u [Hu [Eu _]]].
      split.
      - exists u; split; [|exact Eu].
        apply (inserted_In e SlotA f f1 _ Ins0); right; exact Hu.
      - destruct u as [d u]; simpl in Eu; subst U0.
        pose proof (fresh_iid_located f d u Hu); unfold Slot; lia. }
    destruct (reload_users_spec e Slot (iid x :: X) t vol (iid x)
                (users f (c, x)) f1 R1 NS (p_reg _ _ _ P01 _ RI0))
      as [f2 [E2 [R2 [P2 UL]]]].
    { intros U0 HU; apply (HUs U0 HU). }
    rewrite E2 in H; cbn [bind] in H.
    destruct (reload_users_more e Slot (iid x :: X) t vol (iid x)
                (users f (c, x)) f1 f2 R1 NS (p_reg _ _ _ P01 _ RI0) HUs E2)
      as (K2 & M2 & N2 & S2).
    pose proof (r_wf _ _ _ _ R2) as W2.
    destruct (p_reg _ _ _ P2 _ (p_reg _ _ _ P01 _ RI0))
      as [[c2 x2] [H2 [E2x [P2x T2x]]]]; simpl in E2x, P2x, T2x.
    set (St := mkInst (fresh_iid f2) VoidTy
                 (Store (VInst (iid x)) (VInst Slot))) in *.
    destruct (inBlock_insert_after f2 c2 x2 St W2 H2 T2x)
      as [f3 [E3 Ins3]].
    rewrite E2x in E3; rewrite E3 in H; inversion H; subst f'; clear H.
    assert (Inc01 : incl (located f) (located f1)).
    { intros j Hj; apply (inserted_In e SlotA f f1 _ Ins0); auto. }
    assert (Inc23 : incl (located f2) (located f3)).
    { intros j Hj; apply (inserted_In c2 St f2 f3 _ Ins3); auto. }
    assert (K : keeps (iid x) f f3).
    { apply (keeps_trans _ f f1); [apply keeps_incl, Inc01|].
      apply (keeps_trans _ f1 f2 f3 K2), keeps_incl, Inc23. }
    assert (Sf1 : slot_first Slot f1).
    { exists (mkBB (bid bb) (SlotA :: front :: l0)),
        (insertBefore tl (iid front) SlotA), SlotA, (front :: l0).
      split; [|split; reflexivity].
      unfold f1; rewrite Ef; unfold insertBefore; simpl; rewrite EI; simpl.
      rewrite Nat.eqb_refl; reflexivity. }
    destruct (S2 Sf1) as [Sf2 O12].
    split; [apply stays_keeps, K|]; split; [|split].
    + intros Hn.
      apply (entry_no_phi_inserted e c2 St f2 f3 Ins3 eq_refl), N2.
      apply (entry_no_phi_inserted e e SlotA f f1 Ins0 eq_refl Hn).
    + intros O.
      apply (ordered_store_insert e Slot (iid x) f2 f3 (fresh_iid f2) W2
               (r_slot _ _ _ _ R2) Sf2 NS (le_n _)); [|exact E3].
      apply O12, ordered_insertBefore; [exact O| |].
      * apply fresh_not_mentioned, le_n.
      * intros _ b0 l1 p l2 _ _ _ x0 [].
    + intros _; split; [exact K|]; split; [|split].
      * apply (ment_kept_trans _ f f1); [apply ment_kept_incl, Inc01|].
        apply (ment_kept_trans _ f1 f2 f3 M2), ment_kept_incl, Inc23.
      * intros y Hy; apply (has_id_inserted c2 St f2 f3 y Ins3).
        apply (p_ids _ _ _ P2), (p_ids _ _ _ P01), Hy.
      * intros d x' Hx' Ex' Nx'.
        assert (X0 : (d, x') = (c, x)) by (apply (uniq_ids_same f); auto).
        inversion X0; subst d x'; clear X0.
        split; [apply K; auto|].
        assert (Hx2 : In (c, x) (located f2))
          by (apply K2; [apply Inc01, Hx | exact Px | exact Nx']).
        assert (X1 : (c2, x2) = (c, x)).
        { apply (uniq_ids_same f2); [apply (wf_ids f2 W2) | exact H2 |
                                     exact Hx2 | exact E2x]. }
        inversion X1; subst c2 x2; clear X1.
        exists (fresh_iid f2); split; [|split].
        -- apply Inc23, K2; [|reflexivity | intros []].
           apply (inserted_In e SlotA f f1 _ Ins0); left; reflexivity.
        -- apply (inserted_In c St f2 f3 _ Ins3); left; reflexivity.
        -- destruct (slot_operand e Slot f2 W2 (r_slot _ _ _ _ R2)) as [L _].
           exact L.
Qed.

(** ** The demotion of a PHI node *)

(** The terminator of a block is its last instruction. *)
Lemma terminator_last f B term bb l1 p l2 :
  WF f -> terminatorOf f B = Ok term ->
  In bb f -> insts bb = l1 ++ p :: l2 -> iid p = iid term ->
  p = term /\ l2 = [].
Proof.
  intros W Et Hb E Ep.
  destruct (terminatorOf_inv f B term Et) as (bb0 & l & G & El & _).
  pose proof (getBlock_Some f B bb0 G) as [Hb0 Eb0].
  assert (Hp : In (bid bb, p) (located f)).
  { apply In_located; exists bb; repeat split; auto.
    rewrite E; apply in_app_iff; right; left; reflexivity. }
  assert (Ht : In (B, term) (located f)).
  { apply In_located; exists bb0; repeat split; auto.
    rewrite El; apply in_app_iff; right; left; reflexivity. }
  pose proof (uniq_ids_same f _ _ _ _ (wf_ids f W) Hp Ht Ep) as X0.
  inversion X0; subst p.
  assert (Ebb : bb = bb0).
  { pose proof (getBlock_In f bb (wf_bids f W) Hb) as G'.
    rewrite H0 in G'; congruence. }
  subst bb0; split; [reflexivity|].
  pose proof (block_ids_NoDup f bb (wf_ids f W) Hb) as ND.
  assert (El' : insts bb = l ++ term :: []) by exact El.
  destruct (split_unique _ _ _ _ _ _ _ ND E El' eq_refl) as [_ [_ K]].
  exact K.
Qed.

Lemma store_incoming_more e Slot X c phi :
  forall inc f f',
    rinv e Slot X f ->
    In (c, phi) (located f) -> incl inc (incomingOf (ikind phi)) ->
    store_incoming f Slot inc = Ok f' ->
    incl (located f) (located f') /\
    (entry_no_phi e f -> entry_no_phi e f') /\
    (ordered f -> ordered f').
Proof.
  induction inc as [|[v B] inc IH]; intros f f' R Hphi Hinc H.
  - simpl in H; inversion H; subst f'.
    split; [apply incl_refl|]; auto.
  - pose proof (r_wf _ _ _ _ R) as W.
    assert (HvB : In (v, B) (incomingOf (ikind phi)))
      by (apply Hinc; left; reflexivity).
    assert (HB : In B (map bid f))
      by (apply (wf_phi f W c phi v B Hphi HvB)).
    destruct (terminatorOf_ok f B W HB) as [term [Et Ht]].
    destruct (store_incoming_spec e Slot X c phi [(v, B)] f R Hphi)
      as [f1 [E1 [R1 [_ Hphi1]]]].
    { intros y [<-|[]]; exact HvB. }
    cbn [store_incoming] in H, E1; rewrite Et in H, E1; cbn [bind] in H, E1.
    inversion E1 as [E1']; rewrite E1' in H.
    set (St := mkInst (fresh_iid f) VoidTy (Store v (VInst Slot))) in *.
    assert (Ins : inserted B St f f1).
    { rewrite <- E1'.
      apply (insertBefore_inserted f (iid term) St B term);
        [apply (wf_ids f W) | exact Ht | reflexivity]. }
    destruct (IH f1 f' R1 Hphi1) as (A & B1 & C); [|exact H|].
    { intros y Hy; apply Hinc; right; exact Hy. }
    assert (K : ikind phi = PHI (incomingOf (ikind phi))).
    { destruct (ikind phi); try (destruct HvB); reflexivity. }
    assert (Mv : forall x, v = VInst x ->
               In (VInst x) (operands (ikind phi))).
    { intros x ->; rewrite K; simpl.
      apply in_map_iff; exists (VInst x, B); auto. }
    split; [|split].
    + intros j Hj; apply A, (inserted_In B St f f1 _ Ins); auto.
    + intros Hn; apply B1.
      apply (entry_no_phi_inserted e B St f f1 Ins eq_refl Hn).
    + intros O; apply C; rewrite <- E1'.
      apply ordered_insertBefore; [exact O| |].
      * apply fresh_not_mentioned, le_n.
      * intros _ bb l1 p l2 Hb E Ep x Hx.
        destruct (terminator_last f B term bb l1 p l2 W Et Hb E Ep)
          as [-> ->].
        destruct (terminatorOf_inv f B term Et) as (_ & _ & _ & _ & Tt).
        unfold St in Hx; cbn [ikind operands In] in Hx.
        cbn [map In]; intros [Hi|[Hi|[]]].
        -- unfold St in Hi; cbn [iid] in Hi.
           destruct Hx as [Hx|[Hx|[]]].
           ++ pose proof (fresh_iid_operand f c phi x Hphi (Mv x Hx)); lia.
           ++ assert (Ex : x = Slot) by (inversion Hx; reflexivity).
              destruct (slot_operand e Slot f W (r_slot _ _ _ _ R)) as [L _].
              lia.
        -- destruct Hx as [Hx|[Hx|[]]].
           ++ rewrite (operand_not_terminator f c phi x (wf_unused f W) Hphi
                         (Mv x Hx) B term Ht Hi) in Tt; discriminate.
           ++ assert (Ex : x = Slot) by (inversion Hx; reflexivity).
              rewrite Ex in Hi.
              apply (terminator_not_slot e Slot f B term W
                       (r_slot _ _ _ _ R) Et Ht Hi).
Qed.

(** Between a PHI node and the load that takes its place there are PHI
    nodes only. *)
Lemma behind_phis p Ld q a u b :
  NoDup (map iid (p ++ Ld :: q)) ->
  Forall (fun j => isa_PHINode (ikind j) = true) p ->
  p ++ Ld :: q = a ++ u :: b ->
  In (iid Ld) (map iid (u :: b)) ->
  isa_PHINode (ikind u) = true \/ u = Ld.
Proof.
  revert a; induction p as [|y p IH]; intros a N F E H.
  - destruct a as [|a0 a]; simpl in E; inversion E; [right; reflexivity|].
    exfalso; subst a0 q; simpl in N; inversion N as [|? ? Hn _]; apply Hn.
    rewrite map_app; apply in_app_iff; right; exact H.
  - inversion F as [|? ? Py F']; subst.
    destruct a as [|a0 a]; simpl in E; inversion E; [left; congruence|].
    simpl in N; inversion N as [|? ? _ N']; subst a0.
    apply (IH a N' F' H2 H).
Qed.

Lemma after_phi l1 x p Ld q a u b :
  NoDup (map iid (l1 ++ x :: p ++ Ld :: q)) ->
  Forall (fun j => isa_PHINode (ikind j) = true) p ->
  l1 ++ x :: p ++ Ld :: q = a ++ u :: b ->
  In (iid Ld) (map iid (u :: b)) ->
  In (iid x) (map iid (u :: b)) \/
  isa_PHINode (ikind u) = true \/ u = Ld.
Proof.
  revert a; induction l1 as [|y l1 IH]; intros a N F E H.
  - destruct a as [|a0 a]; simpl in E; inversion E.
    + left; left; reflexivity.
    + right; simpl in N; inversion N as [|? ? _ N'].
      apply (behind_phis p Ld q a u b N' F H2 H).
  - destruct a as [|a0 a]; simpl in E; inversion E.
    + left; right; rewrite map_app; apply in_app_iff; right; left.
      reflexivity.
    + simpl in N; inversion N as [|? ? _ N'].
      apply (IH a N' F H2 H).
Qed.

Lemma stays_rauw P to f : stays [P] f (replaceAllUsesWith f (VInst P) to).
Proof.
  intros c u Hu [_ [_ N]]; apply In_located_rauw; exists (c, u).
  split; [exact Hu|]; simpl; unfold rauw_inst.
  rewrite replaceUsesOfWith_id by (apply N; left; reflexivity).
  rewrite inst_eta; reflexivity.
Qed.

Lemma DemotePHIToStack_more e X P f ap f' :
  WF f -> entry_is e f -> phi_id f P -> confined e f X ->
  (forall a, ap = Some a -> In (e, a) (located f)) ->
  DemotePHIToStack f P ap = Ok f' ->
  stays [P] f f' /\
  (entry_no_phi e f -> entry_no_phi e f' /\ (ordered f -> ordered f')).
Proof.
  intros W En PI C Hap H.
  destruct PI as [[c x] [Hx [Ex Px]]]; simpl in Ex, Px; subst P.
  pose proof (wf_ids f W) as U.
  assert (Tx : isTerminator (ikind x) = false)
    by (destruct (ikind x); try discriminate; reflexivity).
  unfold DemotePHIToStack in H.
  rewrite (getLInst_uniq f c x U Hx) in H; cbn [bind ofOption] in H.
  destruct (use_empty f (c, x)) eqn:UE.
  - inversion H; subst f'; split; [apply stays_erase|].
    intros Hn; split; [apply entry_no_phi_erase, Hn|].
    apply ordered_erase.
  - cbn [snd] in H.
    set (t := ity x) in *.
    set (Slot := fresh_iid f) in *.
    set (SlotA := mkInst Slot (PointerTy t) (Alloca t)) in *.
    assert (Hpt : exists point,
               match ap with
               | Some a => Ok a
               | None => entry <- ofOption (hd_error f) ;;
                         ofOption (hd_error (insts entry))
               end = Ok point /\ In (e, point) (located f)).
    { destruct ap as [a|]; [exists a; split; auto|].
      destruct (entry_front e f W En)
        as (bb & tl & front & l0 & Ef & Eb & EI & Hfront).
      exists front; rewrite Ef; cbn [hd_error bind ofOption]; rewrite EI.
      rewrite <- Ef; split; [reflexivity | exact Hfront]. }
    destruct Hpt as [point [Ept Hpoint]]; rewrite Ept in H; cbn [bind] in H.
    set (f1 := insertBefore f (iid point) SlotA) in *.
    assert (Ins0 : inserted e SlotA f f1)
      by (apply (insertBefore_inserted f (iid point) SlotA e point); auto).
    assert (W1 : WF f1).
    { apply (WF_inserted e SlotA f f1 W Ins0); [apply le_n | reflexivity|].
      intros x0 []. }
    assert (R1 : rinv e Slot X f1).
    { constructor; [exact W1| | |].
      - apply (entry_is_bids e f); [apply (inserted_bids _ _ _ _ Ins0) | exact En].
      - exists SlotA; split; [|split; reflexivity].
        apply (inserted_In e SlotA f f1 _ Ins0); left; reflexivity.
      - apply (confined_inserted e e SlotA f f1 _ Ins0); auto.
        + apply fresh_not_mentioned, le_n.
        + intros x0 j []. }
    assert (Hx1 : In (c, x) (located f1))
      by (apply (inserted_In e SlotA f f1 _ Ins0); right; exact Hx).
    destruct (store_incoming_spec e Slot X c x (incomingOf (ikind x)) f1 R1
                Hx1 (incl_refl _)) as [f2 [E2 [R2 [P12 Hx2]]]].
    rewrite E2 in H; cbn [bind] in H.
    destruct (store_incoming_more e Slot X c x (incomingOf (ikind x)) f1 f2
                R1 Hx1 (incl_refl _) E2) as (A2 & N2 & O2).
    pose proof (r_wf _ _ _ _ R2) as W2.
    set (V := fresh_iid f2) in *.
    set (Ld := mkInst V t (Load (VInst Slot) false)) in *.
    destruct (inBlock_insert_from f2 c x Ld W2 Hx2) as [f3 [E3 Ins3]].
    rewrite E3 in H; cbn [bind] in H; inversion H; subst f'; clear H.
    assert (W3 : WF f3).
    { apply (WF_inserted c Ld f2 f3 W2 Ins3); [apply le_n | reflexivity|].
      unfold Ld; cbn [ikind operands In].
      intros x0 [Hx0|[]]; inversion Hx0; subst x0.
      apply (slot_operand e Slot f2 W2 (r_slot _ _ _ _ R2)). }
    assert (Inc01 : incl (located f) (located f1)).
    { intros j Hj; apply (inserted_In e SlotA f f1 _ Ins0); auto. }
    assert (Inc23 : incl (located f2) (located f3)).
    { intros j Hj; apply (inserted_In c Ld f2 f3 _ Ins3); auto. }
    assert (NSx : Slot <> iid x).
    { pose proof (fresh_iid_located f c x Hx); unfold Slot; lia. }
    split.
    { intros d u Hu Un; apply stays_erase; [|exact Un].
      apply stays_rauw; [|exact Un].
      apply Inc23, A2, Inc01, Hu. }
    intros Hn.
    assert (Hn2 : entry_no_phi e f2).
    { apply N2, (entry_no_phi_inserted e e SlotA f f1 Ins0 eq_refl Hn). }
    split.
    { apply entry_no_phi_erase, entry_no_phi_rauw.
      apply (entry_no_phi_inserted e c Ld f2 f3 Ins3 eq_refl Hn2). }
    intros O.
    assert (Or2 : ordered f2).
    { apply O2, ordered_insertBefore; [exact O| |].
      - apply fresh_not_mentioned, le_n.
      - intros _ b0 l1 p l2 _ _ _ x0 []. }
    assert (Nce : c <> e).
    { intros ->; rewrite (Hn2 x Hx2) in Px; discriminate. }
    destruct (inBlock_inv _ _ _ _ E3)
      as (pre & bb & post & l' & Ef2 & _ & Eg & Ef3).
    destruct (insert_from_inv _ _ _ _ Eg)
      as (l1 & x' & l2 & p & q & El & Ex' & Epq & Fp & El' & y & q' & Eq & Py).
    assert (Hb : In bb f2) by (rewrite Ef2; apply in_app_iff; right; left; auto).
    assert (X0 : (bid bb, x') = (c, x)).
    { apply (uniq_ids_same f2); [apply (wf_ids f2 W2)| |exact Hx2 | exact Ex'].
      apply In_located; exists bb; repeat split; auto.
      rewrite El; apply in_app_iff; right; left; reflexivity. }
    inversion X0 as [[Ebc Exx]]; subst x'; clear X0.
    destruct p as [|p0 p'].
    { exfalso; simpl in Epq; rewrite Eq in Epq; inversion Epq; subst y.
      congruence. }
    simpl in Epq; inversion Epq; subst p0; clear Epq.
    pose proof (Forall_inv_tail Fp) as Fp'.
    subst q l2 l'.
    destruct (r_slot _ _ _ _ R2) as [sa [Hsa [Esa _]]].
    assert (Or3 : ordered f3).
    { rewrite Ef3.
      assert (Or2' : ordered (pre ++ bb :: post))
        by (rewrite <- Ef2; exact Or2).
      apply (ordered_block pre bb post _ _ Or2').
      replace (l1 ++ (x :: p') ++ Ld :: y :: q')
        with ((l1 ++ x :: p') ++ Ld :: y :: q')
        by (rewrite <- app_assoc; reflexivity).
      assert (El2 : insts bb = (l1 ++ x :: p') ++ y :: q').
      { rewrite El, <- app_assoc; reflexivity. }
      apply ordered_list_insert.
      - rewrite <- El2; apply Or2, Hb.
      - intros u Hu M; apply (fresh_not_mentioned _ V (le_n _)).
        exists (bid bb, u); split; [|exact M].
        apply In_located; exists bb; split; [exact Hb|].
        split; [reflexivity|].
        rewrite El2; apply in_app_iff; left; exact Hu.
      - cbn [ikind iid operands In map Ld]; intros _ x0 [Hx0|[]].
        inversion Hx0; subst x0; intros [K|K].
        + destruct (slot_operand e Slot _ W2 (r_slot _ _ _ _ R2)) as [L _].
          unfold V in K; lia.
        + apply (other_block _ e sa bb (wf_ids _ W2) Hsa Hb);
            [congruence|].
          rewrite Esa, El2, map_app; apply in_app_iff; right; exact K. }
    apply ordered_erase, ordered_rauw; [exact Or3|].
    intros bb0 a u b Hb0 E0 Pu Mu x0 Ex0 HV.
    inversion Ex0; subst x0; clear Ex0.
    set (B' := mkBB (bid bb) (l1 ++ (x :: p') ++ Ld :: y :: q')) in *.
    assert (HB' : In B' f3)
      by (rewrite Ef3; apply in_app_iff; right; left; reflexivity).
    assert (HLd : In (c, Ld) (located f3))
      by (apply (inserted_In c Ld f2 f3 _ Ins3); left; reflexivity).
    assert (Eb0 : bb0 = B').
    { apply in_map_iff in HV; destruct HV as [j [Ej Hj]].
      assert (Hl : In (bid bb0, j) (located f3)).
      { apply In_located; exists bb0; repeat split; auto.
        rewrite E0; apply in_app_iff; right; exact Hj. }
      pose proof (uniq_ids_same f3 _ _ _ _ (wf_ids f3 W3) Hl HLd Ej) as X1.
      inversion X1 as [[Ec Ejl]].
      pose proof (getBlock_In f3 bb0 (wf_bids f3 W3) Hb0) as G0.
      assert (G1 : getBlock f3 c = Some B').
      { rewrite <- Ebc; change (bid bb) with (bid B').
        apply (getBlock_In f3 B' (wf_bids f3 W3) HB'). }
      rewrite Ec in G0; congruence. }
    subst bb0; unfold B' in E0; cbn [insts] in E0.
    pose proof (block_ids_NoDup f3 B' (wf_ids f3 W3) HB') as ND.
    unfold B' in ND; cbn [insts] in ND.
    assert (E0' : l1 ++ x :: p' ++ Ld :: y :: q' = a ++ u :: b) by exact E0.
    destruct (after_phi l1 x p' Ld (y :: q') a u b ND Fp' E0' HV)
      as [K|[K|K]].
    + apply (ordered_list_split _ a u b (Or3 B' HB') E0 Pu (iid x) Mu K).
    + congruence.
    + subst u; unfold Ld in Mu; cbn [ikind operands In] in Mu.
      destruct Mu as [Mu|[]]; inversion Mu; contradiction.
Qed.

(** ** The two passes of a turn *)

Lemma untouched_cons I Is u :
  untouched (I :: Is) u -> untouched [I] u /\ untouched Is u.
Proof.
  intros [P [N M]]; split; (split; [exact P|]; split).
  - intros [H|[]]; apply N; left; exact H.
  - intros x [<-|[]]; apply M; left; reflexivity.
  - intros H; apply N; right; exact H.
  - intros x Hx; apply M; right; exact Hx.
Qed.

Lemma untouched_app Is Js u :
  untouched (Is ++ Js) u -> untouched Is u /\ untouched Js u.
Proof.
  intros [P [N M]]; split; (split; [exact P|]; split).
  - intros H; apply N, in_app_iff; left; exact H.
  - intros x Hx; apply M, in_app_iff; left; exact Hx.
  - intros H; apply N, in_app_iff; right; exact H.
  - intros x Hx; apply M, in_app_iff; right; exact Hx.
Qed.

Lemma demote_regs_more e X :
  forall regs f f',
    WF f -> entry_is e f -> NoDup regs ->
    (forall x, In x regs -> reg_id f x) ->
    confined e f (regs ++ X) ->
    demote_regs f regs = Ok f' ->
    stays regs f f' /\
    (entry_no_phi e f -> entry_no_phi e f') /\
    (ordered f -> ordered f') /\
    ((forall x, In x regs -> mentions f x) ->
     (forall y, has_id f y -> has_id f' y) /\
     forall c x, In (c, x) (located f) -> In (iid x) regs ->
       operands (ikind x) = [] -> cell_of e f f' c x).
Proof.
  induction regs as [|I regs IH]; intros f f' W En ND HR C H.
  - simpl in H; inversion H; subst f'.
    split; [intros c u Hu _; exact Hu|]; split; [auto|]; split; [auto|].
    intros _; split; [auto | intros c x _ []].
  - cbn [demote_regs] in H.
    destruct (entryTerminator_ok e f W En) as [t [Et _]].
    rewrite Et in H; cbn [bind] in H.
    destruct (DemoteRegToStack_spec e (regs ++ X) (isSome (Some t)) I f W En
                (HR I (or_introl eq_refl)) C)
      as [f1 [E1 [W1 [En1 [C1 D1]]]]].
    rewrite E1 in H; cbn [bind] in H.
    destruct (DemoteRegToStack_more e (regs ++ X) (isSome (Some t)) I f f1
                W En (HR I (or_introl eq_refl)) C E1) as (S1 & N1 & O1 & M1).
    inversion ND as [|? ? NI ND']; subst.
    assert (HR1 : forall x, In x regs -> reg_id f1 x).
    { intros x Hx; apply (d_reg _ _ _ _ D1); [apply HR; right; exact Hx|].
      intros ->; contradiction. }
    destruct (IH f1 f' W1 En1 ND' HR1 C1 H) as (S' & N' & O' & M').
    split; [|split; [auto|split; [auto|]]].
    { intros c u Hu Un; apply untouched_cons in Un; destruct Un as [U1 U2].
      apply S'; [apply S1|]; assumption. }
    intros HM.
    destruct (M1 (HM I (or_introl eq_refl))) as (K1 & MK1 & HI1 & Cr1).
    destruct M' as [HI' Cr'].
    { intros x Hx; apply MK1; [intros ->; contradiction|].
      apply HM; right; exact Hx. }
    split; [intros y Hy; apply HI', HI1, Hy|].
    assert (Lt : forall y, In y (I :: regs) -> y < fresh_iid f).
    { intros y Hy; apply (reg_id_lt f y), HR, Hy. }
    intros c x Hx Hi Ox.
    assert (Px : isa_PHINode (ikind x) = false).
    { destruct (HR (iid x) Hi) as [[c' x'] [Hx' [Ex' [Px' _]]]].
      simpl in Ex', Px'.
      assert (X0 : (c', x') = (c, x)) by (apply (uniq_ids_same f); auto;
        apply (wf_ids f W)).
      inversion X0; subst; exact Px'. }
    destruct Hi as [Hi|Hi].
    + destruct (Cr1 c x Hx (eq_sym Hi)) as [Hx1 [s [Hs1 [Hs2 Ls]]]];
        [rewrite Ox; intros []|].
      split; [|exists (fresh_iid f), s; split; [|split; [|split]]].
      * apply S'; [exact Hx1|].
        split; [exact Px|]; split; [rewrite <- Hi; exact NI|].
        intros y _; rewrite Ox; intros [].
      * intros [j [Hj Ej]]; destruct j as [d j]; simpl in Ej.
        pose proof (fresh_iid_located f d j Hj); lia.
      * intros [j [Hj Ej]]; destruct j as [d j]; simpl in Ej.
        pose proof (fresh_iid_located f d j Hj); lia.
      * apply S'; [exact Hs1|].
        split; [reflexivity|]; split; [|intros y _ []].
        simpl; intros Hy; pose proof (Lt _ (or_intror Hy)); lia.
      * rewrite <- Hi; apply S'; [exact Hs2|].
        split; [reflexivity|]; split.
        -- simpl; intros Hy; pose proof (Lt _ (or_intror Hy)); lia.
        -- simpl; intros y Hy [E|[E|[]]]; inversion E; subst y.
           ++ contradiction.
           ++ pose proof (Lt _ (or_intror Hy)); lia.
    + assert (Hx1 : In (c, x) (located f1)).
      { apply S1; [exact Hx|].
        split; [exact Px|]; split; [|intros y _; rewrite Ox; intros []].
        intros [E|[]]; apply NI; rewrite E; exact Hi. }
      destruct (Cr' c x Hx1 Hi Ox) as [Hx' [Slot [s [Hf [Hg [Hs1 Hs2]]]]]].
      split; [exact Hx'|]; exists Slot, s.
      split; [intros Hy; apply Hf, HI1, Hy|].
      split; [intros Hy; apply Hg, HI1, Hy|]; split; assumption.
Qed.

Lemma demote_phis_more e :
  forall phis f X f',
    WF f -> entry_is e f -> NoDup phis ->
    (forall x, In x phis -> phi_id f x) ->
    confined e f X ->
    demote_phis f phis = Ok f' ->
    stays phis f f' /\
    (entry_no_phi e f -> entry_no_phi e f' /\ (ordered f -> ordered f')).
Proof.
  induction phis as [|P phis IH]; intros f X f' W En ND HP C H.
  - simpl in H; inversion H; subst f'.
    split; [intros c u Hu _; exact Hu | auto].
  - cbn [demote_phis] in H.
    destruct (entryTerminator_ok e f W En) as [t [Et Ht]].
    rewrite Et in H; cbn [bind] in H.
    assert (Hap : forall a, Some t = Some a -> In (e, a) (located f))
      by (intros a Ea; inversion Ea; subst; exact Ht).
    destruct (DemotePHIToStack_spec e X P f (Some t) W En
                (HP P (or_introl eq_refl)) C Hap)
      as [f1 [R1 [E1 [W1 [En1 [C1 [L1 D1]]]]]]].
    rewrite E1 in H; cbn [bind] in H.
    destruct (DemotePHIToStack_more e X P f (Some t) f1 W En
                (HP P (or_introl eq_refl)) C Hap E1) as (S1 & N1).
    inversion ND as [|? ? NI ND']; subst.
    destruct (IH f1 (R1 ++ X) f' W1 En1 ND') as (S' & N'); [|exact C1|exact H|].
    { intros x Hx; apply (d_phi _ _ _ _ D1); split;
        [apply HP; right; exact Hx|].
      intros ->; contradiction. }
    split.
    + intros c u Hu Un; apply untouched_cons in Un; destruct Un as [U1 U2].
      apply S'; [apply S1|]; assumption.
    + intros Hn; destruct (N1 Hn) as [Hn1 O1]; destruct (N' Hn1) as [Hn' O'].
      split; auto.
Qed.

(** ** One turn, the loop *)

Lemma scan_regs_mentioned f e x : In x (snd (scan f e)) -> mentions f x.
Proof.
  intros H; apply scan_reg in H.
  destruct H as [j [Hj [Ej [_ [_ [u [s [Hu [Hs _]]]]]]]]]; subst x.
  exists u; split; [exact Hu | apply (sites_mentions u _ s Hs)].
Qed.

Lemma fixStack_body_more e f f' :
  WF f -> entry_is e f -> fixStack_body e f = Ok f' ->
  (entry_no_phi e f -> entry_no_phi e f' /\ (ordered f -> ordered f')) /\
  forall c x, In (c, x) (located f) ->
    isa_AllocaInst (ikind x) = true -> c <> e ->
    used_outside f (iid x) c ->
    cell_of e f f' c x /\ ~ used_outside f' (iid x) c.
Proof.
  intros W En H; unfold fixStack_body in H.
  destruct (scan_NoDup f e (wf_ids f W)) as [NDp NDr].
  assert (HR : forall x, In x (snd (scan f e)) -> reg_id f x)
    by (intros x Hx; apply (scan_regs_reg_id f e x W Hx)).
  assert (Body : forall X,
            exists f1 f2 R,
              demote_regs f (snd (scan f e)) = Ok f1 /\
              demote_phis f1 (fst (scan f e)) = Ok f2 /\
              WF f1 /\ entry_is e f1 /\
              (forall x, In x (fst (scan f e)) -> phi_id f1 x) /\
              confined e f ((snd (scan f e)) ++ X) /\ confined e f1 X /\
              WF f2 /\ confined e f2 (R ++ X) /\
              (forall r y, In r R -> reg_id f1 y -> y < r)).
  { intros X.
    assert (C0 : confined e f (snd (scan f e) ++ X)).
    { apply (confined_weaken e f (snd (scan f e))); [|apply scan_confined].
      intros y Hy; apply in_app_iff; left; exact Hy. }
    destruct (demote_regs_spec e X (snd (scan f e)) f W En NDr HR C0)
      as [f1 [E1 [W1 [En1 [C1 D1]]]]].
    assert (HP : forall x, In x (fst (scan f e)) -> phi_id f1 x).
    { intros x Hx; apply (da_phi _ _ _ _ D1); split.
      - apply scan_phi in Hx; exact Hx.
      - intros Hr; apply (phi_reg_excl f x (wf_ids f W)).
        + apply scan_phi in Hx; exact Hx.
        + apply (scan_regs_reg_id f e x W Hr). }
    destruct (demote_phis_full e (fst (scan f e)) f1 X W1 En1 NDp HP C1)
      as [f2 [R [E2 [W2 [En2 [C2 [L2 [D2 F2]]]]]]]].
    exists f1, f2, R; tauto. }
  destruct (Body []) as (f1 & f2 & R & E1 & E2 & W1 & En1 & HP & C0 & C1 & _).
  rewrite E1 in H; cbn [bind] in H.
  assert (Ef : f2 = f') by congruence; subst f2.
  destruct (demote_regs_more e [] (snd (scan f e)) f f1 W En NDr HR C0 E1)
    as (S1 & N1 & O1 & M1).
  destruct (demote_phis_more e (fst (scan f e)) f1 [] f' W1 En1 NDp HP C1 E2)
    as (S2 & N2).
  split.
  { intros Hn; destruct (N2 (N1 Hn)) as [Hn' O2]; split; auto. }
  intros c x Hx Ax Nce Uo.
  destruct M1 as [HI1 Cr1]; [intros y Hy; apply (scan_regs_mentioned f e y Hy)|].
  assert (Px : isa_PHINode (ikind x) = false)
    by (destruct (ikind x); try discriminate; reflexivity).
  assert (Ox : operands (ikind x) = [])
    by (destruct (ikind x); try discriminate; reflexivity).
  assert (Tx : isTerminator (ikind x) = false)
    by (destruct (ikind x); try discriminate; reflexivity).
  assert (Hr : In (iid x) (snd (scan f e))).
  { apply scan_reg; exists (c, x); split; [exact Hx|].
    split; [reflexivity|]; split; [exact Px|]; split; [|exact Uo].
    intros [_ Ec]; simpl in Ec; contradiction. }
  destruct (Cr1 c x Hx Hr Ox) as [Hx1 [Slot [s [Hf [Hg [Hs1 Hs2]]]]]].
  assert (Nphi : forall y, ~ has_id f y -> ~ In y (fst (scan f e))).
  { intros y Ny Hy; apply Ny; apply scan_phi in Hy.
    destruct Hy as [j [Hj [Ej _]]]; exists j; auto. }
  assert (NpI : ~ In (iid x) (fst (scan f e))).
  { intros Hy; apply scan_phi in Hy.
    destruct Hy as [[d j] [Hj [Ej Pj]]]; simpl in Ej, Pj.
    assert (X0 : (d, j) = (c, x)) by (apply (uniq_ids_same f); auto;
      apply (wf_ids f W)).
    inversion X0; subst; congruence. }
  assert (Hx' : In (c, x) (located f')).
  { apply S2; [exact Hx1|].
    split; [exact Px|]; split; [exact NpI|].
    intros y _; rewrite Ox; intros []. }
  split.
  { split; [exact Hx'|]; exists Slot, s; split; [exact Hf|].
    split; [exact Hg|]; split.
    - apply S2; [exact Hs1|].
      split; [reflexivity|]; split; [apply Nphi, Hf | intros y _ []].
    - apply S2; [exact Hs2|].
      split; [reflexivity|]; split; [apply Nphi, Hg|].
      simpl; intros y Hy [E|[E|[]]]; inversion E; subst y;
        [contradiction | apply (Nphi Slot Hf Hy)]. }
  set (X := filter (fun y => negb (y =? iid x))
              (map (fun j : linst => iid (snd j)) (located f))).
  destruct (Body X)
    as (g1 & g2 & R' & G1 & G2 & _ & _ & _ & _ & _ & W2 & C2 & F2).
  assert (Eg1 : g1 = f1) by congruence; subst g1.
  assert (Eg2 : g2 = f') by congruence; subst g2.
  intros Uo'.
  destruct (C2 (c, x) Hx' Px Uo') as [[_ Ec]|Hin]; [contradiction|].
  apply in_app_iff in Hin; destruct Hin as [Hin|Hin].
  - assert (Rx : reg_id f1 (iid x)) by (exists (c, x); auto).
    pose proof (F2 _ _ Hin Rx); simpl in *; lia.
  - unfold X in Hin; apply filter_In in Hin; destruct Hin as [_ Hin].
    simpl in Hin; rewrite Nat.eqb_refl in Hin; discriminate.
Qed.

Lemma fixStack_loop_ordered e :
  forall fuel f f',
    WF f -> entry_is e f -> entry_no_phi e f -> ordered f ->
    fixStack_loop fuel e f = Ok f' ->
    WF f' /\ entry_is e f' /\ entry_no_phi e f' /\ ordered f'.
Proof.
  induction fuel as [|fuel IH]; intros f f' W En Hn O H; [discriminate|].
  destruct (fixStack_body_spec e f W En)
    as [f1 [R [E1 [W1 [En1 _]]]]].
  destruct (fixStack_body_more e f f1 W En E1) as [N1 _].
  destruct (N1 Hn) as [Hn1 O1].
  rewrite (fixStack_loop_step fuel e f f1 E1) in H.
  destruct (negb (length (snd (scan f e)) =? 0)
            || negb (length (fst (scan f e)) =? 0)).
  - apply (IH f1 f' W1 En1 Hn1 (O1 O) H).
  - inversion H; subst f'; auto.
Qed.

Lemma fixStack_ordered fuel f f' e :
  WF f -> entry_is e f -> entry_no_phi e f -> ordered f ->
  fixStack fuel f = Ok f' ->
  WF f' /\ entry_is e f' /\ entry_no_phi e f' /\ ordered f'.
Proof.
  intros W En Hn O H; unfold fixStack in H.
  destruct f as [|bb tl]; [discriminate|].
  assert (Eb : bid bb = e) by (inversion En; reflexivity).
  cbn [hd_error ofOption bind] in H; rewrite Eb in H.
  apply (fixStack_loop_ordered e fuel (bb :: tl) f' W En Hn O H).
Qed.

(** ** Dominance when the loop is over *)

Lemma path_through_entry f e d p :
  hd_error (map bid f) = Some e -> path f d p -> In e p.
Proof.
  intros He; induction 1 as [e0 H0|a b p _ IH _].
  - left; congruence.
  - right; exact IH.
Qed.

Lemma entry_dominates f e d :
  hd_error (map bid f) = Some e -> dominates_block f e d.
Proof. intros He p Hp; apply (path_through_entry f e d p He Hp). Qed.

Lemma at_pos_located f c i j : at_pos f c i j -> In (c, j) (located f).
Proof.
  intros [bb [G N]]; apply getBlock_Some in G; destruct G as [Hb Eb].
  apply In_located; exists bb; repeat split; auto.
  apply (nth_error_In _ _ N).
Qed.

(** In a function without PHI node whose blocks are in order, and where
    the storage cells of the first block alone are used outside their
    block, every definition dominates its uses. *)
Lemma dominance_of_order f e :
  uniq_bids f -> entry_is e f -> ordered f -> no_phi f ->
  (forall j, In j (located f) ->
     isUsedOutsideOfBlock f j (fst j) = true ->
     isa_AllocaInst (ikind (snd j)) = true /\ fst j = e) ->
  dominance f.
Proof.
  intros UB En O NP Ex c i D d k U HD HU M.
  pose proof (at_pos_located f c i D HD) as LD.
  pose proof (at_pos_located f d k U HU) as LU.
  pose proof (NP (d, U) LU) as PU; simpl in PU.
  destruct (Nat.eq_dec c d) as [E|E].
  - left; split; [exact E|]; subst d.
    destruct HD as [bb [G ND]], HU as [bb' [G' NU]].
    rewrite G in G'; inversion G'; subst bb'; clear G'.
    apply getBlock_Some in G; destruct G as [Hb _].
    destruct (nth_error_split _ _ NU) as (l1 & l2 & El & Ll).
    pose proof (ordered_list_split _ l1 U l2 (O bb Hb) El PU (iid D) M) as N.
    destruct (Nat.lt_ge_cases i k) as [L|L]; [exact L | exfalso].
    apply N; rewrite El in ND.
    rewrite nth_error_app2 in ND by lia.
    apply nth_error_In in ND; apply in_map; exact ND.
  - right; split; [exact E|].
    assert (Uo : isUsedOutsideOfBlock f (c, D) c = true).
    { apply isUsedOutsideOfBlock_spec; exists (d, U), d.
      split; [exact LU|]; split; [|auto].
      apply (sites_non_phi (d, U) (iid D) d PU); auto. }
    destruct (Ex (c, D) LD Uo) as [_ Ec]; simpl in Ec; subst c.
    apply entry_dominates; exact En.
Qed.

(** When [fixStack] is over, the conditions for dominance are met. *)
Lemma fixStack_dominance fuel f f' e :
  WF f -> entry_is e f -> entry_no_phi e f -> ordered f ->
  fixStack fuel f = Ok f' ->
  dominance f'.
Proof.
  intros W En Hn O H.
  destruct (fixStack_ordered fuel f f' e W En Hn O H) as (W' & En' & _ & O').
  assert (S : scan f' e = ([], [])).
  { unfold fixStack in H; destruct f as [|bb tl]; [discriminate|].
    assert (Eb : bid bb = e) by (inversion En; reflexivity).
    cbn [hd_error ofOption bind] in H; rewrite Eb in H.
    apply (fixStack_loop_exit e fuel _ f' H). }
  assert (NP : no_phi f').
  { intros j Hj; destruct (isa_PHINode (ikind (snd j))) eqn:P; [|reflexivity].
    assert (X : In (iid (snd j)) (fst (scan f' e)))
      by (apply scan_phi; exists j; auto).
    rewrite S in X; destruct X. }
  apply (dominance_of_order f' e (wf_bids f' W') En' O' NP).
  intros j Hj UO; apply isUsedOutsideOfBlock_spec in UO.
  destruct (isa_AllocaInst (ikind (snd j))) eqn:A.
  - destruct (Nat.eq_dec (fst j) e) as [E|E]; [auto | exfalso].
    assert (X : In (iid (snd j)) (snd (scan f' e))).
    { apply scan_reg; exists j.
      split; [exact Hj|]; split; [reflexivity|].
      split; [apply NP, Hj|]; split; [|exact UO].
      intros [_ X]; contradiction. }
    rewrite S in X; destruct X.
  - exfalso.
    assert (X : In (iid (snd j)) (snd (scan f' e))).
    { apply scan_reg; exists j.
      split; [exact Hj|]; split; [reflexivity|].
      split; [apply NP, Hj|]; split; [|exact UO].
      intros [X _]; congruence. }
    rewrite S in X; destruct X.
Qed.

(** ** The values used outside their block and the values collected *)

Lemma filter_length_le {A : Type} (p q r : A -> bool) (l : list A) :
  (forall x, In x l -> p x = true -> q x = true \/ r x = true) ->
  length (filter p l) <= length (filter q l) + length (filter r l).
Proof.
  induction l as [|a l IH]; intros H; simpl; [lia|].
  assert (IH' := IH (fun x Hx => H x (or_intror Hx))).
  pose proof (H a (or_introl eq_refl)) as Ha.
  destruct (p a); [|destruct (q a), (r a); simpl; lia].
  destruct (Ha eq_refl) as [E|E]; rewrite E; simpl;
    [destruct (r a) | destruct (q a)]; simpl; lia.
Qed.

(** A scan collects every value that is used outside its block, the
    storage cells of the first block apart. *)
Lemma escaping_le_collected f e : escaping f e <= collected f e.
Proof.
  unfold escaping, collected, scan; cbn [fst snd]; rewrite !length_map.
  apply filter_length_le; intros j _ H.
  apply andb_prop in H; destruct H as [H1 H2]; rewrite H1, H2.
  destruct (isa_PHINode (ikind (snd j))); [left | right]; [reflexivity|].
  rewrite orb_true_r; reflexivity.
Qed.

Lemma escaping_zero f e : scan f e = ([], []) -> escaping f e = 0.
Proof.
  intros S; pose proof (escaping_le_collected f e) as H.
  assert (Z : collected f e = 0) by (apply collected_zero; exact S).
  lia.
Qed.

(** ** The order of a block through the flattening *)

Lemma ordered_list_prefix l1 l2 : ordered_list (l1 ++ l2) -> ordered_list l1.
Proof.
  induction l1 as [|u l1 IH]; simpl; [auto|].
  intros [H O]; split; [|auto].
  intros P x Hx [Hi|Hi]; apply (H P x Hx); [left; exact Hi | right].
  rewrite map_app; apply in_app_iff; left; exact Hi.
Qed.

Lemma ordered_list_app l1 l2 :
  ordered_list l1 -> ordered_list l2 ->
  (forall u x, In u l1 -> isa_PHINode (ikind u) = false ->
     In (VInst x) (operands (ikind u)) -> ~ In x (map iid l2)) ->
  ordered_list (l1 ++ l2).
Proof.
  induction l1 as [|u l1 IH]; simpl; intros O1 O2 H; [exact O2|].
  destruct O1 as [Hu O1]; split.
  - intros P x Hx [Hi|Hi]; [apply (Hu P x Hx); left; exact Hi|].
    rewrite map_app in Hi; apply in_app_iff in Hi; destruct Hi as [Hi|Hi].
    + apply (Hu P x Hx); right; exact Hi.
    + apply (H u x (or_introl eq_refl) P Hx Hi).
  - apply IH; auto.
    intros u0 x H0; apply (H u0 x); right; exact H0.
Qed.

Lemma ordered_setBlock f i l :
  ordered f -> ordered_list l -> ordered (setBlock f i l).
Proof.
  intros O H bb' Hb'; unfold setBlock, updBlock in Hb'.
  apply in_map_iff in Hb'; destruct Hb' as [bb [<- Hb]].
  destruct (bid bb =? i); [exact H | apply O, Hb].
Qed.

Lemma ordered_getBlock f i bb :
  ordered f -> getBlock f i = Some bb -> ordered_list (insts bb).
Proof. intros O G; apply getBlock_Some in G; apply O, G. Qed.

(** A store and a jump with new names at the end of a block. *)
Lemma append_store_jump_order g i l v LE sv n1 n2 :
  uniq_bids g -> getBlock g i = Some (mkBB i l) ->
  n1 = fresh_iid g ->
  n2 = fresh_iid (insertAtEnd g i (mkInst n1 VoidTy (Store v (VInst sv)))) ->
  sv < fresh_iid g ->
  (forall x, v = VInst x -> x < fresh_iid g) ->
  ordered_list l ->
  ordered_list (l ++ [mkInst n1 VoidTy (Store v (VInst sv));
                      mkInst n2 VoidTy (Br LE)]).
Proof.
  intros B G E1 E2 Hsv Hv O.
  assert (L12 : n1 < n2).
  { rewrite E2.
    apply (fresh_iid_located _ i (mkInst n1 VoidTy (Store v (VInst sv)))).
    rewrite (insertAtEnd_setBlock g i l _ B G).
    apply located_setBlock; [apply (getBlock_bid g i _ G)|].
    right; split; [reflexivity|].
    apply in_app_iff; right; left; reflexivity. }
  apply ordered_list_app; [exact O | |].
  - split; [|split; [|exact I]].
    + intros _ x [Hx|[Hx|[]]] Hi; simpl in Hi.
      * specialize (Hv x Hx); lia.
      * inversion Hx; subst x; lia.
    + intros _ x [].
  - intros u x Hu P Hx Hi.
    assert (X : x < fresh_iid g).
    { apply (fresh_iid_operand g i u x); [|exact Hx].
      apply (getBlock_located g i _ u G Hu). }
    simpl in Hi; lia.
Qed.

(** Terminator rewriting keeps the order of the block it rewrites. *)
Lemma rewrite_terminator_order f i body t LE ld sw sv SW L vol :
  WF f ->
  getBlock f i = Some (mkBB i (body ++ [t])) ->
  isTerminator (ikind t) = true ->
  i <> LE ->
  In (LE, SW) (located f) -> iid SW = sw ->
  In (LE, L) (located f) -> iid L = ld -> ikind L = Load (VInst sv) vol ->
  (forall s, In s (successors (ikind t)) ->
             exists k, findCaseDest (ikind SW) s = Some k) ->
  (getNumSuccessors (ikind t) = 2 -> exists c sT sF, ikind t = CondBr c sT sF) ->
  exists l',
    rewrite_terminator LE ld sw f i = Ok (setBlock f i l') /\
    (ordered_list (body ++ [t]) -> ordered_list l').
Proof.
  intros W G T Ni HSW Esw HL Eld KL Res Cnd.
  pose proof (WF_WF0 f W) as W0.
  pose proof (getBlock_bid f i _ G) as Hi.
  assert (Same : setBlock f i (body ++ [t]) = f)
    by (apply (setBlock_same f i (mkBB i (body ++ [t])) G (wf_bids f W))).
  assert (Ht : In (i, t) (located f)).
  { apply (getBlock_located f i _ t G), in_app_iff; right; left; reflexivity. }
  unfold rewrite_terminator; rewrite G; cbn [bind ofOption].
  rewrite (getTerminator_app i body t T); cbn [bind ofOption].
  unfold getNumSuccessors in *; unfold getSuccessor.
  destruct (successors (ikind t)) as [|s0 [|s1 [|s2 ss]]] eqn:S;
    cbn [length Nat.eqb nth_error bind ofOption].
  - exists (body ++ [t]); rewrite Same; split; [reflexivity | auto].
  - rewrite (erase_setBlock f i body t [] (wf_bids f W) (wf_ids f W) G).
    rewrite app_nil_r.
    set (f1 := setBlock f i body).
    assert (W1 : WF0 f1).
    { unfold f1; rewrite <- (app_nil_r body).
      rewrite <- (erase_setBlock f i body t [] (wf_bids f W) (wf_ids f W) G).
      apply WF0_erase; exact W0. }
    assert (G1 : getBlock f1 i = Some (mkBB i body))
      by (apply getBlock_setBlock_eq; exact Hi).
    assert (HSW1 : In (LE, SW) (located f1))
      by (apply located_setBlock; auto).
    assert (HL1 : In (LE, L) (located f1))
      by (apply located_setBlock; auto).
    rewrite <- Esw, (getInst_uniq f1 LE SW (wf0_ids f1 W1) HSW1).
    cbn [bind ofOption].
    destruct (Res s0 (or_introl eq_refl)) as [k Hk]; rewrite Hk.
    cbn [bind ofOption].
    rewrite <- Eld, (getInst_uniq f1 LE L (wf0_ids f1 W1) HL1).
    cbn [bind ofOption]; rewrite KL; cbn [bind ofOption getPointerOperand].
    destruct (append_store_jump f1 i body (VConstInt 32 k) LE sv L LE vol
                W1 G1 HL1 KL) as [n1 [n2 [E1 [E2 [E3 W3]]]]].
    { intros x Hx; discriminate. }
    rewrite <- E1, <- E2, E3.
    unfold f1 in E3 |- *; rewrite setBlock_twice.
    eexists; split; [reflexivity|].
    intros O.
    apply (append_store_jump_order f1 i body (VConstInt 32 k) LE sv n1 n2
             (wf0_bids f1 W1) G1 E1 E2).
    + apply (fresh_iid_operand f1 LE L sv HL1); rewrite KL; left; reflexivity.
    + intros x Hx; discriminate.
    + apply (ordered_list_prefix body [t] O).
  - destruct (Cnd eq_refl) as [c [sT [sF K]]].
    rewrite K in S; simpl in S; inversion S; subst s0 s1; clear S.
    rewrite <- Esw, (getInst_uniq f LE SW (wf_ids f W) HSW).
    cbn [bind ofOption].
    destruct (Res sT (or_introl eq_refl)) as [kT HkT]; rewrite HkT.
    destruct (Res sF (or_intror (or_introl eq_refl))) as [kF HkF]; rewrite HkF.
    cbn [bind ofOption]; rewrite K; cbn [bind ofOption getCondition].
    set (n0 := fresh_iid f).
    set (Sel := mkInst n0 Int32Ty
                  (Select c (VConstInt 32 kT) (VConstInt 32 kF))).
    assert (WI : WF0 (insertBefore f (iid t) Sel)).
    { apply (WF0_insertBefore f i t Sel);
        [exact W0 | exact Ht | unfold Sel; simpl; lia | reflexivity |].
      intros x [Hx|[Hx|[Hx|[]]]]; try discriminate.
      subst c; split.
      - apply (fresh_iid_operand f i t x Ht); rewrite K; left; reflexivity.
      - apply (operand_not_terminator f i t x (wf_unused f W) Ht).
        rewrite K; left; reflexivity. }
    rewrite (insertBefore_setBlock f i body t [] Sel
               (wf_bids f W) (wf_ids f W) G) in *.
    set (f1 := setBlock f i (body ++ [Sel; t])) in *.
    assert (G1 : getBlock f1 i = Some (mkBB i ((body ++ [Sel]) ++ t :: [])))
      by (rewrite <- app_assoc; apply getBlock_setBlock_eq; exact Hi).
    pose proof (WF0_erase f1 (iid t) WI) as W2.
    rewrite (erase_setBlock f1 i (body ++ [Sel]) t []
               (wf0_bids f1 WI) (wf0_ids f1 WI) G1) in *.
    rewrite app_nil_r in *; unfold f1 in W2 |- *.
    rewrite setBlock_twice in *.
    set (f2 := setBlock f i (body ++ [Sel])) in *.
    assert (G2 : getBlock f2 i = Some (mkBB i (body ++ [Sel])))
      by (apply getBlock_setBlock_eq; exact Hi).
    assert (HL2 : In (LE, L) (located f2))
      by (apply located_setBlock; auto).
    rewrite <- Eld, (getInst_uniq f2 LE L (wf0_ids f2 W2) HL2).
    cbn [bind ofOption]; rewrite KL; cbn [bind ofOption getPointerOperand].
    assert (HS2 : In (i, Sel) (located f2)).
    { apply (getBlock_located f2 i _ Sel G2), in_app_iff; right; left.
      reflexivity. }
    destruct (append_store_jump f2 i (body ++ [Sel]) (VInst n0) LE sv L LE vol
                W2 G2 HL2 KL) as [n1 [n2 [E1 [E2 [E3 W3]]]]].
    { intros x Hx; inversion Hx; subst x; split.
      - apply (fresh_iid_located f2 i Sel HS2).
      - intros d t' Ht' Et'.
        assert (X : (d, t') = (i, Sel))
          by (apply (uniq_ids_same f2); auto; apply (wf0_ids f2 W2)).
        inversion X; reflexivity. }
    rewrite <- E1, <- E2, E3.
    unfold f2 in E3 |- *; rewrite setBlock_twice.
    eexists; split; [reflexivity|].
    intros O.
    apply (append_store_jump_order f2 i (body ++ [Sel]) (VInst n0) LE sv n1 n2
             (wf0_bids f2 W2) G2 E1 E2).
    + apply (fresh_iid_operand f2 LE L sv HL2); rewrite KL; left; reflexivity.
    + intros x Hx; inversion Hx; subst x.
      apply (fresh_iid_located f2 i Sel HS2).
    + apply ordered_list_app.
      * apply (ordered_list_prefix body [t] O).
      * split; [|exact I].
        intros _ x [Hx|[Hx|[Hx|[]]]]; try discriminate.
        subst c; intros [Hn|[]]; simpl in Hn.
        assert (X : x < fresh_iid f).
        { apply (fresh_iid_operand f i t x Ht); rewrite K; left; reflexivity. }
        unfold n0 in Hn; lia.
      * intros u x Hu P Hx [Hn|[]]; simpl in Hn.
        assert (X : x < fresh_iid f).
        { apply (fresh_iid_operand f i u x); [|exact Hx].
          apply (getBlock_located f i _ u G), in_app_iff; left; exact Hu. }
        unfold n0 in Hn; lia.
  - exists (body ++ [t]); rewrite Same; split; [reflexivity | auto].
Qed.

Lemma recalculate_order LE ld sw sv SW L vol :
  forall bs f,
    WF f -> NoDup bs ->
    (forall b, In b bs -> b <> LE /\ In b (map bid f)) ->
    In (LE, SW) (located f) -> iid SW = sw ->
    In (LE, L) (located f) -> iid L = ld -> ikind L = Load (VInst sv) vol ->
    (forall b bb t,
       In b bs -> getBlock f b = Some bb -> getTerminator bb = Some t ->
       (forall s, In s (successors (ikind t)) ->
                  exists k, findCaseDest (ikind SW) s = Some k) /\
       (getNumSuccessors (ikind t) = 2 ->
        exists c sT sF, ikind t = CondBr c sT sF)) ->
    ordered f ->
    forall f', recalculate_switchVar LE ld sw f bs = Ok f' -> ordered f'.
Proof.
  induction bs as [|i bs IH]; intros f W ND Hbs HSW Esw HL Eld KL Hres O f' H.
  - inversion H; subst f'; exact O.
  - apply NoDup_cons_iff in ND; destruct ND as [Ni ND'].
    destruct (Hbs i (or_introl eq_refl)) as [NiLE Hi].
    destruct (getBlock f i) as [bb|] eqn:G;
      [|apply getBlock_None in G; contradiction].
    destruct (block_shape f i bb (wf_term f W) G) as [body [t [-> [Tt Gt]]]].
    destruct (Hres i _ t (or_introl eq_refl) G Gt) as [Res Cnd].
    destruct (rewrite_terminator_step f i body t LE ld sw sv SW L vol
                W G Tt NiLE HSW Esw HL Eld KL Res Cnd) as [l0 [Er0 [_ W0]]].
    destruct (rewrite_terminator_order f i body t LE ld sw sv SW L vol
                W G Tt NiLE HSW Esw HL Eld KL Res Cnd) as [l' [Er Or]].
    assert (E01 : setBlock f i l0 = setBlock f i l') by congruence.
    rewrite E01 in W0; clear Er0 E01 l0.
    cbn [recalculate_switchVar] in H; rewrite Er in H; cbn [bind] in H.
    set (f1 := setBlock f i l') in *.
    assert (B1 : map bid f1 = map bid f) by apply map_bid_updBlock.
    apply (IH f1); auto.
    + intros b Hb; destruct (Hbs b (or_intror Hb)) as [H1 H2].
      rewrite B1; auto.
    + apply located_setBlock; auto.
    + apply located_setBlock; auto.
    + intros b bb t0 Hb Gb; apply (Hres b bb t0 (or_intror Hb)).
      rewrite <- Gb; symmetry; apply getBlock_setBlock_neq.
      intros ->; contradiction.
    + apply ordered_setBlock; [exact O|].
      apply Or, (ordered_getBlock f i _ O G).
Qed.

(** Instructions up to the incoming blocks of their PHI nodes are in the
    same order. *)
Lemma ordered_list_sim new l l' :
  Forall2 (sim new) l l' -> ordered_list l -> ordered_list l'.
Proof.
  intros S; assert (Ei : map iid l' = map iid l).
  { induction S as [|a b l l' Sab _ IH]; simpl; [reflexivity|].
    destruct (sim_facts new a b Sab) as [E _]; rewrite E, IH; reflexivity. }
  revert Ei; induction S as [|a b l l' Sab S IH]; simpl; intros Ei O;
    [exact I|].
  destruct O as [Ha O]; inversion Ei as [[E1 E2]]; split; [|auto].
  intros P x Hx; rewrite E1, E2.
  destruct Sab as [->|[inc [inc' [_ [-> _]]]]]; [|discriminate].
  apply (Ha P x Hx).
Qed.

Lemma ordered_simF new f f' : simF new f f' -> ordered f -> ordered f'.
Proof.
  unfold simF; intros S; induction S as [|bb bb' f f' [E S1] S IH];
    intros O b Hb; [destruct Hb|].
  destruct Hb as [<-|Hb].
  - apply (ordered_list_sim new (insts bb)); [exact S1|].
    apply O; left; reflexivity.
  - apply IH; [|exact Hb].
    intros b0 H0; apply O; right; exact H0.
Qed.

(** The split of the first block keeps the order of the blocks, and
    leaves no PHI node in the first block when there was none. *)
Lemma entry_preparation_order e rest f1 saved ins :
  WF (e :: rest) -> successors_ok (e :: rest) ->
  ordered (e :: rest) -> entry_no_phi (bid e) (e :: rest) ->
  entry_preparation (e :: rest) (map bid (e :: rest)) = Ok (f1, saved, ins) ->
  ordered f1 /\ entry_no_phi (bid e) f1.
Proof.
  intros W SO O NP Ep.
  destruct (wf_term _ W e (or_introl eq_refl)) as [t T].
  pose proof T as T'; apply getTerminator_Some in T'.
  destruct T' as [l [El Tt]].
  assert (NI : ~ In (bid e) (map bid rest)).
  { pose proof (wf_bids _ W) as B; unfold uniq_bids in B; simpl in B.
    inversion B; auto. }
  destruct (isConditional (ikind t) || (1 <? getNumSuccessors (ikind t)))
    eqn:C.
  2:{ rewrite (entry_preparation_no_split e rest t T C) in Ep.
      inversion Ep; subst; auto. }
  assert (SS : forall s, In s (successors (ikind t)) -> In s (map bid rest)).
  { intros s Hs; apply (SO (bid e) t s); [|exact Hs].
    rewrite located_cons; apply in_app_iff; left; apply in_map.
    rewrite El; apply in_app_iff; right; left; reflexivity. }
  destruct (entry_preparation_split e rest t T NI SS C)
    as [kept [moved [Ek [Sh Ep']]]].
  rewrite Ep' in Ep; inversion Ep; subst f1 saved ins; clear Ep.
  set (new := fresh_bid (e :: rest)) in *.
  set (BI := mkInst (fresh_iid (e :: rest)) VoidTy (Br new)) in *.
  set (R := replaceSuccessorsPhiUsesWith rest (ikind t) (bid e) new) in *.
  assert (SR : simF new rest R) by apply replaceSuccessors_simF.
  assert (Oe : ordered_list (kept ++ moved))
    by (rewrite <- Ek; apply O; left; reflexivity).
  split.
  - intros bb [<-|[<-|Hb]]; simpl.
    + apply ordered_list_app;
        [apply (ordered_list_prefix kept moved Oe) | |].
      * split; [intros _ x [] | exact I].
      * intros u x Hu P Hx [Hn|[]]; simpl in Hn.
        assert (X : x < fresh_iid (e :: rest)).
        { apply (fresh_iid_operand (e :: rest) (bid e) u x); [|exact Hx].
          rewrite located_cons; apply in_app_iff; left; apply in_map.
          rewrite Ek; apply in_app_iff; left; exact Hu. }
        lia.
    + apply (ordered_list_suffix kept moved Oe).
    + apply (ordered_simF new rest R SR); [|exact Hb].
      intros b0 H0; apply O; right; exact H0.
  - intros u; rewrite !located_cons, !in_app_iff; simpl.
    intros [H|[H|H]].
    + apply in_map_iff in H; destruct H as [x [Ex Hx]]; inversion Ex; subst x.
      apply in_app_iff in Hx; destruct Hx as [Hx|[<-|[]]]; [|reflexivity].
      apply NP; rewrite located_cons; apply in_app_iff; left.
      apply in_map; rewrite Ek; apply in_app_iff; left; exact Hx.
    + apply in_map_iff in H; destruct H as [x [Ex Hx]]; inversion Ex.
      exfalso; apply (fresh_bid_notin (e :: rest)); fold new.
      left; symmetry; assumption.
    + exfalso; apply NI.
      rewrite <- (simF_bids new rest R SR).
      apply In_located in H; destruct H as [bb [Hb [Eb _]]].
      rewrite <- Eb; apply in_map; exact Hb.
Qed.

(** What [flatten] hands to [fixStack] is in order when the input of the
    pass is: no block reads a value defined further down, and the first
    block has no PHI node. *)
Lemma flatten_core_order e rest st :
  rest <> [] ->
  WF (e :: rest) -> successors_ok (e :: rest) -> rewritable (e :: rest) ->
  ordered (e :: rest) -> entry_no_phi (bid e) (e :: rest) ->
  flatten_core (e :: rest) = Ok (Some st) ->
  WF (fn st) /\ entry_is (bid e) (fn st) /\
  ordered (fn st) /\ entry_no_phi (bid e) (fn st).
Proof.
  intros Nr W SO RW O NP Ef.
  destruct (flatten_core_prefix
              (fun j => exists c sT sF, ikind j = CondBr c sT sF) e rest
              Nr W SO
              (fun bb t Hb Ht => rewritable_no_invoke _ bb t RW Hb Ht) RW)
    as (pro & t1 & tl1 & sv & s0 & ld & bj & sw & LE & Ep & T1 & W1 & Bt &
        Efc & W2 & Cnd & NLE & F1 & F2 & F3 & F4 & F0).
  destruct (entry_preparation_order e rest _ _ _ W SO O NP Ep) as [O1 NP1].
  set (be := bid e) in *.
  set (E := mkBB be (pro ++ [AllocaSV sv; StoreZero s0 sv; JumpTo bj LE])) in *.
  set (cases := case_table 0 (map bid tl1)) in *.
  set (SW := SwitchOn sw ld LE cases) in *.
  set (LEb := mkBB LE [LoadSV ld sv; SW]) in *.
  set (f2 := E :: LEb :: rev tl1) in *.
  assert (NI : ~ In be (map bid tl1)).
  { pose proof (wf_bids _ W1) as B; inversion B; auto. }
  assert (HEL : be <> LE) by (intros H; apply NLE; left; auto).
  assert (HLE : ~ In LE (map bid tl1)) by (intros H; apply NLE; right; auto).
  assert (B2 : map bid f2 = be :: LE :: rev (map bid tl1))
    by (unfold f2; simpl; rewrite map_rev; reflexivity).
  assert (HSW : In (LE, SW) (located f2)).
  { unfold f2, LEb; rewrite !located_cons; simpl.
    apply in_app_iff; right; right; left; reflexivity. }
  assert (HL : In (LE, LoadSV ld sv) (located f2)).
  { unfold f2, LEb; rewrite !located_cons; simpl.
    apply in_app_iff; right; left; reflexivity. }
  assert (Gtl : forall bb, In bb tl1 -> getBlock f2 (bid bb) = Some bb).
  { intros bb Hb; apply (getBlock_In f2 bb (wf_bids _ W2)).
    right; right; apply in_rev in Hb; exact Hb. }
  assert (NDt : NoDup (map bid tl1)).
  { pose proof (wf_bids _ W1) as B; inversion B; auto. }
  assert (Hbs : forall b, In b (map bid tl1) -> b <> LE /\ In b (map bid f2)).
  { intros b Hb; split; [intros ->; contradiction|].
    rewrite B2; right; right; apply in_rev; rewrite rev_involutive; exact Hb. }
  assert (Hres : forall b bb t,
            In b (map bid tl1) -> getBlock f2 b = Some bb ->
            getTerminator bb = Some t ->
            (forall s, In s (successors (ikind t)) ->
               exists k, findCaseDest (ikind SW) s = Some k) /\
            (getNumSuccessors (ikind t) = 2 ->
             exists c sT sF, ikind t = CondBr c sT sF)).
  { intros b bb t Hb Gb Gt.
    apply in_map_iff in Hb; destruct Hb as [bb0 [Eb0 Hb0]].
    rewrite <- Eb0, (Gtl bb0 Hb0) in Gb; inversion Gb; subst bb0.
    apply (Cnd bb t Hb0 Gt). }
  destruct (recalculate_spec LE ld sw sv SW (LoadSV ld sv) false
              (map bid tl1) f2 W2 NDt Hbs HSW eq_refl HL eq_refl eq_refl Hres)
    as [f3 [E3 [W3 [B3 [Un Rw]]]]].
  rewrite Efc in Ef; fold be E cases SW LEb f2 in Ef.
  rewrite E3 in Ef; cbn [bind] in Ef; inversion Ef; subst st; clear Ef.
  cbn [fn].
  assert (Opro : ordered_list (pro ++ [t1]))
    by (apply (O1 (mkBB be (pro ++ [t1]))); left; reflexivity).
  assert (O2 : ordered f2).
  { intros bb [<-|[<-|Hb]]; simpl.
    - apply ordered_list_app; [apply (ordered_list_prefix pro [t1] Opro) | |].
      + split; [intros _ x []|]; split; [|split; [intros _ x [] | exact I]].
        intros _ x [Hx|[Hx|[]]]; [discriminate|].
        inversion Hx; subst x; simpl; lia.
      + intros u x Hu P Hx Hi.
        assert (X : x < fresh_iid (mkBB be pro :: tl1)).
        { apply (fresh_iid_operand _ be u x); [|exact Hx].
          rewrite located_cons; apply in_app_iff; left; apply in_map.
          exact Hu. }
        simpl in Hi; lia.
    - split; [|split; [|exact I]].
      + intros _ x [Hx|[]]; inversion Hx; subst x; simpl; lia.
      + intros _ x [Hx|[]]; inversion Hx; subst x; simpl; lia.
    - apply O1; right; apply in_rev; exact Hb. }
  split; [exact W3|]; split; [unfold entry_is; rewrite B3, B2; reflexivity|].
  split.
  - apply (recalculate_order LE ld sw sv SW (LoadSV ld sv) false
             (map bid tl1) f2 W2 NDt Hbs HSW eq_refl HL eq_refl eq_refl
             Hres O2 f3 E3).
  - intros u Hu; apply In_located in Hu; destruct Hu as [bb [Hb [Eb Hu]]].
    pose proof (getBlock_In f3 bb (wf_bids f3 W3) Hb) as G3.
    rewrite Eb, (Un be NI) in G3.
    assert (GE : getBlock f2 be = Some E)
      by (unfold getBlock, f2; simpl; unfold be; rewrite Nat.eqb_refl;
          reflexivity).
    rewrite GE in G3; inversion G3; subst bb; simpl in Hu.
    apply in_app_iff in Hu; destruct Hu as [Hu|[<-|[<-|[<-|[]]]]];
      try reflexivity.
    apply NP1; rewrite located_cons; apply in_app_iff; left.
    apply in_map; simpl; apply in_app_iff; left; exact Hu.
Qed.

(** ** The values used outside their block, through the edits *)

Lemma shrinks_refl e f : shrinks e f f.
Proof. intros y H; exact H. Qed.

Lemma shrinks_trans e f1 f2 f3 :
  shrinks e f1 f2 -> shrinks e f2 f3 -> shrinks e f1 f3.
Proof. intros A B y H; apply A, B, H. Qed.

Lemma shrinks_inserted e c new f f' :
  inserted c new f f' ->
  isa_PHINode (ikind new) = false ->
  ~ mentions f (iid new) ->
  ~ In (VInst (iid new)) (operands (ikind new)) ->
  (forall x j, In (VInst x) (operands (ikind new)) ->
     In j (located f) -> iid (snd j) = x ->
     fst j = c \/ entry_alloca e j \/ used_outside f x (fst j)) ->
  shrinks e f f'.
Proof.
  intros I NP NM NS Op y [j [Hj [Ej [NA [u [s [Hu [Hs Ns]]]]]]]].
  apply (inserted_In c new f f' _ I) in Hj, Hu.
  destruct Hu as [->|Hu].
  - apply sites_non_phi in Hs; [|exact NP]; simpl in Hs; destruct Hs as [-> Hs].
    destruct Hj as [->|Hj]; [simpl in Ej; subst y; contradiction|].
    destruct (Op y j Hs Hj Ej) as [H|[H|H]];
      [congruence | contradiction |].
    exists j; auto.
  - destruct Hj as [->|Hj].
    + exfalso; apply NM; exists u; split; [exact Hu|].
      simpl in Ej; subst y; apply (sites_mentions u _ s Hs).
    + exists j; split; [exact Hj|]; split; [exact Ej|]; split; [exact NA|].
      exists u, s; auto.
Qed.

Lemma shrinks_erase e f x : shrinks e f (eraseFromParent f x).
Proof.
  intros y [j [Hj [Ej [NA [u [s [Hu [Hs Ns]]]]]]]].
  apply In_located_erase in Hj, Hu; destruct Hj as [Hj _], Hu as [Hu _].
  exists j; split; [exact Hj|]; split; [exact Ej|]; split; [exact NA|].
  exists u, s; auto.
Qed.

Lemma shrinks_retarget e f c u0 v I :
  uniq_ids f ->
  In (c, u0) (located f) -> isa_PHINode (ikind u0) = false ->
  In (c, v) (located f) ->
  shrinks e f
    (updInst f (iid u0) (replaceUsesOfWith (VInst I) (VInst (iid v)))).
Proof.
  intros U Hu0 Pu0 Hv y [j' [Hj' [Ej' [NA' [u' [s [Hu' [Hs Ns]]]]]]]].
  apply In_located_updInst in Hj', Hu'.
  destruct Hj' as [j [Hj ->]], Hu' as [u [Hu ->]]; simpl in *.
  rewrite upd_inst_iid in *.
  exists j; split; [exact Hj|]; split; [exact Ej'|]; split.
  - intros [A B]; apply NA'; split; [|exact B]; simpl.
    unfold upd_inst; destruct (iid (snd j) =? iid u0); simpl;
      [rewrite isa_AllocaInst_replace|]; exact A.
  - destruct (Nat.eq_dec (iid (snd u)) (iid u0)) as [E|E].
    + assert (X0 : u = (c, u0)).
      { destruct u as [d u1]; apply (uniq_ids_same f); auto. }
      subst u; simpl in *; rewrite upd_inst_same in Hs by reflexivity.
      apply sites_non_phi in Hs;
        [|simpl; rewrite isa_PHINode_replace; exact Pu0].
      simpl in Hs; destruct Hs as [-> Hs].
      apply In_operands_replace in Hs; destruct Hs as [[Hs _]|[Ev _]].
      * exists (c, u0), c; repeat split; auto.
        apply sites_non_phi; auto.
      * inversion Ev as [Ev'].
        assert (X1 : j = (c, v)).
        { destruct j as [b j0]; apply (uniq_ids_same f); auto.
          simpl in *; congruence. }
        subst j; simpl in Ns; contradiction.
    + rewrite upd_inst_other in Hs by exact E.
      exists u, s; destruct u; auto.
Qed.

Lemma isa_AllocaInst_setIncoming inc k :
  isa_AllocaInst (setIncomingValues inc k) = isa_AllocaInst k.
Proof. destruct k; reflexivity. Qed.

Lemma shrinks_setIncoming e f c u0 inc inc' :
  uniq_ids f ->
  In (c, u0) (located f) -> ikind u0 = PHI inc ->
  (forall v B, In (v, B) inc' ->
     In (v, B) inc \/
     exists ldi, v = VInst (iid ldi) /\ In (B, ldi) (located f)) ->
  shrinks e f (updInst f (iid u0) (setIncomingValues inc')).
Proof.
  intros U Hu0 Ku0 Hinc y [j' [Hj' [Ej' [NA' [u' [s [Hu' [Hs Ns]]]]]]]].
  apply In_located_updInst in Hj', Hu'.
  destruct Hj' as [j [Hj ->]], Hu' as [u [Hu ->]]; simpl in *.
  rewrite upd_inst_iid in *.
  exists j; split; [exact Hj|]; split; [exact Ej'|]; split.
  - intros [A B]; apply NA'; split; [|exact B]; simpl.
    unfold upd_inst; destruct (iid (snd j) =? iid u0); simpl;
      [rewrite isa_AllocaInst_setIncoming|]; exact A.
  - destruct (Nat.eq_dec (iid (snd u)) (iid u0)) as [E|E].
    + assert (X0 : u = (c, u0))
        by (destruct u as [d u1]; apply (uniq_ids_same f); auto).
      subst u; simpl in *; rewrite upd_inst_same in Hs by reflexivity.
      apply (sites_phi _ inc') in Hs; [|simpl; rewrite Ku0; reflexivity].
      destruct (Hinc _ _ Hs) as [H|[ldi [Ev Hl]]].
      * exists (c, u0), s; repeat split; auto.
        apply (sites_phi _ inc); auto.
      * inversion Ev as [Ev'].
        assert (X1 : j = (s, ldi)).
        { destruct j as [b j0]; apply (uniq_ids_same f); auto.
          simpl in *; congruence. }
        subst j; simpl in Ns; contradiction.
    + rewrite upd_inst_other in Hs by exact E.
      exists u, s; destruct u; auto.
Qed.

(** The sites of the value that takes the place of [P]. *)
Lemma sites_rauw_to c u P V s :
  In s (sites (c, rauw_inst (VInst P) (VInst V) u) V) ->
  In s (sites (c, u) P) \/ In s (sites (c, u) V).
Proof.
  intros H.
  destruct (isa_PHINode (ikind u)) eqn:Pu.
  - destruct (ikind u) as [| | | |inc| | | | | | | |] eqn:K; try discriminate.
    apply (sites_phi _ (map (fun vb : value * block_id =>
              (replace_value (VInst P) (VInst V) (fst vb), snd vb)) inc)) in H;
      [|simpl; rewrite K; reflexivity].
    apply in_map_iff in H; destruct H as [[w B] [E H]]; simpl in E.
    assert (E1 : replace_value (VInst P) (VInst V) w = VInst V) by congruence.
    assert (E2 : B = s) by congruence.
    clear E; unfold replace_value in E1; subst B.
    destruct (value_eqb w (VInst P)) eqn:Ew.
    + apply value_eqb_eq in Ew; subst w; left.
      apply (sites_phi (c, u) inc P s K); exact H.
    + subst w; right; apply (sites_phi (c, u) inc V s K); exact H.
  - apply sites_non_phi in H;
      [|simpl; rewrite isa_PHINode_replace; exact Pu].
    destruct H as [H1 H2]; simpl in H1, H2.
    apply In_operands_replace in H2.
    destruct H2 as [[H2 _]|[_ H2]]; [right | left];
      apply (sites_non_phi (c, u) _ s Pu); auto.
Qed.

Lemma esc_rauw_erase e f c x V :
  isa_PHINode (ikind x) = true ->
  In (c, x) (located f) ->
  (forall j, In j (located f) -> iid (snd j) = V -> fst j = c) ->
  ~ mentions f V ->
  forall y,
    esc e (eraseFromParent
             (replaceAllUsesWith f (VInst (iid x)) (VInst V)) (iid x)) y ->
    (y <> iid x /\ y <> V /\ esc e f y) \/ (y = V /\ esc e f (iid x)).
Proof.
  intros Px Hx HV NM y [j' [Hj' [Ej' [NA' [u' [s [Hu' [Hs Ns]]]]]]]].
  apply In_located_erase in Hj', Hu'.
  destruct Hj' as [Hj' Nj], Hu' as [Hu' _].
  apply In_located_rauw in Hj', Hu'.
  destruct Hj' as [[b j] [Hj ->]], Hu' as [[d u] [Hu ->]]; simpl in *.
  assert (NA : ~ entry_alloca e (b, j)).
  { intros [A B]; apply NA'; split; [|exact B]; simpl in *.
    rewrite isa_AllocaInst_replace; exact A. }
  destruct (Nat.eq_dec y V) as [E|E].
  - right; split; [exact E|].
    assert (Ej : iid j = V) by congruence.
    pose proof (HV (b, j) Hj Ej) as Eb; simpl in Eb.
    rewrite Eb in Ns; rewrite E in Hs.
    exists (c, x); split; [exact Hx|]; split; [reflexivity|]; split.
    + intros [A _]; simpl in A.
      destruct (ikind x); discriminate.
    + destruct (sites_rauw_to d u (iid x) V s Hs) as [H|H].
      * exists (d, u), s; auto.
      * exfalso; apply NM; exists (d, u); split; [exact Hu|].
        apply (sites_mentions (d, u) V s H).
  - left; split; [congruence|]; split; [exact E|].
    exists (b, j); split; [exact Hj|]; split; [exact Ej'|]; split; [exact NA|].
    apply sites_rauw in Hs; [|exact E].
    exists (d, u), s; auto.
Qed.

(** ** The values used outside their block, through a demotion *)

Lemma load_insert_shrinks e Slot t vol f c pos :
  WF f -> slot_ok e Slot f -> In (c, pos) (located f) ->
  shrinks e f
    (insertBefore f (iid pos) (mkInst (fresh_iid f) t (Load (VInst Slot) vol))).
Proof.
  intros W Sl Hp.
  set (ld := mkInst (fresh_iid f) t (Load (VInst Slot) vol)).
  assert (I : inserted c ld f (insertBefore f (iid pos) ld))
    by (apply (insertBefore_inserted f (iid pos) ld c pos); auto;
        apply (wf_ids f W)).
  destruct (slot_operand e Slot f W Sl) as [Ls Ts].
  apply (shrinks_inserted e c ld f _ I); [reflexivity | | |].
  - apply fresh_not_mentioned; simpl; lia.
  - simpl; intros [Hx|[]]; inversion Hx; lia.
  - simpl; intros x j [Hx|[]] Hj Ej.
    assert (Ex : Slot = x) by (inversion Hx; reflexivity).
    rewrite <- Ex in Ej.
    right; left; apply (slot_entry_alloca e Slot f j W Sl Hj Ej).
Qed.

Lemma reload_incoming_esc e Slot X t vol I :
  forall inc f Loads f' inc',
    rinv e Slot X f ->
    (forall v B, In (v, B) inc -> In B (map bid f)) ->
    reload_incoming f Slot t vol I inc Loads = Ok (f', inc') ->
    shrinks e f f'.
Proof.
  induction inc as [|[v B] inc IH]; intros f Loads f' inc' R HB H.
  - simpl in H; inversion H; subst; apply shrinks_refl.
  - cbn [reload_incoming] in H.
    assert (HB' : forall v B, In (v, B) inc -> In B (map bid f))
      by (intros v0 B0 H0; apply (HB v0 B0); right; exact H0).
    destruct (value_eqb v (VInst I)) eqn:Ev.
    + apply value_eqb_eq in Ev; subst v.
      destruct (find (fun l : block_id * value => fst l =? B) Loads)
        as [l|] eqn:Fl.
      * destruct (reload_incoming f Slot t vol I inc Loads)
          as [[f'' r]| |] eqn:E; cbn [bind] in H; try discriminate.
        inversion H; subst f'' inc'.
        apply (IH f Loads f' r R HB' E).
      * pose proof (r_wf _ _ _ _ R) as W.
        destruct (terminatorOf_ok f B W) as [term [Et Ht]];
          [apply (HB (VInst I) B); left; reflexivity|].
        rewrite Et in H; cbn [bind] in H.
        destruct (load_insert e Slot t vol f B term
                    W (r_entry _ _ _ _ R) (r_slot _ _ _ _ R) Ht)
          as [Ins [W1 [En1 [Sl1 C1]]]].
        pose proof (load_insert_shrinks e Slot t vol f B term W
                      (r_slot _ _ _ _ R) Ht) as S1.
        set (ld := mkInst (fresh_iid f) t (Load (VInst Slot) vol)) in *.
        set (f1 := insertBefore f (iid term) ld) in *.
        assert (R1 : rinv e Slot X f1)
          by (constructor; auto; apply C1, (r_conf _ _ _ _ R)).
        destruct (reload_incoming f1 Slot t vol I inc
                    ((B, VInst (fresh_iid f)) :: Loads))
          as [[f'' r]| |] eqn:E; cbn [bind] in H; try discriminate.
        inversion H; subst f'' inc'.
        assert (HB1 : forall v B, In (v, B) inc -> In B (map bid f1)).
        { intros v0 B0 H0; rewrite (inserted_bids _ _ _ _ Ins).
          apply (HB' v0 B0 H0). }
        apply (shrinks_trans e f f1 f' S1), (IH f1 _ f' r R1 HB1 E).
    + destruct (reload_incoming f Slot t vol I inc Loads)
        as [[f'' r]| |] eqn:E; cbn [bind] in H; try discriminate.
      inversion H; subst f'' inc'.
      apply (IH f Loads f' r R HB' E).
Qed.

Lemma reload_user_esc e Slot X t vol I f c u0 f' :
  rinv e Slot X f -> Slot <> I -> reg_id f I ->
  In (c, u0) (located f) ->
  reload_user f Slot t vol I (iid u0) = Ok f' ->
  shrinks e f f'.
Proof.
  intros R NS RI Hu0 H.
  pose proof (r_wf _ _ _ _ R) as W.
  unfold reload_user in H.
  rewrite (getInst_uniq f c u0 (wf_ids f W) Hu0) in H; cbn [bind ofOption] in H.
  destruct (isa_PHINode (ikind u0)) eqn:Pu.
  - destruct (ikind u0) as [| | | |inc| | | | | | | |] eqn:Ku; try discriminate.
    assert (HB : forall v B, In (v, B) inc -> In B (map bid f)).
    { intros v B Hv; apply (wf_phi f W c u0 v B Hu0); rewrite Ku; exact Hv. }
    destruct (reload_incoming_spec e Slot X t vol I (fresh_iid f) inc f []
                R (le_n _) HB)
      as [f1 [inc' [E [R1 [P1 [Inc [_ [_ Ei]]]]]]]].
    { intros l []. }
    rewrite E in H; cbn [bind] in H; inversion H; subst f'; clear H.
    pose proof (r_wf _ _ _ _ R1) as W1.
    apply (shrinks_trans e f f1).
    + apply (reload_incoming_esc e Slot X t vol I inc f [] f1 inc' R HB E).
    + apply (shrinks_setIncoming e f1 c u0 inc inc' (wf_ids f1 W1)
               (Inc _ Hu0) Ku).
      intros v B Hv; destruct (Ei v B Hv) as [[H1 _]|[ldi [H1 [H2 _]]]];
        [left; exact H1 | right; exists ldi; auto].
  - assert (Km : match ikind u0 with
                 | PHI inc =>
                     ' (f', inc') <- reload_incoming f Slot t vol I inc [];;
                     Ok (updInst f' (iid u0) (setIncomingValues inc'))
                 | _ =>
                     Ok (updInst
                           (insertBefore f (iid u0)
                              (mkInst (fresh_iid f) t (Load (VInst Slot) vol)))
                           (iid u0)
                           (replaceUsesOfWith (VInst I) (VInst (fresh_iid f))))
                 end =
                 Ok (updInst
                       (insertBefore f (iid u0)
                          (mkInst (fresh_iid f) t (Load (VInst Slot) vol)))
                       (iid u0)
                       (replaceUsesOfWith (VInst I) (VInst (fresh_iid f)))))
      by (destruct (ikind u0); try reflexivity; discriminate).
    rewrite Km in H; clear Km; inversion H; subst f'; clear H.
    destruct (load_insert e Slot t vol f c u0 W
                (r_entry _ _ _ _ R) (r_slot _ _ _ _ R) Hu0)
      as [Ins [W1 [En1 [Sl1 C1]]]].
    pose proof (load_insert_shrinks e Slot t vol f c u0 W
                  (r_slot _ _ _ _ R) Hu0) as S1.
    set (ld := mkInst (fresh_iid f) t (Load (VInst Slot) vol)) in *.
    set (f1 := insertBefore f (iid u0) ld) in *.
    apply (shrinks_trans e f f1 _ S1).
    apply (shrinks_retarget e f1 c u0 ld I (wf_ids f1 W1)).
    + apply (inserted_In c ld f f1 _ Ins); right; exact Hu0.
    + exact Pu.
    + apply (inserted_In c ld f f1 _ Ins); left; reflexivity.
Qed.

Lemma reload_users_esc e Slot X t vol I :
  forall Us f f',
    rinv e Slot X f -> Slot <> I -> reg_id f I ->
    (forall U, In U Us -> has_id f U) ->
    reload_users f Slot t vol I Us = Ok f' ->
    shrinks e f f'.
Proof.
  induction Us as [|U Us IH]; intros f f' R NS RI HU H.
  - simpl in H; inversion H; subst f'; apply shrinks_refl.
  - destruct (HU U (or_introl eq_refl)) as [[c u0] [Hu0 Eu0]].
    simpl in Eu0; subst U.
    destruct (reload_user_spec e Slot X t vol I f c u0 R NS RI Hu0)
      as [f1 [E1 [R1 [P1 _]]]].
    cbn [reload_users] in H; rewrite E1 in H; cbn [bind] in H.
    apply (shrinks_trans e f f1).
    + apply (reload_user_esc e Slot X t vol I f c u0 f1 R NS RI Hu0 E1).
    + apply (IH f1 f' R1 NS (p_reg _ _ _ P1 I RI)); [|exact H].
      intros U HUs; apply (p_ids _ _ _ P1), (HU U (or_intror HUs)).
Qed.

Lemma DemoteRegToStack_esc e X vol I f f' :
  WF f -> entry_is e f -> reg_id f I -> confined e f (I :: X) ->
  DemoteRegToStack f I vol = Ok f' ->
  shrinks e f f'.
Proof.
  intros W En RI C H.
  pose proof RI as RI0.
  destruct RI as [[c x] [Hx [Ex [Px Tx]]]]; simpl in Ex, Px, Tx; subst I.
  pose proof (wf_ids f W) as U.
  unfold DemoteRegToStack in H.
  rewrite (getLInst_uniq f c x U Hx) in H; cbn [bind ofOption] in H.
  destruct (use_empty f (c, x)) eqn:UE.
  - inversion H; subst f'; apply shrinks_erase.
  - destruct (entry_front e f W En)
      as (bb & tl & front & l0 & Ef & Eb & EI & Hfront).
    replace (hd_error f) with (Some bb) in H by (rewrite Ef; reflexivity).
    cbn [hd_error bind ofOption] in H; rewrite EI in H.
    cbn [hd_error bind ofOption] in H.
    cbn [snd] in H; rewrite Tx in H.
    set (t := ity x) in *.
    set (Slot := fresh_iid f) in *.
    set (SlotA := mkInst Slot (PointerTy t) (Alloca t)) in *.
    set (f1 := insertBefore f (iid front) SlotA) in *.
    assert (Ins0 : inserted e SlotA f f1)
      by (apply (insertBefore_inserted f (iid front) SlotA e front); auto).
    assert (W1 : WF f1).
    { apply (WF_inserted e SlotA f f1 W Ins0); [apply le_n | reflexivity|].
      intros x0 []. }
    assert (NS : Slot <> iid x).
    { pose proof (fresh_iid_located f c x Hx); unfold Slot; lia. }
    assert (R1 : rinv e Slot (iid x :: X) f1).
    { constructor; [exact W1| | |].
      - apply (entry_is_bids e f); [apply (inserted_bids _ _ _ _ Ins0) | exact En].
      - exists SlotA; split; [|split; reflexivity].
        apply (inserted_In e SlotA f f1 _ Ins0); left; reflexivity.
      - apply (confined_inserted e e SlotA f f1 _ Ins0); auto.
        + apply fresh_not_mentioned, le_n.
        + intros x0 j []. }
    assert (P01 : persists e f f1).
    { apply (persists_inserted e e SlotA f f1 Ins0); auto. }
    assert (HUs : forall U0, In U0 (users f (c, x)) -> has_id f1 U0).
    { intros U0 HU; apply users_spec in HU; destruct HU as [u [Hu [Eu _]]].
      exists u; split; [|exact Eu].
      apply (inserted_In e SlotA f f1 _ Ins0); right; exact Hu. }
    destruct (reload_users_spec e Slot (iid x :: X) t vol (iid x)
                (users f (c, x)) f1 R1 NS (p_reg _ _ _ P01 _ RI0) HUs)
      as [f2 [E2 [R2 [P2 UL]]]].
    rewrite E2 in H; cbn [bind] in H.
    pose proof (reload_users_esc e Slot (iid x :: X) t vol (iid x)
                  (users f (c, x)) f1 f2 R1 NS (p_reg _ _ _ P01 _ RI0) HUs E2)
      as S12.
    pose proof (r_wf _ _ _ _ R2) as W2.
    destruct (p_reg _ _ _ P2 _ (p_reg _ _ _ P01 _ RI0))
      as [[c2 x2] [H2 [E2x [P2x T2x]]]]; simpl in E2x, P2x, T2x.
    set (St := mkInst (fresh_iid f2) VoidTy
                 (Store (VInst (iid x)) (VInst Slot))) in *.
    destruct (inBlock_insert_after f2 c2 x2 St W2 H2 T2x)
      as [f3 [E3 Ins3]].
    rewrite E2x in E3; rewrite E3 in H; inversion H; subst f'; clear H.
    apply (shrinks_trans e f f1).
    { apply (shrinks_inserted e e SlotA f f1 Ins0); auto.
      - apply fresh_not_mentioned, le_n.
      - intros x0 j []. }
    apply (shrinks_trans e f1 f2 f3 S12).
    destruct (slot_operand e Slot f2 W2 (r_slot _ _ _ _ R2)) as [Ls _].
    apply (shrinks_inserted e c2 St f2 f3 Ins3); [reflexivity | | |].
    + apply fresh_not_mentioned, le_n.
    + unfold St; cbn [ikind iid operands In].
      intros [Hx0|[Hx0|[]]]; vinst_inj Hx0.
      * pose proof (fresh_iid_located f2 c2 x2 H2); lia.
      * lia.
    + unfold St; cbn [ikind iid operands In].
      intros x0 j [Hx0|[Hx0|[]]] Hj Ej; vinst_inj Hx0.
      * left.
        assert (X0 : j = (c2, x2)).
        { destruct j as [b j0]; apply (uniq_ids_same f2); auto;
            [apply (wf_ids f2 W2) | simpl in *; congruence]. }
        subst j; reflexivity.
      * right; left.
        apply (slot_entry_alloca e Slot f2 j W2 (r_slot _ _ _ _ R2) Hj).
        congruence.
Qed.

Lemma store_incoming_esc e Slot X c phi :
  forall inc f f',
    rinv e Slot X f ->
    In (c, phi) (located f) -> incl inc (incomingOf (ikind phi)) ->
    store_incoming f Slot inc = Ok f' ->
    shrinks e f f'.
Proof.
  induction inc as [|[v B] inc IH]; intros f f' R Hphi Hinc H.
  - simpl in H; inversion H; subst f'; apply shrinks_refl.
  - pose proof (r_wf _ _ _ _ R) as W.
    assert (HvB : In (v, B) (incomingOf (ikind phi)))
      by (apply Hinc; left; reflexivity).
    assert (HB : In B (map bid f))
      by (apply (wf_phi f W c phi v B Hphi HvB)).
    destruct (terminatorOf_ok f B W HB) as [term [Et Ht]].
    destruct (store_incoming_spec e Slot X c phi [(v, B)] f R Hphi)
      as [f1 [E1 [R1 [_ Hphi1]]]].
    { intros y [<-|[]]; exact HvB. }
    cbn [store_incoming] in H, E1; rewrite Et in H, E1; cbn [bind] in H, E1.
    inversion E1 as [E1']; rewrite E1' in H.
    set (St := mkInst (fresh_iid f) VoidTy (Store v (VInst Slot))) in *.
    assert (Ins : inserted B St f f1).
    { rewrite <- E1'.
      apply (insertBefore_inserted f (iid term) St B term);
        [apply (wf_ids f W) | exact Ht | reflexivity]. }
    assert (K : ikind phi = PHI (incomingOf (ikind phi))).
    { destruct (ikind phi); try (destruct HvB); reflexivity. }
    assert (Mv : forall x, v = VInst x ->
               In (VInst x) (operands (ikind phi))).
    { intros x ->; rewrite K; simpl.
      apply in_map_iff; exists (VInst x, B); auto. }
    apply (shrinks_trans e f f1).
    + apply (shrinks_inserted e B St f f1 Ins); [reflexivity | | |].
      * apply fresh_not_mentioned, le_n.
      * unfold St; cbn [ikind iid operands In].
        intros [Hx|[Hx|[]]].
        -- pose proof (fresh_iid_operand f c phi _ Hphi (Mv _ Hx)); lia.
        -- vinst_inj Hx.
           destruct (slot_operand e Slot f W (r_slot _ _ _ _ R)) as [L _].
           lia.
      * unfold St; cbn [ikind iid operands In].
        intros x j [Hx|[Hx|[]]] Hj Ej.
        -- destruct (Nat.eq_dec (fst j) B) as [EB|NB]; [left; exact EB|].
           right; right.
           exists (c, phi), B; split; [exact Hphi|]; split; [|auto].
           apply (sites_phi (c, phi) _ _ B K).
           rewrite <- Hx; exact HvB.
        -- right; left.
           vinst_inj Hx.
           apply (slot_entry_alloca e Slot f j W (r_slot _ _ _ _ R) Hj).
           congruence.
    + apply (IH f1 f' R1 Hphi1); [|exact H].
      intros y Hy; apply Hinc; right; exact Hy.
Qed.

(** The load that takes the place of a PHI node is used outside its block
    only if the PHI node was. *)
Lemma DemotePHIToStack_esc e X P f ap f' :
  WF f -> entry_is e f -> phi_id f P -> confined e f X ->
  (forall a, ap = Some a -> In (e, a) (located f)) ->
  DemotePHIToStack f P ap = Ok f' ->
  exists r, forall y,
    esc e f' y -> (y <> P /\ esc e f y) \/ (y = r /\ esc e f P).
Proof.
  intros W En PI C Hap H.
  destruct PI as [[c x] [Hx [Ex Px]]]; simpl in Ex, Px; subst P.
  pose proof (wf_ids f W) as U.
  assert (Tx : isTerminator (ikind x) = false)
    by (destruct (ikind x); try discriminate; reflexivity).
  unfold DemotePHIToStack in H.
  rewrite (getLInst_uniq f c x U Hx) in H; cbn [bind ofOption] in H.
  destruct (use_empty f (c, x)) eqn:UE.
  - inversion H; subst f'; exists 0; intros y Hy; left; split.
    + destruct Hy as [j [Hj [Ej _]]]; apply In_located_erase in Hj.
      destruct Hj as [_ Nj]; congruence.
    + apply (shrinks_erase e f (iid x) y Hy).
  - cbn [snd] in H.
    set (t := ity x) in *.
    set (Slot := fresh_iid f) in *.
    set (SlotA := mkInst Slot (PointerTy t) (Alloca t)) in *.
    assert (Hpt : exists point,
               match ap with
               | Some a => Ok a
               | None => entry <- ofOption (hd_error f) ;;
                         ofOption (hd_error (insts entry))
               end = Ok point /\ In (e, point) (located f)).
    { destruct ap as [a|]; [exists a; split; auto|].
      destruct (entry_front e f W En)
        as (bb & tl & front & l0 & Ef & Eb & EI & Hfront).
      exists front; rewrite Ef; cbn [hd_error bind ofOption]; rewrite EI.
      rewrite <- Ef; split; [reflexivity | exact Hfront]. }
    destruct Hpt as [point [Ept Hpoint]]; rewrite Ept in H; cbn [bind] in H.
    set (f1 := insertBefore f (iid point) SlotA) in *.
    assert (Ins0 : inserted e SlotA f f1)
      by (apply (insertBefore_inserted f (iid point) SlotA e point); auto).
    assert (W1 : WF f1).
    { apply (WF_inserted e SlotA f f1 W Ins0); [apply le_n | reflexivity|].
      intros x0 []. }
    assert (R1 : rinv e Slot X f1).
    { constructor; [exact W1| | |].
      - apply (entry_is_bids e f); [apply (inserted_bids _ _ _ _ Ins0) | exact En].
      - exists SlotA; split; [|split; reflexivity].
        apply (inserted_In e SlotA f f1 _ Ins0); left; reflexivity.
      - apply (confined_inserted e e SlotA f f1 _ Ins0); auto.
        + apply fresh_not_mentioned, le_n.
        + intros x0 j []. }
    assert (Hx1 : In (c, x) (located f1))
      by (apply (inserted_In e SlotA f f1 _ Ins0); right; exact Hx).
    destruct (store_incoming_spec e Slot X c x (incomingOf (ikind x)) f1 R1
                Hx1 (incl_refl _)) as [f2 [E2 [R2 [P12 Hx2]]]].
    rewrite E2 in H; cbn [bind] in H.
    pose proof (store_incoming_esc e Slot X c x (incomingOf (ikind x)) f1 f2
                  R1 Hx1 (incl_refl _) E2) as S12.
    pose proof (r_wf _ _ _ _ R2) as W2.
    set (V := fresh_iid f2) in *.
    set (Ld := mkInst V t (Load (VInst Slot) false)) in *.
    destruct (inBlock_insert_from f2 c x Ld W2 Hx2) as [f3 [E3 Ins3]].
    rewrite E3 in H; cbn [bind] in H; inversion H; subst f'; clear H.
    assert (W3 : WF f3).
    { apply (WF_inserted c Ld f2 f3 W2 Ins3); [apply le_n | reflexivity|].
      unfold Ld; cbn [ikind operands In].
      intros x0 [Hx0|[]]; inversion Hx0; subst x0.
      apply (slot_operand e Slot f2 W2 (r_slot _ _ _ _ R2)). }
    destruct (slot_operand e Slot f2 W2 (r_slot _ _ _ _ R2)) as [Ls _].
    assert (S01 : shrinks e f f1).
    { apply (shrinks_inserted e e SlotA f f1 Ins0); auto.
      - apply fresh_not_mentioned, le_n.
      - intros x0 j []. }
    assert (S23 : shrinks e f2 f3).
    { apply (shrinks_inserted e c Ld f2 f3 Ins3); [reflexivity | | |].
      - apply fresh_not_mentioned, le_n.
      - unfold Ld; cbn [ikind iid operands In].
        intros [Hx0|[]]; vinst_inj Hx0; unfold V in *; lia.
      - unfold Ld; cbn [ikind iid operands In].
        intros x0 j [Hx0|[]] Hj Ej.
        right; left.
        vinst_inj Hx0.
        apply (slot_entry_alloca e Slot f2 j W2 (r_slot _ _ _ _ R2) Hj).
        congruence. }
    assert (S03 : shrinks e f f3)
      by (apply (shrinks_trans e f f1 f3 S01), (shrinks_trans e f1 f2 f3 S12),
            S23).
    assert (Hx3 : In (c, x) (located f3))
      by (apply (inserted_In c Ld f2 f3 _ Ins3); right; exact Hx2).
    assert (HL3 : In (c, Ld) (located f3))
      by (apply (inserted_In c Ld f2 f3 _ Ins3); left; reflexivity).
    exists V; intros y Hy.
    destruct (esc_rauw_erase e f3 c x V Px Hx3) with (y := y)
      as [[N1 [N2 Hy']]|[E1 Hy']]; [| |exact Hy| |].
    + intros j Hj Ej.
      assert (X0 : j = (c, Ld)).
      { destruct j as [b j0]; apply (uniq_ids_same f3); auto.
        apply (wf_ids f3 W3). }
      subst j; reflexivity.
    + intros [u [Hu M]].
      apply (inserted_In c Ld f2 f3 _ Ins3) in Hu; destruct Hu as [->|Hu].
      * simpl in M; destruct M as [M|[]]; vinst_inj M; unfold V in *; lia.
      * apply (fresh_not_mentioned f2 V (le_n _)); exists u; auto.
    + left; split; [exact N1 | apply S03, Hy'].
    + right; split; [exact E1 | apply S03, Hy'].
Qed.

(** ** The values used outside their block, through a turn of the loop *)

Lemma demote_regs_esc e X :
  forall regs f f',
    WF f -> entry_is e f -> NoDup regs ->
    (forall x, In x regs -> reg_id f x) ->
    confined e f (regs ++ X) ->
    demote_regs f regs = Ok f' ->
    shrinks e f f'.
Proof.
  induction regs as [|I regs IH]; intros f f' W En ND HR C H.
  - simpl in H; inversion H; subst f'; apply shrinks_refl.
  - cbn [demote_regs] in H.
    destruct (entryTerminator_ok e f W En) as [t [Et _]].
    rewrite Et in H; cbn [bind] in H.
    destruct (DemoteRegToStack_spec e (regs ++ X) (isSome (Some t)) I f W En
                (HR I (or_introl eq_refl)) C)
      as [f1 [E1 [W1 [En1 [C1 D1]]]]].
    rewrite E1 in H; cbn [bind] in H.
    pose proof (DemoteRegToStack_esc e (regs ++ X) (isSome (Some t)) I f f1
                  W En (HR I (or_introl eq_refl)) C E1) as S1.
    inversion ND as [|? ? NI ND']; subst.
    assert (HR1 : forall x, In x regs -> reg_id f1 x).
    { intros x Hx; apply (d_reg _ _ _ _ D1); [apply HR; right; exact Hx|].
      intros ->; contradiction. }
    apply (shrinks_trans e f f1 f' S1), (IH f1 f' W1 En1 ND' HR1 C1 H).
Qed.

Lemma demote_phis_bounded e :
  forall phis f X f' Y,
    WF f -> entry_is e f -> NoDup phis ->
    (forall x, In x phis -> phi_id f x) ->
    confined e f X ->
    demote_phis f phis = Ok f' ->
    bounded e f Y ->
    exists Y', bounded e f' Y' /\ length Y' <= length Y.
Proof.
  induction phis as [|P phis IH]; intros f X f' Y W En ND HP C H B.
  - simpl in H; inversion H; subst f'; exists Y; auto.
  - cbn [demote_phis] in H.
    destruct (entryTerminator_ok e f W En) as [t [Et Ht]].
    rewrite Et in H; cbn [bind] in H.
    assert (Hap : forall a, Some t = Some a -> In (e, a) (located f))
      by (intros a Ea; inversion Ea; subst; exact Ht).
    destruct (DemotePHIToStack_spec e X P f (Some t) W En
                (HP P (or_introl eq_refl)) C Hap)
      as [f1 [R1 [E1 [W1 [En1 [C1 [L1 D1]]]]]]].
    rewrite E1 in H; cbn [bind] in H.
    destruct (DemotePHIToStack_esc e X P f (Some t) f1 W En
                (HP P (or_introl eq_refl)) C Hap E1) as [r Hr].
    inversion ND as [|? ? NI ND']; subst.
    assert (B1 : exists Y1, bounded e f1 Y1 /\ length Y1 <= length Y).
    { destruct (in_dec Nat.eq_dec P Y) as [Hi|Hn].
      - exists (r :: remove Nat.eq_dec P Y); split.
        + intros y Hy; destruct (Hr y Hy) as [[N Hy']|[-> _]];
            [right | left; reflexivity].
          apply in_in_remove; [exact N | apply B, Hy'].
        + exact (remove_length_lt Nat.eq_dec Y P Hi).
      - exists Y; split; [|apply le_n].
        intros y Hy; destruct (Hr y Hy) as [[_ Hy']|[_ Hy']];
          [apply B, Hy' | exfalso; apply Hn, B, Hy']. }
    destruct B1 as [Y1 [B1 L]].
    destruct (IH f1 (R1 ++ X) f' Y1 W1 En1 ND') as [Y' [B' L']];
      [|exact C1|exact H|exact B1|].
    { intros x Hx; apply (d_phi _ _ _ _ D1); split;
        [apply HP; right; exact Hx|].
      intros ->; contradiction. }
    exists Y'; split; [exact B' | lia].
Qed.

(** One turn of the loop does not add to the values that are used
    outside their block, the storage cells of the first block apart. *)
Lemma escaping_turn e f f' :
  WF f -> entry_is e f -> fixStack_body e f = Ok f' ->
  escaping f' e <= escaping f e.
Proof.
  intros W En H; unfold fixStack_body in H.
  destruct (scan_NoDup f e (wf_ids f W)) as [NDp NDr].
  assert (HR : forall x, In x (snd (scan f e)) -> reg_id f x)
    by (intros x Hx; apply (scan_regs_reg_id f e x W Hx)).
  assert (C0 : confined e f (snd (scan f e) ++ [])).
  { apply (confined_weaken e f (snd (scan f e))); [|apply scan_confined].
    intros y Hy; apply in_app_iff; left; exact Hy. }
  destruct (demote_regs_spec e [] (snd (scan f e)) f W En NDr HR C0)
    as [f1 [E1 [W1 [En1 [C1 D1]]]]].
  assert (HP : forall x, In x (fst (scan f e)) -> phi_id f1 x).
  { intros x Hx; apply (da_phi _ _ _ _ D1); split.
    - apply scan_phi in Hx; exact Hx.
    - intros Hr; apply (phi_reg_excl f x (wf_ids f W)).
      + apply scan_phi in Hx; exact Hx.
      + apply (scan_regs_reg_id f e x W Hr). }
  destruct (demote_phis_full e (fst (scan f e)) f1 [] W1 En1 NDp HP C1)
    as [f2 [R [E2 [W2 _]]]].
  rewrite E1 in H; cbn [bind] in H.
  assert (Ef : f2 = f') by congruence; subst f2.
  pose proof (demote_regs_esc e [] (snd (scan f e)) f f1 W En NDr HR C0 E1)
    as S1.
  set (p := fun g (j : linst) =>
              negb (isa_AllocaInst (ikind (snd j)) && (fst j =? e))
              && isUsedOutsideOfBlock g j (fst j)).
  set (Y := map (fun j : linst => iid (snd j)) (filter (p f) (located f))).
  assert (Pe : forall g j, In j (located g) ->
                 (p g j = true <->
                  ~ entry_alloca e j /\ used_outside g (iid (snd j)) (fst j))).
  { intros g j Hj; unfold p; rewrite andb_true_iff, negb_true_iff.
    rewrite (isUsedOutsideOfBlock_spec g j (fst j)).
    unfold entry_alloca; split; intros [A B]; (split; [|exact B]).
    - intros [A1 A2]; rewrite A1 in A; apply Nat.eqb_eq in A2.
      rewrite A2 in A; discriminate.
    - destruct (isa_AllocaInst (ikind (snd j))); [|reflexivity].
      destruct (Nat.eqb_spec (fst j) e) as [E|E]; [|reflexivity].
      exfalso; apply A; auto. }
  assert (B0 : bounded e f1 Y).
  { intros y Hy; apply S1 in Hy.
    destruct Hy as [j [Hj [Ej [NA UO]]]].
    apply in_map_iff; exists j; split; [exact Ej|].
    apply filter_In; split; [exact Hj|].
    apply (Pe f j Hj); rewrite Ej; auto. }
  destruct (demote_phis_bounded e (fst (scan f e)) f1 [] f' Y W1 En1 NDp HP C1
              E2 B0) as [Y' [B' L']].
  assert (LY : length Y = escaping f e)
    by (unfold Y, escaping; rewrite length_map; reflexivity).
  assert (L2 : escaping f' e <= length Y').
  { unfold escaping; fold (p f').
    rewrite <- (length_map (fun j : linst => iid (snd j))).
    apply NoDup_incl_length.
    - pose proof (wf_ids f' W2) as U'; unfold uniq_ids in U'.
      revert U'; generalize (located f') as l.
      induction l as [|a l IH]; simpl; intros ND; [constructor|].
      inversion ND as [|? ? Ha ND']; subst.
      destruct (p f' a); [|auto].
      simpl; constructor; [|auto].
      intros Hi; apply Ha; apply in_map_iff in Hi.
      destruct Hi as [j [Ej Hj]]; apply filter_In in Hj.
      apply in_map_iff; exists j; tauto.
    - intros y Hy; apply in_map_iff in Hy; destruct Hy as [j [Ej Hj]].
      apply filter_In in Hj; destruct Hj as [Hj Pj].
      apply B'; exists j; split; [exact Hj|]; split; [exact Ej|].
      rewrite <- Ej; apply (Pe f' j Hj), Pj. }
  lia.
Qed.

(** ** The storage cells of the first block, through a turn of the loop *)

(** One turn of the loop leaves the storage cells of the first block
    where they are. *)
Lemma fixStack_body_cells e f f' :
  WF f -> entry_is e f -> fixStack_body e f = Ok f' ->
  forall j, In j (located f) ->
    isa_AllocaInst (ikind (snd j)) = true -> fst j = e ->
    In j (located f').
Proof.
  intros W En H [c x] Hx Ax Ec; cbn [fst snd] in *.
  unfold fixStack_body in H.
  destruct (scan_NoDup f e (wf_ids f W)) as [NDp NDr].
  assert (HR : forall x, In x (snd (scan f e)) -> reg_id f x)
    by (intros y Hy; apply (scan_regs_reg_id f e y W Hy)).
  assert (C0 : confined e f (snd (scan f e) ++ [])).
  { apply (confined_weaken e f (snd (scan f e))); [|apply scan_confined].
    intros y Hy; apply in_app_iff; left; exact Hy. }
  destruct (demote_regs_spec e [] (snd (scan f e)) f W En NDr HR C0)
    as [f1 [E1 [W1 [En1 [C1 D1]]]]].
  assert (HP : forall x, In x (fst (scan f e)) -> phi_id f1 x).
  { intros y Hy; apply (da_phi _ _ _ _ D1); split.
    - apply scan_phi in Hy; exact Hy.
    - intros Hr; apply (phi_reg_excl f y (wf_ids f W)).
      + apply scan_phi in Hy; exact Hy.
      + apply (scan_regs_reg_id f e y W Hr). }
  rewrite E1 in H; cbn [bind] in H.
  destruct (demote_regs_more e [] (snd (scan f e)) f f1 W En NDr HR C0 E1)
    as (S1 & _).
  destruct (demote_phis_more e (fst (scan f e)) f1 [] f' W1 En1 NDp HP C1 H)
    as (S2 & _).
  assert (Px : isa_PHINode (ikind x) = false)
    by (destruct (ikind x); try discriminate; reflexivity).
  assert (Ox : operands (ikind x) = [])
    by (destruct (ikind x); try discriminate; reflexivity).
  apply S2; [apply S1; [exact Hx|]|]; (split; [exact Px|]; split;
    [|intros y _; rewrite Ox; intros []]).
  - intros Hr; apply scan_reg in Hr.
    destruct Hr as [[d j] [Hj [Ej [_ [NA _]]]]]; simpl in Ej.
    assert (X0 : (d, j) = (c, x)) by (apply (uniq_ids_same f); auto;
      apply (wf_ids f W)).
    inversion X0; subst d j; apply NA; split; assumption.
  - intros Hp; apply scan_phi in Hp.
    destruct Hp as [[d j] [Hj [Ej Pj]]]; simpl in Ej, Pj.
    assert (X0 : (d, j) = (c, x)) by (apply (uniq_ids_same f); auto;
      apply (wf_ids f W)).
    inversion X0; subst d j; congruence.
Qed.

(** ** Auxiliary facts for the statements *)

Lemma wf_input_facts f :
  wf_input f = true -> WF f /\ successors_ok f.
Proof.
  unfold wf_input; intros H; apply andb_prop in H; destruct H as [H1 H2].
  split; [apply wf_function_WF | apply successors_okb_ok]; assumption.
Qed.

Lemma two_blocks (f : function) :
  1 < length f -> exists e rest, f = e :: rest /\ rest <> [].
Proof.
  destruct f as [|e [|x rest]]; simpl; intros H; try lia.
  exists e, (x :: rest); split; [reflexivity | discriminate].
Qed.

Lemma rewritten_cases LE sv sw l l' :
  rewritten LE sv sw l l' ->
  exists body t,
    l = body ++ [t] /\
    (getNumSuccessors (ikind t) = 0 -> l' = body ++ [t]) /\
    (forall s, successors (ikind t) = [s] ->
       exists k n1 n2,
         findCaseDest sw s = Some k /\
         l' = body ++ [mkInst n1 VoidTy (Store (VConstInt 32 k) (VInst sv));
                       mkInst n2 VoidTy (Br LE)]) /\
    (forall c sT sF, ikind t = CondBr c sT sF ->
       exists kT kF n0 n1 n2,
         findCaseDest sw sT = Some kT /\ findCaseDest sw sF = Some kF /\
         l' = body ++ [mkInst n0 Int32Ty
                         (Select c (VConstInt 32 kT) (VConstInt 32 kF));
                       mkInst n1 VoidTy (Store (VInst n0) (VInst sv));
                       mkInst n2 VoidTy (Br LE)]).
Proof.
  intros RW.
  inversion RW as [body t N E1 E2|body t N E1 E2
                  |body t s k n1 n2 Es Fk E1 E2
                  |body t c sT sF kT kF n0 n1 n2 K FT FF E1 E2];
    subst l l'; exists body, t; (split; [reflexivity|]);
    unfold getNumSuccessors in *.
  - split; [reflexivity|]; split.
    + intros s Hs; rewrite Hs in N; discriminate.
    + intros c sT sF K; rewrite K in N; discriminate.
  - split; [reflexivity|]; split.
    + intros s Hs; rewrite Hs in N; simpl in N; lia.
    + intros c sT sF K; rewrite K in N; simpl in N; lia.
  - split; [intros N; rewrite Es in N; discriminate|]; split.
    + intros s0 Hs; rewrite Es in Hs; inversion Hs; subst s0.
      exists k, n1, n2; auto.
    + intros c sT sF K; rewrite K in Es; discriminate.
  - split; [intros N; rewrite K in N; discriminate|]; split.
    + intros s Hs; rewrite K in Hs; discriminate.
    + intros c0 sT0 sF0 K0; rewrite K in K0; inversion K0; subst.
      exists kT, kF, n0, n1, n2; auto.
Qed.

Lemma case_table_snd n bs : map snd (case_table n bs) = bs.
Proof.
  revert n; induction bs as [|b bs IH]; intros n; simpl; [reflexivity|].
  rewrite IH; reflexivity.
Qed.

Lemma case_table_fst n bs :
  map fst (case_table n bs) = map ConstantInt_get32 (seq n (length bs)).
Proof.
  revert n; induction bs as [|b bs IH]; intros n; simpl; [reflexivity|].
  rewrite IH; reflexivity.
Qed.

Lemma ConstantInt_get32_small n :
  (Z.of_nat n < 2 ^ 32)%Z -> ConstantInt_get32 n = Z.of_nat n.
Proof. intros H; unfold ConstantInt_get32; apply Z.mod_small; lia. Qed.

Lemma case_table_unique bs :
  (Z.of_nat (length bs) <= 2 ^ 32)%Z ->
  NoDup (map fst (case_table 0 bs)).
Proof.
  intros L; rewrite case_table_fst.
  apply NoDup_map_NoDup_ForallPairs; [|apply seq_NoDup].
  intros x y Hx Hy E; apply in_seq in Hx, Hy.
  rewrite !ConstantInt_get32_small in E by lia; lia.
Qed.

(** The result of [flatten] does not depend on the fuel. *)
Lemma flatten_det n m f r r' :
  flatten n f = Ok r -> flatten m f = Ok r' -> r = r'.
Proof.
  unfold flatten; destruct (flatten_core f) as [[st|]| |]; cbn [bind];
    try discriminate; [|congruence].
  unfold fixStack; destruct (hd_error (fn st)) as [bb|]; cbn [ofOption bind];
    try discriminate.
  destruct (fixStack_loop n (bid bb) (fn st)) as [r1| |] eqn:E1; cbn [bind];
    try discriminate.
  destruct (fixStack_loop m (bid bb) (fn st)) as [r2| |] eqn:E2; cbn [bind];
    try discriminate.
  rewrite (fixStack_loop_det (bid bb) n m (fn st) r1 r2 E1 E2); congruence.
Qed.

(** ** Terminator rewriting *)

(** C1: every block of the case table is rewritten by its terminator: a
    terminator without successor stays; a jump to [s] becomes a store of
    the case index of [s] into the state variable and a jump to the
    dispatch block; a conditional branch becomes one select between the
    case indices of its two destinations, a store of the select into the
    state variable and a jump to the dispatch block. *)
Theorem C1_terminator_rewriting (f : function) :
  1 < length f -> wf_input f = true -> rewritableb f = true ->
  exists f1 st,
    entry_preparation f (map bid f) = Ok (f1, origBB st, insert st) /\
    flatten_core f = Ok (Some st) /\
    origBB st = map bid (tl f1) /\
    forall bb, In bb (tl f1) ->
      exists l',
        getBlock (fn st) (bid bb) = Some (mkBB (bid bb) l') /\
        rewrites_terminator st (insts bb) l'.
Proof.
  intros L WI RW.
  destruct (two_blocks f L) as [e [rest [-> Nr]]].
  destruct (wf_input_facts _ WI) as [W SO].
  destruct (flatten_core_shape e rest Nr W SO (rewritableb_rewritable _ RW))
    as (pro & t1 & tl1 & sv & s0 & ld & bj & sw & LE & f3 & Ep & T1 & W1 &
        Bt & Ec & W3 & B3 & Ge & Gl & Gb & NLE & _).
  exists (mkBB (bid e) (pro ++ [t1]) :: tl1),
    (mkState f3 (map bid tl1) (bid e) LE ld sw sv).
  cbn [fn origBB insert loopEntry load switchI switchVar tl].
  split; [exact Ep|]; split; [exact Ec|]; split; [reflexivity|].
  intros bb Hbb; destruct (Gb bb Hbb) as [bb' [G [Eb R]]].
  exists (insts bb'); split.
  - rewrite G, <- Eb; f_equal; symmetry; apply bb_eta.
  - apply rewritten_cases in R; exact R.
Qed.

Lemma C1_witness :
  exists f1 st,
    entry_preparation ex_diamond (map bid ex_diamond)
      = Ok (f1, origBB st, insert st) /\
    flatten_core ex_diamond = Ok (Some st) /\
    origBB st = map bid (tl f1) /\
    forall bb, In bb (tl f1) ->
      exists l',
        getBlock (fn st) (bid bb) = Some (mkBB (bid bb) l') /\
        rewrites_terminator st (insts bb) l'.
Proof.
  apply (C1_terminator_rewriting ex_diamond);
    [simpl; lia | reflexivity | reflexivity].
Defined.

(** ** The precondition check *)

(** C2: [flatten] returns false exactly when a block ends in an
    [invoke] or the function has at most one block, and it leaves the
    function as it was then; nothing else is checked, a switch of three
    destinations included. *)
Theorem C2_declines (fuel : nat) (f : function) :
  terminatedb f = true ->
  ((exists f', flatten fuel f = Ok (false, f')) <->
   has_invoke f \/ length f <= 1) /\
  (forall f', flatten fuel f = Ok (false, f') -> f' = f).
Proof.
  intros T; split; [apply flatten_declines; exact T|].
  intros f' H; apply flatten_false in H; tauto.
Qed.

Lemma C2_witness :
  ((exists f', flatten 3 ex_wide = Ok (false, f')) <->
   has_invoke ex_wide \/ length ex_wide <= 1) /\
  (forall f', flatten 3 ex_wide = Ok (false, f') -> f' = ex_wide).
Proof.
  apply (C2_declines 3 ex_wide); reflexivity.
Defined.

(** ** The case table *)

(** C3: the cases of the switch are the blocks of [origBB] in their
    order, the case of position [k] has the index [k] (as a 32-bit
    constant), so that the indices are dense from 0 and, below 2^32
    cases, unique; [origBB] holds every block but the first exactly once,
    behind the split block when there is one; every successor of a
    terminator of the input has a case index. *)
Theorem C3_case_table (f : function) :
  1 < length f -> wf_input f = true -> rewritableb f = true ->
  exists st cases,
    flatten_core f = Ok (Some st) /\
    getInst (fn st) (switchI st) =
      Some (mkInst (switchI st) VoidTy
              (Switch (VInst (load st)) (loopEntry st) cases)) /\
    map snd cases = origBB st /\
    (forall k, k < length cases ->
       nth_error (map fst cases) k = Some (ConstantInt_get32 k)) /\
    ((Z.of_nat (length cases) <= 2 ^ 32)%Z ->
       NoDup (map fst cases) /\
       forall k, k < length cases ->
         nth_error (map fst cases) k = Some (Z.of_nat k)) /\
    NoDup (origBB st) /\
    (origBB st = map bid (tl f) \/
     exists new, ~ In new (map bid f) /\ origBB st = new :: map bid (tl f)) /\
    (forall c j s, In (c, j) (located f) -> In s (successors (ikind j)) ->
       exists n,
         nth_error (origBB st) n = Some s /\
         findCaseDest (Switch (VInst (load st)) (loopEntry st) cases) s =
           Some (ConstantInt_get32 n)).
Proof.
  intros L WI RW.
  destruct (two_blocks f L) as [e [rest [-> Nr]]].
  destruct (wf_input_facts _ WI) as [W SO].
  destruct (flatten_core_shape e rest Nr W SO (rewritableb_rewritable _ RW))
    as (pro & t1 & tl1 & sv & s0 & ld & bj & sw & LE & f3 & Ep & T1 & W1 &
        Bt & Ec & W3 & B3 & Ge & Gl & Gb & NLE & _).
  exists (mkState f3 (map bid tl1) (bid e) LE ld sw sv),
    (case_table 0 (map bid tl1)).
  cbn [fn origBB insert loopEntry load switchI switchVar tl map].
  assert (ND : NoDup (map bid tl1)).
  { pose proof (wf_bids _ W1) as B; inversion B; auto. }
  assert (Nth : forall k, k < length (case_table 0 (map bid tl1)) ->
            nth_error (map fst (case_table 0 (map bid tl1))) k =
            Some (ConstantInt_get32 k)).
  { intros k Hk; rewrite case_table_length in Hk.
    destruct (nth_error (map bid tl1) k) as [b|] eqn:E;
      [|apply nth_error_None in E; lia].
    rewrite (map_nth_error fst k _ (case_table_nth 0 _ k b E)).
    reflexivity. }
  split; [exact Ec|]; split.
  { apply (getInst_uniq f3 LE (SwitchOn sw ld LE (case_table 0 (map bid tl1)))
             (wf_ids f3 W3)).
    apply (getBlock_located f3 LE _ _ Gl); right; left; reflexivity. }
  split; [apply case_table_snd|]; split; [exact Nth|]; split.
  { intros Hl; rewrite case_table_length in Hl; split.
    - apply case_table_unique; exact Hl.
    - intros k Hk; rewrite (Nth k Hk); f_equal.
      apply ConstantInt_get32_small; rewrite case_table_length in Hk; lia. }
  split; [exact ND|]; split.
  { destruct Bt as [Bt|Bt]; [left; exact Bt|].
    right; exists (fresh_bid (e :: rest)); split; [|exact Bt].
    apply (fresh_bid_notin (e :: rest)). }
  intros c j s Hj Hs.
  assert (Hin : In s (map bid tl1)).
  { pose proof (SO c j s Hj Hs) as H; simpl in H.
    destruct Bt as [-> | ->]; [exact H | right; exact H]. }
  apply findCaseDest_case_table; [exact ND | exact Hin|].
  intros ->; apply NLE; right; exact Hin.
Qed.

Lemma C3_witness :
  exists st cases,
    flatten_core ex_diamond = Ok (Some st) /\
    getInst (fn st) (switchI st) =
      Some (mkInst (switchI st) VoidTy
              (Switch (VInst (load st)) (loopEntry st) cases)) /\
    map snd cases = origBB st /\
    (forall k, k < length cases ->
       nth_error (map fst cases) k = Some (ConstantInt_get32 k)) /\
    ((Z.of_nat (length cases) <= 2 ^ 32)%Z ->
       NoDup (map fst cases) /\
       forall k, k < length cases ->
         nth_error (map fst cases) k = Some (Z.of_nat k)) /\
    NoDup (origBB st) /\
    (origBB st = map bid (tl ex_diamond) \/
     exists new, ~ In new (map bid ex_diamond) /\
                 origBB st = new :: map bid (tl ex_diamond)) /\
    (forall c j s, In (c, j) (located ex_diamond) ->
       In s (successors (ikind j)) ->
       exists n,
         nth_error (origBB st) n = Some s /\
         findCaseDest (Switch (VInst (load st)) (loopEntry st) cases) s =
           Some (ConstantInt_get32 n)).
Proof.
  apply (C3_case_table ex_diamond);
    [simpl; lia | reflexivity | reflexivity].
Defined.

(** ** The flattened function *)

Lemma flat_terminators_shape e LE f :
  WF f ->
  (forall c j, In (c, j) (located f) -> isTerminator (ikind j) = true ->
               flat_terminator LE c (ikind j)) ->
  flat_shape e LE f.
Proof.
  intros W Q; split.
  - intros bb Hbb Ne NLE.
    destruct (wf_term f W bb Hbb) as [t Ht]; exists t; split; [exact Ht|].
    apply getTerminator_Some in Ht; destruct Ht as [body [Eb Tt]].
    assert (Hl : In (bid bb, t) (located f)).
    { apply In_located; exists bb; split; [exact Hbb|]; split; [reflexivity|].
      rewrite Eb; apply in_app_iff; right; left; reflexivity. }
    destruct (Q (bid bb) t Hl Tt) as [[E _]|[_ H]]; [contradiction | exact H].
  - intros bb j Hbb NLE Hj.
    destruct (isConditional (ikind j)) eqn:C; [exfalso | reflexivity].
    assert (Tj : isTerminator (ikind j) = true)
      by (destruct (ikind j); try discriminate; reflexivity).
    assert (Hl : In (bid bb, j) (located f))
      by (apply In_located; exists bb; auto).
    destruct (Q (bid bb) j Hl Tj) as [[E _]|[_ [[ops K]|K]]];
      [contradiction | |]; rewrite K in C; discriminate.
Qed.

Lemma flatten_success e rest :
  rest <> [] -> WF (e :: rest) -> successors_ok (e :: rest) ->
  tidy (e :: rest) -> lowered (e :: rest) ->
  exists st f',
    flatten_core (e :: rest) = Ok (Some st) /\
    fixStack 3 (fn st) = Ok f' /\
    flatten 3 (e :: rest) = Ok (true, f') /\
    WF f' /\
    (exists tl', map bid f' = bid e :: loopEntry st :: tl' /\
                 ~ In (loopEntry st) (bid e :: tl')) /\
    scan f' (bid e) = ([], []) /\
    flat_shape (bid e) (loopEntry st) (fn st) /\
    flat_shape (bid e) (loopEntry st) f'.
Proof.
  intros Nr W SO TD LW.
  destruct (flatten_core_shape e rest Nr W SO (lowered_rewritable _ LW))
    as (pro & t1 & tl1 & sv & s0 & ld & bj & sw & LE & f3 & _ & _ & _ &
        _ & Ec & _).
  set (st := mkState f3 (map bid tl1) (bid e) LE ld sw sv) in *.
  destruct (flatten_core_terminators e rest st Nr W SO TD LW Ec)
    as [W3 [[tl' [B3 NLE]] Q]].
  destruct (fixStack_spec (fn st) W3) as [e' [f' [En [Ef [W' [En' [S' K]]]]]]].
  assert (Ee : e' = bid e).
  { unfold entry_is in En; rewrite B3 in En; inversion En; reflexivity. }
  subst e'.
  exists st, f'; split; [exact Ec|]; split; [exact Ef|]; split.
  { unfold flatten; rewrite Ec; cbn [bind]; rewrite Ef; reflexivity. }
  split; [exact W'|]; split.
  { exists tl'; rewrite (kp_bids _ _ _ K); auto. }
  split; [exact S'|]; split.
  - apply (flat_terminators_shape _ _ _ W3).
    intros c j Hj Tj; apply (Q c j Hj Tj).
  - apply (flat_terminators_shape _ _ _ W').
    intros c j Hj Tj.
    destruct (kp_term _ _ _ K c j Hj Tj) as [j0 [Hj0 E0]].
    apply (flat_terminator_skeleton _ c (ikind j0) (ikind j) E0).
    apply (Q c j0 Hj0 (skeleton_terminator _ _ E0 Tj)).
Qed.

(** C4: once [flatten] has succeeded on a function whose terminators are
    returns, jumps and conditional branches, every block but the first
    and the dispatch block ends in a return or in a jump to the dispatch
    block, and no block but the dispatch block holds a conditional
    branch; so it is when terminator rewriting is over, and [fixStack]
    keeps it. *)
Theorem C4_flattened_shape (f : function) :
  1 < length f -> wf_input f = true -> tidyb f = true ->
  loweredb f = true ->
  exists st f' e tl',
    flatten_core f = Ok (Some st) /\
    flatten 3 f = Ok (true, f') /\
    (forall fuel r, flatten fuel f = Ok r -> r = (true, f')) /\
    hd_error (map bid f) = Some e /\
    map bid f' = e :: loopEntry st :: tl' /\
    flat_shape e (loopEntry st) (fn st) /\
    flat_shape e (loopEntry st) f'.
Proof.
  intros L WI TB LB.
  destruct (two_blocks f L) as [e [rest [-> Nr]]].
  destruct (wf_input_facts _ WI) as [W SO].
  destruct (flatten_success e rest Nr W SO (tidyb_tidy _ TB)
              (loweredb_lowered _ LB))
    as (st & f' & Ec & _ & Ef & W' & [tl' [B' _]] & _ & Q3 & Q).
  exists st, f', (bid e), tl'.
  split; [exact Ec|]; split; [exact Ef|]; split.
  { intros fuel r H; apply (flatten_det fuel 3 _ r (true, f') H Ef). }
  split; [reflexivity|]; split; [exact B'|]; split; [exact Q3 | exact Q].
Qed.

Lemma C4_witness :
  exists st f' e tl',
    flatten_core ex_diamond = Ok (Some st) /\
    flatten 3 ex_diamond = Ok (true, f') /\
    (forall fuel r, flatten fuel ex_diamond = Ok r -> r = (true, f')) /\
    hd_error (map bid ex_diamond) = Some e /\
    map bid f' = e :: loopEntry st :: tl' /\
    flat_shape e (loopEntry st) (fn st) /\
    flat_shape e (loopEntry st) f'.
Proof.
  apply (C4_flattened_shape ex_diamond);
    [simpl; lia | reflexivity | reflexivity | reflexivity].
Defined.

(** ** The exit of the loop of fixStack *)

(** C5: when the loop of [fixStack] is left, a scan collects nothing: no
    PHI node is left, and an instruction with a use outside its block is
    a storage cell of the entry block, the cells being set aside by the
    scan.  Every definition then dominates each of its uses -- the use
    is further down the block of the definition, or every path from the
    first block to the block of the use goes through the block of the
    definition -- when the function handed to [fixStack] meets the
    conditions of the IR, has no PHI node in its first block and reads,
    in a block, no value defined further down that block; this is so of
    the function that [flatten] hands to [fixStack] when it is so of the
    input of the pass. *)
Theorem C5_exit_invariant (fuel : nat) (f f' : function) (e : block_id) :
  hd_error (map bid f) = Some e ->
  fixStack fuel f = Ok f' ->
  scan f' e = ([], []) /\
  (forall j, In j (located f') -> isa_PHINode (ikind (snd j)) = false) /\
  (forall j, In j (located f') ->
     isUsedOutsideOfBlock f' j (fst j) = true ->
     isa_AllocaInst (ikind (snd j)) = true /\ fst j = e) /\
  (wf_function f = true -> entry_no_phib f = true -> orderedb f = true ->
   dominance f') /\
  (forall g st,
     1 < length g -> wf_input g = true -> rewritableb g = true ->
     entry_no_phib g = true -> orderedb g = true ->
     flatten_core g = Ok (Some st) -> fn st = f ->
     dominance f').
Proof.
  intros He H.
  assert (S : scan f' e = ([], [])).
  { unfold fixStack in H; destruct f as [|bb tl]; [discriminate|].
    inversion He; subst e; cbn [hd_error ofOption bind] in H.
    apply (fixStack_loop_exit (bid bb) fuel _ f' H). }
  split; [exact S|].
  assert (NP : forall j, In j (located f') ->
                 isa_PHINode (ikind (snd j)) = false).
  { intros j Hj; destruct (isa_PHINode (ikind (snd j))) eqn:P; [|reflexivity].
    assert (X : In (iid (snd j)) (fst (scan f' e)))
      by (apply scan_phi; exists j; auto).
    rewrite S in X; destruct X. }
  split; [exact NP|]; split; [|split].
  - intros j Hj UO; apply isUsedOutsideOfBlock_spec in UO.
    destruct (isa_AllocaInst (ikind (snd j))) eqn:A.
    + destruct (Nat.eq_dec (fst j) e) as [E|E]; [auto|].
      exfalso.
      assert (X : In (iid (snd j)) (snd (scan f' e))).
      { apply scan_reg; exists j.
        split; [exact Hj|]; split; [reflexivity|].
        split; [apply NP, Hj|]; split; [|exact UO].
        intros [_ X]; contradiction. }
      rewrite S in X; destruct X.
    + exfalso.
      assert (X : In (iid (snd j)) (snd (scan f' e))).
      { apply scan_reg; exists j.
        split; [exact Hj|]; split; [reflexivity|].
        split; [apply NP, Hj|]; split; [|exact UO].
        intros [X _]; congruence. }
      rewrite S in X; destruct X.
  - intros WB NB OB; pose proof (wf_function_WF f WB) as W.
    apply (fixStack_dominance fuel f f' e W He);
      [|apply orderedb_ordered, OB|exact H].
    apply (entry_no_phib_spec f e NB (wf_bids f W) He).
  - intros g st Lg WI RB NB OB Ec Ef.
    destruct (two_blocks g Lg) as [e0 [rest [-> Nr]]].
    destruct (wf_input_facts _ WI) as [W SO].
    destruct (flatten_core_order e0 rest st Nr W SO
                (rewritableb_rewritable _ RB) (orderedb_ordered _ OB)
                (entry_no_phib_spec _ (bid e0) NB (wf_bids _ W) eq_refl) Ec)
      as [W' [En' [O' NP']]].
    rewrite Ef in W', En', O', NP'.
    assert (Ee : bid e0 = e) by (unfold entry_is in En'; congruence).
    rewrite Ee in NP'.
    apply (fixStack_dominance fuel f f' e W' He NP' O' H).
Qed.

Lemma C5_witness :
  flatten_core ex_diamond =
    Ok (Some (mkState ex_diamond_core [4; 1; 2; 3] 0 5 20 22 18)) /\
  flatten 3 ex_diamond = Ok (true, ex_diamond_fixed) /\
  scan ex_diamond_fixed 0 = ([], []) /\
  (forall j, In j (located ex_diamond_fixed) ->
     isa_PHINode (ikind (snd j)) = false) /\
  (forall j, In j (located ex_diamond_fixed) ->
     isUsedOutsideOfBlock ex_diamond_fixed j (fst j) = true ->
     isa_AllocaInst (ikind (snd j)) = true /\ fst j = 0) /\
  dominance ex_diamond_fixed.
Proof.
  split; [vm_compute; reflexivity|].
  split; [vm_compute; reflexivity|].
  destruct (C5_exit_invariant 3 ex_diamond_core ex_diamond_fixed 0)
    as [S [P [U [D _]]]]; [reflexivity | vm_compute; reflexivity |].
  split; [exact S|]; split; [exact P|]; split; [exact U|].
  apply D; reflexivity.
Defined.

(** ** Entry preparation *)

(** C6: the first block is split exactly when its terminator is a
    conditional branch or has several successors; the new block takes
    the terminator, and the instruction in front of it when the block
    has more than one instruction, and it goes to the head of the list
    of blocks to switch; a first block that ends in a jump or a return
    is not split. *)
Theorem C6_entry_split (e : basic_block) (rest : list basic_block)
    (t : instruction) :
  wf_input (e :: rest) = true ->
  getTerminator e = Some t ->
  (isConditional (ikind t) || (1 <? getNumSuccessors (ikind t)) = false ->
   entry_preparation (e :: rest) (map bid (e :: rest)) =
   Ok (e :: rest, map bid rest, bid e)) /\
  (isConditional (ikind t) || (1 <? getNumSuccessors (ikind t)) = true ->
   exists kept moved,
     insts e = kept ++ moved /\
     (length (insts e) = 1 /\ moved = [t] /\ kept = [] \/
      1 < length (insts e) /\ exists x, moved = [x; t]) /\
     ~ In (fresh_bid (e :: rest)) (map bid (e :: rest)) /\
     entry_preparation (e :: rest) (map bid (e :: rest)) =
     Ok (mkBB (bid e)
           (kept ++ [mkInst (fresh_iid (e :: rest)) VoidTy
                       (Br (fresh_bid (e :: rest)))])
         :: mkBB (fresh_bid (e :: rest)) moved
         :: replaceSuccessorsPhiUsesWith rest (ikind t) (bid e)
              (fresh_bid (e :: rest)),
         fresh_bid (e :: rest) :: map bid rest, bid e)) /\
  ((exists d, ikind t = Br d) \/ (exists ops, ikind t = Ret ops) ->
   isConditional (ikind t) || (1 <? getNumSuccessors (ikind t)) = false).
Proof.
  intros WI T; destruct (wf_input_facts _ WI) as [W SO].
  split; [apply entry_preparation_no_split; exact T|]; split.
  - intros C.
    pose proof T as T'; apply getTerminator_Some in T'.
    destruct T' as [l [El Tt]].
    assert (NI : ~ In (bid e) (map bid rest)).
    { pose proof (wf_bids _ W) as B; unfold uniq_bids in B; simpl in B.
      inversion B; auto. }
    assert (SS : forall s, In s (successors (ikind t)) ->
                           In s (map bid rest)).
    { intros s Hs; apply (SO (bid e) t s); [|exact Hs].
      rewrite located_cons; apply in_app_iff; left; apply in_map.
      rewrite El; apply in_app_iff; right; left; reflexivity. }
    destruct (entry_preparation_split e rest t T NI SS C)
      as [kept [moved [Ek [Sh Ep]]]].
    exists kept, moved; split; [exact Ek|]; split; [exact Sh|].
    split; [apply fresh_bid_notin | exact Ep].
  - intros [[d K]|[ops K]]; rewrite K; reflexivity.
Qed.

Lemma C6_witness :
  (isConditional (CondBr (VInst 10) 1 2)
   || (1 <? getNumSuccessors (CondBr (VInst 10) 1 2)) = false ->
   entry_preparation ex_diamond (map bid ex_diamond) =
   Ok (ex_diamond, map bid (tl ex_diamond), 0)) /\
  (isConditional (CondBr (VInst 10) 1 2)
   || (1 <? getNumSuccessors (CondBr (VInst 10) 1 2)) = true ->
   exists kept moved,
     [mkInst 10 Int32Ty (Op []); mkInst 11 VoidTy (CondBr (VInst 10) 1 2)]
       = kept ++ moved /\
     (2 = 1 /\ moved = [mkInst 11 VoidTy (CondBr (VInst 10) 1 2)] /\
      kept = [] \/
      1 < 2 /\
      exists x, moved = [x; mkInst 11 VoidTy (CondBr (VInst 10) 1 2)]) /\
     ~ In (fresh_bid ex_diamond) (map bid ex_diamond) /\
     entry_preparation ex_diamond (map bid ex_diamond) =
     Ok (mkBB 0
           (kept ++ [mkInst (fresh_iid ex_diamond) VoidTy
                       (Br (fresh_bid ex_diamond))])
         :: mkBB (fresh_bid ex_diamond) moved
         :: replaceSuccessorsPhiUsesWith (tl ex_diamond)
              (CondBr (VInst 10) 1 2) 0 (fresh_bid ex_diamond),
         fresh_bid ex_diamond :: map bid (tl ex_diamond), 0)) /\
  ((exists d, CondBr (VInst 10) 1 2 = Br d) \/
   (exists ops, CondBr (VInst 10) 1 2 = Ret ops) ->
   isConditional (CondBr (VInst 10) 1 2)
   || (1 <? getNumSuccessors (CondBr (VInst 10) 1 2)) = false).
Proof.
  apply (C6_entry_split
           (mkBB 0 [mkInst 10 Int32Ty (Op []);
                    mkInst 11 VoidTy (CondBr (VInst 10) 1 2)])
           (tl ex_diamond)
           (mkInst 11 VoidTy (CondBr (VInst 10) 1 2)));
    reflexivity.
Defined.

(** ** The construction of the dispatcher *)

(** C7: the construction of the dispatcher adds one storage cell of
    type i32, the state variable, and a store of 0 into it; both are
    appended to the first block, behind the instructions [pro] that the
    block keeps, and in front of the jump to the dispatch block. *)
Theorem C7_state_variable (be : block_id) (pro : list instruction)
    (t : instruction) (tl : list basic_block) (o : list block_id) :
  nodupb (map iid (all_insts (mkBB be (pro ++ [t]) :: tl))) = true ->
  memb be (map bid tl) = false ->
  isTerminator (ikind t) = true ->
  exists st s0 bj,
    dispatcher_construction (mkBB be (pro ++ [t]) :: tl) o be = Ok st /\
    hd_error (fn st) =
      Some (mkBB be
              (pro ++
               [mkInst (switchVar st) (PointerTy Int32Ty) (Alloca Int32Ty);
                mkInst s0 VoidTy (Store (VConstInt 32 0) (VInst (switchVar st)));
                mkInst bj VoidTy (Br (loopEntry st))])) /\
    (forall c j, In (c, j) (located (fn st)) ->
       isa_AllocaInst (ikind j) = true ->
       (c = be /\
        j = mkInst (switchVar st) (PointerTy Int32Ty) (Alloca Int32Ty)) \/
       In (c, j) (located (mkBB be (pro ++ [t]) :: tl))).
Proof.
  intros U NI T.
  assert (U' : uniq_ids (mkBB be (pro ++ [t]) :: tl)).
  { unfold uniq_ids; rewrite <- ids_located; apply nodupb_NoDup; exact U. }
  assert (NI' : ~ In be (map bid tl)).
  { intros H; apply memb_In in H; congruence. }
  destruct (dispatcher_construction_shape be pro t tl o U' NI' T)
    as [sv [s0 [ld [bj [sw [LE [Ed _]]]]]]].
  eexists; exists s0, bj; split; [exact Ed|].
  cbn [fn switchVar loopEntry hd_error]; split; [reflexivity|].
  intros c j; rewrite !located_cons; cbn [bid insts].
  rewrite !map_app, !in_app_iff; cbn [map In].
  intros [[H|[H|[H|[H|[]]]]]|[[H|[H|[]]]|H]] A;
    try (inversion H; subst; discriminate).
  - right; left; left; exact H.
  - left; inversion H; auto.
  - right; right; exact H.
Qed.

Lemma C7_witness :
  exists st s0 bj,
    dispatcher_construction ex_straight [1; 2] 0 = Ok st /\
    hd_error (fn st) =
      Some (mkBB 0
              ([mkInst 10 Int32Ty (Op [])] ++
               [mkInst (switchVar st) (PointerTy Int32Ty) (Alloca Int32Ty);
                mkInst s0 VoidTy (Store (VConstInt 32 0) (VInst (switchVar st)));
                mkInst bj VoidTy (Br (loopEntry st))])) /\
    (forall c j, In (c, j) (located (fn st)) ->
       isa_AllocaInst (ikind j) = true ->
       (c = 0 /\
        j = mkInst (switchVar st) (PointerTy Int32Ty) (Alloca Int32Ty)) \/
       In (c, j) (located ex_straight)).
Proof.
  apply (C7_state_variable 0 [mkInst 10 Int32Ty (Op [])]
           (mkInst 11 VoidTy (Br 1)) (tl ex_straight) [1; 2]);
    reflexivity.
Defined.

(** In [ex_straight] the first block keeps its first instruction 10 at
    its head; the state variable 14 comes second. *)
Lemma C7_counterexample :
  exists st bb,
    dispatcher_construction ex_straight [1; 2] 0 = Ok st /\
    hd_error (fn st) = Some bb /\ bid bb = insert st /\
    switchVar st = 14 /\
    hd_error (insts bb) = Some (mkInst 10 Int32Ty (Op [])) /\
    nth_error (insts bb) 1 =
      Some (mkInst 14 (PointerTy Int32Ty) (Alloca Int32Ty)) /\
    hd_error (insts bb) <>
      Some (mkInst (switchVar st) (PointerTy Int32Ty) (Alloca Int32Ty)).
Proof.
  eexists; eexists; split; [vm_compute; reflexivity|].
  cbn [fn hd_error]; split; [reflexivity|].
  repeat split; try reflexivity.
  cbn; discriminate.
Qed.

(** C8: the dispatch block comes right behind the first block; it
    begins with a load of the state variable, which is the condition of
    its switch, and the default destination of the switch is the dispatch
    block; the terminator [t1] that the first block has after entry
    preparation gives way to a jump to the dispatch block. *)
Theorem C8_dispatch_block (f : function) :
  1 < length f -> wf_input f = true -> rewritableb f = true ->
  exists st pro t1 tl1 tl' s0 bj,
    flatten_core f = Ok (Some st) /\
    entry_preparation f (map bid f) =
      Ok (mkBB (insert st) (pro ++ [t1]) :: tl1, origBB st, insert st) /\
    hd_error (map bid f) = Some (insert st) /\
    map bid (fn st) = insert st :: loopEntry st :: tl' /\
    getBlock (fn st) (loopEntry st) =
      Some (mkBB (loopEntry st)
              [mkInst (load st) Int32Ty (Load (VInst (switchVar st)) false);
               mkInst (switchI st) VoidTy
                 (Switch (VInst (load st)) (loopEntry st)
                    (case_table 0 (origBB st)))]) /\
    getBlock (fn st) (insert st) =
      Some (mkBB (insert st)
              (pro ++
               [mkInst (switchVar st) (PointerTy Int32Ty) (Alloca Int32Ty);
                mkInst s0 VoidTy (Store (VConstInt 32 0) (VInst (switchVar st)));
                mkInst bj VoidTy (Br (loopEntry st))])).
Proof.
  intros L WI RW.
  destruct (two_blocks f L) as [e [rest [-> Nr]]].
  destruct (wf_input_facts _ WI) as [W SO].
  destruct (flatten_core_shape e rest Nr W SO (rewritableb_rewritable _ RW))
    as (pro & t1 & tl1 & sv & s0 & ld & bj & sw & LE & f3 & Ep & T1 & W1 &
        Bt & Ec & W3 & B3 & Ge & Gl & Gb & NLE & _).
  exists (mkState f3 (map bid tl1) (bid e) LE ld sw sv), pro, t1, tl1,
    (rev (map bid tl1)), s0, bj.
  cbn [fn origBB insert loopEntry load switchI switchVar].
  split; [exact Ec|]; split; [exact Ep|]; split; [reflexivity|].
  split; [exact B3|]; split; [exact Gl | exact Ge].
Qed.

Lemma C8_witness :
  exists st pro t1 tl1 tl' s0 bj,
    flatten_core ex_straight = Ok (Some st) /\
    entry_preparation ex_straight (map bid ex_straight) =
      Ok (mkBB (insert st) (pro ++ [t1]) :: tl1, origBB st, insert st) /\
    hd_error (map bid ex_straight) = Some (insert st) /\
    map bid (fn st) = insert st :: loopEntry st :: tl' /\
    getBlock (fn st) (loopEntry st) =
      Some (mkBB (loopEntry st)
              [mkInst (load st) Int32Ty (Load (VInst (switchVar st)) false);
               mkInst (switchI st) VoidTy
                 (Switch (VInst (load st)) (loopEntry st)
                    (case_table 0 (origBB st)))]) /\
    getBlock (fn st) (insert st) =
      Some (mkBB (insert st)
              (pro ++
               [mkInst (switchVar st) (PointerTy Int32Ty) (Alloca Int32Ty);
                mkInst s0 VoidTy (Store (VConstInt 32 0) (VInst (switchVar st)));
                mkInst bj VoidTy (Br (loopEntry st))])).
Proof.
  apply (C8_dispatch_block ex_straight);
    [simpl; lia | reflexivity | reflexivity].
Defined.

(** ** The loop of fixStack *)

(** C9: on a function that meets the conditions of the IR the loop of
    [fixStack] is over after three turns at most.  The number of values
    that are used outside their block, the storage cells of the first
    block set aside, does not grow from one turn to the next and is zero
    after the second turn; so is the number of values that a scan
    collects -- the PHI nodes, and the values used outside their block
    that are no storage cell of the first block -- which bounds it.
    The loop returns, with any fuel from three on, and both numbers are
    zero for its result. *)
Theorem C9_termination (f : function) :
  wf_function f = true ->
  exists e f1 f2 f',
    hd_error (map bid f) = Some e /\
    fixStack_body e f = Ok f1 /\
    fixStack_body e f1 = Ok f2 /\
    escaping f1 e <= escaping f e /\
    escaping f2 e <= escaping f1 e /\
    escaping f2 e = 0 /\
    collected f1 e <= collected f e /\
    collected f2 e <= collected f1 e /\
    collected f2 e = 0 /\
    escaping f e <= collected f e /\
    fixStack 3 f = Ok f' /\
    (forall fuel, 3 <= fuel -> fixStack fuel f = Ok f') /\
    collected f' e = 0 /\
    escaping f' e = 0.
Proof.
  intros WB; pose proof (wf_function_WF f WB) as W.
  destruct (fixStack_spec f W) as [e [f' [En [Ef [_ [_ [S' _]]]]]]].
  destruct (fixStack_body_spec e f W En)
    as [f1 [R1 [E1 [W1 [En1 [NP1 _]]]]]].
  destruct (second_turn e f1 W1 En1 NP1) as [f2 [E2 [_ [_ [S2 _]]]]].
  assert (Z2 : collected f2 e = 0) by (apply collected_zero; exact S2).
  exists e, f1, f2, f'; split; [exact En|]; split; [exact E1|].
  split; [exact E2|].
  split; [apply (escaping_turn e f f1 W En E1)|].
  split; [apply (escaping_turn e f1 f2 W1 En1 E2)|].
  split; [apply escaping_zero; exact S2|].
  split; [apply (collected_turn e f f1 W En E1)|].
  split; [lia|]; split; [exact Z2|].
  split; [apply escaping_le_collected|].
  split; [exact Ef|]; split.
  - intros fuel Hf; revert Ef; unfold fixStack.
    destruct (hd_error f) as [bb|]; cbn [ofOption bind]; [|discriminate].
    intros Ef; apply (fixStack_loop_more (bid bb) 3 fuel f f' Ef Hf).
  - split; [apply collected_zero | apply escaping_zero]; exact S'.
Qed.

Lemma C9_witness :
  flatten_core ex_straight =
    Ok (Some (mkState ex_straight_core [1; 2] 0 3 16 18 14)) /\
  exists e f1 f2 f',
    hd_error (map bid ex_straight_core) = Some e /\
    fixStack_body e ex_straight_core = Ok f1 /\
    fixStack_body e f1 = Ok f2 /\
    escaping f1 e <= escaping ex_straight_core e /\
    escaping f2 e <= escaping f1 e /\
    escaping f2 e = 0 /\
    collected f1 e <= collected ex_straight_core e /\
    collected f2 e <= collected f1 e /\
    collected f2 e = 0 /\
    escaping ex_straight_core e <= collected ex_straight_core e /\
    fixStack 3 ex_straight_core = Ok f' /\
    (forall fuel, 3 <= fuel -> fixStack fuel ex_straight_core = Ok f') /\
    collected f' e = 0 /\
    escaping f' e = 0.
Proof.
  split; [vm_compute; reflexivity|].
  apply (C9_termination ex_straight_core); reflexivity.
Defined.

(** ** Storage cells in a scan *)

(** C10: a scan never collects a storage cell of the entry block, and
    it collects a storage cell of another block that is used outside its
    block.  One turn of the loop leaves no PHI node and leaves the
    storage cells of the entry block where they are; the storage cells
    that it adds are in the entry block, in front of its terminator, and
    the next scan collects no cell of the entry block; a storage cell
    of another block that is used outside its block is demoted: it
    stays where it is, a store right in its block writes its address
    into a new cell of the entry block, and it is no longer used outside
    its block. *)
Theorem C10_alloca_exemption (f : function) (e : block_id) :
  wf_function f = true ->
  hd_error (map bid f) = Some e ->
  (forall j, In j (located f) ->
     isa_AllocaInst (ikind (snd j)) = true -> fst j = e ->
     ~ In (iid (snd j)) (snd (scan f e))) /\
  (forall j, In j (located f) ->
     isa_AllocaInst (ikind (snd j)) = true -> fst j <> e ->
     isUsedOutsideOfBlock f j (fst j) = true ->
     In (iid (snd j)) (snd (scan f e))) /\
  exists f1,
    fixStack_body e f = Ok f1 /\
    (forall j, In j (located f1) -> isa_PHINode (ikind (snd j)) = false) /\
    (forall j, In j (located f) ->
       isa_AllocaInst (ikind (snd j)) = true -> fst j = e ->
       In j (located f1) /\ ~ In (iid (snd j)) (snd (scan f1 e))) /\
    (forall j, In j (located f1) ->
       isa_AllocaInst (ikind (snd j)) = true ->
       In j (located f) \/
       (fst j = e /\
        ~ In (iid (snd j)) (snd (scan f1 e)) /\
        exists body t,
          getBlock f1 e = Some (mkBB e (body ++ [t])) /\
          isTerminator (ikind t) = true /\ In (snd j) body)) /\
    (forall j, In j (located f) ->
       isa_AllocaInst (ikind (snd j)) = true -> fst j <> e ->
       isUsedOutsideOfBlock f j (fst j) = true ->
       In j (located f1) /\
       isUsedOutsideOfBlock f1 j (fst j) = false /\
       ~ In (iid (snd j)) (snd (scan f1 e)) /\
       exists Slot s,
         ~ has_id f Slot /\ ~ has_id f s /\
         In (e, mkInst Slot (PointerTy (ity (snd j))) (Alloca (ity (snd j))))
            (located f1) /\
         In (fst j,
             mkInst s VoidTy (Store (VInst (iid (snd j))) (VInst Slot)))
            (located f1)).
Proof.
  intros WB En; pose proof (wf_function_WF f WB) as W.
  assert (Ex : forall g, uniq_ids g ->
            forall j, In j (located g) ->
              isa_AllocaInst (ikind (snd j)) = true -> fst j = e ->
              ~ In (iid (snd j)) (snd (scan g e))).
  { intros g U j Hj A E H; apply scan_reg in H.
    destruct H as [j' [Hj' [E' [_ [NA _]]]]].
    assert (X : j' = j).
    { destruct j as [c x], j' as [c' x']; apply (uniq_ids_same g); auto. }
    subst j'; apply NA; split; assumption. }
  split; [apply (Ex f (wf_ids f W))|]; split.
  - intros j Hj A NE UO; apply scan_reg; exists j.
    split; [exact Hj|]; split; [reflexivity|]; split.
    + destruct (ikind (snd j)); try discriminate; reflexivity.
    + split; [intros [_ X]; contradiction|].
      apply isUsedOutsideOfBlock_spec; exact UO.
  - destruct (fixStack_body_spec e f W En)
      as [f1 [R1 [E1 [W1 [En1 [NP1 [_ [_ K]]]]]]]].
    exists f1; split; [exact E1|]; split; [exact NP1|]; split; [|split].
    + intros j Hj A Ej.
      pose proof (fixStack_body_cells e f f1 W En E1 j Hj A Ej) as Hj1.
      split; [exact Hj1 | apply (Ex f1 (wf_ids f1 W1) j Hj1 A Ej)].
    + intros j Hj A; destruct (kp_alloca _ _ _ K j Hj A) as [H|H];
        [left; exact H | right].
      split; [exact H|]; split; [apply (Ex f1 (wf_ids f1 W1) j Hj A H)|].
      destruct j as [c x]; simpl in H; subst c.
      apply In_located in Hj; destruct Hj as [bb [Hbb [Eb Hx]]].
      destruct (wf_term f1 W1 bb Hbb) as [t Ht].
      apply getTerminator_Some in Ht; destruct Ht as [body [Ei Tt]].
      exists body, t; split; [|split; [exact Tt|]].
      * rewrite <- Eb, <- Ei, bb_eta.
        apply getBlock_In; [apply (wf_bids f1 W1) | exact Hbb].
      * rewrite Ei in Hx; apply in_app_iff in Hx.
        destruct Hx as [Hx|[<-|[]]]; [exact Hx|].
        simpl in A; destruct (ikind t); discriminate.
    + intros [c x] Hj A NE UO; cbn [fst snd] in *.
      apply isUsedOutsideOfBlock_spec in UO; cbn [fst snd] in UO.
      destruct (fixStack_body_more e f f1 W En E1) as [_ M].
      destruct (M c x Hj A NE UO) as [[Hx [Slot [s [N1 [N2 [H1 H2]]]]]] NU].
      assert (NU' : isUsedOutsideOfBlock f1 (c, x) c = false).
      { destruct (isUsedOutsideOfBlock f1 (c, x) c) eqn:B; [|reflexivity].
        exfalso; apply NU.
        apply (isUsedOutsideOfBlock_spec f1 (c, x) c); exact B. }
      split; [exact Hx|]; split; [exact NU'|]; split.
      * intros H; apply scan_reg in H.
        destruct H as [j' [Hj' [E' [_ [_ UO']]]]].
        assert (X : j' = (c, x)).
        { destruct j' as [c' x']; apply (uniq_ids_same f1); auto.
          apply (wf_ids f1 W1). }
        subst j'; apply NU; exact UO'.
      * exists Slot, s; auto.
Qed.

Lemma C10_witness :
  flatten_core ex_cell =
    Ok (Some (mkState ex_cell_core [1; 2] 0 3 17 19 15)) /\
  (forall j, In j (located ex_cell_core) ->
     isa_AllocaInst (ikind (snd j)) = true -> fst j = 0 ->
     ~ In (iid (snd j)) (snd (scan ex_cell_core 0))) /\
  (forall j, In j (located ex_cell_core) ->
     isa_AllocaInst (ikind (snd j)) = true -> fst j <> 0 ->
     isUsedOutsideOfBlock ex_cell_core j (fst j) = true ->
     In (iid (snd j)) (snd (scan ex_cell_core 0))) /\
  exists f1,
    fixStack_body 0 ex_cell_core = Ok f1 /\
    (forall j, In j (located f1) -> isa_PHINode (ikind (snd j)) = false) /\
    (forall j, In j (located ex_cell_core) ->
       isa_AllocaInst (ikind (snd j)) = true -> fst j = 0 ->
       In j (located f1) /\ ~ In (iid (snd j)) (snd (scan f1 0))) /\
    (forall j, In j (located f1) ->
       isa_AllocaInst (ikind (snd j)) = true ->
       In j (located ex_cell_core) \/
       (fst j = 0 /\
        ~ In (iid (snd j)) (snd (scan f1 0)) /\
        exists body t,
          getBlock f1 0 = Some (mkBB 0 (body ++ [t])) /\
          isTerminator (ikind t) = true /\ In (snd j) body)) /\
    (forall j, In j (located ex_cell_core) ->
       isa_AllocaInst (ikind (snd j)) = true -> fst j <> 0 ->
       isUsedOutsideOfBlock ex_cell_core j (fst j) = true ->
       In j (located f1) /\
       isUsedOutsideOfBlock f1 j (fst j) = false /\
       ~ In (iid (snd j)) (snd (scan f1 0)) /\
       exists Slot s,
         ~ has_id ex_cell_core Slot /\ ~ has_id ex_cell_core s /\
         In (0, mkInst Slot (PointerTy (ity (snd j))) (Alloca (ity (snd j))))
            (located f1) /\
         In (fst j,
             mkInst s VoidTy (Store (VInst (iid (snd j))) (VInst Slot)))
            (located f1)).
Proof.
  split; [vm_compute; reflexivity|].
  apply (C10_alloca_exemption ex_cell_core 0); reflexivity.
Defined.

(** ** valueEscapes and the scan *)

Lemma existsb_same {A : Type} (p : A -> bool) (b : bool) (l : list A) :
  (forall x, In x l -> p x = b) ->
  existsb p l = negb (match l with [] => true | _ => false end) && b.
Proof.
  induction l as [|a l IH]; intros H; [reflexivity|].
  simpl; rewrite (H a (or_introl eq_refl)).
  destruct b; [reflexivity|].
  rewrite IH by (intros x Hx; apply H; right; exact Hx).
  apply andb_false_r.
Qed.

(** X1: [valueEscapes] looks at the value in each use, which is the
    instruction itself, and not at its user: it answers true exactly for
    a PHI node that has a use, and false for every other instruction,
    wherever its users are. *)
Theorem X1_valueEscapes (f : function) (Inst : linst) :
  valueEscapes f Inst =
    isa_PHINode (ikind (snd Inst)) && negb (use_empty f Inst) /\
  (isa_PHINode (ikind (snd Inst)) = false ->
   forall BB,
     valueEscapes f Inst || isUsedOutsideOfBlock f Inst BB =
     isUsedOutsideOfBlock f Inst BB).
Proof.
  assert (E : valueEscapes f Inst =
              isa_PHINode (ikind (snd Inst)) && negb (use_empty f Inst)).
  { unfold valueEscapes, use_empty.
    rewrite (existsb_same _ (isa_PHINode (ikind (snd Inst)))).
    - destruct (uses f Inst); simpl;
        [rewrite andb_false_r | rewrite andb_true_r]; reflexivity.
    - intros U HU; apply uses_spec in HU; destruct HU as [_ [-> _]].
      rewrite Nat.eqb_refl; reflexivity. }
  split; [exact E|].
  intros P BB; rewrite E, P; reflexivity.
Qed.

(** X2: with distinct instructions, one scan puts an instruction in
    [tmpPhi] exactly when it is a PHI node, and in [tmpReg] exactly when
    it is no PHI node, no storage cell of the entry block, and used
    outside its block; no instruction is collected twice, none is in both
    lists, and what is collected is in the function. *)
Theorem X2_scan (f : function) (e : block_id) :
  nodupb (map iid (all_insts f)) = true ->
  (forall j, In j (located f) ->
     (In (iid (snd j)) (fst (scan f e)) <->
      isa_PHINode (ikind (snd j)) = true)) /\
  (forall j, In j (located f) ->
     (In (iid (snd j)) (snd (scan f e)) <->
      isa_PHINode (ikind (snd j)) = false /\
      isa_AllocaInst (ikind (snd j)) && (fst j =? e) = false /\
      isUsedOutsideOfBlock f j (fst j) = true)) /\
  NoDup (fst (scan f e) ++ snd (scan f e)) /\
  (forall x, In x (fst (scan f e) ++ snd (scan f e)) ->
     exists j, In j (located f) /\ iid (snd j) = x).
Proof.
  intros UB.
  assert (U : uniq_ids f).
  { unfold uniq_ids; rewrite <- ids_located; apply nodupb_NoDup; exact UB. }
  assert (Same : forall j j', In j (located f) -> In j' (located f) ->
                   iid (snd j') = iid (snd j) -> j' = j).
  { intros [c x] [c' x'] H H' E; apply (uniq_ids_same f); auto. }
  assert (EA : forall j, entry_alloca e j <->
                 isa_AllocaInst (ikind (snd j)) && (fst j =? e) = true).
  { intros j; unfold entry_alloca; rewrite andb_true_iff, Nat.eqb_eq.
    tauto. }
  split; [|split; [|split]].
  - intros j Hj; rewrite scan_phi; split.
    + intros [j' [Hj' [E P]]]; rewrite <- (Same j j' Hj Hj' E); exact P.
    + intros P; exists j; auto.
  - intros j Hj; rewrite scan_reg; split.
    + intros [j' [Hj' [E [P [NA UO]]]]].
      rewrite (Same j j' Hj Hj' E) in *.
      split; [exact P|]; split.
      * destruct (isa_AllocaInst (ikind (snd j)) && (fst j =? e)) eqn:A;
          [|reflexivity].
        exfalso; apply NA, EA; exact A.
      * apply isUsedOutsideOfBlock_spec; exact UO.
    + intros [P [A UO]]; exists j.
      split; [exact Hj|]; split; [reflexivity|]; split; [exact P|].
      split; [intros H; apply EA in H; congruence|].
      apply isUsedOutsideOfBlock_spec; exact UO.
  - destruct (scan_NoDup f e U) as [N1 N2].
    apply NoDup_app; [exact N1 | exact N2|].
    intros x H1 H2; apply scan_phi in H1; apply scan_reg in H2.
    destruct H1 as [j [Hj [E P]]], H2 as [j' [Hj' [E' [P' _]]]].
    assert (X : j' = j) by (apply Same; auto; congruence).
    subst j'; congruence.
  - intros x H; apply in_app_iff in H; destruct H as [H|H].
    + apply scan_phi in H; destruct H as [j [Hj [E _]]]; eauto.
    + apply scan_reg in H; destruct H as [j [Hj [E _]]]; eauto.
Qed.

Lemma X2_witness :
  (forall j, In j (located ex_diamond) ->
     (In (iid (snd j)) (fst (scan ex_diamond 0)) <->
      isa_PHINode (ikind (snd j)) = true)) /\
  (forall j, In j (located ex_diamond) ->
     (In (iid (snd j)) (snd (scan ex_diamond 0)) <->
      isa_PHINode (ikind (snd j)) = false /\
      isa_AllocaInst (ikind (snd j)) && (fst j =? 0) = false /\
      isUsedOutsideOfBlock ex_diamond j (fst j) = true)) /\
  NoDup (fst (scan ex_diamond 0) ++ snd (scan ex_diamond 0)) /\
  (forall x, In x (fst (scan ex_diamond 0) ++ snd (scan ex_diamond 0)) ->
     exists j, In j (located ex_diamond) /\ iid (snd j) = x).
Proof.
  apply (X2_scan ex_diamond 0); reflexivity.
Defined.

(** ** fixStack on its own result *)

(** X3: [fixStack] is idempotent: on the function that a run of
    [fixStack] has left, the first scan collects nothing and the loop is
    left after one turn with the function unchanged. *)
Theorem X3_fixStack_idempotent (fuel : nat) (f f' : function) :
  wf_function f = true ->
  fixStack fuel f = Ok f' ->
  forall n, fixStack (S n) f' = Ok f'.
Proof.
  intros WB H n; pose proof (wf_function_WF f WB) as W.
  destruct (fixStack_spec f W) as [e [f3 [En [Ef [_ [En' [S' _]]]]]]].
  assert (E : f' = f3).
  { revert H Ef; unfold fixStack.
    destruct (hd_error f) as [bb|]; cbn [ofOption bind]; [|discriminate].
    intros H Ef; apply (fixStack_loop_det (bid bb) fuel 3 f f' f3 H Ef). }
  subst f3; unfold fixStack.
  destruct f' as [|bb tl]; [discriminate|].
  inversion En' as [Eb]; cbn [hd_error ofOption bind]; rewrite Eb in *.
  rewrite (fixStack_loop_step n e _ _ (scan_empty_body e _ S')).
  apply (scan_test e) in S'; rewrite S'; reflexivity.
Qed.

Lemma X3_witness :
  exists f',
    fixStack 3 ex_diamond = Ok f' /\
    forall n, fixStack (S n) f' = Ok f'.
Proof.
  eexists; split; [vm_compute; reflexivity|].
  apply (X3_fixStack_idempotent 3 ex_diamond);
    [reflexivity | vm_compute; reflexivity].
Defined.

(** ** Terminators of several successors *)

(** X4: terminator rewriting leaves a block of the case table whose
    terminator has three successors or more as it is: the block keeps its
    terminator, and with it its direct edges to its successors. *)
Theorem X4_wide_terminator_kept (f : function) :
  1 < length f -> wf_input f = true -> rewritableb f = true ->
  exists f1 st,
    entry_preparation f (map bid f) = Ok (f1, origBB st, insert st) /\
    flatten_core f = Ok (Some st) /\
    forall bb t, In bb (tl f1) -> getTerminator bb = Some t ->
      3 <= getNumSuccessors (ikind t) ->
      getBlock (fn st) (bid bb) = Some bb.
Proof.
  intros L WI RW.
  destruct (two_blocks f L) as [e [rest [-> Nr]]].
  destruct (wf_input_facts _ WI) as [W SO].
  destruct (flatten_core_shape e rest Nr W SO (rewritableb_rewritable _ RW))
    as (pro & t1 & tl1 & sv & s0 & ld & bj & sw & LE & f3 & Ep & T1 & W1 &
        Bt & Ec & W3 & B3 & Ge & Gl & Gb & NLE & _).
  exists (mkBB (bid e) (pro ++ [t1]) :: tl1),
    (mkState f3 (map bid tl1) (bid e) LE ld sw sv).
  cbn [fn origBB insert loopEntry load switchI switchVar tl].
  split; [exact Ep|]; split; [exact Ec|].
  intros bb t Hbb Ht N; destruct (Gb bb Hbb) as [bb' [G [Eb R]]].
  rewrite G; f_equal.
  apply getTerminator_Some in Ht; destruct Ht as [body [Ei _]].
  assert (X : insts bb' = insts bb).
  { unfold getNumSuccessors in N.
    inversion R as [b0 t0 N0 E1 E2|b0 t0 N0 E1 E2
                   |b0 t0 s k n1 n2 Es Fk E1 E2
                   |b0 t0 c sT sF kT kF n0 n1 n2 K FT FF E1 E2];
      try reflexivity; exfalso; rewrite Ei in E1;
      apply app_inj_tail in E1; destruct E1 as [_ <-].
    - rewrite Es in N; simpl in N; lia.
    - rewrite K in N; simpl in N; lia. }
  destruct bb as [b l], bb' as [b' l']; simpl in *; congruence.
Qed.

Lemma X4_witness :
  exists f1 st,
    entry_preparation ex_wide (map bid ex_wide)
      = Ok (f1, origBB st, insert st) /\
    flatten_core ex_wide = Ok (Some st) /\
    forall bb t, In bb (tl f1) -> getTerminator bb = Some t ->
      3 <= getNumSuccessors (ikind t) ->
      getBlock (fn st) (bid bb) = Some bb.
Proof.
  apply (X4_wide_terminator_kept ex_wide);
    [simpl; lia | reflexivity | reflexivity].
Defined.

(** ** The layout of the flattened function *)

(** X5: [flatten] leaves the first block first and the dispatch block,
    which is new, second; behind them come the blocks of the case table
    in reverse order, each moved right behind the dispatch block in its
    turn.  No block is lost or doubled, and [fixStack] keeps the
    layout. *)
Theorem X5_layout (f : function) :
  1 < length f -> wf_input f = true -> rewritableb f = true ->
  exists st f',
    flatten_core f = Ok (Some st) /\
    flatten 3 f = Ok (true, f') /\
    map bid (fn st) = insert st :: loopEntry st :: rev (origBB st) /\
    map bid f' = map bid (fn st) /\
    NoDup (map bid f') /\
    ~ In (loopEntry st) (map bid f) /\
    (forall b, In b (map bid f) -> In b (map bid f')).
Proof.
  intros L WI RW.
  destruct (two_blocks f L) as [e [rest [-> Nr]]].
  destruct (wf_input_facts _ WI) as [W SO].
  destruct (flatten_core_shape e rest Nr W SO (rewritableb_rewritable _ RW))
    as (pro & t1 & tl1 & sv & s0 & ld & bj & sw & LE & f3 & Ep & T1 & W1 &
        Bt & Ec & W3 & B3 & Ge & Gl & Gb & NLE & _).
  destruct (fixStack_spec f3 W3) as [e' [f' [En [Ef [W' [En' [S' K]]]]]]].
  exists (mkState f3 (map bid tl1) (bid e) LE ld sw sv), f'.
  cbn [fn origBB insert loopEntry load switchI switchVar].
  assert (Sub : forall b, In b (map bid rest) -> In b (map bid tl1)).
  { intros b Hb; destruct Bt as [-> | ->]; [exact Hb | right; exact Hb]. }
  split; [exact Ec|]; split.
  { unfold flatten; rewrite Ec; cbn [bind fn]; rewrite Ef; reflexivity. }
  split; [exact B3|]; split; [apply (kp_bids _ _ _ K)|]; split.
  { apply (wf_bids f' W'). }
  split.
  - simpl; intros [H|H]; apply NLE; [left; exact H | right; apply Sub, H].
  - intros b Hb; rewrite (kp_bids _ _ _ K), B3.
    destruct Hb as [<-|Hb]; [left; reflexivity|].
    right; right; apply in_rev; rewrite rev_involutive; apply Sub, Hb.
Qed.

Lemma X5_witness :
  exists st f',
    flatten_core ex_diamond = Ok (Some st) /\
    flatten 3 ex_diamond = Ok (true, f') /\
    map bid (fn st) = insert st :: loopEntry st :: rev (origBB st) /\
    map bid f' = map bid (fn st) /\
    NoDup (map bid f') /\
    ~ In (loopEntry st) (map bid ex_diamond) /\
    (forall b, In b (map bid ex_diamond) -> In b (map bid f')).
Proof.
  apply (X5_layout ex_diamond); [simpl; lia | reflexivity | reflexivity].
Defined.

(** ** The first block that the dispatcher runs *)

(** X6: the state variable starts at 0, and case 0 of the switch is the
    first block of [origBB]: the split block when the first block was
    split, and otherwise the block that follows the first block in the
    layout.  The terminator of the first block is erased without a look
    at its destination: when it is a jump, to whatever block, the
    dispatcher starts with the block next in the layout. *)
Theorem X6_first_case (e : basic_block) (rest : list basic_block)
    (t : instruction) :
  1 < length (e :: rest) -> wf_input (e :: rest) = true ->
  rewritableb (e :: rest) = true -> getTerminator e = Some t ->
  exists st s0 b0 cases,
    flatten_core (e :: rest) = Ok (Some st) /\
    In (insert st,
        mkInst s0 VoidTy (Store (VConstInt 32 0) (VInst (switchVar st))))
       (located (fn st)) /\
    getInst (fn st) (switchI st) =
      Some (mkInst (switchI st) VoidTy
              (Switch (VInst (load st)) (loopEntry st) cases)) /\
    hd_error cases = Some (0%Z, b0) /\
    (isConditional (ikind t) || (1 <? getNumSuccessors (ikind t)) = true ->
     b0 = fresh_bid (e :: rest)) /\
    (isConditional (ikind t) || (1 <? getNumSuccessors (ikind t)) = false ->
     hd_error (map bid rest) = Some b0) /\
    (forall d, ikind t = Br d -> hd_error (map bid rest) = Some b0).
Proof.
  intros L WI RW T.
  destruct (two_blocks _ L) as [e0 [rest0 [E0 Nr]]].
  inversion E0; subst e0 rest0; clear E0.
  destruct (wf_input_facts _ WI) as [W SO].
  destruct (flatten_core_shape e rest Nr W SO (rewritableb_rewritable _ RW))
    as (pro & t1 & tl1 & sv & s0 & ld & bj & sw & LE & f3 & Ep & T1 & W1 &
        Bt & Ec & W3 & B3 & Ge & Gl & Gb & NLE & _).
  assert (Hd : exists b0, hd_error (map bid tl1) = Some b0).
  { destruct Bt as [-> | ->]; [|eexists; reflexivity].
    destruct rest as [|r rs]; [contradiction | eexists; reflexivity]. }
  destruct Hd as [b0 Hb0].
  assert (No : isConditional (ikind t) || (1 <? getNumSuccessors (ikind t))
               = false -> hd_error (map bid rest) = Some b0).
  { intros C; rewrite (entry_preparation_no_split e rest t T C) in Ep.
    assert (X : map bid rest = map bid tl1) by congruence.
    rewrite X; exact Hb0. }
  exists (mkState f3 (map bid tl1) (bid e) LE ld sw sv), s0, b0,
    (case_table 0 (map bid tl1)).
  cbn [fn origBB insert loopEntry load switchI switchVar].
  split; [exact Ec|]; split.
  { apply (getBlock_located f3 (bid e) _ _ Ge).
    apply in_app_iff; right; right; left; reflexivity. }
  split.
  { apply (getInst_uniq f3 LE (SwitchOn sw ld LE (case_table 0 (map bid tl1)))
             (wf_ids f3 W3)).
    apply (getBlock_located f3 LE _ _ Gl); right; left; reflexivity. }
  split.
  { destruct (map bid tl1) as [|b bs]; [discriminate|].
    inversion Hb0; reflexivity. }
  split; [|split; [exact No|]].
  - intros C.
    assert (NI : ~ In (bid e) (map bid rest)).
    { pose proof (wf_bids _ W) as B; unfold uniq_bids in B; simpl in B.
      inversion B; auto. }
    pose proof T as T'; apply getTerminator_Some in T'.
    destruct T' as [l [El Tt]].
    assert (SS : forall s, In s (successors (ikind t)) ->
                           In s (map bid rest)).
    { intros s Hs; apply (SO (bid e) t s); [|exact Hs].
      rewrite located_cons; apply in_app_iff; left; apply in_map.
      rewrite El; apply in_app_iff; right; left; reflexivity. }
    destruct (entry_preparation_split e rest t T NI SS C)
      as [kept [moved [_ [_ Ep']]]].
    rewrite Ep' in Ep.
    assert (X : fresh_bid (e :: rest) :: map bid rest = map bid tl1)
      by congruence.
    rewrite <- X in Hb0; inversion Hb0; reflexivity.
  - intros d K; apply No; rewrite K; reflexivity.
Qed.

Lemma X6_witness :
  exists st s0 b0 cases,
    flatten_core ex_skip = Ok (Some st) /\
    In (insert st,
        mkInst s0 VoidTy (Store (VConstInt 32 0) (VInst (switchVar st))))
       (located (fn st)) /\
    getInst (fn st) (switchI st) =
      Some (mkInst (switchI st) VoidTy
              (Switch (VInst (load st)) (loopEntry st) cases)) /\
    hd_error cases = Some (0%Z, b0) /\
    (isConditional (Br 2) || (1 <? getNumSuccessors (Br 2)) = true ->
     b0 = fresh_bid ex_skip) /\
    (isConditional (Br 2) || (1 <? getNumSuccessors (Br 2)) = false ->
     hd_error (map bid (tl ex_skip)) = Some b0) /\
    (forall d, Br 2 = Br d -> hd_error (map bid (tl ex_skip)) = Some b0).
Proof.
  apply (X6_first_case (mkBB 0 [mkInst 10 VoidTy (Br 2)]) (tl ex_skip)
           (mkInst 10 VoidTy (Br 2)));
    [simpl; lia | reflexivity | reflexivity | reflexivity].
Defined.

(** ** The instructions of the flattened function, block by block *)

Lemma located_by_blocks f3 be LE bs :
  WF f3 -> map bid f3 = be :: LE :: rev bs ->
  forall c j, In (c, j) (located f3) ->
    exists bb, getBlock f3 c = Some bb /\ In j (insts bb) /\
               (c = be \/ c = LE \/ In c bs).
Proof.
  intros W B c j Hj.
  apply In_located in Hj; destruct Hj as [bb [Hbb [Eb Hj]]].
  exists bb; split; [|split; [exact Hj|]].
  - rewrite <- Eb; apply (getBlock_In f3 bb (wf_bids f3 W) Hbb).
  - assert (Hc : In c (map bid f3)) by (rewrite <- Eb; apply in_map, Hbb).
    rewrite B in Hc; destruct Hc as [Hc|[Hc|Hc]]; auto.
    right; right; apply in_rev; exact Hc.
Qed.

Lemma findCaseDest_In c d cases s k :
  findCaseDest (Switch c d cases) s = Some k -> In k (map fst cases).
Proof.
  unfold findCaseDest; destruct (s =? d); [discriminate|].
  destruct (filter (fun x : Z * block_id => snd x =? s) cases)
    as [|x [|y l]] eqn:F; try discriminate.
  intros H; inversion H; subst k; apply in_map.
  assert (X : In x (filter (fun x : Z * block_id => snd x =? s) cases))
    by (rewrite F; left; reflexivity).
  apply filter_In in X; tauto.
Qed.

(** ** The uses of the state variable *)

(** X7: in the function that [flatten] hands to [fixStack] the state
    variable is read by the load of the dispatch block only, and every
    other instruction that mentions it is a store into it, outside the
    dispatch block, of a case index of the switch or of a select between
    two case indices: no value without a case is ever stored. *)
Theorem X7_state_variable_uses (f : function) :
  1 < length f -> wf_input f = true -> rewritableb f = true ->
  exists st cases,
    flatten_core f = Ok (Some st) /\
    getInst (fn st) (switchI st) =
      Some (mkInst (switchI st) VoidTy
              (Switch (VInst (load st)) (loopEntry st) cases)) /\
    forall c j, In (c, j) (located (fn st)) ->
      In (VInst (switchVar st)) (operands (ikind j)) ->
      (c = loopEntry st /\
       j = mkInst (load st) Int32Ty (Load (VInst (switchVar st)) false)) \/
      (c <> loopEntry st /\
       exists k,
         ikind j = Store (VConstInt 32 k) (VInst (switchVar st)) /\
         In k (map fst cases)) \/
      (c <> loopEntry st /\
       exists n0 cnd kT kF,
         ikind j = Store (VInst n0) (VInst (switchVar st)) /\
         n0 <> switchVar st /\
         In (c, mkInst n0 Int32Ty
                  (Select cnd (VConstInt 32 kT) (VConstInt 32 kF)))
            (located (fn st)) /\
         In kT (map fst cases) /\ In kF (map fst cases)).
Proof.
  intros L WI RW.
  destruct (two_blocks f L) as [e [rest [-> Nr]]].
  destruct (wf_input_facts _ WI) as [W SO].
  destruct (flatten_core_shape e rest Nr W SO (rewritableb_rewritable _ RW))
    as (pro & t1 & tl1 & sv & s0 & ld & bj & sw & LE & f3 & Ep & T1 & W1 &
        Bt & Ec & W3 & B3 & Ge & Gl & Gb & NLE & L1 & L2 & L3 & L4 & F0).
  set (cases := case_table 0 (map bid tl1)) in *.
  exists (mkState f3 (map bid tl1) (bid e) LE ld sw sv), cases.
  cbn [fn origBB insert loopEntry load switchI switchVar].
  split; [exact Ec|]; split.
  { apply (getInst_uniq f3 LE (SwitchOn sw ld LE cases) (wf_ids f3 W3)).
    apply (getBlock_located f3 LE _ _ Gl); right; left; reflexivity. }
  (* the instructions of the input do not mention the state variable *)
  assert (Old : forall c j, In (c, j) (located (mkBB (bid e) pro :: tl1)) ->
                  ~ In (VInst sv) (operands (ikind j))).
  { intros c j Hj M.
    pose proof (fresh_iid_operand _ c j sv Hj M); lia. }
  assert (OldE : forall j, In j pro -> ~ In (VInst sv) (operands (ikind j))).
  { intros j Hj; apply (Old (bid e) j).
    rewrite located_cons; apply in_app_iff; left; apply in_map; exact Hj. }
  assert (OldT : forall bb j, In bb tl1 -> In j (insts bb) ->
                   ~ In (VInst sv) (operands (ikind j))).
  { intros bb j Hbb Hj; apply (Old (bid bb) j).
    rewrite located_cons; apply in_app_iff; right.
    apply In_located; exists bb; auto. }
  assert (Zero : In 0%Z (map fst cases)).
  { unfold cases; destruct Bt as [-> | ->]; [|left; reflexivity].
    destruct rest as [|r rs]; [contradiction | left; reflexivity]. }
  assert (Ne : bid e <> LE) by (intros H; apply NLE; left; exact H).
  intros c j Hj M.
  destruct (located_by_blocks f3 (bid e) LE (map bid tl1) W3 B3 c j Hj)
    as [bb3 [G3 [Hin [Hc|[Hc|Hc]]]]].
  - subst c; rewrite Ge in G3; inversion G3; subst bb3; simpl in Hin.
    apply in_app_iff in Hin; destruct Hin as [Hin|Hin];
      [exfalso; apply (OldE j Hin M)|].
    destruct Hin as [<-|[<-|[<-|[]]]]; try (destruct M; fail).
    right; left; split; [exact Ne|].
    exists 0%Z; split; [reflexivity | exact Zero].
  - subst c; rewrite Gl in G3; inversion G3; subst bb3; simpl in Hin.
    destruct Hin as [<-|[<-|[]]]; [left; split; reflexivity|].
    exfalso; simpl in M; destruct M as [M|[]]; inversion M; lia.
  - apply in_map_iff in Hc; destruct Hc as [bb [Ebb Hbb]].
    destruct (Gb bb Hbb) as [bb' [G' [_ R]]].
    rewrite Ebb, G3 in G'; inversion G'; subst bb'.
    assert (Nc : c <> LE).
    { intros H; apply NLE; right; rewrite <- H, <- Ebb.
      apply in_map; exact Hbb. }
    assert (In3 : forall x, In x (insts bb3) -> In (c, x) (located f3)).
    { intros x Hx; apply In_located; exists bb3; split; [|split; auto].
      - apply getBlock_Some in G3; tauto.
      - apply getBlock_Some in G3; tauto. }
    inversion R as [b0 t0 N0 E1 E2|b0 t0 N0 E1 E2
                   |b0 t0 s k n1 n2 Es Fk E1 E2
                   |b0 t0 cnd sT sF kT kF n0 n1 n2 K FT FF E1 E2].
    + exfalso; rewrite <- E2, E1 in Hin; apply (OldT bb j Hbb Hin M).
    + exfalso; rewrite <- E2, E1 in Hin; apply (OldT bb j Hbb Hin M).
    + rewrite <- E2 in Hin; apply in_app_iff in Hin.
      destruct Hin as [Hin|Hin].
      * exfalso; apply (OldT bb j Hbb); [|exact M].
        rewrite <- E1; apply in_app_iff; left; exact Hin.
      * destruct Hin as [<-|[<-|[]]]; [|destruct M].
        right; left; split; [exact Nc|].
        exists k; split; [reflexivity|].
        apply (findCaseDest_In _ _ _ _ _ Fk).
    + assert (Ht0 : In t0 (insts bb))
        by (rewrite <- E1; apply in_app_iff; right; left; reflexivity).
      rewrite <- E2 in Hin; apply in_app_iff in Hin.
      destruct Hin as [Hin|Hin].
      * exfalso; apply (OldT bb j Hbb); [|exact M].
        rewrite <- E1; apply in_app_iff; left; exact Hin.
      * destruct Hin as [<-|[<-|[<-|[]]]]; [| |destruct M].
        -- exfalso; simpl in M; destruct M as [M|[M|[M|[]]]];
             try discriminate.
           apply (OldT bb t0 Hbb Ht0); rewrite K; left; exact M.
        -- right; right; split; [exact Nc|].
           exists n0, cnd, kT, kF; split; [reflexivity|].
           assert (Hsel : In (c, mkInst n0 Int32Ty
                                  (Select cnd (VConstInt 32 kT)
                                     (VConstInt 32 kF))) (located f3)).
           { apply In3; rewrite <- E2; apply in_app_iff; right; left.
             reflexivity. }
           split.
           { intros E; subst n0.
             assert (Hsv : In (bid e, AllocaSV sv) (located f3)).
             { apply (getBlock_located f3 (bid e) _ _ Ge).
               apply in_app_iff; right; left; reflexivity. }
             pose proof (uniq_ids_same f3 _ _ _ _ (wf_ids f3 W3) Hsel Hsv
                           eq_refl) as X.
             inversion X. }
           split; [exact Hsel|].
           split; [apply (findCaseDest_In _ _ _ _ _ FT)
                  | apply (findCaseDest_In _ _ _ _ _ FF)].
Qed.

Lemma X7_witness :
  exists st cases,
    flatten_core ex_diamond = Ok (Some st) /\
    getInst (fn st) (switchI st) =
      Some (mkInst (switchI st) VoidTy
              (Switch (VInst (load st)) (loopEntry st) cases)) /\
    forall c j, In (c, j) (located (fn st)) ->
      In (VInst (switchVar st)) (operands (ikind j)) ->
      (c = loopEntry st /\
       j = mkInst (load st) Int32Ty (Load (VInst (switchVar st)) false)) \/
      (c <> loopEntry st /\
       exists k,
         ikind j = Store (VConstInt 32 k) (VInst (switchVar st)) /\
         In k (map fst cases)) \/
      (c <> loopEntry st /\
       exists n0 cnd kT kF,
         ikind j = Store (VInst n0) (VInst (switchVar st)) /\
         n0 <> switchVar st /\
         In (c, mkInst n0 Int32Ty
                  (Select cnd (VConstInt 32 kT) (VConstInt 32 kF)))
            (located (fn st)) /\
         In kT (map fst cases) /\ In kF (map fst cases)).
Proof.
  apply (X7_state_variable_uses ex_diamond);
    [simpl; lia | reflexivity | reflexivity].
Defined.

(** ** The conditions of the IR, from propositions to tests *)

Lemma WF_wf_function f : WF f -> wf_function f = true.
Proof.
  intros [NE B I T P U]; unfold wf_function.
  repeat (apply andb_true_iff; split).
  - destruct f; [congruence | reflexivity].
  - apply nodupb_NoDup; exact B.
  - apply nodupb_NoDup; rewrite ids_located; exact I.
  - unfold terminatedb; apply forallb_forall; intros bb Hbb.
    destruct (T bb Hbb) as [t ->]; reflexivity.
  - unfold phi_blocksb; apply forallb_forall; intros j Hj.
    apply In_all_insts in Hj; destruct Hj as [c Hj].
    apply forallb_forall; intros [v b] Hvb; apply memb_In.
    apply (P c j v b Hj Hvb).
  - unfold term_unusedb; apply forallb_forall; intros t Ht.
    destruct (isTerminator (ikind t)) eqn:Tt; [simpl | reflexivity].
    apply In_all_insts in Ht; destruct Ht as [c Ht].
    apply forallb_forall; intros u Hu.
    apply In_all_insts in Hu; destruct Hu as [d Hu].
    apply negb_true_iff.
    destruct (existsb (fun w => value_eqb w (VInst (iid t)))
                (operands (ikind u))) eqn:X; [|reflexivity].
    apply existsb_value_In in X.
    destruct (U c t d u Ht Hu Tt X).
Qed.

Lemma successors_ok_okb f : successors_ok f -> successors_okb f = true.
Proof.
  intros S; unfold successors_okb; apply forallb_forall; intros j Hj.
  apply In_all_insts in Hj; destruct Hj as [c Hj].
  apply forallb_forall; intros s Hs; apply memb_In.
  apply (S c j s Hj Hs).
Qed.

Lemma skeleton_successors k k' :
  skeleton k' = skeleton k -> successors k' = successors k.
Proof.
  destruct k, k'; simpl; intros H; try discriminate; try reflexivity;
    inversion H; reflexivity.
Qed.

Lemma successors_terminator k s :
  In s (successors k) -> isTerminator k = true.
Proof. destruct k; simpl; intros H; try reflexivity; destruct H. Qed.

(** The successors in the function that [flatten] hands to [fixStack]. *)
Lemma flatten_core_successors e rest st :
  rest <> [] ->
  WF (e :: rest) -> successors_ok (e :: rest) -> rewritable (e :: rest) ->
  flatten_core (e :: rest) = Ok (Some st) ->
  WF (fn st) /\ successors_ok (fn st).
Proof.
  intros Nr W SO RW Ef.
  destruct (flatten_core_shape e rest Nr W SO RW)
    as (pro & t1 & tl1 & sv & s0 & ld & bj & sw & LE & f3 & Ep & T1 & W1 &
        Bt & Ec & W3 & B3 & Ge & Gl & Gb & NLE & _).
  rewrite Ec in Ef; inversion Ef; subst st; clear Ef; cbn [fn].
  split; [exact W3|].
  destruct (entry_preparation_wf e rest Nr W SO RW)
    as [pro' [t1' [tl1' [Ep' [_ [_ [SO1 _]]]]]]].
  assert (X : mkBB (bid e) (pro' ++ [t1']) :: tl1' =
              mkBB (bid e) (pro ++ [t1]) :: tl1) by congruence.
  rewrite X in SO1; clear X Ep'.
  assert (Tl : map bid (tl f3) = LE :: rev (map bid tl1)).
  { destruct f3 as [|x f3]; [discriminate|]; simpl in *; congruence. }
  assert (Old : forall c j s,
            In (c, j) (located (mkBB (bid e) (pro ++ [t1]) :: tl1)) ->
            In s (successors (ikind j)) -> In s (map bid (tl f3))).
  { intros c j s Hj Hs; rewrite Tl; right; apply in_rev.
    rewrite rev_involutive; apply (SO1 c j s Hj Hs). }
  assert (OldT : forall bb j s, In bb tl1 -> In j (insts bb) ->
            In s (successors (ikind j)) -> In s (map bid (tl f3))).
  { intros bb j s Hbb Hj; apply (Old (bid bb) j s).
    rewrite located_cons; apply in_app_iff; right.
    apply In_located; exists bb; auto. }
  intros c j s Hj Hs.
  destruct (located_by_blocks f3 (bid e) LE (map bid tl1) W3 B3 c j Hj)
    as [bb3 [G3 [Hin [Hc|[Hc|Hc]]]]].
  - subst c; rewrite Ge in G3; inversion G3; subst bb3; simpl in Hin.
    apply in_app_iff in Hin; destruct Hin as [Hin|Hin].
    + apply (Old (bid e) j s); [|exact Hs].
      rewrite located_cons; apply in_app_iff; left; apply in_map.
      apply in_app_iff; left; exact Hin.
    + destruct Hin as [<-|[<-|[<-|[]]]]; try (destruct Hs; fail).
      destruct Hs as [<-|[]]; rewrite Tl; left; reflexivity.
  - subst c; rewrite Gl in G3; inversion G3; subst bb3; simpl in Hin.
    destruct Hin as [<-|[<-|[]]]; [destruct Hs|].
    simpl in Hs; rewrite case_table_snd in Hs; rewrite Tl.
    destruct Hs as [<-|Hs]; [left; reflexivity|].
    right; apply in_rev; rewrite rev_involutive; exact Hs.
  - apply in_map_iff in Hc; destruct Hc as [bb [Ebb Hbb]].
    destruct (Gb bb Hbb) as [bb' [G' [_ R]]].
    rewrite Ebb, G3 in G'; inversion G'; subst bb'.
    inversion R as [b0 t0 N0 E1 E2|b0 t0 N0 E1 E2
                   |b0 t0 s1 k n1 n2 Es Fk E1 E2
                   |b0 t0 cnd sT sF kT kF n0 n1 n2 K FT FF E1 E2].
    + rewrite <- E2, E1 in Hin; apply (OldT bb j s Hbb Hin Hs).
    + rewrite <- E2, E1 in Hin; apply (OldT bb j s Hbb Hin Hs).
    + rewrite <- E2 in Hin; apply in_app_iff in Hin.
      destruct Hin as [Hin|Hin].
      * apply (OldT bb j s Hbb); [|exact Hs].
        rewrite <- E1; apply in_app_iff; left; exact Hin.
      * destruct Hin as [<-|[<-|[]]]; [destruct Hs|].
        destruct Hs as [<-|[]]; rewrite Tl; left; reflexivity.
    + rewrite <- E2 in Hin; apply in_app_iff in Hin.
      destruct Hin as [Hin|Hin].
      * apply (OldT bb j s Hbb); [|exact Hs].
        rewrite <- E1; apply in_app_iff; left; exact Hin.
      * destruct Hin as [<-|[<-|[<-|[]]]]; try (destruct Hs; fail).
        destruct Hs as [<-|[]]; rewrite Tl; left; reflexivity.
Qed.

(** ** The result of flatten as an input *)

(** X8: on an input that meets the conditions of the IR (distinct blocks
    and instructions, terminated blocks, PHI nodes fed from blocks of the
    function, successors among the blocks behind the first), without
    invoke and with at least two blocks, [flatten] runs to its end and
    returns true; the function meets the same conditions when terminator
    rewriting is over, and again when [fixStack] is over: the first block
    still has no predecessor. *)
Theorem X8_result_well_formed (f : function) :
  1 < length f -> wf_input f = true -> rewritableb f = true ->
  exists st f',
    flatten_core f = Ok (Some st) /\
    wf_input (fn st) = true /\
    flatten 3 f = Ok (true, f') /\
    (forall fuel r, flatten fuel f = Ok r -> r = (true, f')) /\
    wf_input f' = true.
Proof.
  intros L WI RW.
  destruct (two_blocks f L) as [e [rest [-> Nr]]].
  destruct (wf_input_facts _ WI) as [W SO].
  pose proof (rewritableb_rewritable _ RW) as RW'.
  destruct (flatten_core_shape e rest Nr W SO RW')
    as (pro & t1 & tl1 & sv & s0 & ld & bj & sw & LE & f3 & _ & _ & _ &
        _ & Ec & _).
  destruct (flatten_core_successors e rest _ Nr W SO RW' Ec) as [W3 SO3].
  cbn [fn] in W3, SO3.
  destruct (fixStack_spec f3 W3) as [e' [f' [En [Ef [W' [En' [S' K]]]]]]].
  assert (Efl : flatten 3 (e :: rest) = Ok (true, f')).
  { unfold flatten; rewrite Ec; cbn [bind fn]; rewrite Ef; reflexivity. }
  exists (mkState f3 (map bid tl1) (bid e) LE ld sw sv), f'; cbn [fn].
  split; [exact Ec|]; split.
  { unfold wf_input; apply andb_true_iff; split;
      [apply WF_wf_function; exact W3 | apply successors_ok_okb; exact SO3]. }
  split; [exact Efl|]; split.
  { intros fuel r H; apply (flatten_det fuel 3 _ r (true, f') H Efl). }
  unfold wf_input; apply andb_true_iff; split;
    [apply WF_wf_function; exact W'|].
  apply successors_ok_okb; intros c j s Hj Hs.
  pose proof (successors_terminator _ _ Hs) as Tj.
  destruct (kp_term _ _ _ K c j Hj Tj) as [j0 [Hj0 E0]].
  rewrite (skeleton_successors _ _ E0) in Hs.
  pose proof (SO3 c j0 s Hj0 Hs) as H.
  assert (Tl : map bid (tl f') = map bid (tl f3)).
  { pose proof (kp_bids _ _ _ K) as B.
    destruct f' as [|x f'], f3 as [|y f3]; simpl in *; congruence. }
  rewrite Tl; exact H.
Qed.

Lemma X8_witness :
  exists st f',
    flatten_core ex_diamond = Ok (Some st) /\
    wf_input (fn st) = true /\
    flatten 3 ex_diamond = Ok (true, f') /\
    (forall fuel r, flatten fuel ex_diamond = Ok r -> r = (true, f')) /\
    wf_input f' = true.
Proof.
  apply (X8_result_well_formed ex_diamond);
    [simpl; lia | reflexivity | reflexivity].
Defined.

(** ** The instructions that terminator rewriting keeps *)

Lemma simF_located_l new f f' c j :
  simF new f f' -> In (c, j) (located f) ->
  exists j', In (c, j') (located f') /\ sim new j j'.
Proof.
  unfold simF; induction 1 as [|bb bb' f f' [E S] _ IH]; [simpl; easy|].
  rewrite !located_cons, !in_app_iff; intros [H|H].
  - apply in_map_iff in H; destruct H as [x [Ex Hx]]; inversion Ex; subst.
    destruct (Forall2_In_l _ _ _ _ S Hx) as [j' [Hj Sj]].
    exists j'; split; [|exact Sj].
    apply in_app_iff; left; rewrite E.
    apply in_map; exact Hj.
  - destruct (IH H) as [j' [Hj Sj]]; exists j'; split; [|exact Sj].
    apply in_app_iff; right; exact Hj.
Qed.

Lemma sim_terminator new j j' :
  sim new j j' -> isTerminator (ikind j') = isTerminator (ikind j).
Proof.
  intros [->|[inc [inc' [K [-> _]]]]]; [reflexivity|].
  rewrite K; reflexivity.
Qed.

(** What is not a terminator stays in a rewritten block. *)
Lemma rewritten_keeps LE sv sw l l' j :
  rewritten LE sv sw l l' -> In j l -> isTerminator (ikind j) = false ->
  In j l'.
Proof.
  intros R Hj Tj.
  assert (B : forall body t, In j (body ++ [t]) ->
                forall s, In s (successors (ikind t)) -> In j body).
  { intros body t H s Hs; apply in_app_iff in H.
    destruct H as [H|[<-|[]]]; [exact H|].
    rewrite (successors_terminator _ _ Hs) in Tj; discriminate. }
  destruct R as [body t N | body t N | body t s k n1 n2 S F
                | body t c sT sF kT kF n0 n1 n2 K FT FF]; try exact Hj.
  - apply in_app_iff; left; apply (B body t Hj s).
    rewrite S; left; reflexivity.
  - apply in_app_iff; left; apply (B body t Hj sT).
    rewrite K; left; reflexivity.
Qed.

(** X9: terminator rewriting drops no computation.  Every instruction of
    the input that is not a terminator is still in the function when the
    rewriting is over: in its own block, or, when it stood before the
    terminator of a split first block, in the split block; a PHI node
    keeps its id, type and incoming values, with the split block in
    place of the first block among its incoming blocks, and every other
    instruction is kept as it is. *)
Theorem X9_instructions_kept (f : function) :
  1 < length f -> wf_input f = true -> rewritableb f = true ->
  exists st,
    flatten_core f = Ok (Some st) /\
    forall c j,
      In (c, j) (located f) -> isTerminator (ikind j) = false ->
      exists c' j',
        In (c', j') (located (fn st)) /\
        sim (fresh_bid f) j j' /\
        (isa_PHINode (ikind j) = false -> j' = j) /\
        (c' = c \/
         c = insert st /\ c' = fresh_bid f /\
         hd_error (origBB st) = Some c').
Proof.
  intros L WI RW.
  destruct (two_blocks f L) as [e [rest [-> Nr]]].
  destruct (wf_input_facts _ WI) as [W SO].
  destruct (flatten_core_shape e rest Nr W SO (rewritableb_rewritable _ RW))
    as (pro & t1 & tl1 & sv & s0 & ld & bj & sw & LE & f3 & Ep & T1 & W1 &
        Bt & Ec & W3 & B3 & Ge & Gl & Gb & NLE & _).
  exists (mkState f3 (map bid tl1) (bid e) LE ld sw sv).
  cbn [fn origBB insert]; split; [exact Ec|].
  assert (KT : forall bb j, In bb tl1 -> In j (insts bb) ->
                 isTerminator (ikind j) = false ->
                 In (bid bb, j) (located f3)).
  { intros bb j Hb Hj Tj.
    destruct (Gb bb Hb) as [bb' [G [Eb R]]].
    apply getBlock_Some in G; destruct G as [G _].
    apply In_located; exists bb'; split; [exact G|]; split; [exact Eb|].
    apply (rewritten_keeps _ _ _ _ _ _ R Hj Tj). }
  assert (KE : forall j, In j pro -> In (bid e, j) (located f3)).
  { intros j Hj; apply (getBlock_located f3 (bid e) _ _ Ge).
    apply in_app_iff; left; exact Hj. }
  assert (PH : forall new j j', sim new j j' ->
                 isa_PHINode (ikind j) = false -> j' = j).
  { intros new j j' [->|[inc [inc' [K _]]]] P; [reflexivity|].
    rewrite K in P; discriminate. }
  destruct (wf_term _ W e (or_introl eq_refl)) as [t T].
  destruct (isConditional (ikind t) || (1 <? getNumSuccessors (ikind t)))
    eqn:C.
  - assert (NI : ~ In (bid e) (map bid rest)).
    { pose proof (wf_bids _ W) as B; unfold uniq_bids in B; simpl in B.
      inversion B; auto. }
    pose proof T as T'; apply getTerminator_Some in T'.
    destruct T' as [l [El Tt]].
    assert (SS : forall s, In s (successors (ikind t)) ->
                           In s (map bid rest)).
    { intros s Hs; apply (SO (bid e) t s); [|exact Hs].
      rewrite located_cons; apply in_app_iff; left; apply in_map.
      rewrite El; apply in_app_iff; right; left; reflexivity. }
    destruct (entry_preparation_split e rest t T NI SS C)
      as [kept [moved [Ek [_ Ep']]]].
    rewrite Ep' in Ep.
    set (new := fresh_bid (e :: rest)) in *.
    set (R := replaceSuccessorsPhiUsesWith rest (ikind t) (bid e) new) in *.
    assert (X1 : kept = pro).
    { assert (X : kept ++ [mkInst (fresh_iid (e :: rest)) VoidTy (Br new)]
                  = pro ++ [t1]) by congruence.
      apply app_inj_tail in X; tauto. }
    assert (X2 : tl1 = mkBB new moved :: R) by congruence.
    assert (SR : simF new rest R) by apply replaceSuccessors_simF.
    intros c j Hj Tj; rewrite located_cons in Hj.
    apply in_app_iff in Hj; destruct Hj as [Hj|Hj].
    + apply in_map_iff in Hj; destruct Hj as [x [Ex Hx]].
      inversion Ex; subst c x; clear Ex.
      rewrite Ek in Hx; apply in_app_iff in Hx; destruct Hx as [Hx|Hx].
      * exists (bid e), j; split; [apply KE; rewrite <- X1; exact Hx|].
        split; [left; reflexivity|]; split; [reflexivity | left; reflexivity].
      * exists new, j; split.
        { apply (KT (mkBB new moved) j); [rewrite X2; left; reflexivity| |];
            assumption. }
        split; [left; reflexivity|]; split; [reflexivity|].
        right; split; [reflexivity|]; split; [reflexivity|].
        rewrite X2; reflexivity.
    + destruct (simF_located_l _ _ _ _ _ SR Hj) as [j' [Hj' Sj]].
      apply In_located in Hj'; destruct Hj' as [bb [Hb [Eb Hi]]].
      exists c, j'; split.
      { rewrite <- Eb; apply KT; [rewrite X2; right; exact Hb | exact Hi|].
        rewrite (sim_terminator _ _ _ Sj); exact Tj. }
      split; [exact Sj|]; split; [apply (PH new _ _ Sj) | left; reflexivity].
  - rewrite (entry_preparation_no_split e rest t T C) in Ep.
    assert (X1 : insts e = pro ++ [t1]).
    { assert (X : e = mkBB (bid e) (pro ++ [t1])) by congruence.
      rewrite X at 1; reflexivity. }
    assert (X2 : tl1 = rest) by congruence.
    intros c j Hj Tj; exists c, j.
    split; [|split; [left; reflexivity|]; split;
             [reflexivity | left; reflexivity]].
    rewrite located_cons in Hj.
    apply in_app_iff in Hj; destruct Hj as [Hj|Hj].
    + apply in_map_iff in Hj; destruct Hj as [x [Ex Hx]].
      inversion Ex; subst c x; clear Ex.
      rewrite X1 in Hx; apply in_app_iff in Hx.
      destruct Hx as [Hx|[<-|[]]]; [apply KE; exact Hx|].
      rewrite T1 in Tj; discriminate.
    + apply In_located in Hj; destruct Hj as [bb [Hb [<- Hi]]].
      apply KT; [rewrite X2; exact Hb | exact Hi | exact Tj].
Qed.

Lemma X9_witness :
  exists st,
    flatten_core ex_diamond = Ok (Some st) /\
    forall c j,
      In (c, j) (located ex_diamond) -> isTerminator (ikind j) = false ->
      exists c' j',
        In (c', j') (located (fn st)) /\
        sim (fresh_bid ex_diamond) j j' /\
        (isa_PHINode (ikind j) = false -> j' = j) /\
        (c' = c \/
         c = insert st /\ c' = fresh_bid ex_diamond /\
         hd_error (origBB st) = Some c').
Proof.
  apply (X9_instructions_kept ex_diamond);
    [simpl; lia | reflexivity | reflexivity].
Defined.

(** ** The cast to BranchInst *)

(** Line 262: [cast<BranchInst>] on a terminator of two successors that
    is no branch. *)
Lemma rewrite_terminator_cast LE ld sw f i bb t :
  getBlock f i = Some bb -> getTerminator bb = Some t ->
  getNumSuccessors (ikind t) = 2 -> getCondition (ikind t) = None ->
  rewrite_terminator LE ld sw f i = Crash.
Proof.
  intros G Gt N C; unfold rewrite_terminator.
  rewrite G; cbn [bind ofOption]; rewrite Gt; cbn [bind ofOption].
  rewrite N; cbn [Nat.eqb].
  destruct (getSuccessor (ikind t) 0); cbn [bind ofOption]; [|reflexivity].
  destruct (getSuccessor (ikind t) 1); cbn [bind ofOption]; [|reflexivity].
  destruct (getInst f sw) as [SW|]; cbn [bind ofOption]; [|reflexivity].
  destruct (findCaseDest (ikind SW) b); cbn [bind ofOption]; [|reflexivity].
  destruct (findCaseDest (ikind SW) b0); cbn [bind ofOption]; [|reflexivity].
  rewrite C; reflexivity.
Qed.

Lemma recalculate_cast LE ld sw sv SW L vol :
  forall bs f,
    WF f -> NoDup bs ->
    (forall b, In b bs -> b <> LE /\ In b (map bid f)) ->
    In (LE, SW) (located f) -> iid SW = sw ->
    In (LE, L) (located f) -> iid L = ld -> ikind L = Load (VInst sv) vol ->
    (forall b bb t,
       In b bs -> getBlock f b = Some bb -> getTerminator bb = Some t ->
       forall s, In s (successors (ikind t)) ->
                 exists k, findCaseDest (ikind SW) s = Some k) ->
    (exists b bb t,
       In b bs /\ getBlock f b = Some bb /\ getTerminator bb = Some t /\
       getNumSuccessors (ikind t) = 2 /\ getCondition (ikind t) = None) ->
    recalculate_switchVar LE ld sw f bs = Crash.
Proof.
  induction bs as [|i bs IH]; intros f W ND Hbs HSW Esw HL Eld KL Hres Bad.
  - destruct Bad as (b & _ & _ & [] & _).
  - apply NoDup_cons_iff in ND; destruct ND as [Ni ND'].
    destruct (Hbs i (or_introl eq_refl)) as [NiLE Hi].
    destruct (getBlock f i) as [bb|] eqn:G;
      [|apply getBlock_None in G; contradiction].
    destruct (block_shape f i bb (wf_term f W) G) as [body [t [-> [Tt Gt]]]].
    cbn [recalculate_switchVar].
    assert (D : (getNumSuccessors (ikind t) = 2 /\
                 getCondition (ikind t) = None) \/
                (getNumSuccessors (ikind t) = 2 ->
                 exists c sT sF, ikind t = CondBr c sT sF)).
    { destruct (Nat.eq_dec (getNumSuccessors (ikind t)) 2) as [N|N];
        [|right; intros H; contradiction].
      destruct (ikind t); try (left; split; [exact N | reflexivity]).
      right; eauto. }
    destruct D as [[N C]|Cnd].
    { rewrite (rewrite_terminator_cast LE ld sw f i _ t G Gt N C).
      reflexivity. }
    destruct (rewrite_terminator_step f i body t LE ld sw sv SW L vol
                W G Tt NiLE HSW Esw HL Eld KL
                (Hres i _ t (or_introl eq_refl) G Gt) Cnd)
      as [l' [Er [Rw W1]]].
    rewrite Er; cbn [bind].
    set (f1 := setBlock f i l') in *.
    assert (B1 : map bid f1 = map bid f) by apply map_bid_updBlock.
    apply IH; auto.
    + intros b Hb; destruct (Hbs b (or_intror Hb)) as [H1 H2].
      rewrite B1; auto.
    + apply located_setBlock; auto.
    + apply located_setBlock; auto.
    + intros b bb t0 Hb Gb; apply (Hres b bb t0 (or_intror Hb)).
      rewrite <- Gb; symmetry; apply getBlock_setBlock_neq.
      intros ->; contradiction.
    + destruct Bad as (b & bb & t0 & [<-|Hb] & Gb & Gt0 & N & C).
      * rewrite G in Gb; inversion Gb; subst bb.
        rewrite Gt in Gt0; inversion Gt0; subst t0.
        destruct (Cnd N) as [c [sT [sF K]]]; rewrite K in C; discriminate.
      * exists b, bb, t0; split; [exact Hb|]; split; [|auto].
        rewrite <- Gb; apply getBlock_setBlock_neq.
        intros ->; contradiction.
Qed.

Lemma simF_terminator new f f' bb t :
  simF new f f' -> In bb f -> getTerminator bb = Some t ->
  exists bb', In bb' f' /\ bid bb' = bid bb /\ getTerminator bb' = Some t.
Proof.
  intros S Hb Gt.
  destruct (Forall2_In_l _ _ _ _ S Hb) as [bb' [Hb' [Eb F]]].
  exists bb'; split; [exact Hb'|]; split; [exact Eb|].
  apply getTerminator_Some in Gt; destruct Gt as [l [El Tt]].
  rewrite El in F; apply Forall2_app_inv_l in F.
  destruct F as (l1 & l2 & _ & F2 & E').
  inversion F2 as [|x t' y z St F3]; subst; inversion F3; subst.
  destruct (sim_facts new t t' St) as (_ & _ & _ & _ & _ & _ & Eq & _).
  rewrite (Eq Tt) in E'.
  apply getTerminator_Some; exists l1; auto.
Qed.

(** The block that holds a terminator when the first block is prepared:
    its own block, or the split block. *)
Lemma entry_preparation_terminator e rest pro t1 tl1 bb t :
  WF (e :: rest) -> successors_ok (e :: rest) ->
  entry_preparation (e :: rest) (map bid (e :: rest)) =
    Ok (mkBB (bid e) (pro ++ [t1]) :: tl1, map bid tl1, bid e) ->
  In bb (e :: rest) -> getTerminator bb = Some t ->
  getNumSuccessors (ikind t) = 2 ->
  exists bb', In bb' tl1 /\ getTerminator bb' = Some t.
Proof.
  intros W SO Ep Hb Gt N.
  destruct (wf_term _ W e (or_introl eq_refl)) as [te T].
  destruct (isConditional (ikind te) || (1 <? getNumSuccessors (ikind te)))
    eqn:C.
  - assert (NI : ~ In (bid e) (map bid rest)).
    { pose proof (wf_bids _ W) as B; unfold uniq_bids in B; simpl in B.
      inversion B; auto. }
    pose proof T as T'; apply getTerminator_Some in T'.
    destruct T' as [l [El Tt]].
    assert (SS : forall s, In s (successors (ikind te)) ->
                           In s (map bid rest)).
    { intros s Hs; apply (SO (bid e) te s); [|exact Hs].
      rewrite located_cons; apply in_app_iff; left; apply in_map.
      rewrite El; apply in_app_iff; right; left; reflexivity. }
    destruct (entry_preparation_split e rest te T NI SS C)
      as [kept [moved [Ek [Sh Ep']]]].
    rewrite Ep' in Ep.
    set (new := fresh_bid (e :: rest)) in *.
    set (R := replaceSuccessorsPhiUsesWith rest (ikind te) (bid e) new) in *.
    assert (X : tl1 = mkBB new moved :: R) by congruence.
    destruct Hb as [<-|Hb].
    + rewrite T in Gt; inversion Gt; subst te.
      exists (mkBB new moved); split; [rewrite X; left; reflexivity|].
      destruct Sh as [[_ [-> _]]|[_ [x ->]]].
      * apply (getTerminator_app new [] t Tt).
      * apply (getTerminator_app new [x] t Tt).
    + destruct (simF_terminator new rest R bb t
                  (replaceSuccessors_simF _ _ _ _) Hb Gt)
        as [bb' [Hb' [_ Gt']]].
      exists bb'; split; [rewrite X; right; exact Hb' | exact Gt'].
  - rewrite (entry_preparation_no_split e rest te T C) in Ep.
    assert (X : tl1 = rest) by congruence.
    destruct Hb as [<-|Hb].
    + rewrite T in Gt; inversion Gt; subst te.
      rewrite N in C; apply orb_false_iff in C; destruct C as [_ C].
      discriminate.
    + exists bb; split; [rewrite X; exact Hb | exact Gt].
Qed.

(** X10: the rewriting of a terminator of two successors casts it to a
    branch (line 262).  On an input that meets the conditions of the IR,
    without invoke and with at least two blocks, a block that ends in a
    terminator of two successors other than a conditional branch (an
    indirect branch of two destinations; a switch of one case, where none
    has lowered it) makes [flatten] fail at this cast, whatever block it
    is, the first included: [flatten] returns nothing. *)
Theorem X10_cast_failure (fuel : nat) (f : function) (bb : basic_block)
    (t : instruction) :
  1 < length f -> wf_input f = true -> ~ has_invoke f ->
  In bb f -> getTerminator bb = Some t ->
  getNumSuccessors (ikind t) = 2 -> isConditional (ikind t) = false ->
  flatten_core f = Crash /\ flatten fuel f = Crash.
Proof.
  intros L WI NV Hb Gt N C.
  destruct (two_blocks f L) as [e [rest [-> Nr]]].
  destruct (wf_input_facts _ WI) as [W SO].
  assert (NV' : forall bb t, In bb (e :: rest) -> getTerminator bb = Some t ->
                             isa_InvokeInst (ikind t) = false).
  { intros b0 t0 H0 G0; destruct (isa_InvokeInst (ikind t0)) eqn:I; auto.
    exfalso; apply NV; exists b0, t0; auto. }
  destruct (flatten_core_prefix (fun _ => True) e rest Nr W SO NV')
    as (pro & t1 & tl1 & sv & s0 & ld & bj & sw & LE & Ep & T1 & W1 & Bt &
        Efc & W2 & Cnd & NLE & _); [auto|].
  destruct (entry_preparation_terminator e rest pro t1 tl1 bb t W SO Ep Hb Gt N)
    as [bb' [Hb' Gt']].
  set (SW := SwitchOn sw ld LE (case_table 0 (map bid tl1))) in *.
  set (f2 := mkBB (bid e)
               (pro ++ [AllocaSV sv; StoreZero s0 sv; JumpTo bj LE])
             :: mkBB LE [LoadSV ld sv; SW] :: rev tl1) in *.
  assert (Gtl : forall b, In b tl1 -> getBlock f2 (bid b) = Some b).
  { intros b H; apply (getBlock_In f2 b (wf_bids _ W2)).
    right; right; apply in_rev in H; exact H. }
  assert (K : recalculate_switchVar LE ld sw f2 (map bid tl1) = Crash).
  { apply (recalculate_cast LE ld sw sv SW (LoadSV ld sv) false); auto.
    - pose proof (wf_bids _ W1) as B; inversion B; auto.
    - intros b H; split; [intros ->; apply NLE; right; exact H|].
      unfold f2; simpl; right; right; rewrite map_rev; apply in_rev.
      rewrite rev_involutive; exact H.
    - unfold f2; rewrite !located_cons; simpl.
      apply in_app_iff; right; right; left; reflexivity.
    - unfold f2; rewrite !located_cons; simpl.
      apply in_app_iff; right; left; reflexivity.
    - intros b b1 t0 H G G0.
      apply in_map_iff in H; destruct H as [b2 [E2 H2]].
      rewrite <- E2, (Gtl b2 H2) in G; inversion G; subst b2.
      apply (Cnd b1 t0 H2 G0).
    - exists (bid bb'), bb', t; split; [apply in_map; exact Hb'|].
      split; [apply Gtl; exact Hb'|]; split; [exact Gt'|].
      split; [exact N|].
      destruct (ikind t); try reflexivity; discriminate. }
  assert (K' : flatten_core (e :: rest) = Crash)
    by (rewrite Efc, K; reflexivity).
  split; [exact K'|]; unfold flatten; rewrite K'; reflexivity.
Qed.

Lemma X10_witness :
  flatten_core ex_indirect = Crash /\ flatten 3 ex_indirect = Crash.
Proof.
  apply (X10_cast_failure 3 ex_indirect
           (mkBB 1 [mkInst 11 Int32Ty (Op []);
                    mkInst 12 VoidTy (IndirectBr (VInst 11) [2; 3])])
           (mkInst 12 VoidTy (IndirectBr (VInst 11) [2; 3])));
    [simpl; lia | reflexivity | | simpl; auto | reflexivity | reflexivity
    | reflexivity].
  intros (b & t & Hb & Ht & Hi); simpl in Hb.
  repeat (destruct Hb as [<-|Hb];
          [vm_compute in Ht; inversion Ht; subst t; discriminate|]).
  exact Hb.
Defined.
